(** * gumv8value: marshalling between V8 values and native Gum types

    A shallow embedding of [bindings/gumjs/gumv8value.cpp]: the argument
    parser with its transactional scope, the numeric and pointer
    conversions, the byte-buffer coercion, the native resource registry,
    the CPU-context snapshot protocol, error message marshalling and the
    page-protection strings.

    Conventions.
    - A [gint64]/[guint64]/[gpointer] is a [Z]; wrap-around is written out
      with [wrap_uint64] and [wrap_int64].  Pointers are 64 bits wide.
    - A [const gchar *] is a [string] read up to its first NUL ([c_str]).
    - A JavaScript string is represented by its UTF-8 encoding, which is
      what [String::Utf8Value] hands to the native side.
    - A JavaScript number is an IEEE-754 binary64 value, [spec_float]. *)

From Stdlib Require Import ZArith NArith List String Ascii Lia Bool.
From Stdlib Require Import Floats.SpecFloat.
From stdpp Require Import gmap strings list.

Open Scope Z_scope.

(** ** Outcomes *)

(** V8's [Maybe<T>] and [MaybeLocal<T>]: a value, or nothing because the
    engine has thrown (the exception is pending in the isolate). *)
Inductive Maybe (A : Type) : Type :=
| Just (a : A)
| Nothing (exception : string).
Arguments Just {A} a.
Arguments Nothing {A} exception.

(** How a conversion of this file completes: it returns [TRUE] (or a
    non-NULL result) with the converted value; or an exception is pending
    in the isolate and it returns [FALSE] (or NULL); or it reaches
    [g_assert_not_reached] or an operation the C++ standard leaves
    undefined, and does not return. *)
Inductive Completion (A : Type) : Type :=
| Done (a : A)
| Thrown (message : string)
| Undefined_behaviour.
Arguments Done {A} a.
Arguments Thrown {A} message.
Arguments Undefined_behaviour {A}.

Definition bind {A B : Type} (c : Completion A) (k : A -> Completion B)
  : Completion B :=
  match c with
  | Done a => k a
  | Thrown m => Thrown m
  | Undefined_behaviour => Undefined_behaviour
  end.

Notation "'let*' x ':=' c 'in' k" := (bind c (fun x => k))
  (at level 10, x name, c at level 100, k at level 200).

(** The failure kinds of the error taxonomy, and the literal messages the
    code throws for each of them. *)
Inductive ErrorKind : Type :=
| MissingArgument
| ExpectedType
| ExpectedInteger
| ExpectedPointer
| InvalidNumericString
| UnsupportedDataValue
| InvalidPattern.

Definition error_kind (message : string) : option ErrorKind :=
  if String.eqb message "missing argument" then Some MissingArgument
  else if String.eqb message "expected an integer" then Some ExpectedInteger
  else if String.eqb message "expected an unsigned integer" then Some ExpectedInteger
  else if String.eqb message "expected a pointer" then Some ExpectedPointer
  else if String.eqb message "invalid hexadecimal string" then Some InvalidNumericString
  else if String.eqb message "invalid decimal string" then Some InvalidNumericString
  else if String.eqb message "unsupported data value" then Some UnsupportedDataValue
  else if String.eqb message "invalid match pattern" then Some InvalidPattern
  else if String.eqb message "expected a number" then Some ExpectedType
  else if String.eqb message "expected a boolean" then Some ExpectedType
  else if String.eqb message "expected a string" then Some ExpectedType
  else if String.eqb message "expected an object" then Some ExpectedType
  else if String.eqb message "expected an array" then Some ExpectedType
  else if String.eqb message "expected a function" then Some ExpectedType
  else if String.eqb message "expected a callback value" then Some ExpectedType
  else if String.eqb message "expected an external pointer" then Some ExpectedType
  else if String.eqb message "expected an object containing callbacks" then Some ExpectedType
  else if String.eqb message "expected a CpuContext object" then Some ExpectedType
  else if String.eqb message "expected a range object" then Some ExpectedType
  else if String.eqb message "expected a string specifying memory protection" then Some ExpectedType
  else None.

(** ** Machine integers *)

Definition wrap_uint64 (z : Z) : Z := z mod 2 ^ 64.

Definition wrap_int64 (z : Z) : Z := (z + 2 ^ 63) mod 2 ^ 64 - 2 ^ 63.

Definition wrap_uint8 (z : Z) : Z := z mod 2 ^ 8.

Definition G_MAXUINT64 : Z := 2 ^ 64 - 1.
Definition G_MAXINT64 : Z := 2 ^ 63 - 1.
Definition G_MININT64 : Z := - 2 ^ 63.
Definition G_MAXINT : Z := 2 ^ 31 - 1.
Definition G_MININT : Z := - 2 ^ 31.
Definition G_MAXUINT : Z := 2 ^ 32 - 1.
Definition G_MAXSIZE : Z := G_MAXUINT64.
Definition G_MAXSSIZE : Z := G_MAXINT64.
Definition G_MINSSIZE : Z := G_MININT64.

(** ** C strings *)

Definition NUL : ascii := Ascii.zero.

(** The characters a [const gchar *] denotes: those before the first NUL. *)
Fixpoint c_str (s : string) : string :=
  match s with
  | EmptyString => EmptyString
  | String c rest => if Ascii.eqb c NUL then EmptyString else String c (c_str rest)
  end.

Definition code (c : ascii) : Z := Z.of_N (N_of_ascii c).

Definition char_of_code (z : Z) : ascii := ascii_of_N (Z.to_N z).

(** ** JavaScript values *)

(** What kind of object a value is: an ordinary object, one of the exotic
    built-ins the code tests for, or an instance of one of the function
    templates of [GumV8Core] together with its internal fields. *)
Inductive ObjectKind : Type :=
| Ordinary
| ArrayExotic
| FunctionKind
| ArrayBufferKind (data : list Z)
| ArrayBufferViewKind (data : list Z)
| NativePointerInstance (field0 : Z)
| Int64Instance (field0 : Z)
| UInt64Instance (field0 : Z)
| CpuContextInstance (field0 : Z) (field1 : bool)
| MatchPatternInstance (field0 : positive).

(** A property read ([Object::Get]) yields a value or throws, so each
    property is stored with the outcome of reading it.  [indexed] holds the
    elements of an array ([Array::Length] is its length; a hole is an entry
    that reads as [Undefined]); [named] holds the own named properties. *)
#[warning="-register-all"]
Inductive Value : Type :=
| Undefined
| Null
| Boolean (b : bool)
| Number (d : spec_float)
| BigInt (z : Z)
| Str (s : string)
| Symbol
| External (p : Z)
| Object (kind : ObjectKind) (indexed : list (Maybe Value))
         (named : list (string * Maybe Value)).

Definition IsUndefined (v : Value) : bool :=
  match v with Undefined => true | _ => false end.
Definition IsNull (v : Value) : bool :=
  match v with Null => true | _ => false end.
Definition IsBoolean (v : Value) : bool :=
  match v with Boolean _ => true | _ => false end.
Definition IsNumber (v : Value) : bool :=
  match v with Number _ => true | _ => false end.
Definition IsBigInt (v : Value) : bool :=
  match v with BigInt _ => true | _ => false end.
Definition IsString (v : Value) : bool :=
  match v with Str _ => true | _ => false end.
Definition IsExternal (v : Value) : bool :=
  match v with External _ => true | _ => false end.
Definition IsObject (v : Value) : bool :=
  match v with Object _ _ _ => true | _ => false end.
Definition IsArray (v : Value) : bool :=
  match v with Object ArrayExotic _ _ => true | _ => false end.
Definition IsFunction (v : Value) : bool :=
  match v with Object FunctionKind _ _ => true | _ => false end.
Definition IsArrayBuffer (v : Value) : bool :=
  match v with Object (ArrayBufferKind _) _ _ => true | _ => false end.
Definition IsArrayBufferView (v : Value) : bool :=
  match v with Object (ArrayBufferViewKind _) _ _ => true | _ => false end.

(** [String::Utf8Value] followed by [operator*]: the C string of a value
    already known to be a string. *)
Definition Utf8Value (v : Value) : string :=
  match v with
  | Str s => c_str s
  | _ => EmptyString
  end.

(** [_gum_v8_string_new_ascii] *)
Definition _gum_v8_string_new_ascii (str : string) : Value := Str (c_str str).

Fixpoint lookup_property (key : string) (named : list (string * Maybe Value))
  : option (Maybe Value) :=
  match named with
  | [] => None
  | (k, r) :: rest => if String.eqb k key then Some r else lookup_property key rest
  end.

(** [Object::Get (context, key)]: an absent property reads as [Undefined]. *)
Definition Get (named : list (string * Maybe Value)) (key : string) : Maybe Value :=
  match lookup_property key named with
  | Some r => r
  | None => Just Undefined
  end.

(** [Object::Has (context, key)] *)
Definition Has (named : list (string * Maybe Value)) (key : string) : bool :=
  match lookup_property key named with
  | Some _ => true
  | None => false
  end.

(** ** Page protection *)

(** Modelled from the spec: the flag constants of [GumPageProtection]
    ([gummemory.h] is not among the sources); read, write and execute are
    three distinct bits and no access is the empty set. *)
Definition GUM_PAGE_NO_ACCESS : Z := 0.
Definition GUM_PAGE_READ : Z := 1.
Definition GUM_PAGE_WRITE : Z := 2.
Definition GUM_PAGE_EXECUTE : Z := 4.

(** [_gum_v8_page_protection_new] *)
Definition _gum_v8_page_protection_new (prot : Z) : Value :=
  let prot_str0 := if Z.land prot GUM_PAGE_READ =? 0 then "-"%char else "r"%char in
  let prot_str1 := if Z.land prot GUM_PAGE_WRITE =? 0 then "-"%char else "w"%char in
  let prot_str2 := if Z.land prot GUM_PAGE_EXECUTE =? 0 then "-"%char else "x"%char in
  _gum_v8_string_new_ascii
    (String prot_str0 (String prot_str1 (String prot_str2 EmptyString))).

(** The loop of [_gum_v8_page_protection_get] over the characters of the
    string, [prot] being the flags accumulated so far. *)
Fixpoint page_protection_scan (ch : string) (prot : Z) : Completion Z :=
  match ch with
  | EmptyString => Done prot
  | String c rest =>
      match c with
      | "r"%char => page_protection_scan rest (Z.lor prot GUM_PAGE_READ)
      | "w"%char => page_protection_scan rest (Z.lor prot GUM_PAGE_WRITE)
      | "x"%char => page_protection_scan rest (Z.lor prot GUM_PAGE_EXECUTE)
      | "-"%char => page_protection_scan rest prot
      | _ => Thrown "invalid character in memory protection specifier string"
      end
  end.

(** [_gum_v8_page_protection_get] *)
Definition _gum_v8_page_protection_get (prot_val : Value) : Completion Z :=
  if negb (IsString prot_val) then
    Thrown "expected a string specifying memory protection"
  else
    page_protection_scan (Utf8Value prot_val) GUM_PAGE_NO_ACCESS.

(** The textual form of a page protection: three characters, read, write
    and execute in that order, each its letter or a dash. *)
Definition page_protection_form (s : string) : bool :=
  match s with
  | String a (String b (String c EmptyString)) =>
      (Ascii.eqb a "r" || Ascii.eqb a "-")
      && (Ascii.eqb b "w" || Ascii.eqb b "-")
      && (Ascii.eqb c "x" || Ascii.eqb c "-")
  | _ => false
  end.

Definition protection_char (c : ascii) : bool :=
  Ascii.eqb c "r" || Ascii.eqb c "w" || Ascii.eqb c "x" || Ascii.eqb c "-".

Fixpoint string_forallb (p : ascii -> bool) (s : string) : bool :=
  match s with
  | EmptyString => true
  | String c rest => p c && string_forallb p rest
  end.

(** ** GLib string to number conversion

    [g_ascii_strtoull] and [g_ascii_strtoll] are GLib's; they behave as
    [strtoull] and [strtoll] do in the C locale.  What follows is
    [g_parse_long_long] of [gstrfuncs.c], on which both are built. *)

Definition ISSPACE (c : ascii) : bool :=
  Ascii.eqb c " " || Ascii.eqb c "012" || Ascii.eqb c "013" || Ascii.eqb c "009"
  || Ascii.eqb c "010" || Ascii.eqb c "011".

Definition ISUPPER (c : ascii) : bool := (65 <=? code c) && (code c <=? 90).
Definition ISLOWER (c : ascii) : bool := (97 <=? code c) && (code c <=? 122).
Definition ISALPHA (c : ascii) : bool := ISUPPER c || ISLOWER c.
Definition TOUPPER (c : ascii) : Z := if ISLOWER c then code c - 97 + 65 else code c.

Fixpoint skip_space (s : string) : string :=
  match s with
  | EmptyString => EmptyString
  | String c rest => if ISSPACE c then skip_space rest else s
  end.

(** The value of a character as a digit, whatever the base. *)
Definition digit_value (c : ascii) : option Z :=
  if (48 <=? code c) && (code c <=? 57) then Some (code c - 48)
  else if ISALPHA c then Some (TOUPPER c - 65 + 10)
  else None.

(** The digit loop: the unread text, the value accumulated and the
    overflow flag when the loop stops. *)
Fixpoint scan_digits (base : Z) (s : string) (ui64 : Z) (overflow : bool)
  : string * Z * bool :=
  match s with
  | EmptyString => (s, ui64, overflow)
  | String c rest =>
      match digit_value c with
      | None => (s, ui64, overflow)
      | Some d =>
          if d >=? base then (s, ui64, overflow)
          else if (ui64 >? G_MAXUINT64 / base)
                  || ((ui64 =? G_MAXUINT64 / base) && (d >? G_MAXUINT64 mod base))
          then scan_digits base rest ui64 true
          else scan_digits base rest (ui64 * base + d) overflow
      end
  end.

Record ParsedNumber : Type := mkParsed {
  parsed_value : Z;        (* the magnitude read *)
  parsed_end : nat;        (* [*endptr - nptr] *)
  parsed_negative : bool;
  parsed_overflow : bool   (* [errno] has been set to [ERANGE] *)
}.

Definition offset_in (nptr s : string) : nat :=
  (String.length nptr - String.length s)%nat.

(** "Check for a sign": the text after the sign, if there is one. *)
Definition after_sign (s : string) : string :=
  match s with
  | String c rest => if Ascii.eqb c "-" || Ascii.eqb c "+" then rest else s
  | EmptyString => EmptyString
  end.

(** "Recognize number prefix and if BASE is zero, figure it out
    ourselves": the text to read digits from, the base, and whether [0x] or
    [0X] was passed over. *)
Definition number_prefix (base : Z) (s : string) : string * Z * bool :=
  match s with
  | String "0" (String x rest) =>
      if ((base =? 0) || (base =? 16)) && (Ascii.eqb x "x" || Ascii.eqb x "X")
      then (rest, 16, true)
      else if base =? 0 then (s, 8, false) else (s, base, false)
  | String "0" EmptyString => if base =? 0 then (s, 8, false) else (s, base, false)
  | _ => if base =? 0 then (s, 10, false) else (s, base, false)
  end.

(** [g_parse_long_long] *)
Definition g_parse_long_long (nptr : string) (base : Z) : ParsedNumber :=
  if (base =? 1) || (base >? 36) then mkParsed 0 0 false false
  else
    match skip_space nptr with
    | EmptyString => mkParsed 0 0 false false
    | String c0 _ =>
        let negative := Ascii.eqb c0 "-" in
        let '(save, base, prefixed) := number_prefix base (after_sign (skip_space nptr)) in
        let '(s, ui64, overflow) := scan_digits base save 0 false in
        if (String.length s =? String.length save)%nat then
          (* noconv: [0x] followed by no hexadecimal digit leaves [*endptr]
             on the x; otherwise nothing was converted *)
          if prefixed then mkParsed 0 (offset_in nptr save - 1) negative false
          else mkParsed 0 0 negative false
        else if overflow then mkParsed G_MAXUINT64 (offset_in nptr s) negative true
        else mkParsed ui64 (offset_in nptr s) negative false
    end.

(** [g_ascii_strtoull]: the value and [*endptr - nptr].  GLib hands the
    text to [strtoull_l] in the C locale where the platform has it, and
    negates what [g_parse_long_long] has read where it has not.  The two
    agree but for a negative number beyond 64 bits, which the second reads
    as 1; the model follows the first, and GLib's documentation: a number
    that overflows gives [G_MAXUINT64] whatever its sign, and a negative
    number that does not is negated modulo 2^64. *)
Definition g_ascii_strtoull (nptr : string) (base : Z) : Z * nat :=
  let r := g_parse_long_long nptr base in
  (if parsed_overflow r then G_MAXUINT64
   else if parsed_negative r then wrap_uint64 (- parsed_value r)
   else parsed_value r,
   parsed_end r).

(** [g_ascii_strtoll] *)
Definition g_ascii_strtoll (nptr : string) (base : Z) : Z * nat :=
  let r := g_parse_long_long nptr base in
  let result := parsed_value r in
  (if parsed_negative r && (result >? 2 ^ 63) then G_MININT64
   else if negb (parsed_negative r) && (result >? G_MAXINT64) then G_MAXINT64
   else if parsed_negative r then - result
   else result,
   parsed_end r).

(** [g_str_has_prefix] *)
Definition g_str_has_prefix (str prefix : string) : bool := String.prefix prefix str.

(** [nptr + n] *)
Fixpoint advance (n : nat) (s : string) : string :=
  match n, s with
  | O, _ => s
  | S n', String _ rest => advance n' rest
  | S _, EmptyString => EmptyString
  end.

(** ** Numbers

    A [double] is a [spec_float]; a finite one is [n / q] for the integers
    given by [rational], [q] being a power of two. *)

Definition rational (d : spec_float) : option (Z * Z) :=
  match d with
  | S754_zero _ => Some (0, 1)
  | S754_finite s m e =>
      let n := if s then Z.neg m else Z.pos m in
      Some (if 0 <=? e then (n * 2 ^ e, 1) else (n, 2 ^ (- e)))
  | _ => None
  end.

(** [d < k], [d >= k] and [d <= k] for an integer constant [k] that a
    double holds exactly; all three are false on NaN. *)
Definition double_ltb (d : spec_float) (k : Z) : bool :=
  match d with
  | S754_nan => false
  | S754_infinity s => s
  | _ => match rational d with Some (n, q) => n <? k * q | None => false end
  end.

Definition double_geb (d : spec_float) (k : Z) : bool :=
  match d with
  | S754_nan => false
  | S754_infinity s => negb s
  | _ => match rational d with Some (n, q) => n >=? k * q | None => false end
  end.

Definition double_leb (d : spec_float) (k : Z) : bool :=
  match d with
  | S754_nan => false
  | S754_infinity s => s
  | _ => match rational d with Some (n, q) => n <=? k * q | None => false end
  end.

(** The integer a finite double truncates to (rounding toward zero). *)
Definition truncate (d : spec_float) : option Z :=
  match rational d with
  | Some (n, q) => Some (Z.quot n q)
  | None => None
  end.

(** The C++ conversions [(gint64) d] and [(guint64) d]: defined only when
    the truncated value is representable in the destination type. *)
Definition double_to_int64 (d : spec_float) : Completion Z :=
  match truncate d with
  | Some z => if (G_MININT64 <=? z) && (z <=? G_MAXINT64) then Done z
              else Undefined_behaviour
  | None => Undefined_behaviour
  end.

Definition double_to_uint64 (d : spec_float) : Completion Z :=
  match truncate d with
  | Some z => if (0 <=? z) && (z <=? G_MAXUINT64) then Done z
              else Undefined_behaviour
  | None => Undefined_behaviour
  end.

(** [Value::IntegerValue] on a number (V8's [NumberToInt64]): NaN gives 0,
    values beyond the range of [int64_t] saturate. *)
Definition IntegerValue (d : spec_float) : Z :=
  match d with
  | S754_nan => 0
  | _ =>
      if double_geb d (2 ^ 63) then G_MAXINT64
      else if double_leb d G_MININT64 then G_MININT64
      else match truncate d with Some z => z | None => 0 end
  end.

(** ECMAScript's ToUint32 on a number: NaN, zeros and infinities give 0,
    any other number is truncated and reduced modulo 2^32. *)
Definition ToUint32 (d : spec_float) : Z :=
  match truncate d with
  | Some z => z mod 2 ^ 32
  | None => 0
  end.

(** [BigInt::Int64Value (&lossless)] and [BigInt::Uint64Value (&lossless)] *)
Definition Int64Value (z : Z) : Z * bool :=
  (wrap_int64 z, (G_MININT64 <=? z) && (z <=? G_MAXINT64)).

Definition Uint64Value (z : Z) : Z * bool :=
  (wrap_uint64 z, (0 <=? z) && (z <=? G_MAXUINT64)).

(** [_gum_v8_int64_get_value], [_gum_v8_uint64_get_value]: internal field 0
    of a boxed integer is a [BigInt]. *)
Definition _gum_v8_int64_get_value (field0 : Z) : Z := fst (Int64Value field0).
Definition _gum_v8_uint64_get_value (field0 : Z) : Z := fst (Uint64Value field0).

(** The macro [GUMJS_NATIVE_POINTER_VALUE] is declared in [gumv8core.h],
    which is not among the sources; it reads back the [BigInt] that
    [_gum_v8_native_pointer_new] stores in internal field 0. *)
Definition GUMJS_NATIVE_POINTER_VALUE (field0 : Z) : Z := fst (Uint64Value field0).

(** [_gum_v8_int64_new], [_gum_v8_uint64_new], [_gum_v8_native_pointer_new]:
    a fresh clone of the template object with internal field 0 set. *)
Definition _gum_v8_int64_new (value : Z) : Value := Object (Int64Instance value) [] [].
Definition _gum_v8_uint64_new (value : Z) : Value := Object (UInt64Instance value) [] [].
Definition _gum_v8_native_pointer_new (address : Z) : Value :=
  Object (NativePointerInstance address) [] [].

(** [_gum_v8_int_get] *)
Definition _gum_v8_int_get (value : Value) : Completion Z :=
  match value with
  | Number v =>
      if double_geb v G_MININT && double_leb v G_MAXINT then
        match truncate v with Some i => Done i | None => Undefined_behaviour end
      else Thrown "expected an integer"
  | BigInt z =>
      let '(v, lossless) := Int64Value z in
      if lossless && (v >=? G_MININT) && (v <=? G_MAXINT) then Done v
      else Thrown "expected an integer"
  | _ => Thrown "expected an integer"
  end.

(** [_gum_v8_uint_get] *)
Definition _gum_v8_uint_get (value : Value) : Completion Z :=
  match value with
  | Number v =>
      if double_geb v 0 && double_leb v G_MAXUINT then
        match truncate v with Some u => Done u | None => Undefined_behaviour end
      else Thrown "expected an unsigned integer"
  | BigInt z =>
      let '(v, lossless) := Uint64Value z in
      if lossless && (v <=? G_MAXUINT) then Done v
      else Thrown "expected an unsigned integer"
  | _ => Thrown "expected an unsigned integer"
  end.

(** [_gum_v8_int64_get] *)
Definition _gum_v8_int64_get (value : Value) : Completion Z :=
  match value with
  | Number d => Done (IntegerValue d)
  | BigInt z =>
      let '(i, lossless) := Int64Value z in
      if lossless then Done i else Thrown "expected an integer"
  | Object (Int64Instance field0) _ _ => Done (_gum_v8_int64_get_value field0)
  | _ => Thrown "expected an integer"
  end.

(** [_gum_v8_int64_parse] *)
Definition _gum_v8_int64_parse (value : Value) : Completion Z :=
  if IsString value then
    let value_as_string := Utf8Value value in
    if g_str_has_prefix value_as_string "0x" then
      let '(i, end_) := g_ascii_strtoll (advance 2 value_as_string) 16 in
      if (end_ =? 0)%nat then Thrown "invalid hexadecimal string" else Done i
    else
      let '(i, end_) := g_ascii_strtoll value_as_string 10 in
      if (end_ =? 0)%nat then Thrown "invalid hexadecimal string" else Done i
  else _gum_v8_int64_get value.

(** [_gum_v8_uint64_get] *)
Definition _gum_v8_uint64_get (value : Value) : Completion Z :=
  match value with
  | Number v =>
      if double_geb v 0 then double_to_uint64 v
      else Thrown "expected an unsigned integer"
  | BigInt z =>
      let '(u, lossless) := Uint64Value z in
      if lossless then Done u else Thrown "expected an unsigned integer"
  | Object (UInt64Instance field0) _ _ => Done (_gum_v8_uint64_get_value field0)
  | _ => Thrown "expected an unsigned integer"
  end.

(** [_gum_v8_uint64_parse] *)
Definition _gum_v8_uint64_parse (value : Value) : Completion Z :=
  if IsString value then
    let value_as_string := Utf8Value value in
    if g_str_has_prefix value_as_string "0x" then
      let '(u, end_) := g_ascii_strtoull (advance 2 value_as_string) 16 in
      if (end_ =? 0)%nat then Thrown "invalid hexadecimal string" else Done u
    else
      let '(u, end_) := g_ascii_strtoull value_as_string 10 in
      if (end_ =? 0)%nat then Thrown "invalid hexadecimal string" else Done u
  else _gum_v8_uint64_get value.

(** [_gum_v8_size_get] *)
Definition _gum_v8_size_get (value : Value) : Completion Z :=
  match value with
  | Number v =>
      if double_geb v 0 then double_to_uint64 v
      else Thrown "expected an unsigned integer"
  | BigInt z =>
      let '(v, lossless) := Uint64Value z in
      if lossless && (v <=? G_MAXSIZE) then Done v
      else Thrown "expected an unsigned integer"
  | Object (UInt64Instance field0) _ _ => Done (_gum_v8_uint64_get_value field0)
  | Object (Int64Instance field0) _ _ =>
      let int64_value := _gum_v8_int64_get_value field0 in
      if int64_value >=? 0 then Done (wrap_uint64 int64_value)
      else Thrown "expected an unsigned integer"
  | _ => Thrown "expected an unsigned integer"
  end.

(** [_gum_v8_ssize_get] *)
Definition _gum_v8_ssize_get (value : Value) : Completion Z :=
  match value with
  | Number d => Done (wrap_int64 (wrap_uint64 (IntegerValue d)))
  | BigInt z =>
      let '(v, lossless) := Int64Value z in
      if lossless && (v >=? G_MINSSIZE) && (v <=? G_MAXSSIZE) then Done v
      else Thrown "expected an integer"
  | Object (Int64Instance field0) _ _ => Done (_gum_v8_int64_get_value field0)
  | Object (UInt64Instance field0) _ _ =>
      Done (wrap_int64 (_gum_v8_uint64_get_value field0))
  | _ => Thrown "expected an integer"
  end.

(** [FunctionTemplate::HasInstance] for [core->native_pointer] *)
Definition is_native_pointer (v : Value) : option Z :=
  match v with
  | Object (NativePointerInstance field0) _ _ => Some field0
  | _ => None
  end.

(** [Value::ToObject]: fails on [undefined] and [null]; the wrapper object
    of any other primitive has no property of its own. *)
Definition ToObject (v : Value) : option (list (string * Maybe Value)) :=
  match v with
  | Undefined | Null => None
  | Object _ _ named => Some named
  | _ => Some []
  end.

(** [_gum_v8_native_pointer_get] *)
Definition _gum_v8_native_pointer_get (value : Value) : Completion Z :=
  match is_native_pointer value with
  | Some field0 => Done (GUMJS_NATIVE_POINTER_VALUE field0)
  | None =>
      match ToObject value with
      | Some obj =>
          if Has obj "handle" then
            match Get obj "handle" with
            | Just handle =>
                match is_native_pointer handle with
                | Some field0 => Done (GUMJS_NATIVE_POINTER_VALUE field0)
                | None => Thrown "expected a pointer"
                end
            | Nothing _ => Undefined_behaviour   (* [ToLocalChecked] on an empty handle *)
            end
          else Thrown "expected a pointer"
      | None => Thrown "expected a pointer"
      end
  end.

(** [_gum_v8_native_pointer_parse] *)
Definition _gum_v8_native_pointer_parse (value : Value) : Completion Z :=
  match value with
  | Str _ =>
      let ptr_as_string := Utf8Value value in
      if g_str_has_prefix ptr_as_string "0x" then
        let '(ptr, endptr) := g_ascii_strtoull (advance 2 ptr_as_string) 16 in
        if (endptr =? 0)%nat then Thrown "invalid hexadecimal string" else Done ptr
      else
        let '(ptr, endptr) := g_ascii_strtoull ptr_as_string 10 in
        if (endptr =? 0)%nat then Thrown "invalid decimal string" else Done ptr
  | Number number =>
      if double_ltb number 0 then
        (* the union reads the bits of the [gint64] back as a pointer *)
        let* i := double_to_int64 number in Done (wrap_uint64 i)
      else double_to_uint64 number
  | BigInt z => Done (fst (Uint64Value z))
  | Object (UInt64Instance field0) _ _ => Done (_gum_v8_uint64_get_value field0)
  | Object (Int64Instance field0) _ _ =>
      Done (wrap_uint64 (_gum_v8_int64_get_value field0))
  | _ => _gum_v8_native_pointer_get value
  end.

(** ** Memory ranges and CPU contexts *)

Record GumMemoryRange : Type := mkRange {
  base_address : Z;
  size : Z
}.

(** [_gum_v8_memory_range_get] *)
Definition _gum_v8_memory_range_get (value : Value) : Completion GumMemoryRange :=
  match value with
  | Object _ _ object =>
      match Get object "base" with
      | Nothing e => Thrown e
      | Just base_value =>
          let* base := _gum_v8_native_pointer_get base_value in
          match Get object "size" with
          | Nothing e => Thrown e
          | Just (Number d) => Done (mkRange base (ToUint32 d))
          | Just _ => Thrown "range object has an invalid or missing size property"
          end
      end
  | _ => Thrown "expected a range object"
  end.

(** The loop of [_gum_v8_memory_ranges_get] over the elements of an array,
    [ranges] being the array built so far. *)
Fixpoint memory_ranges_scan (range_values : list (Maybe Value))
    (ranges : list GumMemoryRange) : Completion (list GumMemoryRange) :=
  match range_values with
  | [] => Done ranges
  | Nothing e :: _ => Thrown e
  | Just range_value :: rest =>
      let* range := _gum_v8_memory_range_get range_value in
      memory_ranges_scan rest (ranges ++ [range])
  end.

(** [_gum_v8_memory_ranges_get]: the contents of the [GArray] it returns;
    the array it was filling is freed before a failure is reported. *)
Definition _gum_v8_memory_ranges_get (value : Value) : Completion (list GumMemoryRange) :=
  match value with
  | Object ArrayExotic range_values _ => memory_ranges_scan range_values []
  | Object _ _ _ =>
      let* range := _gum_v8_memory_range_get value in Done [range]
  | _ => Thrown "expected a range object or an array of range objects"
  end.

(** [_gum_v8_cpu_context_get]; the macro [GUMJS_CPU_CONTEXT_VALUE] reads the
    aligned pointer of internal field 0. *)
Definition _gum_v8_cpu_context_get (value : Value) : Completion Z :=
  match value with
  | Object (CpuContextInstance field0 _) _ _ => Done field0
  | _ => Thrown "expected a CpuContext object"
  end.

(** ** Byte buffers *)

Definition GUM_MAX_SEND_ARRAY_LENGTH : Z := 1024 * 1024.

Section Engine.

(** The evaluator of the scripting engine is not part of this code: what
    ToNumber gives on a string, and on an object (which may run script and
    throw), is the engine's. *)
Variable StringToNumber : string -> spec_float.
Variable ObjectToNumber :
  ObjectKind -> list (Maybe Value) -> list (string * Maybe Value) -> Maybe spec_float.

(** ECMAScript's ToNumber. *)
Definition ToNumber (v : Value) : Maybe spec_float :=
  match v with
  | Undefined => Just S754_nan
  | Null => Just (S754_zero false)
  | Boolean b => Just (if b then S754_finite false 1 0 else S754_zero false)
  | Number d => Just d
  | BigInt _ => Nothing "TypeError: Cannot convert a BigInt value to a number"
  | Str s => Just (StringToNumber s)
  | Symbol => Nothing "TypeError: Cannot convert a Symbol value to a number"
  | External _ => Just S754_nan
  | Object kind indexed named => ObjectToNumber kind indexed named
  end.

(** [Value::Uint32Value (context)] *)
Definition Uint32Value (v : Value) : Maybe Z :=
  match ToNumber v with
  | Just d => Just (ToUint32 d)
  | Nothing e => Nothing e
  end.

(** One turn of the loop of [_gum_v8_bytes_try_get]: the byte stored in
    [data[i]] when the element is valid. *)
Definition element_byte (element : Maybe Value) : option Z :=
  match element with
  | Just element_value =>
      match Uint32Value element_value with
      | Just element => Some (wrap_uint8 element)
      | Nothing _ => None
      end
  | Nothing _ => None
  end.

(** The loop itself: it stops at the first invalid element, and [data] is
    then freed. *)
Fixpoint bytes_from_elements (elements : list (Maybe Value)) : option (list Z) :=
  match elements with
  | [] => Some []
  | element :: rest =>
      match element_byte element with
      | None => None
      | Some b =>
          match bytes_from_elements rest with
          | Some data => Some (b :: data)
          | None => None
          end
      end
  end.

(** [_gum_v8_bytes_try_get]: the contents of the [GBytes] it returns, [None]
    standing for NULL. *)
Definition _gum_v8_bytes_try_get (value : Value) : option (list Z) :=
  match value with
  | Object (ArrayBufferKind data) _ _ => Some data
  | Object (ArrayBufferViewKind data) _ _ => Some data
  | Object ArrayExotic elements _ =>
      let data_length := Z.of_nat (length elements) in
      if data_length >? GUM_MAX_SEND_ARRAY_LENGTH then None
      else bytes_from_elements elements
  | _ => None
  end.

(** [_gum_v8_bytes_get] *)
Definition _gum_v8_bytes_get (value : Value) : Completion (list Z) :=
  match _gum_v8_bytes_try_get value with
  | Some result => Done result
  | None => Thrown "unsupported data value"
  end.

Definition bytes_of_string (s : string) : list Z :=
  map code (list_ascii_of_string s).

(** [_gum_v8_bytes_parse] *)
Definition _gum_v8_bytes_parse (value : Value) : Completion (list Z) :=
  if IsString value then Done (bytes_of_string (Utf8Value value))
  else _gum_v8_bytes_get value.

End Engine.

(** ** Native allocations

    The allocations the parser hands to its caller are tracked by address.
    Every acquisition (a fresh allocation, or a reference taken on an
    existing match pattern) and every release through a destructor is
    recorded in [events], oldest first. *)

Inductive Kind : Type :=
| KString          (* [gchar *], released with [g_free] *)
| KArray           (* [GArray *], released with [g_array_unref] *)
| KBytes           (* [GBytes *], released with [g_bytes_unref] *)
| KMatchPattern.   (* [GumMatchPattern *], released with [gum_match_pattern_unref] *)

Inductive Event : Type :=
| Acquired (k : Kind) (p : positive)
| Released (k : Kind) (p : positive).

Record NativeHeap : Type := mkHeap {
  next_address : positive;     (* every address handed out so far is below it *)
  events : list Event
}.

(** A fresh allocation of kind [k], with one reference. *)
Definition allocate (k : Kind) (h : NativeHeap) : positive * NativeHeap :=
  (next_address h,
   mkHeap (Pos.succ (next_address h)) (events h ++ [Acquired k (next_address h)])).

Definition g_strdup (h : NativeHeap) : positive * NativeHeap := allocate KString h.
Definition g_array_sized_new (h : NativeHeap) : positive * NativeHeap := allocate KArray h.
Definition g_bytes_new (h : NativeHeap) : positive * NativeHeap := allocate KBytes h.
Definition gum_match_pattern_new (h : NativeHeap) : positive * NativeHeap :=
  allocate KMatchPattern h.

Definition gum_match_pattern_ref (p : positive) (h : NativeHeap) : NativeHeap :=
  mkHeap (next_address h) (events h ++ [Acquired KMatchPattern p]).

Definition release (k : Kind) (h : NativeHeap) (p : positive) : NativeHeap :=
  mkHeap (next_address h) (events h ++ [Released k p]).

Definition g_free : NativeHeap -> positive -> NativeHeap := release KString.
Definition g_array_unref : NativeHeap -> positive -> NativeHeap := release KArray.
Definition g_bytes_unref : NativeHeap -> positive -> NativeHeap := release KBytes.
Definition gum_match_pattern_unref : NativeHeap -> positive -> NativeHeap :=
  release KMatchPattern.

(** [g_slist_foreach (list, func, NULL)] *)
Definition g_slist_foreach (l : list positive)
    (func : NativeHeap -> positive -> NativeHeap) (h : NativeHeap) : NativeHeap :=
  fold_left func l h.

(** ** The transactional scope of the parser *)

Record GumV8ArgsParseScope : Type := mkScope {
  committed : bool;
  strings : list positive;
  arrays : list positive;
  bytes : list positive;
  match_patterns : list positive
}.

(** The constructor. *)
Definition scope_new : GumV8ArgsParseScope := mkScope false [] [] [] [].

(** [~GumV8ArgsParseScope]; freeing the list cells themselves leaves no
    trace in the heap of tracked allocations. *)
Definition scope_destroy (scope : GumV8ArgsParseScope) (h : NativeHeap) : NativeHeap :=
  if negb (committed scope) then
    let h := g_slist_foreach (strings scope) g_free h in
    let h := g_slist_foreach (arrays scope) g_array_unref h in
    let h := g_slist_foreach (bytes scope) g_bytes_unref h in
    g_slist_foreach (match_patterns scope) gum_match_pattern_unref h
  else h.

(** [commit] *)
Definition commit (scope : GumV8ArgsParseScope) : GumV8ArgsParseScope :=
  mkScope true (strings scope) (arrays scope) (bytes scope) (match_patterns scope).

(** [strdup] *)
Definition scope_strdup (scope : GumV8ArgsParseScope) (h : NativeHeap)
  : positive * GumV8ArgsParseScope * NativeHeap :=
  let '(result, h) := g_strdup h in
  (result,
   mkScope (committed scope) (result :: strings scope) (arrays scope) (bytes scope)
     (match_patterns scope),
   h).

(** The three overloads of [add]. *)
Definition scope_add_array (scope : GumV8ArgsParseScope) (a : positive)
  : GumV8ArgsParseScope :=
  mkScope (committed scope) (strings scope) (a :: arrays scope) (bytes scope)
    (match_patterns scope).

Definition scope_add_bytes (scope : GumV8ArgsParseScope) (b : positive)
  : GumV8ArgsParseScope :=
  mkScope (committed scope) (strings scope) (arrays scope) (b :: bytes scope)
    (match_patterns scope).

Definition scope_add_pattern (scope : GumV8ArgsParseScope) (p : positive)
  : GumV8ArgsParseScope :=
  mkScope (committed scope) (strings scope) (arrays scope) (bytes scope)
    (p :: match_patterns scope).

(** ** The argument parser *)

(** What the parser stores through one of the pointers of its variadic
    argument list.  An allocation is given by its address and contents;
    [None] is a NULL pointer or an empty [Local]. *)
Inductive Slot : Type :=
| SInt (i : Z)
| SUInt (u : Z)
| SInt64 (i : Z)
| SUInt64 (u : Z)
| SSSize (value : Z)
| SSize (value : Z)
| SDouble (d : spec_float)
| SBoolean (b : bool)
| SPointer (ptr : Z)
| SString (str : option (positive * string))
| SStdString (str : string)
| SMemoryRange (range : GumMemoryRange)
| SRanges (ranges : positive * list GumMemoryRange)
| SPageProtection (prot : Z)
| SValue (v : Value)
| SObject (o : option Value)
| SArray (a : option Value)
| SFunction (func_js : option Value)
| SBytes (b : option (positive * list Z))
| SCpuContext (cpu_context : option Z)
| SMatchPattern (pattern : positive).

Record ParseState : Type := mkState {
  scope : GumV8ArgsParseScope;
  heap : NativeHeap;
  slots : list Slot        (* written so far, in the order of [va_arg] *)
}.

Definition write (st : ParseState) (s : Slot) : ParseState :=
  mkState (scope st) (heap st) (slots st ++ [s]).

(** How the code for one tag ends: the switch is left by [break] with the
    format pointer advanced past the tag and its modifiers; or an exception
    is pending and the parser returns [FALSE]; or the parser does not
    return. *)
Inductive TagResult : Type :=
| Parsed (t : string) (st : ParseState)
| Failed (message : string) (st : ParseState)
| NoReturn
| OutOfFuel.

Definition converted {A : Type} (c : Completion A) (st : ParseState)
    (k : A -> TagResult) : TagResult :=
  match c with
  | Done a => k a
  | Thrown m => Failed m st
  | Undefined_behaviour => NoReturn
  end.

(** [t[1] == c], where [t1] is the text from [t + 1] on. *)
Definition peek (t1 : string) (c : ascii) : bool :=
  match t1 with
  | String x _ => Ascii.eqb x c
  | EmptyString => false
  end.

(** [if (b) t++;] *)
Definition skip_if (b : bool) (t1 : string) : string :=
  if b then advance 1 t1 else t1.

(** [strchr (t, c) - t], when [c] occurs. *)
Fixpoint strchr (t : string) (c : ascii) : option nat :=
  match t with
  | EmptyString => None
  | String x rest =>
      if Ascii.eqb x c then Some O
      else match strchr rest c with Some n => Some (S n) | None => None end
  end.

(** [strncpy (name, t, length)] *)
Fixpoint take (n : nat) (s : string) : string :=
  match n, s with
  | S n', String c rest => String c (take n' rest)
  | _, _ => EmptyString
  end.

Fixpoint last_char (s : string) : option ascii :=
  match s with
  | EmptyString => None
  | String c EmptyString => Some c
  | String _ rest => last_char rest
  end.

Section Parser.

Variable StringToNumber : string -> spec_float.
Variable ObjectToNumber :
  ObjectKind -> list (Maybe Value) -> list (string * Maybe Value) -> Maybe spec_float.

(** [gum_match_pattern_new_from_string] is Gum's; all that matters here is
    whether it returns a pattern or NULL. *)
Variable gum_match_pattern_new_from_string : string -> bool.

(** The body of the [do ... while (t_end != end)] loop of the callback
    sub-grammar ["F{name,name?,...}"], [t] pointing at the next name. *)
Fixpoint parse_callbacks (fuel : nat) (accepts_pointer : bool)
    (callbacks : list (string * Maybe Value)) (t : string) (st : ParseState)
  : TagResult :=
  match fuel with
  | O => OutOfFuel
  | S fuel' =>
      match strchr t "}" with
      | None => NoReturn                   (* [end] is NULL *)
      | Some end_ =>
          let t_end :=
            match strchr t "," with
            | Some next => if (next <? end_)%nat then next else end_
            | None => end_
            end in
          let length := t_end in
          let name := take length t in
          match last_char name with
          | None => NoReturn               (* [name[-1]] *)
          | Some c =>
              let is_optional := Ascii.eqb c "?" in
              if (64 <? length)%nat || ((length =? 64)%nat && negb is_optional)
              then NoReturn                (* [name] holds 64 characters *)
              else
                let name := if is_optional then take (length - 1) name else name in
                match Get callbacks (c_str name) with
                | Nothing e => Failed e st
                | Just value =>
                    let outcome :=
                      if IsFunction value then Done (Some value, 0)
                      else if is_optional && IsUndefined value then Done (None, 0)
                      else
                        match is_native_pointer value with
                        | Some field0 =>
                            if accepts_pointer
                            then Done (None, GUMJS_NATIVE_POINTER_VALUE field0)
                            else Thrown "expected a callback value"
                        | None => Thrown "expected a callback value"
                        end in
                    converted outcome st (fun '(func_js, func_c) =>
                      let st := write st (SFunction func_js) in
                      let st := if accepts_pointer then write st (SPointer func_c) else st in
                      let t := advance (S t_end) t in
                      if (t_end =? end_)%nat then Parsed t st
                      else parse_callbacks fuel' accepts_pointer callbacks t st)
                end
          end
      end
  end.

(** The [switch] statement of [_gum_v8_args_parse] for the tag [c], with [t1] the
    format from [t + 1] on.  On [Parsed t' st'] the format pointer has been
    moved by the tag's modifiers and by the [t++] of the [for] statement, so
    [t'] is where the next turn of the loop starts. *)
Definition parse_tag (c : ascii) (t1 : string) (arg : Value) (st : ParseState)
  : TagResult :=
  match c with
  | "i"%char =>
      converted (_gum_v8_int_get arg) st (fun i => Parsed t1 (write st (SInt i)))
  | "u"%char =>
      converted (_gum_v8_uint_get arg) st (fun u => Parsed t1 (write st (SUInt u)))
  | "q"%char =>
      let is_fuzzy := peek t1 "~" in
      let t1 := skip_if is_fuzzy t1 in
      converted (if is_fuzzy then _gum_v8_int64_parse arg else _gum_v8_int64_get arg) st
        (fun i => Parsed t1 (write st (SInt64 i)))
  | "Q"%char =>
      let is_fuzzy := peek t1 "~" in
      let t1 := skip_if is_fuzzy t1 in
      converted (if is_fuzzy then _gum_v8_uint64_parse arg else _gum_v8_uint64_get arg) st
        (fun u => Parsed t1 (write st (SUInt64 u)))
  | "z"%char =>
      converted (_gum_v8_ssize_get arg) st
        (fun value => Parsed t1 (write st (SSSize value)))
  | "Z"%char =>
      converted (_gum_v8_size_get arg) st
        (fun value => Parsed t1 (write st (SSize value)))
  | "n"%char =>
      match arg with
      | Number d => Parsed t1 (write st (SDouble d))
      | _ => Failed "expected a number" st
      end
  | "t"%char =>
      match arg with
      | Boolean b => Parsed t1 (write st (SBoolean b))
      | _ => Failed "expected a boolean" st
      end
  | "p"%char =>
      let is_fuzzy := peek t1 "~" in
      let t1 := skip_if is_fuzzy t1 in
      converted
        (if is_fuzzy then _gum_v8_native_pointer_parse arg
         else _gum_v8_native_pointer_get arg) st
        (fun ptr => Parsed t1 (write st (SPointer ptr)))
  | "X"%char =>
      match arg with
      | External p => Parsed t1 (write st (SPointer p))
      | _ => Failed "expected an external pointer" st
      end
  | "s"%char =>
      let is_nullable := peek t1 "?" in
      let t1 := skip_if is_nullable t1 in
      if is_nullable && IsNull arg then Parsed t1 (write st (SString None))
      else if IsString arg then
        let arg_utf8 := Utf8Value arg in
        let '(str, scope', heap') := scope_strdup (scope st) (heap st) in
        Parsed t1 (write (mkState scope' heap' (slots st)) (SString (Some (str, arg_utf8))))
      else Failed "expected a string" st
  | "S"%char =>
      if IsString arg then Parsed t1 (write st (SStdString (Utf8Value arg)))
      else Failed "expected a string" st
  | "r"%char =>
      converted (_gum_v8_memory_range_get arg) st
        (fun range => Parsed t1 (write st (SMemoryRange range)))
  | "R"%char =>
      converted (_gum_v8_memory_ranges_get arg) st (fun contents =>
        let '(ranges, heap') := g_array_sized_new (heap st) in
        let scope' := scope_add_array (scope st) ranges in
        Parsed t1 (write (mkState scope' heap' (slots st)) (SRanges (ranges, contents))))
  | "m"%char =>
      converted (_gum_v8_page_protection_get arg) st
        (fun prot => Parsed t1 (write st (SPageProtection prot)))
  | "V"%char => Parsed t1 (write st (SValue arg))
  | "O"%char =>
      let is_nullable := peek t1 "?" in
      let t1 := skip_if is_nullable t1 in
      if is_nullable && IsNull arg then Parsed t1 (write st (SObject None))
      else if IsObject arg then Parsed t1 (write st (SObject (Some arg)))
      else Failed "expected an object" st
  | "A"%char =>
      let is_nullable := peek t1 "?" in
      let t1 := skip_if is_nullable t1 in
      if IsArray arg then Parsed t1 (write st (SArray (Some arg)))
      else if is_nullable && IsNull arg then Parsed t1 (write st (SArray None))
      else Failed "expected an array" st
  | "F"%char =>
      let accepts_pointer := peek t1 "*" in
      let t1 := skip_if accepts_pointer t1 in
      let is_expecting_object := peek t1 "{" in
      if is_expecting_object then
        let t := advance 1 t1 in           (* [t += 2]: the first name *)
        match arg with
        | Object _ _ callbacks =>
            parse_callbacks (S (String.length t)) accepts_pointer callbacks t st
        | _ => Failed "expected an object containing callbacks" st
        end
      else
        let is_nullable := peek t1 "?" in
        let t1 := skip_if is_nullable t1 in
        let outcome :=
          if IsFunction arg then Done (Some arg, 0)
          else if is_nullable && IsNull arg then Done (None, 0)
          else
            match is_native_pointer arg with
            | Some field0 =>
                if accepts_pointer then Done (None, GUMJS_NATIVE_POINTER_VALUE field0)
                else Thrown "expected a function"
            | None => Thrown "expected a function"
            end in
        converted outcome st (fun '(func_js, func_c) =>
          let st := write st (SFunction func_js) in
          let st := if accepts_pointer then write st (SPointer func_c) else st in
          Parsed t1 st)
  | "B"%char =>
      let is_fuzzy := peek t1 "~" in
      let t1 := skip_if is_fuzzy t1 in
      let is_nullable := peek t1 "?" in
      let t1 := skip_if is_nullable t1 in
      if is_nullable && IsNull arg then Parsed t1 (write st (SBytes None))
      else
        converted
          (if is_fuzzy then _gum_v8_bytes_parse StringToNumber ObjectToNumber arg
           else _gum_v8_bytes_get StringToNumber ObjectToNumber arg) st
          (fun contents =>
             let '(b, heap') := g_bytes_new (heap st) in
             let scope' := scope_add_bytes (scope st) b in
             Parsed t1 (write (mkState scope' heap' (slots st)) (SBytes (Some (b, contents)))))
  | "C"%char =>
      let is_nullable := peek t1 "?" in
      let t1 := skip_if is_nullable t1 in
      if is_nullable && IsNull arg then Parsed t1 (write st (SCpuContext None))
      else
        converted (_gum_v8_cpu_context_get arg) st
          (fun cpu_context => Parsed t1 (write st (SCpuContext (Some cpu_context))))
  | "M"%char =>
      match arg with
      | Str _ =>
          if gum_match_pattern_new_from_string (Utf8Value arg) then
            let '(pattern, heap') := gum_match_pattern_new (heap st) in
            let scope' := scope_add_pattern (scope st) pattern in
            Parsed t1 (write (mkState scope' heap' (slots st)) (SMatchPattern pattern))
          else Failed "invalid match pattern" st
      | Object (MatchPatternInstance pattern) _ _ =>
          let heap' := gum_match_pattern_ref pattern (heap st) in
          let scope' := scope_add_pattern (scope st) pattern in
          Parsed t1 (write (mkState scope' heap' (slots st)) (SMatchPattern pattern))
      | _ => Failed "expected either a pattern string or a MatchPattern object" st
      end
  | _ => NoReturn                          (* [g_assert_not_reached] *)
  end.

(** One turn of the [for] loop, from its test to its increment. *)
Inductive Turn : Type :=
| Next (t : string) (arg_index : nat) (is_required : bool) (st : ParseState)
| LeaveLoop (st : ParseState)
| ReturnFALSE (message : string) (st : ParseState)
| Stuck
| TurnOutOfFuel.

Definition parse_turn (args : list Value) (t : string) (arg_index : nat)
    (is_required : bool) (st : ParseState) : Turn :=
  match t with
  | EmptyString => LeaveLoop st
  | String c t1 =>
      if Ascii.eqb c "|" then Next t1 arg_index false st
      else
        let arg_count := length args in
        let arg := nth arg_index args Undefined in
        if (arg_count <=? arg_index)%nat || IsUndefined arg then
          if is_required then ReturnFALSE "missing argument" st
          else LeaveLoop st
        else
          match parse_tag c t1 arg st with
          | Parsed t' st' => Next t' (S arg_index) is_required st'
          | Failed m st' => ReturnFALSE m st'
          | NoReturn => Stuck
          | OutOfFuel => TurnOutOfFuel
          end
  end.

(** What a call of the parser leaves behind when it returns: the value
    returned, the exception pending in the isolate, the output slots
    written, the scope as its destructor found it and the heap once the
    destructor has run. *)
Record ParseReturn : Type := mkReturn {
  returned : bool;
  pending_exception : option string;
  written : list Slot;
  scope_at_exit : GumV8ArgsParseScope;
  heap_at_exit : NativeHeap
}.

Inductive ParseOutcome : Type :=
| Returns (r : ParseReturn)
| DoesNotReturn
| ParseOutOfFuel.

(** [return FALSE;] from inside the loop: the scope is destroyed
    uncommitted. *)
Definition return_FALSE (message : string) (st : ParseState) : ParseReturn :=
  mkReturn false (Some message) (slots st) (scope st)
    (scope_destroy (scope st) (heap st)).

(** [scope.commit (); return TRUE;] after the loop. *)
Definition return_TRUE (st : ParseState) : ParseReturn :=
  let scope' := commit (scope st) in
  mkReturn true None (slots st) scope' (scope_destroy scope' (heap st)).

Fixpoint parse_loop (fuel : nat) (args : list Value) (t : string) (arg_index : nat)
    (is_required : bool) (st : ParseState) : ParseOutcome :=
  match fuel with
  | O => ParseOutOfFuel
  | S fuel' =>
      match parse_turn args t arg_index is_required st with
      | Next t' arg_index' is_required' st' =>
          parse_loop fuel' args t' arg_index' is_required' st'
      | LeaveLoop st' => Returns (return_TRUE st')
      | ReturnFALSE m st' => Returns (return_FALSE m st')
      | Stuck => DoesNotReturn
      | TurnOutOfFuel => ParseOutOfFuel
      end
  end.

(** [_gum_v8_args_parse], called with the arguments [args] of the script
    and the format [format], the native heap being [h]. *)
Definition _gum_v8_args_parse (args : list Value) (format : string) (h : NativeHeap)
  : ParseOutcome :=
  let t := c_str format in
  parse_loop (S (String.length t)) args t 0 true (mkState scope_new h []).

End Parser.

(** ** The native resource registry *)

(** The weak callbacks of this file. *)
Inductive WeakCallback : Type :=
| gum_v8_native_resource_on_weak_notify
| gum_cpu_context_on_weak_notify.

(** A [Global<Object>]: the object it refers to and, once [SetWeak] has been
    called, the callback and its parameter. *)
Record Global : Type := mkGlobal {
  referent : Value;
  weak : option (WeakCallback * positive)
}.

Record GumV8NativeResource : Type := mkResource {
  instance : positive;              (* the [Global<Object> *] *)
  data : Z;
  resource_size : Z;
  notify : option positive          (* a [GDestroyNotify], or NULL *)
}.

(** The functions a [GHashTable] of this code may be given to destroy its
    keys. *)
Inductive KeyDestroyFunc : Type :=
| native_resource_free.

Record GHashTable : Type := mkTable {
  key_destroy_func : option KeyDestroyFunc;
  keys : gset positive
}.

Record GumV8Core : Type := mkCore {
  external_allocated_memory : Z;    (* the isolate's accounting *)
  globals : gmap positive Global;
  native_resources : GHashTable;
  resource_records : gmap positive GumV8NativeResource;   (* [g_slice] memory *)
  notified : list (positive * Z);   (* the calls [notify (data)], oldest first *)
  next_fresh : positive
}.

(** Modelled from the spec: [core->native_resources] is created in
    [gumv8core.cpp], which is not among the sources.  The spec has the
    finalization of a handle decrease the accounting, run the destructor
    and drop the record, which is what [_gum_v8_native_resource_free] does:
    the table owns its records and frees a key it removes with it. *)
Definition core_new : GumV8Core :=
  mkCore 0 ∅ (mkTable (Some native_resource_free) ∅) ∅ [] 1%positive.

(** [Isolate::AdjustAmountOfExternalAllocatedMemory], which takes an
    [int64_t]. *)
Definition AdjustAmountOfExternalAllocatedMemory (change : Z) (core : GumV8Core)
  : GumV8Core :=
  mkCore (external_allocated_memory core + change) (globals core)
    (native_resources core) (resource_records core) (notified core) (next_fresh core).

(** [_gum_v8_native_resource_new]: the address of the new record and the
    core afterwards. *)
Definition _gum_v8_native_resource_new (data : Z) (size : Z) (notify : option positive)
    (core : GumV8Core) : positive * GumV8Core :=
  let resource := next_fresh core in
  let instance := Pos.succ (next_fresh core) in
  let handle :=
    mkGlobal (_gum_v8_native_pointer_new data)
      (Some (gum_v8_native_resource_on_weak_notify, resource)) in
  let record := mkResource instance data size notify in
  let core :=
    mkCore (external_allocated_memory core) (<[instance := handle]> (globals core))
      (native_resources core) (<[resource := record]> (resource_records core))
      (notified core) (Pos.succ (Pos.succ (next_fresh core))) in
  let core := AdjustAmountOfExternalAllocatedMemory (wrap_int64 size) core in
  (resource,
   mkCore (external_allocated_memory core) (globals core)
     (mkTable (key_destroy_func (native_resources core))
        ({[resource]} ∪ keys (native_resources core)))
     (resource_records core) (notified core) (next_fresh core)).

(** [_gum_v8_native_resource_free]; [None] when [resource] is not a live
    record. *)
Definition _gum_v8_native_resource_free (resource : positive) (core : GumV8Core)
  : option GumV8Core :=
  match resource_records core !! resource with
  | None => None
  | Some r =>
      let core := AdjustAmountOfExternalAllocatedMemory (- wrap_int64 (resource_size r)) core in
      Some (mkCore (external_allocated_memory core)
              (delete (instance r) (globals core))
              (native_resources core)
              (delete resource (resource_records core))
              (match notify r with
               | Some f => notified core ++ [(f, data r)]
               | None => notified core
               end)
              (next_fresh core))
  end.

(** [g_hash_table_remove (core->native_resources, key)]: a key that is
    present is taken out and handed to the key destroy function. *)
Definition g_hash_table_remove (key : positive) (core : GumV8Core) : option GumV8Core :=
  let table := native_resources core in
  if decide (key ∈ keys table) then
    let core :=
      mkCore (external_allocated_memory core) (globals core)
        (mkTable (key_destroy_func table) (keys table ∖ {[key]}))
        (resource_records core) (notified core) (next_fresh core) in
    match key_destroy_func table with
    | Some native_resource_free => _gum_v8_native_resource_free key core
    | None => Some core
    end
  else Some core.

(** The engine finalizes the weak handle [g] once its referent has become
    unreachable: it calls the weak callback with its parameter.  [None]
    when [g] is not a live weak handle, which the engine never finalizes.
    Only the callback of the registry is run on a [GumV8Core]. *)
Definition finalize (g : positive) (core : GumV8Core) : option GumV8Core :=
  match globals core !! g with
  | Some (mkGlobal _ (Some (gum_v8_native_resource_on_weak_notify, self))) =>
      g_hash_table_remove self core
  | _ => None
  end.

(** ** CPU-context snapshots *)

(** A [GumCpuContext]: the registers by name. *)
Definition GumCpuContext : Type := gmap string Z.

Record GumCpuContextWrapper : Type := mkWrapper {
  wrapper_instance : positive;      (* the [Global<Object> *] *)
  wrapper_cpu_context : Z           (* the owned copy *)
}.

(** The part of the process the snapshot protocol touches: the JavaScript
    objects by identity (their internal fields are assigned in place), the
    [Global] handles with the identity of their referent, native memory
    holding register structures, the wrappers, and the addresses of the
    register structures freed with [g_slice_free], oldest first. *)
Record Snapshots : Type := mkSnapshots {
  objects : gmap positive Value;
  handles : gmap positive (positive * option (WeakCallback * positive));
  memory : gmap Z GumCpuContext;
  wrappers : gmap positive GumCpuContextWrapper;
  freed : list Z;
  next_free : positive
}.

(** [_gum_v8_cpu_context_new_mutable] and [_gum_v8_cpu_context_new_immutable]:
    the identity of the new object, which aliases [cpu_context]. *)
Definition cpu_context_new (is_mutable : bool) (cpu_context : Z) (s : Snapshots)
  : positive * Snapshots :=
  let object := next_free s in
  (object,
   mkSnapshots (<[object := Object (CpuContextInstance cpu_context is_mutable) [] []]> (objects s))
     (handles s) (memory s) (wrappers s) (freed s) (Pos.succ (next_free s))).

Definition _gum_v8_cpu_context_new_mutable : Z -> Snapshots -> positive * Snapshots :=
  cpu_context_new true.
Definition _gum_v8_cpu_context_new_immutable : Z -> Snapshots -> positive * Snapshots :=
  cpu_context_new false.

(** [new Global<Object> (isolate, object)] *)
Definition global_new (object : positive) (s : Snapshots) : positive * Snapshots :=
  let g := next_free s in
  (g,
   mkSnapshots (objects s) (<[g := (object, None)]> (handles s)) (memory s) (wrappers s)
     (freed s) (Pos.succ (next_free s))).

(** [_gum_v8_cpu_context_free_later]; [None] when [cpu_context] is not a
    live handle on a CPU-context object over mapped memory. *)
Definition _gum_v8_cpu_context_free_later (cpu_context : positive) (s : Snapshots)
  : option Snapshots :=
  match handles s !! cpu_context with
  | Some (instance, _) =>
      match objects s !! instance with
      | Some (Object (CpuContextInstance original _) indexed named) =>
          match memory s !! original with
          | Some registers =>
              let copy := Z.pos (next_free s) in                  (* [g_slice_dup] *)
              let wrapper := Pos.succ (next_free s) in            (* [g_slice_new] *)
              let is_mutable := false in
              Some (mkSnapshots
                      (<[instance := Object (CpuContextInstance copy is_mutable) indexed named]>
                         (objects s))
                      (<[cpu_context :=
                           (instance, Some (gum_cpu_context_on_weak_notify, wrapper))]>
                         (handles s))
                      (<[copy := registers]> (memory s))
                      (<[wrapper := mkWrapper cpu_context copy]> (wrappers s))
                      (freed s)
                      (Pos.succ (Pos.succ (next_free s))))
          | None => None
          end
      | _ => None
      end
  | None => None
  end.

(** The weak callback [gum_cpu_context_on_weak_notify], on its parameter. *)
Definition cpu_context_on_weak_notify (wrapper : positive) (s : Snapshots)
  : option Snapshots :=
  match wrappers s !! wrapper with
  | Some w =>
      Some (mkSnapshots (objects s)
              (delete (wrapper_instance w) (handles s))
              (delete (wrapper_cpu_context w) (memory s))
              (delete wrapper (wrappers s))
              (freed s ++ [wrapper_cpu_context w])
              (next_free s))
  | None => None
  end.

(** The engine finalizes the weak handle [g]; [None] when [g] is not a live
    weak handle. *)
Definition finalize_handle (g : positive) (s : Snapshots) : option Snapshots :=
  match handles s !! g with
  | Some (_, Some (gum_cpu_context_on_weak_notify, wrapper)) =>
      cpu_context_on_weak_notify wrapper s
  | _ => None
  end.

(** A register read through the object [object]: the accessors dereference
    the pointer that [_gum_v8_cpu_context_get] returns. *)
Definition read_register (object : positive) (register : string) (s : Snapshots)
  : option Z :=
  match objects s !! object with
  | Some value =>
      match _gum_v8_cpu_context_get value with
      | Done pointer =>
          match memory s !! pointer with
          | Some registers => registers !! register
          | None => None
          end
      | _ => None
      end
  | None => None
  end.

(** The mutability flag of internal field 1. *)
Definition is_mutable (object : positive) (s : Snapshots) : option bool :=
  match objects s !! object with
  | Some (Object (CpuContextInstance _ field1) _ _) => Some field1
  | _ => None
  end.

(** What native code does meanwhile to a register structure of its own:
    store into a register, or give the structure up. *)
Inductive NativeStep : Type :=
| store_register (address : Z) (register : string) (v : Z)
| discard (address : Z).

Definition native_step (s : Snapshots) (step : NativeStep) : Snapshots :=
  match step with
  | store_register address register v =>
      mkSnapshots (objects s) (handles s)
        (alter (fun registers => <[register := v]> registers) address (memory s))
        (wrappers s) (freed s) (next_free s)
  | discard address =>
      mkSnapshots (objects s) (handles s) (delete address (memory s))
        (wrappers s) (freed s) (next_free s)
  end.

Definition step_address (step : NativeStep) : Z :=
  match step with
  | store_register address _ _ => address
  | discard address => address
  end.

(** ** Error messages

    GLib's UTF-8 primitives, on C strings. *)

(** [g_utf8_skip]: the length of a sequence from its first byte. *)
Definition g_utf8_skip (c : Z) : nat :=
  if c <? 192 then 1%nat
  else if c <? 224 then 2%nat
  else if c <? 240 then 3%nat
  else if c <? 248 then 4%nat
  else if c <? 252 then 5%nat
  else if c <? 254 then 6%nat
  else 1%nat.

(** [*p], which is NUL at the end of the string. *)
Definition first_byte (p : string) : Z :=
  match p with
  | String c _ => code c
  | EmptyString => 0
  end.

(** The continuation bytes of [UTF8_GET]. *)
Fixpoint utf8_get (n : nat) (p : string) (result : Z) : Z :=
  match n with
  | O => result
  | S n' =>
      if Z.land (first_byte p) 192 =? 128
      then utf8_get n' (advance 1 p) (Z.lor (Z.shiftl result 6) (Z.land (first_byte p) 63))
      else 2 ^ 32 - 1
  end.

(** [g_utf8_get_char]; [(gunichar) -1] is [2 ^ 32 - 1]. *)
Definition g_utf8_get_char (p : string) : Z :=
  let c := first_byte p in
  if c <? 128 then utf8_get 0 (advance 1 p) (Z.land c 127)
  else if Z.land c 224 =? 192 then utf8_get 1 (advance 1 p) (Z.land c 31)
  else if Z.land c 240 =? 224 then utf8_get 2 (advance 1 p) (Z.land c 15)
  else if Z.land c 248 =? 240 then utf8_get 3 (advance 1 p) (Z.land c 7)
  else if Z.land c 252 =? 248 then utf8_get 4 (advance 1 p) (Z.land c 3)
  else if Z.land c 254 =? 252 then utf8_get 5 (advance 1 p) (Z.land c 1)
  else 2 ^ 32 - 1.

(** [g_utf8_offset_to_pointer (str, 1)]: the text after the first character;
    [None] when that lies beyond the terminating NUL. *)
Definition g_utf8_offset_to_pointer_1 (str : string) : option string :=
  let n := g_utf8_skip (first_byte str) in
  if (n <=? String.length str)%nat then Some (advance n str) else None.

(** [g_utf8_strlen (p, -1)], with fuel for the bytes of [p]. *)
Fixpoint utf8_strlen (fuel : nat) (p : string) : nat :=
  match fuel, p with
  | S fuel', String c _ => S (utf8_strlen fuel' (advance (g_utf8_skip (code c)) p))
  | _, _ => O
  end.

Definition g_utf8_strlen (p : string) : nat := utf8_strlen (String.length p) p.

(** The trailing bytes written by [g_unichar_to_utf8], last byte first. *)
Fixpoint utf8_tail (n : nat) (c : Z) : list Z * Z :=
  match n with
  | O => ([], c)
  | S n' =>
      let '(bytes, c') := utf8_tail n' (Z.shiftr c 6) in
      (bytes ++ [Z.lor (Z.land c 63) 128], c')
  end.

(** [g_unichar_to_utf8] *)
Definition g_unichar_to_utf8 (c : Z) : list Z :=
  let '(first, len) :=
    if c <? 128 then (0, 1%nat)
    else if c <? 2048 then (192, 2%nat)
    else if c <? 65536 then (224, 3%nat)
    else if c <? 2097152 then (240, 4%nat)
    else if c <? 67108864 then (248, 5%nat)
    else (252, 6%nat) in
  let '(bytes, c') := utf8_tail (len - 1) c in
  Z.lor c' first :: bytes.

Definition string_of_bytes (l : list Z) : string :=
  string_of_list_ascii (map char_of_code l).

(** [g_string_append_unichar] and [g_string_append], on the contents of the
    [GString]. *)
Definition g_string_append_unichar (message : string) (wc : Z) : string :=
  (message ++ string_of_bytes (g_unichar_to_utf8 wc))%string.

Definition g_string_append (message val : string) : string := (message ++ val)%string.

Section Unicode.

(** The Unicode character database behind [g_unichar_isupper],
    [g_unichar_tolower] and [g_unichar_toupper] is GLib's; only its ASCII
    part is spelled out. *)
Variable unicode_isupper : Z -> bool.
Variable unicode_tolower : Z -> Z.
Variable unicode_toupper : Z -> Z.

Definition g_unichar_isupper (c : Z) : bool :=
  if c <? 128 then (65 <=? c) && (c <=? 90) else unicode_isupper c.

Definition g_unichar_tolower (c : Z) : Z :=
  if c <? 128 then (if (65 <=? c) && (c <=? 90) then c + 32 else c)
  else unicode_tolower c.

Definition g_unichar_toupper (c : Z) : Z :=
  if c <? 128 then (if (97 <=? c) && (c <=? 122) then c - 32 else c)
  else unicode_toupper c.

(** [Exception::Error (String::NewFromUtf8 (isolate, str))] *)
Definition Exception_Error (str : string) : Value :=
  Object Ordinary [] [("message", Just (Str (c_str str)))].

(** [_gum_v8_error_new_take_error]; [error] is the [GError] taken, given by
    its message. *)
Definition _gum_v8_error_new_take_error (error : option string) : Completion Value :=
  match error with
  | Some e_message =>
      let m := c_str e_message in
      let probably_starts_with_acronym :=
        g_unichar_isupper (g_utf8_get_char m)
        && (2 <=? g_utf8_strlen m)%nat
        && match g_utf8_offset_to_pointer_1 m with
           | Some second => g_unichar_isupper (g_utf8_get_char second)
           | None => false
           end in
      if probably_starts_with_acronym then
        Done (Exception_Error (g_string_append "" m))
      else
        match g_utf8_offset_to_pointer_1 m with
        | Some rest =>
            let message :=
              g_string_append_unichar "" (g_unichar_tolower (g_utf8_get_char m)) in
            Done (Exception_Error (g_string_append message rest))
        | None => Undefined_behaviour
        end
  | None => Done Null
  end.

(** [_gum_v8_error_get_message] *)
Definition _gum_v8_error_get_message (error : Value) : Completion string :=
  match error with
  | Object _ _ obj =>
      match Get obj "message" with
      | Just (Str message) =>
          let m := c_str message in
          let length := String.length m in
          let result := ""%string in
          let result :=
            if (1 <=? length)%nat
            then g_string_append_unichar result (g_unichar_toupper (g_utf8_get_char m))
            else result in
          if (2 <=? length)%nat then
            match g_utf8_offset_to_pointer_1 m with
            | Some rest => Done (c_str (g_string_append result rest))
            | None => Undefined_behaviour
            end
          else Done (c_str result)
      | _ => Undefined_behaviour      (* [ToLocalChecked], [As<String>] *)
      end
  | _ => Undefined_behaviour          (* [As<Object>] *)
  end.

End Unicode.

(** ** Numeric text

    The vocabulary in which the behaviour of the textual parses is stated. *)

(** [c] is a digit of base [base]. *)
Definition is_digit (base : Z) (c : ascii) : bool :=
  match digit_value c with
  | Some d => d <? base
  | None => false
  end.

(** The number a string of digits denotes in base [base], most significant
    digit first, continuing from [acc]. *)
Fixpoint digits_value (base : Z) (s : string) (acc : Z) : Z :=
  match s with
  | EmptyString => acc
  | String c rest =>
      digits_value base rest
        (acc * base + match digit_value c with Some d => d | None => 0 end)
  end.

(** A literal: one digit of the base or more, and nothing else. *)
Definition literal (base : Z) (s : string) : bool :=
  negb (String.eqb s "") && string_forallb (is_digit base) s.

(** The two forms of C7: [0x] and a hexadecimal literal, or a decimal
    literal. *)
Definition hexadecimal_form (s : string) : bool :=
  g_str_has_prefix s "0x" && literal 16 (advance 2 s).

Definition decimal_form (s : string) : bool := literal 10 s.

(** After white space and a sign, if any, [s] goes on with a digit of the
    base. *)
Definition starts_number (base : Z) (s : string) : bool :=
  match after_sign (skip_space s) with
  | String c _ => is_digit base c
  | EmptyString => false
  end.

(** What the textual parses take for a number: after [0x], text that starts
    a hexadecimal number; without it, text that starts a decimal number. *)
Definition numeric_text (s : string) : bool :=
  if g_str_has_prefix s "0x" then starts_number 16 (advance 2 s)
  else starts_number 10 s.

(** What the three textual parses have in common: the base is chosen by the
    prefix [0x], the text is handed to a conversion function, and the parse
    fails exactly when that function has converted nothing. *)
Definition textual_parse (strto : string -> Z -> Z * nat) (hex_msg dec_msg : string)
    (s : string) : Completion Z :=
  if g_str_has_prefix s "0x" then
    let '(v, end_) := strto (advance 2 s) 16 in
    if (end_ =? 0)%nat then Thrown hex_msg else Done v
  else
    let '(v, end_) := strto s 10 in
    if (end_ =? 0)%nat then Thrown dec_msg else Done v.

(** The double [-1.0]. *)
Definition minus_one : spec_float := S754_finite true 4503599627370496 (-52).

(** ** ASCII case

    The vocabulary in which the casing of error messages is stated. *)

Definition ascii_tolower (c : ascii) : ascii :=
  if ISUPPER c then char_of_code (code c + 32) else c.

Definition ascii_toupper (c : ascii) : ascii :=
  if ISLOWER c then char_of_code (code c - 32) else c.

(** An example: a mutable snapshot of the registers at address 100, made
    and held by a handle as [_gum_v8_throw_native] does; the object is 1
    and the handle is 2. *)
Definition thrown_context : Snapshots :=
  let s0 := mkSnapshots ∅ ∅ {[ 100 := {[ "pc"%string := 4096 ]} ]} ∅ [] 1%positive in
  let '(object, s) := _gum_v8_cpu_context_new_mutable 100 s0 in
  snd (global_new object s).

(** ** Accounting of staged allocations

    The vocabulary in which the rollback of the scope is stated. *)

(** The collection of the scope that holds the allocations of kind [k]. *)
Definition staged (k : Kind) (sc : GumV8ArgsParseScope) : list positive :=
  match k with
  | KString => strings sc
  | KArray => arrays sc
  | KBytes => bytes sc
  | KMatchPattern => match_patterns sc
  end.

(** The releases the destructor of an uncommitted scope performs, in the
    order in which it performs them. *)
Definition rollback (sc : GumV8ArgsParseScope) : list Event :=
  map (Released KString) (strings sc) ++ map (Released KArray) (arrays sc)
  ++ map (Released KBytes) (bytes sc)
  ++ map (Released KMatchPattern) (match_patterns sc).

Definition Kind_eqb (k k' : Kind) : bool :=
  match k, k' with
  | KString, KString | KArray, KArray | KBytes, KBytes
  | KMatchPattern, KMatchPattern => true
  | _, _ => false
  end.

Definition is_acquisition (e : Event) : bool :=
  match e with Acquired _ _ => true | Released _ _ => false end.

(** How many times [p] is acquired, and released, as an allocation of kind
    [k] in a run of events; how many times it occurs in a collection. *)
Definition acquisitions (k : Kind) (p : positive) (l : list Event) : nat :=
  length (List.filter (fun e => match e with
                           | Acquired k' p' => Kind_eqb k k' && Pos.eqb p p'
                           | Released _ _ => false
                           end) l).

Definition releases (k : Kind) (p : positive) (l : list Event) : nat :=
  length (List.filter (fun e => match e with
                           | Released k' p' => Kind_eqb k k' && Pos.eqb p p'
                           | Acquired _ _ => false
                           end) l).

Definition occurrences (p : positive) (l : list positive) : nat :=
  length (List.filter (Pos.eqb p) l).

(** ** Turns of the parser's loop *)

(** Where the loop stands before a turn: the format pointer, the argument
    index, the required flag, and the state. *)
Definition Position : Type := string * nat * bool * ParseState.

Section Turns.

Variable StringToNumber : string -> spec_float.
Variable ObjectToNumber :
  ObjectKind -> list (Maybe Value) -> list (string * Maybe Value) -> Maybe spec_float.
Variable gum_match_pattern_new_from_string : string -> bool.

(** Where the loop stands after [n] full turns from [at_], if it gets that
    far. *)
Fixpoint after_turns (n : nat) (args : list Value) (at_ : Position) : option Position :=
  match n with
  | O => Some at_
  | S n' =>
      let '(t, arg_index, is_required, st) := at_ in
      match parse_turn StringToNumber ObjectToNumber gum_match_pattern_new_from_string
              args t arg_index is_required st with
      | Next t' arg_index' is_required' st' =>
          after_turns n' args (t', arg_index', is_required', st')
      | _ => None
      end
  end.

(** The position in which [_gum_v8_args_parse] enters its loop. *)
Definition entry (format : string) (h : NativeHeap) : Position :=
  (c_str format, O, true, mkState scope_new h []).

End Turns.

(** ** Steps of the scope *)

(** [p] added to the collection of kind [k]. *)
Definition stage (k : Kind) (p : positive) (sc : GumV8ArgsParseScope)
  : GumV8ArgsParseScope :=
  match k with
  | KString => mkScope (committed sc) (p :: strings sc) (arrays sc) (bytes sc)
                 (match_patterns sc)
  | KArray => scope_add_array sc p
  | KBytes => scope_add_bytes sc p
  | KMatchPattern => scope_add_pattern sc p
  end.

(** What the code of one tag may do to the scope and the heap: nothing, or
    acquire one allocation and stage it; the allocation is fresh, unless it
    is a match pattern on which a reference is taken. *)
Definition tag_step (st st' : ParseState) : Prop :=
  (scope st' = scope st /\ heap st' = heap st) \/
  exists k p,
    scope st' = stage k p (scope st) /\
    events (heap st') = events (heap st) ++ [Acquired k p] /\
    ((p = next_address (heap st) /\ next_address (heap st') = Pos.succ p) \/
     (k = KMatchPattern /\ next_address (heap st') = next_address (heap st))).

(** The allocations staged that are fresh whatever the arguments: the
    strings, the arrays and the byte buffers. *)
Definition fresh_staged (sc : GumV8ArgsParseScope) : list positive :=
  strings sc ++ arrays sc ++ bytes sc.

(** What holds of the scope and the heap between two turns of the loop of a
    call entered with the heap [h0]: the scope is uncommitted; the events
    since entry are acquisitions, as many of each allocation as there are
    entries for it in the collection of its kind; and the fresh
    allocations staged are distinct. *)
Definition scope_invariant (h0 : NativeHeap) (st : ParseState) : Prop :=
  committed (scope st) = false /\
  (forall p, List.In p (fresh_staged (scope st)) -> (p < next_address (heap st))%positive) /\
  List.NoDup (fresh_staged (scope st)) /\
  exists acquired,
    events (heap st) = events h0 ++ acquired /\
    forallb is_acquisition acquired = true /\
    forall k p, acquisitions k p acquired = occurrences p (staged k (scope st)).

(** What holds when a call entered with the heap [h0] returns.  The events
    since entry are the acquisitions, as many of each allocation as there
    are entries for it in the scope, followed, when the call fails, by the
    releases of the rollback, which are as many again; when the call
    succeeds the scope is committed and nothing is released. *)
Definition balanced (h0 : NativeHeap) (r : ParseReturn) : Prop :=
  let sc := scope_at_exit r in
  List.NoDup (fresh_staged sc) /\
  exists acquired,
    forallb is_acquisition acquired = true /\
    (forall k p, acquisitions k p acquired = occurrences p (staged k sc)) /\
    if returned r
    then committed sc = true /\ events (heap_at_exit r) = events h0 ++ acquired
    else committed sc = false /\
         events (heap_at_exit r) = events h0 ++ acquired ++ rollback sc /\
         forall k p, releases k p (rollback sc) = acquisitions k p acquired.

(** ** Signed literals *)

(** The sign a number may carry in front of its digits. *)
Inductive Sign : Type := NoSign | PlusSign | MinusSign.

Definition signed (sign : Sign) (s : string) : string :=
  match sign with
  | NoSign => s
  | PlusSign => String "+" s
  | MinusSign => String "-" s
  end.

(** ** Page protections, by letter *)

(** [c] occurs in [s]. *)
Definition occursb (c : ascii) (s : string) : bool :=
  existsb (Ascii.eqb c) (list_ascii_of_string s).

(** The flags whose letters occur in [s]. *)
Definition flags_of (s : string) : Z :=
  Z.lor (if occursb "r" s then GUM_PAGE_READ else 0)
    (Z.lor (if occursb "w" s then GUM_PAGE_WRITE else 0)
       (if occursb "x" s then GUM_PAGE_EXECUTE else 0)).

(** ** Throwing a [GError] *)

Section MaybeThrow.

Variable unicode_isupper : Z -> bool.
Variable unicode_tolower : Z -> Z.

(** [_gum_v8_maybe_throw]: whether it threw, and the exception it handed
    to [Isolate::ThrowException]. *)
Definition _gum_v8_maybe_throw (error : option string)
  : Completion (bool * option Value) :=
  let* value := _gum_v8_error_new_take_error unicode_isupper unicode_tolower error in
  if IsNull value then Done (false, None) else Done (true, Some value).

End MaybeThrow.

(** ** Building result objects *)

(** [Object::New (isolate)]: an ordinary object with no property. *)
Definition Object_New : Value := Object Ordinary [] [].

(** [Object::Set (context, key, value)] on the named properties of an
    object whose properties are plain data properties, as those of an
    object made by [Object::New] and filled by [Set] are: the property is
    overwritten where it stands, or added after the others, and the call
    succeeds. *)
Fixpoint Object_Set (named : list (string * Maybe Value)) (key : string) (value : Value)
  : list (string * Maybe Value) :=
  match named with
  | [] => [(key, Just value)]
  | (k, r) :: rest =>
      if String.eqb k key then (k, Just value) :: rest
      else (k, r) :: Object_Set rest key value
  end.

(** [Integer::New] and [Integer::NewFromUnsigned]: an integer of 32 bits is
    a double, exactly.  The mantissa is left as it is; [rational] reads it
    as it reads the normal form. *)
Definition Integer_New (value : Z) : Value :=
  Number (match value with
          | Z0 => S754_zero false
          | Zpos m => S754_finite false m 0
          | Zneg m => S754_finite true m 0
          end).

(** [(gint) v] and [(guint) v], which the compiler applies to an argument
    of a wider type. *)
Definition wrap_int (z : Z) : Z := (z + 2 ^ 31) mod 2 ^ 32 - 2 ^ 31.
Definition wrap_uint (z : Z) : Z := z mod 2 ^ 32.

(** The setters work on the object in place; an object under construction
    is given by its named properties.  Each returns the properties
    afterwards; the [gboolean] it also returns is [TRUE] on such an
    object. *)

(** [_gum_v8_object_set]; the key is made a string by
    [_gum_v8_string_new_ascii]. *)
Definition _gum_v8_object_set (object : list (string * Maybe Value)) (key : string)
    (value : Value) : list (string * Maybe Value) :=
  Object_Set object (Utf8Value (_gum_v8_string_new_ascii key)) value.

(** [_gum_v8_object_set_int] *)
Definition _gum_v8_object_set_int (object : list (string * Maybe Value)) (key : string)
    (value : Z) : list (string * Maybe Value) :=
  _gum_v8_object_set object key (Integer_New (wrap_int value)).

(** [_gum_v8_object_set_uint] *)
Definition _gum_v8_object_set_uint (object : list (string * Maybe Value)) (key : string)
    (value : Z) : list (string * Maybe Value) :=
  _gum_v8_object_set object key (Integer_New (wrap_uint value)).

(** [_gum_v8_object_set_pointer], for a [gpointer] and for a [GumAddress] *)
Definition _gum_v8_object_set_pointer (object : list (string * Maybe Value))
    (key : string) (value : Z) : list (string * Maybe Value) :=
  _gum_v8_object_set object key (_gum_v8_native_pointer_new value).

(** [_gum_v8_object_set_uint64] *)
Definition _gum_v8_object_set_uint64 (object : list (string * Maybe Value))
    (key : string) (value : Z) : list (string * Maybe Value) :=
  _gum_v8_object_set object key (_gum_v8_uint64_new value).

(** [_gum_v8_object_set_ascii] *)
Definition _gum_v8_object_set_ascii (object : list (string * Maybe Value))
    (key : string) (value : string) : list (string * Maybe Value) :=
  _gum_v8_object_set object key (_gum_v8_string_new_ascii value).

(** [_gum_v8_object_set_utf8] *)
Definition _gum_v8_object_set_utf8 (object : list (string * Maybe Value))
    (key : string) (value : string) : list (string * Maybe Value) :=
  _gum_v8_object_set object key (Str (c_str value)).

(** [_gum_v8_object_set_page_protection] *)
Definition _gum_v8_object_set_page_protection (object : list (string * Maybe Value))
    (key : string) (prot : Z) : list (string * Maybe Value) :=
  _gum_v8_object_set object key (_gum_v8_page_protection_new prot).

(** [GumFileMapping] and [GumRangeDetails] are declared in [gummemory.h],
    which is not among the sources; the fields are those the code reads,
    and [file] is [None] for a NULL pointer. *)
Record GumFileMapping : Type := mkFileMapping {
  file_path : string;
  file_offset : Z;
  file_size : Z
}.

Record GumRangeDetails : Type := mkRangeDetails {
  details_range : GumMemoryRange;
  details_protection : Z;
  details_file : option GumFileMapping
}.

(** [_gum_v8_range_details_new] *)
Definition _gum_v8_range_details_new (details : GumRangeDetails) : Value :=
  let range := [] in
  let range :=
    _gum_v8_object_set_pointer range "base" (base_address (details_range details)) in
  let range := _gum_v8_object_set_uint range "size" (size (details_range details)) in
  let range :=
    _gum_v8_object_set_page_protection range "protection" (details_protection details) in
  let range :=
    match details_file details with
    | Some f =>
        let file := [] in
        let file := _gum_v8_object_set_utf8 file "path" (file_path f) in
        let file := _gum_v8_object_set_uint file "offset" (file_offset f) in
        let file := _gum_v8_object_set_uint file "size" (file_size f) in
        _gum_v8_object_set range "file" (Object Ordinary [] file)
    | None => range
    end in
  Object Ordinary [] range.

(** The properties of the object [_gum_v8_range_details_new] returns. *)
Definition range_properties (details : GumRangeDetails) : list (string * Maybe Value) :=
  match _gum_v8_range_details_new details with
  | Object _ _ named => named
  | _ => []
  end.

(** ** Names of enumerators *)

(** The enumerations are declared in headers that are not among the
    sources; each is given by the enumerators the code names, and any other
    value of the underlying integer. *)
Inductive GumExceptionType : Type :=
| GUM_EXCEPTION_ABORT
| GUM_EXCEPTION_ACCESS_VIOLATION
| GUM_EXCEPTION_GUARD_PAGE
| GUM_EXCEPTION_ILLEGAL_INSTRUCTION
| GUM_EXCEPTION_STACK_OVERFLOW
| GUM_EXCEPTION_ARITHMETIC
| GUM_EXCEPTION_BREAKPOINT
| GUM_EXCEPTION_SINGLE_STEP
| GUM_EXCEPTION_SYSTEM
| GumExceptionType_other (value : Z).

Inductive GumThreadState : Type :=
| GUM_THREAD_RUNNING
| GUM_THREAD_STOPPED
| GUM_THREAD_WAITING
| GUM_THREAD_UNINTERRUPTIBLE
| GUM_THREAD_HALTED
| GumThreadState_other (value : Z).

Inductive GumMemoryOperation : Type :=
| GUM_MEMOP_INVALID
| GUM_MEMOP_READ
| GUM_MEMOP_WRITE
| GUM_MEMOP_EXECUTE
| GumMemoryOperation_other (value : Z).

(** [gum_exception_type_to_string]; [None] is [g_assert_not_reached]. *)
Definition gum_exception_type_to_string (type : GumExceptionType) : option string :=
  match type with
  | GUM_EXCEPTION_ABORT => Some "abort"%string
  | GUM_EXCEPTION_ACCESS_VIOLATION => Some "access-violation"%string
  | GUM_EXCEPTION_GUARD_PAGE => Some "guard-page"%string
  | GUM_EXCEPTION_ILLEGAL_INSTRUCTION => Some "illegal-instruction"%string
  | GUM_EXCEPTION_STACK_OVERFLOW => Some "stack-overflow"%string
  | GUM_EXCEPTION_ARITHMETIC => Some "arithmetic"%string
  | GUM_EXCEPTION_BREAKPOINT => Some "breakpoint"%string
  | GUM_EXCEPTION_SINGLE_STEP => Some "single-step"%string
  | GUM_EXCEPTION_SYSTEM => Some "system"%string
  | GumExceptionType_other _ => None
  end.

(** [_gum_v8_thread_state_to_string] *)
Definition _gum_v8_thread_state_to_string (state : GumThreadState) : option string :=
  match state with
  | GUM_THREAD_RUNNING => Some "running"%string
  | GUM_THREAD_STOPPED => Some "stopped"%string
  | GUM_THREAD_WAITING => Some "waiting"%string
  | GUM_THREAD_UNINTERRUPTIBLE => Some "uninterruptible"%string
  | GUM_THREAD_HALTED => Some "halted"%string
  | GumThreadState_other _ => None
  end.

(** [_gum_v8_memory_operation_to_string] *)
Definition _gum_v8_memory_operation_to_string (operation : GumMemoryOperation)
  : option string :=
  match operation with
  | GUM_MEMOP_INVALID => Some "invalid"%string
  | GUM_MEMOP_READ => Some "read"%string
  | GUM_MEMOP_WRITE => Some "write"%string
  | GUM_MEMOP_EXECUTE => Some "execute"%string
  | GumMemoryOperation_other _ => None
  end.

(** ** Native exceptions *)

(** [GumExceptionDetails], by the fields the code reads; [details_context]
    is the address of the register structure embedded in it. *)
Record GumExceptionMemoryDetails : Type := mkMemoryDetails {
  memory_operation : GumMemoryOperation;
  memory_address : Z
}.

Record GumExceptionDetails : Type := mkExceptionDetails {
  details_type : GumExceptionType;
  details_address : Z;
  details_memory : GumExceptionMemoryDetails;
  details_context : Z;
  details_native_context : Z
}.

Section ExceptionDetails.

(** [gum_exception_details_to_string] is Gum's. *)
Variable gum_exception_details_to_string : GumExceptionDetails -> string.

(** [_gum_v8_parse_exception_details]: the exception, the identity of the
    CPU-context object, which is mutable and aliases the register structure
    of [details], and the objects afterwards; [None] when an assertion
    fails.  The [context] property of the exception is that object. *)
Definition _gum_v8_parse_exception_details (details : GumExceptionDetails)
    (s : Snapshots) : option (Value * positive * Snapshots) :=
  let message := gum_exception_details_to_string details in
  match Exception_Error message with
  | Object kind indexed ex =>
      match gum_exception_type_to_string (details_type details) with
      | None => None
      | Some type =>
          let ex := _gum_v8_object_set_ascii ex "type" type in
          let ex := _gum_v8_object_set_pointer ex "address" (details_address details) in
          let md := details_memory details in
          let after_memory :=
            match memory_operation md with
            | GUM_MEMOP_INVALID => Some ex
            | operation =>
                match _gum_v8_memory_operation_to_string operation with
                | None => None
                | Some name =>
                    let memory := [] in
                    let memory := _gum_v8_object_set_ascii memory "operation" name in
                    let memory :=
                      _gum_v8_object_set_pointer memory "address" (memory_address md) in
                    Some (_gum_v8_object_set ex "memory" (Object Ordinary [] memory))
                end
            end in
          match after_memory with
          | None => None
          | Some ex =>
              let '(context, s) :=
                _gum_v8_cpu_context_new_mutable (details_context details) s in
              match objects s !! context with
              | Some context_value =>
                  let ex := _gum_v8_object_set ex "context" context_value in
                  let ex :=
                    _gum_v8_object_set_pointer ex "nativeContext"
                      (details_native_context details) in
                  Some (Object kind indexed ex, context, s)
              | None => None
              end
          end
      end
  | _ => None
  end.

End ExceptionDetails.

(** * Memory, byte by byte *)

(** [n] bytes of [v] stored at [p], and read back. *)
Fixpoint store_bytes (n : nat) (m : Z -> Z) (p v : Z) : Z -> Z :=
  match n with
  | O => m
  | S n' => store_bytes n' (fun a => if a =? p then v mod 256 else m a) (p + 1) (v / 256)
  end.

Fixpoint load_bytes (n : nat) (m : Z -> Z) (p : Z) : Z :=
  match n with
  | O => 0
  | S n' => m p + 256 * load_bytes n' m (p + 1)
  end.

(** * The bump allocator of [src/gum/dlmalloc.c]

    One static buffer of 128 MiB and an offset into it.  Addresses are
    64 bits wide, and pointer arithmetic is that of the machine: flat,
    modulo 2^64.  Memory is given byte by byte; a [size_t] takes eight
    bytes, least significant first. *)

Module dlmalloc.

Definition BUFFER_SIZE : Z := Z.shiftl 128 20.
Definition sizeof_size_t : Z := 8.
Definition NULL : Z := 0.

(** [*(size_t * ) p = v] and [*(const size_t * ) p] *)
Definition store_size_t (m : Z -> Z) (p v : Z) : Z -> Z := store_bytes 8 m p v.
Definition load_size_t (m : Z -> Z) (p : Z) : Z := load_bytes 8 m p.

(** [memset (p, c, n)] *)
Definition memset (m : Z -> Z) (p c n : Z) : Z -> Z :=
  fun a => if (p <=? a) && (a <? p + n) then c else m a.

(** [memcpy (dst, src, n)], the two regions apart *)
Definition memcpy (m : Z -> Z) (dst src n : Z) : Z -> Z :=
  fun a => if (dst <=? a) && (a <? dst + n) then m (src + (a - dst)) else m a.

(** The state of the program the allocator works on: memory, the offset,
    and the lines written by [puts]. *)
Record State : Type := mkState {
  memory : Z -> Z;
  static_offset : Z;
  output : list string
}.

(** The fields of [struct mallinfo] the code sets; the others are zero. *)
Record mallinfo : Type := mkMallinfo {
  uordblks : Z;
  fordblks : Z
}.

Section Allocator.

(** Where the linker has put [static_buffer]. *)
Variable static_buffer : Z.

(** [create_mspace] *)
Definition create_mspace (capacity locked : Z) (s : State) : Z * State :=
  (1, mkState (memory s) 0 (output s)).

(** [destroy_mspace] *)
Definition destroy_mspace (msp : Z) (s : State) : Z * State :=
  let used := static_offset s in
  (used, mkState (memory s) 0 (output s)).

(** [mspace_mallinfo] *)
Definition mspace_mallinfo (msp : Z) (s : State) : mallinfo :=
  mkMallinfo (wrap_int (static_offset s))
    (wrap_int (wrap_uint64 (BUFFER_SIZE - static_offset s))).

(** [mspace_malloc] *)
Definition mspace_malloc (msp bytes : Z) (s : State) : Z * State :=
  let start := wrap_uint64 (static_buffer + static_offset s + sizeof_size_t) in
  let end_ := wrap_uint64 (start + bytes) in
  let end_offset := wrap_uint64 (end_ - static_buffer) in
  if end_offset >? BUFFER_SIZE then
    (NULL, mkState (memory s) (static_offset s) (output s ++ ["OOM"%string]))
  else
    (start,
     mkState (store_size_t (memory s) (wrap_uint64 (start - sizeof_size_t)) bytes)
       end_offset (output s)).

(** [mspace_calloc] *)
Definition mspace_calloc (msp n_elements elem_size : Z) (s : State) : Z * State :=
  let total := wrap_uint64 (n_elements * elem_size) in
  let '(ptr, s) := mspace_malloc msp total s in
  if ptr =? NULL then (ptr, s)
  else (ptr, mkState (memset (memory s) ptr 0 total) (static_offset s) (output s)).

(** [mspace_usable_size] *)
Definition mspace_usable_size (mem : Z) (s : State) : Z :=
  if mem =? NULL then 0
  else load_size_t (memory s) (wrap_uint64 (mem - sizeof_size_t)).

(** [mspace_realloc] *)
Definition mspace_realloc (msp oldmem bytes : Z) (s : State) : Z * State :=
  if oldmem =? NULL then mspace_malloc msp bytes s
  else
    let old_size := mspace_usable_size oldmem s in
    let '(newmem, s) := mspace_malloc msp bytes s in
    if newmem =? NULL then (newmem, s)
    else
      (newmem,
       mkState (memcpy (memory s) newmem oldmem (if old_size <? bytes then old_size else bytes))
         (static_offset s) (output s)).

(** [mspace_memalign] *)
Definition mspace_memalign (msp alignment bytes : Z) (s : State) : Z * State :=
  let start := wrap_uint64 (static_buffer + static_offset s + sizeof_size_t) in
  let aligned :=
    Z.land (wrap_uint64 (start + alignment - 1))
      (wrap_uint64 (Z.lnot (wrap_uint64 (alignment - 1)))) in
  let end_ := wrap_uint64 (aligned + bytes + sizeof_size_t) in
  let end_offset := wrap_uint64 (end_ - static_buffer) in
  if end_offset >? BUFFER_SIZE then
    (NULL, mkState (memory s) (static_offset s) (output s ++ ["OOM"%string]))
  else
    (aligned,
     mkState (store_size_t (memory s) (wrap_uint64 (aligned - sizeof_size_t)) bytes)
       end_offset (output s)).

(** [mspace_free] *)
Definition mspace_free (msp mem : Z) (s : State) : State := s.

(** A call of the allocator, and what it returns: a pointer, or nothing
    for [mspace_free]. *)
Inductive Call : Type :=
| Malloc (bytes : Z)
| Calloc (n_elements elem_size : Z)
| Realloc (oldmem bytes : Z)
| Memalign (alignment bytes : Z)
| Free (mem : Z).

Definition call (c : Call) (s : State) : option Z * State :=
  match c with
  | Malloc bytes => let '(p, s) := mspace_malloc 1 bytes s in (Some p, s)
  | Calloc n_elements elem_size =>
      let '(p, s) := mspace_calloc 1 n_elements elem_size s in (Some p, s)
  | Realloc oldmem bytes => let '(p, s) := mspace_realloc 1 oldmem bytes s in (Some p, s)
  | Memalign alignment bytes =>
      let '(p, s) := mspace_memalign 1 alignment bytes s in (Some p, s)
  | Free mem => (None, mspace_free 1 mem s)
  end.

(** The blocks a run of calls hands out, oldest first, each with the size
    asked for, and the state afterwards. *)
Definition requested (c : Call) : Z :=
  match c with
  | Malloc bytes => bytes
  | Calloc n_elements elem_size => wrap_uint64 (n_elements * elem_size)
  | Realloc _ bytes => bytes
  | Memalign _ bytes => bytes
  | Free _ => 0
  end.

Fixpoint run (calls : list Call) (s : State) : list (Z * Z) * State :=
  match calls with
  | [] => ([], s)
  | c :: rest =>
      let '(result, s) := call c s in
      let '(blocks, s') := run rest s in
      (match result with
       | Some p => if p =? NULL then blocks else (p, requested c) :: blocks
       | None => blocks
       end, s')
  end.

End Allocator.

(** The sizes a caller may ask for without the end of the block wrapping
    around the address space, and the alignments: powers of two up to
    2^32. *)
Definition modest (c : Call) : Prop :=
  match c with
  | Malloc bytes => 0 <= bytes < 2 ^ 62
  | Calloc n_elements elem_size =>
      0 <= n_elements /\ 0 <= elem_size /\ n_elements * elem_size < 2 ^ 62
  | Realloc oldmem bytes => 0 <= bytes < 2 ^ 62
  | Memalign alignment bytes =>
      (exists k, 0 <= k <= 32 /\ alignment = 2 ^ k) /\ 0 <= bytes < 2 ^ 62
  | Free _ => True
  end.

(** The offset is within the buffer. *)
Definition within (s : State) : Prop := 0 <= static_offset s <= BUFFER_SIZE.

(** The sizes of blocks and their headers, summed. *)
Definition footprint (blocks : list (Z * Z)) : Z :=
  fold_right (fun b total => snd b + sizeof_size_t + total) 0 blocks.

End dlmalloc.

(** * The guard-page allocator of [src/unnamed/part_002]

    Every block is a mapping of its own, with a page that cannot be
    accessed below it and one above.  Addresses are 64 bits wide and
    address arithmetic is flat, modulo 2^64; a [size_t] takes eight
    bytes, least significant first.  The protection of each mapped page
    is kept by page number, and an access to a page that does not allow it
    ends the program. *)

Module part_002.

Definition PAGE_SIZE : Z := 4096.
Definition sizeof_size_t : Z := 8.
Definition NULL : Z := 0.

(** The protection bits of [<sys/mman.h>]. *)
Definition PROT_NONE : Z := 0.
Definition PROT_READ : Z := 1.
Definition PROT_WRITE : Z := 2.

Record State : Type := mkState {
  memory : Z -> Z;           (* the byte at each address *)
  pages : gmap Z Z           (* the protection of each mapped page, by number *)
}.

(** How a call ends: it returns, or an access faults, or an [assert]
    fails. *)
Inductive Outcome (A : Type) : Type :=
| Returned (a : A) (s : State)
| Segfault
| Aborted.

Arguments Returned {A} a s.
Arguments Segfault {A}.
Arguments Aborted {A}.

Definition andthen {A B : Type} (o : Outcome A) (k : A -> State -> Outcome B)
  : Outcome B :=
  match o with
  | Returned a s => k a s
  | Segfault => Segfault
  | Aborted => Aborted
  end.

(** [~(uintptr_t) (a - 1)], the mask of the multiples of [a]. *)
Definition mask (a : Z) : Z := wrap_uint64 (Z.lnot (wrap_uint64 (a - 1))).

(** [count] pages from page [first] on are given the protection [prot]:
    by [mmap], which maps them, and by [mprotect], which leaves a page that
    is not mapped as it is. *)
Fixpoint map_pages (first : Z) (count : nat) (prot : Z) (m : gmap Z Z) : gmap Z Z :=
  match count with
  | O => m
  | S count' => <[first := prot]> (map_pages (first + 1) count' prot m)
  end.

Fixpoint protect_pages (first : Z) (count : nat) (prot : Z) (m : gmap Z Z)
  : gmap Z Z :=
  match count with
  | O => m
  | S count' => alter (fun _ => prot) first (protect_pages (first + 1) count' prot m)
  end.

(** Every one of [count] pages from [first] on is mapped and allows the
    access [bit]. *)
Fixpoint pages_allow (bit : Z) (first : Z) (count : nat) (m : gmap Z Z) : bool :=
  match count with
  | O => true
  | S count' =>
      match m !! first with
      | Some prot => negb (Z.land prot bit =? 0) && pages_allow bit (first + 1) count' m
      | None => false
      end
  end.

(** The pages the [n] bytes at [p] lie on. *)
Definition first_page (p : Z) : Z := p / PAGE_SIZE.
Definition page_count (p n : Z) : nat :=
  if n <=? 0 then O else Z.to_nat ((p + n - 1) / PAGE_SIZE - p / PAGE_SIZE + 1).

(** The [n] bytes at [p] may be accessed for [bit]. *)
Definition accessible (bit : Z) (p n : Z) (s : State) : bool :=
  pages_allow bit (first_page p) (page_count p n) (pages s).

(** [*(size_t * ) p = v] *)
Definition store_size_t (p v : Z) (s : State) : Outcome unit :=
  if accessible PROT_WRITE p sizeof_size_t s
  then Returned tt (mkState (store_bytes 8 (memory s) p v) (pages s))
  else Segfault.

(** [*(const size_t * ) p] *)
Definition load_size_t (p : Z) (s : State) : Outcome Z :=
  if accessible PROT_READ p sizeof_size_t s
  then Returned (load_bytes 8 (memory s) p) s
  else Segfault.

(** [memset (p, c, n)] *)
Definition memset (p c n : Z) (s : State) : Outcome unit :=
  if accessible PROT_WRITE p n s
  then Returned tt
         (mkState (fun a => if (p <=? a) && (a <? p + n) then c else memory s a) (pages s))
  else Segfault.

(** [memcpy (dst, src, n)], the two regions apart *)
Definition memcpy (dst src n : Z) (s : State) : Outcome unit :=
  if accessible PROT_READ src n s && accessible PROT_WRITE dst n s
  then Returned tt
         (mkState (fun a => if (dst <=? a) && (a <? dst + n)
                            then memory s (src + (a - dst)) else memory s a)
            (pages s))
  else Segfault.

(** [mprotect (addr, len, prot)], whose result the code does not look at:
    an address that is not a multiple of the page size is refused. *)
Definition mprotect (addr len prot : Z) (s : State) : State :=
  if addr mod PAGE_SIZE =? 0
  then mkState (memory s)
         (protect_pages (first_page addr) (page_count addr len) prot (pages s))
  else s.

(** The fields of [struct mallinfo] are all zero. *)
Record mallinfo : Type := mkMallinfo {
  uordblks : Z;
  fordblks : Z
}.

Section Allocator.

(** Where the kernel puts a new mapping of a given length, if it makes
    one. *)
Variable kernel_places : State -> Z -> option Z.

(** [mmap (NULL, length, PROT_READ | PROT_WRITE, MAP_PRIVATE |
    MAP_ANONYMOUS, -1, 0)]: [None] is [MAP_FAILED]; the pages of a new
    mapping read as zero. *)
Definition mmap (length : Z) (s : State) : option Z * State :=
  match kernel_places s length with
  | Some ptr =>
      (Some ptr,
       mkState (fun a => if (ptr <=? a) && (a <? ptr + length) then 0 else memory s a)
         (map_pages (first_page ptr) (page_count ptr length)
            (Z.lor PROT_READ PROT_WRITE) (pages s)))
  | None => (None, s)
  end.

(** [create_mspace] *)
Definition create_mspace (capacity locked : Z) : Z := NULL.

(** [destroy_mspace] *)
Definition destroy_mspace (msp : Z) : Z := 0.

(** [mspace_mallinfo] *)
Definition mspace_mallinfo (msp : Z) : mallinfo := mkMallinfo 0 0.

(** [mspace_usable_size] *)
Definition mspace_usable_size (mem : Z) (s : State) : Outcome Z :=
  if mem =? NULL then Returned 0 s
  else load_size_t (wrap_uint64 (mem - sizeof_size_t)) s.

(** The sizes [mspace_memalign] works out: [aligned_size], and
    [total_size] by way of [user_size] and [aligned_total_size]. *)
Definition aligned_size (alignment bytes : Z) : Z :=
  Z.land (wrap_uint64 (bytes + alignment - 1)) (mask alignment).

Definition total_size (alignment bytes : Z) : Z :=
  let user_size := wrap_uint64 (aligned_size alignment bytes + sizeof_size_t) in
  let aligned_total_size :=
    Z.land (wrap_uint64 (user_size + PAGE_SIZE - 1)) (mask PAGE_SIZE) in
  wrap_uint64 (aligned_total_size + 2 * PAGE_SIZE).

(** [mspace_memalign] *)
Definition mspace_memalign (msp alignment bytes : Z) (s : State) : Outcome Z :=
  let aligned_size := aligned_size alignment bytes in
  let total_size := total_size alignment bytes in
  match mmap total_size s with
  | (None, s) => Returned NULL s
  | (Some ptr, s) =>
      let s := mprotect ptr PAGE_SIZE PROT_NONE s in
      let s :=
        mprotect (wrap_uint64 (ptr + wrap_uint64 (total_size - PAGE_SIZE))) PAGE_SIZE
          PROT_NONE s in
      let buf := wrap_uint64 (ptr + wrap_uint64 (total_size - PAGE_SIZE - aligned_size)) in
      andthen (store_size_t (wrap_uint64 (buf - sizeof_size_t)) bytes s) (fun _ s =>
      if negb (Z.land buf (wrap_uint64 (alignment - 1)) =? 0) then Aborted
      else
        andthen (mspace_usable_size buf s) (fun size s =>
        if negb (size =? bytes) then Aborted
        else andthen (memset buf 0 bytes s) (fun _ s => Returned buf s)))
  end.

(** [mspace_malloc] *)
Definition mspace_malloc (msp bytes : Z) (s : State) : Outcome Z :=
  mspace_memalign msp 8 bytes s.

(** [mspace_calloc] *)
Definition mspace_calloc (msp n_elements elem_size : Z) (s : State) : Outcome Z :=
  let total := wrap_uint64 (n_elements * elem_size) in
  andthen (mspace_malloc msp total s) (fun ptr s =>
  if ptr =? NULL then Returned ptr s
  else andthen (memset ptr 0 total s) (fun _ s => Returned ptr s)).

(** [mspace_realloc] *)
Definition mspace_realloc (msp oldmem bytes : Z) (s : State) : Outcome Z :=
  if oldmem =? NULL then mspace_malloc msp bytes s
  else
    andthen (mspace_usable_size oldmem s) (fun old_size s =>
    andthen (mspace_malloc msp bytes s) (fun newmem s =>
    if newmem =? NULL then Returned newmem s
    else
      andthen (memcpy newmem oldmem (if old_size <? bytes then old_size else bytes) s)
        (fun _ s => Returned newmem s))).

(** [mspace_free] *)
Definition mspace_free (msp mem : Z) (s : State) : Outcome unit :=
  andthen (mspace_usable_size mem s) (fun bytes s =>
  let page_aligned_start := Z.land mem (mask PAGE_SIZE) in
  let page_aligned_end :=
    Z.land (wrap_uint64 (mem + bytes + PAGE_SIZE - 1)) (mask PAGE_SIZE) in
  Returned tt
    (mprotect page_aligned_start (wrap_uint64 (page_aligned_end - page_aligned_start))
       PROT_NONE s)).

End Allocator.

(** What is expected of the kernel: a new mapping starts on a page, lies
    in the lower half of the address space and above address zero, and
    takes pages that were not mapped. *)
Definition kernel_behaves (kernel_places : State -> Z -> option Z) : Prop :=
  forall s length ptr,
    kernel_places s length = Some ptr ->
    0 < ptr /\ ptr mod PAGE_SIZE = 0 /\ ptr + length <= 2 ^ 63 /\
    forall page, ptr <= page * PAGE_SIZE < ptr + length -> pages s !! page = None.

(** The protection of the page an address lies on. *)
Definition protection (a : Z) (s : State) : option Z := pages s !! first_page a.

(** Where [mspace_memalign] puts the block in a mapping at [ptr]. *)
Definition block_address (ptr alignment bytes : Z) : Z :=
  ptr + total_size alignment bytes - PAGE_SIZE - aligned_size alignment bytes.

(** The state [mspace_memalign] leaves when the kernel has put the mapping
    at [ptr]: the mapping reads as zero but for the header; its pages can
    be read and written, but for the first and the last. *)
Definition block_state (ptr alignment bytes : Z) (s : State) : State :=
  let length := total_size alignment bytes in
  let buf := block_address ptr alignment bytes in
  mkState
    (fun a =>
       if (buf <=? a) && (a <? buf + bytes) then 0
       else store_bytes 8
              (fun a => if (ptr <=? a) && (a <? ptr + length) then 0 else memory s a)
              (buf - sizeof_size_t) bytes a)
    (protect_pages (first_page (ptr + length - PAGE_SIZE)) 1 PROT_NONE
       (protect_pages (first_page ptr) 1 PROT_NONE
          (map_pages (first_page ptr) (Z.to_nat (length / PAGE_SIZE))
             (Z.lor PROT_READ PROT_WRITE) (pages s)))).

(** A kernel for the examples: it puts a mapping at the second page when
    the pages it takes are not mapped, and makes no other. *)
Fixpoint pages_unmapped (first : Z) (count : nat) (m : gmap Z Z) : bool :=
  match count with
  | O => true
  | S count' =>
      match m !! first with
      | None => pages_unmapped (first + 1) count' m
      | Some _ => false
      end
  end.

Definition first_fit (s : State) (length : Z) : option Z :=
  if (0 <? length) && (length <=? 2 ^ 62)
     && pages_unmapped 1 (page_count PAGE_SIZE length) (pages s)
  then Some PAGE_SIZE else None.

End part_002.

(** * Proofs *)

(** * Page-protection strings *)

Lemma page_protection_new_form (prot : Z) :
  exists s, _gum_v8_page_protection_new prot = Str s /\ page_protection_form s = true.
Proof.
  unfold _gum_v8_page_protection_new, _gum_v8_string_new_ascii.
  destruct (Z.land prot GUM_PAGE_READ =? 0), (Z.land prot GUM_PAGE_WRITE =? 0),
    (Z.land prot GUM_PAGE_EXECUTE =? 0); eexists; split; reflexivity.
Qed.

Lemma land_single_bit (p k : Z) :
  0 <= k -> Z.land p (2 ^ k) = 0 \/ Z.land p (2 ^ k) = 2 ^ k.
Proof.
  intros Hk.
  destruct (Z.testbit p k) eqn:Hb; [right|left]; apply Z.bits_inj'; intros n Hn;
    rewrite Z.land_spec; destruct (Z.eq_dec n k) as [->|Hne].
  - rewrite Hb. reflexivity.
  - rewrite (Z.pow2_bits_false k n) by lia. apply andb_false_r.
  - rewrite Hb, Z.bits_0. reflexivity.
  - rewrite (Z.pow2_bits_false k n) by lia. rewrite Z.bits_0. apply andb_false_r.
Qed.

(** A string in the textual form has no NUL, so it is its own C string. *)
Lemma page_protection_form_c_str (s : string) :
  page_protection_form s = true -> c_str s = s.
Proof.
  destruct s as [|a [|b [|c [|d s]]]]; simpl; try discriminate.
  intros H. apply andb_prop in H as [H Hc]. apply andb_prop in H as [Ha Hb].
  apply orb_prop in Ha, Hb, Hc.
  destruct Ha as [Ha|Ha], Hb as [Hb|Hb], Hc as [Hc|Hc];
    apply Ascii.eqb_eq in Ha, Hb, Hc; subst; reflexivity.
Qed.

Lemma protection_char_cases (c : ascii) :
  protection_char c = true ->
  c = "r"%char \/ c = "w"%char \/ c = "x"%char \/ c = "-"%char.
Proof.
  unfold protection_char. intros H.
  repeat (apply orb_prop in H as [H|H]); apply Ascii.eqb_eq in H; auto.
Qed.

Lemma page_protection_scan_accepts (s : string) (prot : Z) :
  string_forallb protection_char s = true ->
  exists prot', page_protection_scan s prot = Done prot'.
Proof.
  revert prot. induction s as [|c s IH]; intros prot H; simpl in *.
  - eauto.
  - apply andb_prop in H as [Hc Hs].
    destruct (protection_char_cases c Hc) as [-> | [-> | [-> | ->]]]; simpl; auto.
Qed.

Lemma page_protection_scan_rejects (s : string) (prot : Z) :
  string_forallb protection_char s = false ->
  page_protection_scan s prot =
    Thrown "invalid character in memory protection specifier string".
Proof.
  revert prot. induction s as [|c s IH]; intros prot H; simpl in *.
  - discriminate.
  - destruct (protection_char c) eqn:Hc; simpl in H.
    + destruct (protection_char_cases c Hc) as [-> | [-> | [-> | ->]]]; simpl; auto.
    + clear IH H. unfold protection_char in Hc.
      destruct c as [[] [] [] [] [] [] [] []]; try reflexivity; discriminate.
Qed.

(** C9, as stated, for the parsing direction: whatever string
    [_gum_v8_page_protection_get] accepts would be in the three-character
    form.  The code accepts the flags in any order and number: ["xr"] and
    the empty string are both accepted. *)
Lemma page_protection_get_accepts_other_strings :
  ~ (forall s prot, _gum_v8_page_protection_get (Str s) = Done prot ->
                    page_protection_form s = true).
Proof.
  intros H. specialize (H "xr"%string 5 eq_refl). discriminate.
Qed.

(** C9, amended.  [_gum_v8_page_protection_new] gives, for every flag set,
    a string of exactly three characters, read/write/execute in that order,
    each its letter or a dash; [_gum_v8_page_protection_get] accepts every
    string of that form, and reads back from the string made for [prot] the
    read, write and execute bits of [prot]; it accepts a string exactly when
    each character of it is one of [r], [w], [x] and [-], whatever their
    number and order, throws on a string with any other character, and
    throws on a value that is not a string. *)
Theorem page_protection_strings :
  (forall prot, exists s,
      _gum_v8_page_protection_new prot = Str s /\ page_protection_form s = true) /\
  (forall s, page_protection_form s = true ->
      exists prot, _gum_v8_page_protection_get (Str s) = Done prot) /\
  (forall prot,
      _gum_v8_page_protection_get (_gum_v8_page_protection_new prot)
      = Done (Z.land prot 7)) /\
  (forall s,
      (exists prot, _gum_v8_page_protection_get (Str s) = Done prot)
      <-> string_forallb protection_char (c_str s) = true) /\
  (forall s, string_forallb protection_char (c_str s) = false ->
      _gum_v8_page_protection_get (Str s)
      = Thrown "invalid character in memory protection specifier string") /\
  (forall v, IsString v = false ->
      _gum_v8_page_protection_get v
      = Thrown "expected a string specifying memory protection").
Proof.
  split; [exact page_protection_new_form|].
  split.
  { intros s H. unfold _gum_v8_page_protection_get; simpl.
    apply page_protection_scan_accepts.
    rewrite (page_protection_form_c_str s H).
    destruct s as [|a [|b [|c [|d s]]]]; simpl in *; try discriminate.
    unfold protection_char.
    apply andb_prop in H as [H Hc]. apply andb_prop in H as [Ha Hb].
    apply orb_prop in Ha, Hb, Hc.
    destruct Ha as [Ha|Ha], Hb as [Hb|Hb], Hc as [Hc|Hc];
      rewrite Ha, Hb, Hc; rewrite ?orb_true_r; reflexivity. }
  split.
  { intros prot.
    unfold _gum_v8_page_protection_new, _gum_v8_string_new_ascii,
      _gum_v8_page_protection_get, GUM_PAGE_READ, GUM_PAGE_WRITE, GUM_PAGE_EXECUTE.
    assert (Hbits : Z.land prot 7 =
              Z.lor (Z.lor (Z.land prot 1) (Z.land prot 2)) (Z.land prot 4)).
    { rewrite <- !Z.land_lor_distr_r. reflexivity. }
    rewrite Hbits.
    pose proof (land_single_bit prot 0 ltac:(lia)) as H1.
    pose proof (land_single_bit prot 1 ltac:(lia)) as H2.
    pose proof (land_single_bit prot 2 ltac:(lia)) as H4.
    change (2 ^ 0) with 1 in H1. change (2 ^ 1) with 2 in H2.
    change (2 ^ 2) with 4 in H4.
    destruct H1 as [-> | ->], H2 as [-> | ->], H4 as [-> | ->]; reflexivity. }
  split.
  { intros s. unfold _gum_v8_page_protection_get; simpl. split.
    - intros [prot H].
      destruct (string_forallb protection_char (c_str s)) eqn:E; [reflexivity|].
      rewrite (page_protection_scan_rejects _ _ E) in H. discriminate.
    - apply page_protection_scan_accepts. }
  split.
  { intros s H. unfold _gum_v8_page_protection_get; simpl.
    apply page_protection_scan_rejects, H. }
  intros v H. unfold _gum_v8_page_protection_get. rewrite H. reflexivity.
Qed.

(** The amended claim at ["r-x"]: the string is in the form, is accepted,
    and is what is made for the flags read back from it. *)
Lemma page_protection_strings_witness :
  page_protection_form "r-x" = true /\
  (exists prot, _gum_v8_page_protection_get (Str "r-x") = Done prot) /\
  _gum_v8_page_protection_get (_gum_v8_page_protection_new 5) = Done (Z.land 5 7).
Proof.
  split; [reflexivity|]. split.
  - apply (proj1 (proj2 page_protection_strings) "r-x"%string). reflexivity.
  - apply (proj1 (proj2 (proj2 page_protection_strings)) 5).
Defined.

(** * Numeric text: [g_parse_long_long] *)

Lemma skip_space_length (s : string) :
  (String.length (skip_space s) <= String.length s)%nat.
Proof.
  induction s as [|c s IH]; simpl; [lia|].
  destruct (ISSPACE c); simpl; lia.
Qed.

Lemma after_sign_length (s : string) :
  (String.length (after_sign s) <= String.length s)%nat.
Proof.
  destruct s as [|c s]; simpl; [lia|].
  destruct (Ascii.eqb c "-" || Ascii.eqb c "+"); simpl; lia.
Qed.

Lemma scan_digits_length (base : Z) (s : string) (acc : Z) (ov : bool) :
  (String.length (fst (fst (scan_digits base s acc ov))) <= String.length s)%nat.
Proof.
  revert acc ov. induction s as [|c s IH]; intros acc ov; simpl; [lia|].
  destruct (digit_value c) as [d|]; simpl; [|lia].
  destruct (d >=? base); simpl; [lia|].
  destruct ((acc >? G_MAXUINT64 / base)
            || ((acc =? G_MAXUINT64 / base) && (d >? G_MAXUINT64 mod base)));
    [specialize (IH acc true) | specialize (IH (acc * base + d) ov)]; lia.
Qed.

(** The digit loop reads nothing exactly when the text does not start with
    a digit of the base. *)
Lemma scan_digits_nothing (base : Z) (s : string) (acc : Z) (ov : bool) :
  String.length (fst (fst (scan_digits base s acc ov))) = String.length s <->
  match s with String c _ => is_digit base c = false | EmptyString => True end.
Proof.
  destruct s as [|c s]; simpl; [tauto|].
  unfold is_digit. destruct (digit_value c) as [d|]; simpl; [|tauto].
  rewrite Z.geb_leb.
  destruct (Z.leb_spec base d) as [Hge|Hlt]; simpl.
  - split; [intros ?; apply Z.ltb_ge; lia | reflexivity].
  - assert ((d <? base) = true) as -> by (apply Z.ltb_lt; lia).
    split; [|discriminate]. intros H. exfalso.
    destruct ((acc >? G_MAXUINT64 / base)
              || ((acc =? G_MAXUINT64 / base) && (d >? G_MAXUINT64 mod base))).
    + pose proof (scan_digits_length base s acc true). lia.
    + pose proof (scan_digits_length base s (acc * base + d) ov). lia.
Qed.

Lemma is_digit_not_space_or_sign (base : Z) (c : ascii) :
  is_digit base c = true ->
  ISSPACE c = false /\ Ascii.eqb c "-" = false /\ Ascii.eqb c "+" = false.
Proof.
  unfold is_digit. intros H.
  destruct c as [[] [] [] [] [] [] [] []]; try (repeat split; reflexivity);
    vm_compute in H; discriminate.
Qed.

Lemma digit_value_nonneg (c : ascii) (d : Z) : digit_value c = Some d -> 0 <= d.
Proof.
  unfold digit_value, TOUPPER, ISALPHA, ISUPPER, ISLOWER.
  destruct ((48 <=? code c) && (code c <=? 57)) eqn:E1.
  - intros [= <-]. apply andb_prop in E1 as [H _]. apply Z.leb_le in H. lia.
  - destruct ((65 <=? code c) && (code c <=? 90)) eqn:E2; simpl.
    + destruct ((97 <=? code c) && (code c <=? 122)) eqn:E3; intros [= <-];
        apply andb_prop in E2 as [H2 H2']; apply Z.leb_le in H2; lia.
    + destruct ((97 <=? code c) && (code c <=? 122)) eqn:E3; [|discriminate].
      intros [= <-]. lia.
Qed.



Lemma number_prefix_shape (base : Z) (s : string) :
  base = 10 \/ base = 16 ->
  let '(save, base', prefixed) := number_prefix base s in
  base' = base /\
  (prefixed = false -> save = s) /\
  (prefixed = true ->
     (String.length save + 2 = String.length s)%nat /\
     match s with String c _ => c = "0"%char | EmptyString => False end).
Proof.
  intros Hb. unfold number_prefix.
  destruct s as [|c s]; [destruct Hb; subst; simpl; repeat split; discriminate|].
  destruct (Ascii.eqb_spec c "0") as [->|Hc].
  - destruct s as [|x rest].
    + destruct Hb; subst; simpl; repeat split; discriminate.
    + destruct (((base =? 0) || (base =? 16)) && (Ascii.eqb x "x" || Ascii.eqb x "X"))
        eqn:E.
      * destruct Hb; subst; [discriminate|].
        split; [reflexivity|]. split; [discriminate|].
        intros ?. split; [simpl; lia | reflexivity].
      * destruct Hb; subst; simpl; repeat split; discriminate.
  - assert (E : forall k1 k2 k3 : string * Z * bool,
               match c with
               | "0"%char => match s with String x rest => k1 | EmptyString => k2 end
               | _ => k3
               end = k3).
    { intros. destruct c as [[] [] [] [] [] [] [] []]; try reflexivity.
      contradiction Hc; reflexivity. }
    destruct Hb; subst; simpl.
    + destruct c as [[] [] [] [] [] [] [] []]; try (repeat split; discriminate).
      contradiction Hc; reflexivity.
    + destruct c as [[] [] [] [] [] [] [] []]; try (repeat split; discriminate).
      contradiction Hc; reflexivity.
Qed.

(** [g_parse_long_long] converts nothing exactly when, past white space and
    a sign, the text does not go on with a digit of the base. *)
Lemma parsed_end_zero (base : Z) (nptr : string) :
  base = 10 \/ base = 16 ->
  parsed_end (g_parse_long_long nptr base) = O <-> starts_number base nptr = false.
Proof.
  intros Hb. unfold g_parse_long_long, starts_number.
  assert ((base =? 1) || (base >? 36) = false) as -> by (destruct Hb; subst; reflexivity).
  pose proof (skip_space_length nptr) as Hsp.
  destruct (skip_space nptr) as [|c0 after] eqn:Hskip; [simpl; tauto|].
  pose proof (after_sign_length (String c0 after)) as Hsg.
  remember (after_sign (String c0 after)) as sg eqn:Hsgdef. clear Hsgdef.
  pose proof (number_prefix_shape base sg Hb) as Hpre.
  destruct (number_prefix base sg) as [[save base'] prefixed].
  destruct Hpre as (-> & Hno & Hyes).
  pose proof (scan_digits_length base save 0 false) as Hlen.
  pose proof (scan_digits_nothing base save 0 false) as Hnothing.
  destruct (scan_digits base save 0 false) as [[s ui64] overflow].
  cbn [fst] in Hlen, Hnothing. cbn [String.length] in Hsp, Hsg.
  destruct prefixed.
  - destruct (Hyes eq_refl) as [Hl Hzero].
    destruct sg as [|c rest]; [contradiction|]. subst c.
    assert (is_digit base "0" = true) as -> by (destruct Hb; subst; reflexivity).
    split; [|discriminate]. intros H. exfalso. revert H.
    unfold offset_in. cbn [String.length] in *.
    destruct (String.length s =? String.length save)%nat; [|destruct overflow];
      cbn [parsed_end]; lia.
  - rewrite (Hno eq_refl) in *. clear Hno Hyes.
    destruct (Nat.eqb_spec (String.length s) (String.length sg)) as [Heq|Hne];
      cbn [parsed_end].
    + apply Hnothing in Heq. destruct sg; split; auto.
    + assert (Hd : match sg with
                   | String c _ => is_digit base c = true
                   | EmptyString => False
                   end).
      { destruct sg as [|c rest].
        - apply Hne, Hnothing. exact I.
        - destruct (is_digit base c) eqn:E; [reflexivity|].
          exfalso. apply Hne, Hnothing. reflexivity. }
      destruct sg as [|c rest]; [contradiction|].
      rewrite Hd. split; [|discriminate]. intros H. exfalso. revert H.
      unfold offset_in. cbn [String.length] in *. destruct overflow; cbn [parsed_end]; lia.
Qed.

Lemma digits_value_mono (base : Z) (s : string) (acc : Z) :
  1 <= base -> 0 <= acc -> acc <= digits_value base s acc.
Proof.
  intros Hb. revert acc. induction s as [|c s IH]; intros acc Hacc; simpl; [lia|].
  assert (0 <= match digit_value c with Some d => d | None => 0 end).
  { destruct (digit_value c) eqn:E; [eapply digit_value_nonneg; eauto | lia]. }
  etransitivity; [|apply IH]; nia.
Qed.

(** On a string of digits that denotes a number within 64 bits, the digit
    loop reads everything and computes that number. *)
Lemma scan_digits_value (base : Z) (s : string) (acc : Z) :
  base = 10 \/ base = 16 ->
  0 <= acc ->
  string_forallb (is_digit base) s = true ->
  digits_value base s acc <= G_MAXUINT64 ->
  scan_digits base s acc false = (EmptyString, digits_value base s acc, false).
Proof.
  intros Hb. revert acc. induction s as [|c s IH]; intros acc Hacc Hall Hmax; simpl in *.
  - reflexivity.
  - apply andb_prop in Hall as [Hc Hs]. unfold is_digit in Hc.
    destruct (digit_value c) as [d|] eqn:Hd; [|discriminate].
    pose proof (digit_value_nonneg c d Hd) as Hd0.
    apply Z.ltb_lt in Hc.
    assert ((d >=? base) = false) as -> by (rewrite Z.geb_leb; apply Z.leb_gt; lia).
    pose proof (digits_value_mono base s (acc * base + d)
                  ltac:(destruct Hb; lia) ltac:(destruct Hb; nia)) as Hmono.
    assert ((acc >? G_MAXUINT64 / base)
            || ((acc =? G_MAXUINT64 / base) && (d >? G_MAXUINT64 mod base)) = false) as ->.
    { unfold G_MAXUINT64 in *.
      destruct Hb; subst base.
      - change ((2 ^ 64 - 1) / 10) with 1844674407370955161.
        change ((2 ^ 64 - 1) mod 10) with 5.
        apply orb_false_intro; [rewrite Z.gtb_ltb; apply Z.ltb_ge; lia|].
        destruct (Z.eqb_spec acc 1844674407370955161); simpl; [|reflexivity].
        rewrite Z.gtb_ltb; apply Z.ltb_ge; lia.
      - change ((2 ^ 64 - 1) / 16) with 1152921504606846975.
        change ((2 ^ 64 - 1) mod 16) with 15.
        apply orb_false_intro; [rewrite Z.gtb_ltb; apply Z.ltb_ge; lia|].
        destruct (Z.eqb_spec acc 1152921504606846975); simpl; [|reflexivity].
        rewrite Z.gtb_ltb; apply Z.ltb_ge; lia. }
    apply IH; try assumption. destruct Hb; nia.
Qed.

(** [g_parse_long_long] on a literal within 64 bits: all of it is read, as
    the number it denotes, with no sign. *)
Lemma g_parse_long_long_literal (base : Z) (s : string) :
  base = 10 \/ base = 16 ->
  literal base s = true ->
  digits_value base s 0 <= G_MAXUINT64 ->
  g_parse_long_long s base
  = mkParsed (digits_value base s 0) (String.length s) false false.
Proof.
  intros Hb Hlit Hmax. unfold literal in Hlit. apply andb_prop in Hlit as [Hne Hall].
  destruct s as [|c s]; [discriminate|]. clear Hne.
  pose proof Hall as Hall'. simpl in Hall'. apply andb_prop in Hall' as [Hc Hs].
  destruct (is_digit_not_space_or_sign base c Hc) as (Hsp & Hminus & Hplus).
  unfold g_parse_long_long.
  assert ((base =? 1) || (base >? 36) = false) as -> by (destruct Hb; subst; reflexivity).
  cbn [skip_space]. rewrite Hsp. rewrite Hminus.
  cbn [after_sign]. rewrite Hminus, Hplus. cbn [orb].
  pose proof (number_prefix_shape base (String c s) Hb) as Hpre.
  destruct (number_prefix base (String c s)) as [[save base'] prefixed] eqn:Hnp.
  destruct Hpre as (-> & Hno & Hyes).
  assert (prefixed = false) as ->.
  { destruct prefixed; [|reflexivity]. exfalso.
    destruct (Hyes eq_refl) as [_ ->].
    unfold number_prefix in Hnp.
    destruct s as [|x rest].
    - destruct Hb; subst; discriminate.
    - simpl in Hs. apply andb_prop in Hs as [Hx _].
      assert (Ascii.eqb x "x" || Ascii.eqb x "X" = false) as E.
      { destruct (Ascii.eqb_spec x "x") as [->|]; [destruct Hb; subst; discriminate|].
        destruct (Ascii.eqb_spec x "X") as [->|]; [destruct Hb; subst; discriminate|].
        reflexivity. }
      rewrite E, andb_false_r in Hnp. destruct Hb; subst; discriminate. }
  rewrite (Hno eq_refl).
  rewrite (scan_digits_value base (String c s) 0 Hb ltac:(lia) Hall Hmax).
  cbn [String.length Nat.eqb]. unfold offset_in. cbn [String.length].
  f_equal.
Qed.


Lemma g_ascii_strtoll_end (nptr : string) (base : Z) :
  snd (g_ascii_strtoll nptr base) = parsed_end (g_parse_long_long nptr base).
Proof. reflexivity. Qed.

Lemma g_ascii_strtoull_end (nptr : string) (base : Z) :
  snd (g_ascii_strtoull nptr base) = parsed_end (g_parse_long_long nptr base).
Proof. reflexivity. Qed.

Lemma textual_parse_accepts strto hex_msg dec_msg (s : string) :
  (forall nptr base, snd (strto nptr base) = parsed_end (g_parse_long_long nptr base)) ->
  (numeric_text s = true -> exists v, textual_parse strto hex_msg dec_msg s = Done v) /\
  (numeric_text s = false ->
     textual_parse strto hex_msg dec_msg s
     = Thrown (if g_str_has_prefix s "0x" then hex_msg else dec_msg)).
Proof.
  intros Hend. unfold textual_parse, numeric_text.
  destruct (g_str_has_prefix s "0x").
  - pose proof (Hend (advance 2 s) 16) as He.
    pose proof (parsed_end_zero 16 (advance 2 s) (or_intror eq_refl)) as Hz.
    destruct (strto (advance 2 s) 16) as [v end_]. cbn [snd] in He. rewrite <- He in Hz.
    destruct (Nat.eqb_spec end_ 0) as [E|E]; split; intros H; eauto.
    + apply Hz in E. congruence.
    + exfalso. apply E, Hz, H.
  - pose proof (Hend s 10) as He.
    pose proof (parsed_end_zero 10 s (or_introl eq_refl)) as Hz.
    destruct (strto s 10) as [v end_]. cbn [snd] in He. rewrite <- He in Hz.
    destruct (Nat.eqb_spec end_ 0) as [E|E]; split; intros H; eauto.
    + apply Hz in E. congruence.
    + exfalso. apply E, Hz, H.
Qed.

Lemma int64_parse_textual (s : string) :
  _gum_v8_int64_parse (Str s)
  = textual_parse g_ascii_strtoll "invalid hexadecimal string"
      "invalid hexadecimal string" (c_str s).
Proof. reflexivity. Qed.

Lemma uint64_parse_textual (s : string) :
  _gum_v8_uint64_parse (Str s)
  = textual_parse g_ascii_strtoull "invalid hexadecimal string"
      "invalid hexadecimal string" (c_str s).
Proof. reflexivity. Qed.

Lemma native_pointer_parse_textual (s : string) :
  _gum_v8_native_pointer_parse (Str s)
  = textual_parse g_ascii_strtoull "invalid hexadecimal string"
      "invalid decimal string" (c_str s).
Proof. reflexivity. Qed.

Lemma is_digit_not_NUL (base : Z) (c : ascii) :
  is_digit base c = true -> Ascii.eqb c NUL = false.
Proof.
  intros H. destruct (Ascii.eqb_spec c NUL) as [->|]; [|reflexivity].
  unfold is_digit in H. discriminate.
Qed.

Lemma digits_c_str (base : Z) (s : string) :
  string_forallb (is_digit base) s = true -> c_str s = s.
Proof.
  induction s as [|c s IH]; simpl; [reflexivity|].
  intros H. apply andb_prop in H as [Hc Hs].
  rewrite (is_digit_not_NUL base c Hc), (IH Hs). reflexivity.
Qed.

Lemma has_prefix_0x (s : string) :
  g_str_has_prefix s "0x" = true -> s = String "0" (String "x" (advance 2 s)).
Proof.
  unfold g_str_has_prefix. intros H. apply String.prefix_correct in H.
  destruct s as [|a [|b s]]; simpl in H; try discriminate.
  assert (Hz : String.substring 0 0 s = EmptyString) by (destruct s; reflexivity).
  rewrite Hz in H. injection H as -> ->. reflexivity.
Qed.

Lemma has_prefix_0x_intro (s : string) :
  g_str_has_prefix (String "0" (String "x" s)) "0x" = true.
Proof.
  unfold g_str_has_prefix. apply String.prefix_correct. simpl.
  destruct s; reflexivity.
Qed.

Lemma decimal_literal_no_prefix (s : string) :
  literal 10 s = true -> g_str_has_prefix s "0x" = false.
Proof.
  unfold literal. intros H. apply andb_prop in H as [_ H].
  destruct (g_str_has_prefix s "0x") eqn:E; [|reflexivity].
  rewrite (has_prefix_0x s E) in H. simpl in H. discriminate.
Qed.

(** C7, as stated: a string that one of the textual parses accepts would be
    [0x] and a hexadecimal literal, or a decimal literal.  The signed parse
    accepts ["-5"], sign and all. *)
Lemma textual_parse_accepts_a_sign :
  ~ (forall s v, _gum_v8_int64_parse (Str s) = Done v ->
                 hexadecimal_form s = true \/ decimal_form s = true).
Proof.
  intros H. destruct (H "-5"%string (-5) eq_refl); discriminate.
Qed.

(** C7, amended.  For [_gum_v8_int64_parse], [_gum_v8_uint64_parse] and
    [_gum_v8_native_pointer_parse] on a string: the text is hexadecimal
    when it starts with [0x] and decimal otherwise, and no other prefix
    selects a base.  It is accepted exactly when, after the [0x] if any and
    after optional white space and an optional sign, it goes on with a
    digit of the base (what follows the digits is not looked at); any
    other text, the empty string included, is rejected with a message of
    kind [InvalidNumericString].  [0x] followed by a hexadecimal literal,
    and a decimal literal, denoting a number within 64 bits (63 for the
    signed parse) are accepted with that number as the result. *)
Theorem textual_parses :
  (forall s,
      ((exists v, _gum_v8_int64_parse (Str s) = Done v)
         <-> numeric_text (c_str s) = true) /\
      ((exists v, _gum_v8_uint64_parse (Str s) = Done v)
         <-> numeric_text (c_str s) = true) /\
      ((exists v, _gum_v8_native_pointer_parse (Str s) = Done v)
         <-> numeric_text (c_str s) = true)) /\
  (forall s, numeric_text (c_str s) = false ->
      (exists m, _gum_v8_int64_parse (Str s) = Thrown m
                 /\ error_kind m = Some InvalidNumericString) /\
      (exists m, _gum_v8_uint64_parse (Str s) = Thrown m
                 /\ error_kind m = Some InvalidNumericString) /\
      (exists m, _gum_v8_native_pointer_parse (Str s) = Thrown m
                 /\ error_kind m = Some InvalidNumericString)) /\
  numeric_text "" = false /\
  (forall digits, literal 16 digits = true ->
      digits_value 16 digits 0 <= G_MAXUINT64 ->
      _gum_v8_uint64_parse (Str ("0x" ++ digits)) = Done (digits_value 16 digits 0) /\
      _gum_v8_native_pointer_parse (Str ("0x" ++ digits))
        = Done (digits_value 16 digits 0) /\
      (digits_value 16 digits 0 <= G_MAXINT64 ->
         _gum_v8_int64_parse (Str ("0x" ++ digits)) = Done (digits_value 16 digits 0))) /\
  (forall digits, literal 10 digits = true ->
      digits_value 10 digits 0 <= G_MAXUINT64 ->
      _gum_v8_uint64_parse (Str digits) = Done (digits_value 10 digits 0) /\
      _gum_v8_native_pointer_parse (Str digits) = Done (digits_value 10 digits 0) /\
      (digits_value 10 digits 0 <= G_MAXINT64 ->
         _gum_v8_int64_parse (Str digits) = Done (digits_value 10 digits 0))).
Proof.
  assert (Hacc : forall strto hex_msg dec_msg s,
             (forall nptr base,
                 snd (strto nptr base) = parsed_end (g_parse_long_long nptr base)) ->
             (exists v, textual_parse strto hex_msg dec_msg s = Done v)
             <-> numeric_text s = true).
  { intros strto hex_msg dec_msg s Hend.
    destruct (textual_parse_accepts strto hex_msg dec_msg s Hend) as [Hyes Hno].
    split; [|exact Hyes]. intros [v Hv].
    destruct (numeric_text s); [reflexivity|]. rewrite (Hno eq_refl) in Hv. discriminate. }
  split.
  { intros s. rewrite int64_parse_textual, uint64_parse_textual,
      native_pointer_parse_textual.
    repeat split; apply Hacc; auto using g_ascii_strtoll_end, g_ascii_strtoull_end. }
  split.
  { intros s Hno. rewrite int64_parse_textual, uint64_parse_textual,
      native_pointer_parse_textual.
    repeat split.
    - rewrite (proj2 (textual_parse_accepts _ _ _ _ g_ascii_strtoll_end) Hno).
      eexists; split; [reflexivity|]. destruct (g_str_has_prefix _ _); reflexivity.
    - rewrite (proj2 (textual_parse_accepts _ _ _ _ g_ascii_strtoull_end) Hno).
      eexists; split; [reflexivity|]. destruct (g_str_has_prefix _ _); reflexivity.
    - rewrite (proj2 (textual_parse_accepts _ _ _ _ g_ascii_strtoull_end) Hno).
      eexists; split; [reflexivity|]. destruct (g_str_has_prefix _ _); reflexivity. }
  split; [reflexivity|].
  split.
  { intros digits Hlit Hmax.
    pose proof (g_parse_long_long_literal 16 digits (or_intror eq_refl) Hlit Hmax) as Hp.
    assert (Hc : c_str ("0x" ++ digits) = ("0x" ++ digits)%string).
    { unfold literal in Hlit. apply andb_prop in Hlit as [_ Hall].
      change (c_str ("0x" ++ digits)) with (String "0" (String "x" (c_str digits))).
      rewrite (digits_c_str 16 digits Hall). reflexivity. }
    assert (Hne : (String.length digits =? 0)%nat = false).
    { destruct digits; [discriminate|reflexivity]. }
    rewrite int64_parse_textual, uint64_parse_textual, native_pointer_parse_textual.
    rewrite Hc. unfold textual_parse, g_ascii_strtoull, g_ascii_strtoll.
    change ("0x" ++ digits)%string with (String "0" (String "x" digits)).
    rewrite has_prefix_0x_intro.
    change (advance 2 (String "0" (String "x" digits))) with digits.
    cbv iota. rewrite Hp. cbn [parsed_value parsed_end parsed_negative parsed_overflow]. rewrite Hne.
    repeat split. intros Hs. cbn [andb negb].
    assert ((digits_value 16 digits 0 >? G_MAXINT64) = false) as ->
        by (rewrite Z.gtb_ltb; apply Z.ltb_ge; lia).
    reflexivity. }
  intros digits Hlit Hmax.
  pose proof (g_parse_long_long_literal 10 digits (or_introl eq_refl) Hlit Hmax) as Hp.
  assert (Hc : c_str digits = digits).
  { unfold literal in Hlit. apply andb_prop in Hlit as [_ Hall].
    apply (digits_c_str 10 digits Hall). }
  assert (Hne : (String.length digits =? 0)%nat = false).
  { destruct digits; [discriminate|reflexivity]. }
  rewrite int64_parse_textual, uint64_parse_textual, native_pointer_parse_textual.
  rewrite Hc. unfold textual_parse, g_ascii_strtoull, g_ascii_strtoll.
  rewrite (decimal_literal_no_prefix digits Hlit).
  cbv iota. rewrite Hp. cbn [parsed_value parsed_end parsed_negative parsed_overflow]. rewrite Hne.
  repeat split. intros Hs. cbn [andb negb].
  assert ((digits_value 10 digits 0 >? G_MAXINT64) = false) as ->
      by (rewrite Z.gtb_ltb; apply Z.ltb_ge; lia).
  reflexivity.
Qed.

(** The amended claim at ["0x1f"], ["31"] and ["zz"]. *)
Lemma textual_parses_witness :
  _gum_v8_uint64_parse (Str "0x1f") = Done 31 /\
  _gum_v8_int64_parse (Str "31") = Done 31 /\
  (exists m, _gum_v8_native_pointer_parse (Str "zz") = Thrown m
             /\ error_kind m = Some InvalidNumericString).
Proof.
  destruct textual_parses as (_ & Hrej & _ & Hhex & Hdec).
  split; [|split].
  - exact (proj1 (Hhex "1f"%string eq_refl ltac:(vm_compute; discriminate))).
  - apply (proj2 (proj2 (Hdec "31"%string eq_refl ltac:(vm_compute; discriminate)))).
    vm_compute; discriminate.
  - apply (Hrej "zz"%string eq_refl).
Defined.


(** * Fuzzy pointer parse *)

(** C4.  [_gum_v8_native_pointer_parse] maps ["0x1000"] and ["4096"] to the
    address 4096 and the number [-1] to the address with all 64 bits set.
    Any negative number whose integer part fits a [gint64] gives the
    address that has the bits of that integer in two's complement: the
    integer itself modulo 2^64, that is [2^64 + i] for a negative [i]. *)
Theorem native_pointer_parse_fuzzy :
  _gum_v8_native_pointer_parse (Str "0x1000") = Done 4096 /\
  _gum_v8_native_pointer_parse (Str "4096") = Done 4096 /\
  _gum_v8_native_pointer_parse (Number minus_one) = Done (Z.ones 64) /\
  (forall number i,
      double_ltb number 0 = true ->
      truncate number = Some i ->
      G_MININT64 <= i ->
      exists ptr,
        _gum_v8_native_pointer_parse (Number number) = Done ptr /\
        0 <= ptr < 2 ^ 64 /\
        (forall n, 0 <= n < 64 -> Z.testbit ptr n = Z.testbit i n) /\
        (i < 0 -> ptr = 2 ^ 64 + i)).
Proof.
  split; [reflexivity|]. split; [reflexivity|]. split; [reflexivity|].
  intros number i Hneg Htrunc Hmin.
  assert (Hle : i <= 0).
  { unfold truncate in Htrunc. unfold double_ltb in Hneg.
    destruct number as [s|s| |s m e]; cbn [rational] in *; try discriminate.
    destruct (0 <=? e) eqn:He; injection Htrunc as <-; apply Z.ltb_lt in Hneg.
    - rewrite Z.quot_1_r. lia.
    - destruct s; [|lia].
      assert (0 < 2 ^ (- e)) by (apply Z.pow_pos_nonneg; lia).
      rewrite <- (Z.opp_involutive (Z.neg m)), Z.quot_opp_l by lia.
      pose proof (Z.quot_pos (- Z.neg m) (2 ^ (- e)) ltac:(lia) ltac:(lia)). lia. }
  exists (wrap_uint64 i).
  unfold _gum_v8_native_pointer_parse. rewrite Hneg.
  unfold double_to_int64. rewrite Htrunc.
  assert ((G_MININT64 <=? i) && (i <=? G_MAXINT64) = true) as ->.
  { apply andb_true_intro. unfold G_MAXINT64.
    split; apply Z.leb_le; lia. }
  cbn [bind]. split; [reflexivity|]. unfold wrap_uint64.
  split; [apply Z.mod_pos_bound; lia|].
  split.
  - intros n Hn. apply Z.mod_pow2_bits_low. lia.
  - intros Hi. unfold G_MININT64 in Hmin.
    symmetry. apply Z.mod_unique with (q := -1); lia.
Qed.

(** C4 at the number [-2.5], whose integer part is [-2]. *)
Lemma native_pointer_parse_fuzzy_witness :
  exists ptr,
    _gum_v8_native_pointer_parse (Number (S754_finite true 5 (-1))) = Done ptr /\
    0 <= ptr < 2 ^ 64 /\
    (forall n, 0 <= n < 64 -> Z.testbit ptr n = Z.testbit (-2) n) /\
    (-2 < 0 -> ptr = 2 ^ 64 + -2).
Proof.
  apply (proj2 (proj2 (proj2 native_pointer_parse_fuzzy))).
  - reflexivity.
  - reflexivity.
  - vm_compute. discriminate.
Defined.


(** * Byte buffers from arrays *)

Section Bytes.

Variable StringToNumber : string -> spec_float.
Variable ObjectToNumber :
  ObjectKind -> list (Maybe Value) -> list (string * Maybe Value) -> Maybe spec_float.

Local Abbreviation uint32_value := (Uint32Value StringToNumber ObjectToNumber).
Local Abbreviation byte_of := (element_byte StringToNumber ObjectToNumber).
Local Abbreviation bytes_of := (bytes_from_elements StringToNumber ObjectToNumber).
Local Abbreviation bytes_try_get := (_gum_v8_bytes_try_get StringToNumber ObjectToNumber).
Local Abbreviation bytes_get := (_gum_v8_bytes_get StringToNumber ObjectToNumber).

Lemma bytes_from_elements_Some (elements : list (Maybe Value)) (data : list Z) :
  bytes_of elements = Some data <->
  Forall2 (fun element b => byte_of element = Some b) elements data.
Proof.
  revert data. induction elements as [|element rest IH]; intros data; simpl.
  - split.
    + intros [= <-]. constructor.
    + intros H. inversion H. reflexivity.
  - destruct (byte_of element) as [b|] eqn:Hb.
    + destruct (bytes_of rest) as [data'|] eqn:Hrest.
      * split.
        -- intros [= <-]. constructor; [assumption|]. apply IH. reflexivity.
        -- intros H. inversion H as [|? b' ? data'' Hb' Hrest']; subst.
           apply IH in Hrest'. congruence.
      * split; [discriminate|].
        intros H. inversion H as [|? b' ? data'' Hb' Hrest']; subst.
        apply IH in Hrest'. discriminate.
    + split; [discriminate|].
      intros H. inversion H as [|? b' ? data'' Hb' Hrest']; subst. congruence.
Qed.

Lemma bytes_from_elements_None (elements : list (Maybe Value)) :
  bytes_of elements = None <->
  Exists (fun element => byte_of element = None) elements.
Proof.
  induction elements as [|element rest IH]; simpl.
  - split; [discriminate|]. intros H. inversion H.
  - destruct (byte_of element) as [b|] eqn:Hb.
    + destruct (bytes_of rest) as [data'|].
      * split; [discriminate|].
        intros H. inversion H; subst; [congruence|].
        assert (@None (list Z) = None) as E by reflexivity.
        apply IH in H1. discriminate.
      * split; [|reflexivity]. intros _. apply Exists_cons_tl, IH. reflexivity.
    + split; [|reflexivity]. intros _. apply Exists_cons_hd. assumption.
Qed.

Lemma bytes_from_elements_length (elements : list (Maybe Value)) (data : list Z) :
  bytes_of elements = Some data -> length data = length elements.
Proof.
  intros H. apply bytes_from_elements_Some in H.
  induction H; simpl; congruence.
Qed.


Lemma element_byte_None (element : Maybe Value) :
  byte_of element = None <->
  (exists e, element = Nothing e) \/
  (exists v e, element = Just v /\ uint32_value v = Nothing e).
Proof.
  unfold element_byte. destruct element as [v|e].
  - destruct (uint32_value v) as [u|e] eqn:Hu.
    + split; [discriminate|].
      intros [[e H]|(v' & e & [= <-] & H)]; congruence.
    + split; [|reflexivity]. intros _. right. eauto.
  - split; [|reflexivity]. intros _. left. eauto.
Qed.


Lemma Forall_numbers_bytes (elements : list (Maybe Value)) :
  Forall (fun element => exists d, element = Just (Number d)) elements ->
  exists data, bytes_of elements = Some data.
Proof.
  induction 1 as [|element rest [d ->] _ [data IH]]; simpl.
  - eauto.
  - rewrite IH. eauto.
Qed.

(** C3, amended.  [bytes_try_get] converts an array of 1,048,576
    numbers, to a buffer of as many bytes; for an array of more than
    1,048,576 elements it returns NULL, and [bytes_get] throws
    "unsupported data value"; an element that cannot be read, or whose
    unsigned 32-bit coercion throws as that of a BigInt or a Symbol does,
    makes the whole conversion fail in the same way; a buffer that is
    returned has one byte for each element, so never part of the array. *)
Theorem bytes_try_get_array (elements : list (Maybe Value))
    (named : list (string * Maybe Value)) :
  (Z.of_nat (length elements) = 1048576 ->
   Forall (fun element => exists d, element = Just (Number d)) elements ->
   exists data,
     bytes_try_get (Object ArrayExotic elements named) = Some data /\
     bytes_get (Object ArrayExotic elements named) = Done data /\
     Z.of_nat (length data) = 1048576) /\
  (1048576 < Z.of_nat (length elements) ->
   bytes_try_get (Object ArrayExotic elements named) = None /\
   bytes_get (Object ArrayExotic elements named) = Thrown "unsupported data value" /\
   error_kind "unsupported data value" = Some UnsupportedDataValue) /\
  (Exists (fun element =>
             (exists e, element = Nothing e) \/
             (exists v e, element = Just v /\ uint32_value v = Nothing e)) elements ->
   bytes_try_get (Object ArrayExotic elements named) = None /\
   bytes_get (Object ArrayExotic elements named) = Thrown "unsupported data value") /\
  (forall z e, uint32_value (BigInt z) <> Just e /\ uint32_value Symbol <> Just e) /\
  (forall data,
      bytes_try_get (Object ArrayExotic elements named) = Some data ->
      length data = length elements).
Proof.
  split; [|split; [|split; [|split]]].
  - intros Hlen Hnum. unfold _gum_v8_bytes_get, _gum_v8_bytes_try_get.
    rewrite Hlen. change (1048576 >? GUM_MAX_SEND_ARRAY_LENGTH) with false. cbv iota.
    destruct (Forall_numbers_bytes elements Hnum) as [data Hdata].
    exists data. rewrite Hdata. repeat split.
    rewrite (bytes_from_elements_length _ _ Hdata). exact Hlen.
  - intros Hlen. unfold _gum_v8_bytes_get, _gum_v8_bytes_try_get.
    assert ((Z.of_nat (length elements) >? GUM_MAX_SEND_ARRAY_LENGTH) = true) as ->
        by (rewrite Z.gtb_ltb; apply Z.ltb_lt; unfold GUM_MAX_SEND_ARRAY_LENGTH; lia).
    repeat split.
  - intros Hex.
    assert (Hnone : bytes_try_get (Object ArrayExotic elements named) = None).
    { unfold _gum_v8_bytes_try_get.
      destruct (Z.of_nat (length elements) >? GUM_MAX_SEND_ARRAY_LENGTH); [reflexivity|].
      apply bytes_from_elements_None. eapply Exists_impl; try exact Hex.
      intros element Hb. apply element_byte_None. exact Hb. }
    split; [exact Hnone|]. unfold _gum_v8_bytes_get. rewrite Hnone. reflexivity.
  - intros z e. split; discriminate.
  - intros data. unfold _gum_v8_bytes_try_get.
    destruct (Z.of_nat (length elements) >? GUM_MAX_SEND_ARRAY_LENGTH); [discriminate|].
    apply bytes_from_elements_length.
Qed.

End Bytes.

(** C3, as stated in its last part: an array with an element outside
    [0, 255] would not convert.  The array holding the number 256 converts,
    to the byte 0. *)
Lemma bytes_try_get_accepts_256 :
  ~ (forall StringToNumber ObjectToNumber d named,
        double_ltb d 0 = true \/ double_geb d 256 = true ->
        _gum_v8_bytes_try_get StringToNumber ObjectToNumber
          (Object ArrayExotic [Just (Number d)] named) = None).
Proof.
  intros H.
  specialize (H (fun _ => S754_nan) (fun _ _ _ => Nothing "TypeError")
                (S754_finite false 1 8) [] (or_intror eq_refl)).
  discriminate.
Qed.



(** The amended C3 at the array of 1,048,576 zeros. *)
Lemma bytes_try_get_array_witness :
  exists data,
    _gum_v8_bytes_try_get (fun _ => S754_nan) (fun _ _ _ => Nothing "TypeError")
      (Object ArrayExotic (repeat (Just (Number (S754_zero false))) (Z.to_nat 1048576)) [])
    = Some data /\
    _gum_v8_bytes_get (fun _ => S754_nan) (fun _ _ _ => Nothing "TypeError")
      (Object ArrayExotic (repeat (Just (Number (S754_zero false))) (Z.to_nat 1048576)) [])
    = Done data /\
    Z.of_nat (length data) = 1048576.
Proof.
  apply (proj1 (bytes_try_get_array (fun _ => S754_nan)
                  (fun _ _ _ => Nothing "TypeError") _ [])).
  - rewrite repeat_length. apply Z2Nat.id. lia.
  - apply List.Forall_forall. intros element Hin. apply repeat_spec in Hin. eauto.
Defined.


(** * Error message casing *)

Lemma code_range (c : ascii) : 0 <= code c < 256.
Proof.
  unfold code. pose proof (N_ascii_bounded c). lia.
Qed.

Lemma char_of_code_code (c : ascii) : char_of_code (code c) = c.
Proof.
  unfold char_of_code, code. rewrite N2Z.id. apply ascii_N_embedding.
Qed.

Lemma code_char_of_code (z : Z) : 0 <= z < 256 -> code (char_of_code z) = z.
Proof.
  intros H. unfold char_of_code, code.
  rewrite N_ascii_embedding by lia. lia.
Qed.

Lemma append_empty_l (s : string) : String.append "" s = s.
Proof. reflexivity. Qed.

Lemma append_one_l (c : ascii) (s : string) :
  String.append (String.append "" (String c "")) s = String c s.
Proof. reflexivity. Qed.

Lemma append_single (c : ascii) (s : string) :
  String.append (String c "") s = String c s.
Proof. reflexivity. Qed.

Lemma c_str_cons (c : ascii) (s : string) :
  c <> NUL -> c_str (String c s) = String c (c_str s).
Proof.
  intros H. simpl. destruct (Ascii.eqb_spec c NUL); [contradiction|reflexivity].
Qed.

Lemma c_str_idempotent (s : string) : c_str (c_str s) = c_str s.
Proof.
  induction s as [|c s IH]; simpl; [reflexivity|].
  destruct (Ascii.eqb c NUL) eqn:E; [reflexivity|].
  simpl. rewrite E, IH. reflexivity.
Qed.

Lemma g_utf8_get_char_ascii (c : ascii) (s : string) :
  code c < 128 -> g_utf8_get_char (String c s) = code c.
Proof.
  intros H. unfold g_utf8_get_char. cbn [first_byte].
  assert ((code c <? 128) = true) as -> by (apply Z.ltb_lt; lia).
  cbn [utf8_get]. change 127 with (Z.ones 7). rewrite Z.land_ones by lia.
  pose proof (code_range c). apply Z.mod_small. change (2 ^ 7) with 128. lia.
Qed.

Lemma g_utf8_skip_ascii (c : ascii) : code c < 128 -> g_utf8_skip (code c) = 1%nat.
Proof.
  intros H. unfold g_utf8_skip.
  assert ((code c <? 192) = true) as -> by (apply Z.ltb_lt; lia). reflexivity.
Qed.

Lemma g_utf8_offset_to_pointer_1_ascii (c : ascii) (s : string) :
  code c < 128 -> g_utf8_offset_to_pointer_1 (String c s) = Some s.
Proof.
  intros H. unfold g_utf8_offset_to_pointer_1. cbn [first_byte].
  rewrite (g_utf8_skip_ascii c H). reflexivity.
Qed.

Lemma g_unichar_to_utf8_ascii (c : Z) : 0 <= c < 128 -> g_unichar_to_utf8 c = [c].
Proof.
  intros H. unfold g_unichar_to_utf8.
  assert ((c <? 128) = true) as -> by (apply Z.ltb_lt; lia).
  cbn. rewrite Z.lor_0_r. reflexivity.
Qed.

Lemma ISUPPER_ascii (c : ascii) : ISUPPER c = true -> 65 <= code c <= 90.
Proof.
  unfold ISUPPER. intros H. apply andb_prop in H as [H1 H2].
  apply Z.leb_le in H1, H2. lia.
Qed.

Lemma ISLOWER_ascii (c : ascii) : ISLOWER c = true -> 97 <= code c <= 122.
Proof.
  unfold ISLOWER. intros H. apply andb_prop in H as [H1 H2].
  apply Z.leb_le in H1, H2. lia.
Qed.

Lemma code_not_NUL (c : ascii) : 0 < code c -> c <> NUL.
Proof. intros H ->. vm_compute in H. discriminate. Qed.

Section Casing.

Variable unicode_isupper : Z -> bool.
Variable unicode_tolower : Z -> Z.
Variable unicode_toupper : Z -> Z.

Local Abbreviation isupper := (g_unichar_isupper unicode_isupper).
Local Abbreviation tolower := (g_unichar_tolower unicode_tolower).
Local Abbreviation toupper := (g_unichar_toupper unicode_toupper).
Local Abbreviation error_new_take_error :=
  (_gum_v8_error_new_take_error unicode_isupper unicode_tolower).
Local Abbreviation error_get_message := (_gum_v8_error_get_message unicode_toupper).

Lemma g_unichar_isupper_ascii (c : ascii) :
  code c < 128 -> isupper (code c) = ISUPPER c.
Proof.
  intros H. unfold g_unichar_isupper, ISUPPER.
  assert ((code c <? 128) = true) as -> by (apply Z.ltb_lt; lia). reflexivity.
Qed.

Lemma lowered_first_byte (c : ascii) :
  code c < 128 ->
  string_of_bytes (g_unichar_to_utf8 (tolower (code c))) = String (ascii_tolower c) "".
Proof.
  intros H. pose proof (code_range c) as Hr.
  unfold g_unichar_tolower, ascii_tolower.
  assert ((code c <? 128) = true) as -> by (apply Z.ltb_lt; lia).
  fold (ISUPPER c). destruct (ISUPPER c) eqn:E.
  - apply ISUPPER_ascii in E. rewrite g_unichar_to_utf8_ascii by lia. reflexivity.
  - rewrite g_unichar_to_utf8_ascii by lia.
    unfold string_of_bytes. cbn. rewrite char_of_code_code. reflexivity.
Qed.

Lemma raised_first_byte (c : ascii) :
  code c < 128 ->
  string_of_bytes (g_unichar_to_utf8 (toupper (code c))) = String (ascii_toupper c) "".
Proof.
  intros H. pose proof (code_range c) as Hr.
  unfold g_unichar_toupper, ascii_toupper.
  assert ((code c <? 128) = true) as -> by (apply Z.ltb_lt; lia).
  fold (ISLOWER c). destruct (ISLOWER c) eqn:E.
  - apply ISLOWER_ascii in E. rewrite g_unichar_to_utf8_ascii by lia. reflexivity.
  - rewrite g_unichar_to_utf8_ascii by lia.
    unfold string_of_bytes. cbn. rewrite char_of_code_code. reflexivity.
Qed.

(** C6.  [_gum_v8_error_new_take_error] uses a message whose first two
    characters are upper-case letters as it is; of any other message it
    lower-cases the first character and keeps the rest.
    [_gum_v8_error_get_message] upper-cases the first character of the
    message and keeps the rest.  Both are stated for any message whose
    first character is complete, in terms of GLib's UTF-8 primitives, and
    again on plain characters for messages that start in ASCII.  So
    ["bad pointer"] and ["URL invalid"] are marshalled unchanged, and
    ["bad pointer"] is extracted as ["Bad pointer"]. *)
Theorem error_message_casing :
  (forall m rest,
      c_str m = m -> g_utf8_offset_to_pointer_1 m = Some rest ->
      error_new_take_error (Some m)
      = Done (Exception_Error
                (if isupper (g_utf8_get_char m) && (2 <=? g_utf8_strlen m)%nat
                    && isupper (g_utf8_get_char rest)
                 then m
                 else (string_of_bytes (g_unichar_to_utf8 (tolower (g_utf8_get_char m)))
                       ++ rest)%string))) /\
  (forall m rest,
      c_str m = m -> g_utf8_offset_to_pointer_1 m = Some rest ->
      (2 <= String.length m)%nat ->
      error_get_message (Exception_Error m)
      = Done (c_str (string_of_bytes (g_unichar_to_utf8 (toupper (g_utf8_get_char m)))
                     ++ rest)%string)) /\
  (forall a b rest,
      ISUPPER a = true -> ISUPPER b = true ->
      error_new_take_error (Some (String a (String b rest)))
      = Done (Exception_Error (String a (String b rest)))) /\
  (forall a rest,
      0 < code a < 128 ->
      ISUPPER a = false \/
      match c_str rest with
      | String b _ => code b < 128 /\ ISUPPER b = false
      | EmptyString => True
      end ->
      error_new_take_error (Some (String a rest))
      = Done (Exception_Error (String (ascii_tolower a) rest))) /\
  (forall a rest,
      0 < code a < 128 ->
      error_get_message (Exception_Error (String a rest))
      = Done (c_str (String (ascii_toupper a) rest))) /\
  error_new_take_error (Some "bad pointer") = Done (Exception_Error "bad pointer") /\
  error_new_take_error (Some "URL invalid") = Done (Exception_Error "URL invalid") /\
  error_get_message (Exception_Error "bad pointer") = Done "Bad pointer"%string.
Proof.
  split; [|split; [|split; [|split; [|split]]]].
  - intros m rest Hm Hrest.
    unfold _gum_v8_error_new_take_error. rewrite Hm, Hrest.
    destruct (isupper (g_utf8_get_char m) && (2 <=? g_utf8_strlen m)%nat
              && isupper (g_utf8_get_char rest)); reflexivity.
  - intros m rest Hm Hrest Hlen.
    unfold _gum_v8_error_get_message, Exception_Error.
    change (Get [("message", Just (Str (c_str m)))] "message")
      with (Just (Str (c_str m))).
    cbv iota beta. rewrite !Hm, Hrest.
    destruct (String.length m) as [|[|n]]; [lia|lia|]. reflexivity.
  - intros a b rest Ha Hb.
    pose proof (ISUPPER_ascii a Ha) as Ha'. pose proof (ISUPPER_ascii b Hb) as Hb'.
    unfold _gum_v8_error_new_take_error.
    rewrite (c_str_cons a) by (apply code_not_NUL; lia).
    rewrite (c_str_cons b) by (apply code_not_NUL; lia).
    rewrite g_utf8_get_char_ascii, g_unichar_isupper_ascii, Ha by lia.
    rewrite g_utf8_offset_to_pointer_1_ascii by lia.
    rewrite g_utf8_get_char_ascii, g_unichar_isupper_ascii, Hb by lia.
    assert ((2 <=? g_utf8_strlen (String a (String b (c_str rest))))%nat = true) as ->.
    { unfold g_utf8_strlen. cbn [String.length utf8_strlen].
      rewrite (g_utf8_skip_ascii a) by lia. cbn [advance].
      reflexivity. }
    cbn [andb]. unfold g_string_append, Exception_Error. rewrite append_empty_l.
    rewrite <- (c_str_cons b) by (apply code_not_NUL; lia).
    rewrite <- (c_str_cons a) by (apply code_not_NUL; lia).
    rewrite c_str_idempotent. reflexivity.
  - intros a rest Ha Hnot.
    unfold _gum_v8_error_new_take_error.
    rewrite (c_str_cons a) by (apply code_not_NUL; lia).
    rewrite g_utf8_get_char_ascii, g_unichar_isupper_ascii by lia.
    rewrite g_utf8_offset_to_pointer_1_ascii by lia.
    assert (Hacr : ISUPPER a
                   && (2 <=? g_utf8_strlen (String a (c_str rest)))%nat
                   && isupper (g_utf8_get_char (c_str rest)) = false).
    { destruct Hnot as [-> | Hb]; [reflexivity|].
      destruct (c_str rest) as [|b rest'] eqn:E.
      - unfold g_utf8_strlen. cbn [String.length utf8_strlen Nat.leb].
        rewrite andb_false_r. reflexivity.
      - destruct Hb as [Hb1 Hb2].
        rewrite g_utf8_get_char_ascii, g_unichar_isupper_ascii, Hb2 by lia.
        apply andb_false_r. }
    rewrite Hacr.
    unfold g_string_append, g_string_append_unichar, Exception_Error.
    rewrite lowered_first_byte by lia. rewrite append_one_l.
    assert (Hne : ascii_tolower a <> NUL).
    { unfold ascii_tolower. destruct (ISUPPER a) eqn:E.
      - apply ISUPPER_ascii in E. apply code_not_NUL.
        rewrite code_char_of_code; lia.
      - apply code_not_NUL; lia. }
    rewrite <- (c_str_cons _ _ Hne), c_str_idempotent. reflexivity.
  - intros a rest Ha.
    unfold _gum_v8_error_get_message, Exception_Error.
    change (Get [("message", Just (Str (c_str (String a rest))))] "message")
      with (Just (Str (c_str (String a rest)))).
    cbv iota beta. rewrite c_str_idempotent.
    rewrite (c_str_cons a) by (apply code_not_NUL; lia).
    cbn [String.length Nat.leb].
    rewrite g_utf8_get_char_ascii by lia.
    rewrite g_utf8_offset_to_pointer_1_ascii by lia.
    unfold g_string_append, g_string_append_unichar.
    rewrite raised_first_byte by lia.
    assert (Hne : ascii_toupper a <> NUL).
    { unfold ascii_toupper. destruct (ISLOWER a) eqn:E.
      - apply ISLOWER_ascii in E. apply code_not_NUL.
        rewrite code_char_of_code; lia.
      - apply code_not_NUL; lia. }
    rewrite (c_str_cons _ rest Hne), !append_empty_l, ?append_single.
    destruct (c_str rest) as [|b rest'] eqn:E; cbn [String.length].
    + rewrite (c_str_cons _ _ Hne). reflexivity.
    + rewrite (c_str_cons _ _ Hne), <- E, c_str_idempotent. reflexivity.
  - repeat split; reflexivity.
Qed.

End Casing.

(** C6 at the messages ["Oops"] and ["oops"], with no letter case outside
    ASCII. *)
Lemma error_message_casing_witness :
  _gum_v8_error_new_take_error (fun _ => false) (fun c => c) (Some "Oops")
  = Done (Exception_Error "oops") /\
  _gum_v8_error_get_message (fun c => c) (Exception_Error "oops") = Done "Oops"%string.
Proof.
  destruct (error_message_casing (fun _ => false) (fun c => c) (fun c => c))
    as (_ & _ & _ & Hlower & Hupper & _).
  split.
  - apply (Hlower "O"%char "ops"%string); [vm_compute; split; reflexivity|].
    right. vm_compute. split; reflexivity.
  - apply (Hupper "o"%char "ops"%string). vm_compute; split; reflexivity.
Defined.


(** * The native resource registry *)

Lemma wrap_int64_small (z : Z) : G_MININT64 <= z <= G_MAXINT64 -> wrap_int64 z = z.
Proof.
  unfold wrap_int64, G_MININT64, G_MAXINT64. intros H.
  rewrite Z.mod_small; lia.
Qed.

(** C5.  Registering a resource of [size] bytes at [address] adds [size] to
    the external-memory accounting of the isolate at once, puts the new
    record in the tracking set and calls no destructor.  When the engine
    then finalizes the weak handle of the record, the accounting goes down
    by [size], the destructor, if there is one, is called once on [address],
    and the record leaves the tracking set and is freed.  That happens
    once: the handle is gone afterwards, so the engine cannot finalize it
    again, and removing the record again changes nothing. *)
Theorem native_resource_lifecycle (address size : Z) (destructor : option positive)
    (core : GumV8Core) :
  0 <= size <= G_MAXSSIZE ->
  key_destroy_func (native_resources core) = Some native_resource_free ->
  exists resource core1 handle core2,
    _gum_v8_native_resource_new address size destructor core = (resource, core1) /\
    external_allocated_memory core1 = external_allocated_memory core + size /\
    (resource ∈ keys (native_resources core1)) /\
    notified core1 = notified core /\
    resource_records core1 !! resource = Some (mkResource handle address size destructor) /\
    globals core1 !! handle
      = Some (mkGlobal (_gum_v8_native_pointer_new address)
                (Some (gum_v8_native_resource_on_weak_notify, resource))) /\
    finalize handle core1 = Some core2 /\
    external_allocated_memory core2 = external_allocated_memory core1 - size /\
    notified core2
      = notified core ++ match destructor with Some f => [(f, address)] | None => [] end /\
    (resource ∉ keys (native_resources core2)) /\
    resource_records core2 !! resource = None /\
    finalize handle core2 = None /\
    g_hash_table_remove resource core2 = Some core2.
Proof.
  intros Hsize Hdestroy.
  unfold _gum_v8_native_resource_new, AdjustAmountOfExternalAllocatedMemory.
  cbn [external_allocated_memory globals native_resources resource_records notified
         next_fresh key_destroy_func keys].
  rewrite (wrap_int64_small size)
    by (unfold G_MAXSSIZE, G_MAXINT64, G_MININT64 in *; lia).
  set (resource := next_fresh core).
  set (handle := Pos.succ (next_fresh core)).
  eexists resource, _, handle, _.
  split; [reflexivity|].
  cbn [external_allocated_memory globals native_resources resource_records notified
         next_fresh key_destroy_func keys].
  split; [reflexivity|].
  split; [apply elem_of_union_l, elem_of_singleton; reflexivity|].
  split; [reflexivity|].
  split; [apply lookup_insert_eq|].
  split; [apply lookup_insert_eq|].
  unfold finalize.
  cbn [external_allocated_memory globals native_resources resource_records notified
         next_fresh key_destroy_func keys].
  rewrite lookup_insert_eq.
  unfold g_hash_table_remove.
  cbn [external_allocated_memory globals native_resources resource_records notified
         next_fresh key_destroy_func keys].
  destruct (decide (resource ∈ {[resource]} ∪ keys (native_resources core)))
    as [_|Hnot];
    [|exfalso; apply Hnot, elem_of_union_l, elem_of_singleton; reflexivity].
  rewrite Hdestroy.
  unfold _gum_v8_native_resource_free, AdjustAmountOfExternalAllocatedMemory.
  cbn [external_allocated_memory globals native_resources resource_records notified
         next_fresh key_destroy_func keys].
  rewrite lookup_insert_eq.
  cbn [instance data resource_size notify].
  rewrite (wrap_int64_small size)
    by (unfold G_MAXSSIZE, G_MAXINT64, G_MININT64 in *; lia).
  split; [reflexivity|].
  cbn [external_allocated_memory globals native_resources resource_records notified
         next_fresh key_destroy_func keys].
  split; [lia|].
  split; [destruct destructor; [reflexivity | symmetry; apply app_nil_r]|].
  split; [rewrite elem_of_difference, elem_of_singleton; tauto|].
  split; [apply lookup_delete_eq|].
  split.
  - rewrite lookup_delete_eq. reflexivity.
  - destruct (decide (resource ∈ ({[resource]} ∪ keys (native_resources core)) ∖ {[resource]}))
      as [Hin|_]; [|reflexivity].
    rewrite elem_of_difference, elem_of_singleton in Hin. tauto.
Qed.

(** C5 at the resource of 128 bytes at [0x1000], in a core that has just
    been set up. *)
Lemma native_resource_lifecycle_witness :
  exists resource core1 handle core2,
    _gum_v8_native_resource_new 4096 128 (Some 7%positive) core_new = (resource, core1) /\
    external_allocated_memory core1 = external_allocated_memory core_new + 128 /\
    (resource ∈ keys (native_resources core1)) /\
    notified core1 = notified core_new /\
    resource_records core1 !! resource
      = Some (mkResource handle 4096 128 (Some 7%positive)) /\
    globals core1 !! handle
      = Some (mkGlobal (_gum_v8_native_pointer_new 4096)
                (Some (gum_v8_native_resource_on_weak_notify, resource))) /\
    finalize handle core1 = Some core2 /\
    external_allocated_memory core2 = external_allocated_memory core1 - 128 /\
    notified core2 = notified core_new ++ [(7%positive, 4096)] /\
    (resource ∉ keys (native_resources core2)) /\
    resource_records core2 !! resource = None /\
    finalize handle core2 = None /\
    g_hash_table_remove resource core2 = Some core2.
Proof.
  apply (native_resource_lifecycle 4096 128 (Some 7%positive) core_new).
  - vm_compute. split; discriminate.
  - reflexivity.
Defined.


(** * CPU-context snapshots *)

Lemma native_steps_frame (steps : list NativeStep) (s : Snapshots) :
  objects (fold_left native_step steps s) = objects s /\
  handles (fold_left native_step steps s) = handles s /\
  wrappers (fold_left native_step steps s) = wrappers s /\
  freed (fold_left native_step steps s) = freed s /\
  next_free (fold_left native_step steps s) = next_free s.
Proof.
  revert s. induction steps as [|step steps IH]; intros s; simpl.
  - repeat split.
  - destruct (IH (native_step s step)) as (-> & -> & -> & -> & ->).
    destruct step; repeat split.
Qed.

Lemma native_steps_elsewhere (steps : list NativeStep) (s : Snapshots) (address : Z) :
  Forall (fun step => step_address step <> address) steps ->
  memory (fold_left native_step steps s) !! address = memory s !! address.
Proof.
  intros H. revert s. induction H as [|step steps Hstep _ IH]; intros s; simpl.
  - reflexivity.
  - rewrite IH. destruct step; simpl in *.
    + rewrite lookup_alter_ne by congruence. reflexivity.
    + rewrite lookup_delete_ne by congruence. reflexivity.
Qed.

(** C8.  [_gum_v8_cpu_context_free_later], on a handle whose object aliases
    the register structure at [original], copies that structure to storage
    of its own, points the object at the copy and marks it immutable.
    Whatever native code then does to register structures of its own, the
    original included, a register read through the object gives the value
    the register had when the copy was made.  When the handle is finalized
    the copy is freed, once: the handle is gone afterwards and cannot be
    finalized again. *)
Theorem cpu_context_snapshot (s : Snapshots) (handle object : positive) (original : Z)
    (registers : GumCpuContext) (flag : bool) (indexed : list (Maybe Value))
    (named : list (string * Maybe Value)) (w : option (WeakCallback * positive)) :
  handles s !! handle = Some (object, w) ->
  objects s !! object = Some (Object (CpuContextInstance original flag) indexed named) ->
  memory s !! original = Some registers ->
  memory s !! Z.pos (next_free s) = None ->
  exists s1 copy,
    _gum_v8_cpu_context_free_later handle s = Some s1 /\
    copy <> original /\
    memory s1 !! copy = Some registers /\
    objects s1 !! object = Some (Object (CpuContextInstance copy false) indexed named) /\
    is_mutable object s1 = Some false /\
    freed s1 = freed s /\
    forall steps,
      Forall (fun step => step_address step <> copy) steps ->
      let s2 := fold_left native_step steps s1 in
      (forall register, read_register object register s2 = registers !! register) /\
      exists s3,
        finalize_handle handle s2 = Some s3 /\
        freed s3 = freed s ++ [copy] /\
        memory s3 !! copy = None /\
        finalize_handle handle s3 = None.
Proof.
  intros Hhandle Hobject Hmemory Hfresh.
  unfold _gum_v8_cpu_context_free_later. rewrite Hhandle, Hobject, Hmemory.
  set (copy := Z.pos (next_free s)).
  set (wrapper := Pos.succ (next_free s)).
  eexists _, copy. split; [reflexivity|].
  split; [intros E; unfold copy in E; rewrite E in Hfresh; congruence|].
  cbn [memory objects freed].
  split; [apply lookup_insert_eq|].
  split; [apply lookup_insert_eq|].
  split; [unfold is_mutable; cbn [objects]; rewrite lookup_insert_eq; reflexivity|].
  split; [reflexivity|].
  intros steps Hsteps.
  match goal with |- context [fold_left native_step steps ?x] => set (s1 := x) end.
  destruct (native_steps_frame steps s1) as (Hobjects & Hhandles & Hwrappers & Hfreed & _).
  pose proof (native_steps_elsewhere steps s1 copy Hsteps) as Hcopy.
  set (s2 := fold_left native_step steps s1) in *.
  unfold s1 in Hobjects, Hhandles, Hwrappers, Hfreed, Hcopy.
  cbn [objects handles wrappers freed memory] in Hobjects, Hhandles, Hwrappers, Hfreed, Hcopy.
  rewrite lookup_insert_eq in Hcopy.
  split.
  - intros register. unfold read_register.
    rewrite Hobjects, lookup_insert_eq. cbn [_gum_v8_cpu_context_get].
    rewrite Hcopy. reflexivity.
  - unfold finalize_handle, cpu_context_on_weak_notify.
    rewrite Hhandles, lookup_insert_eq, Hwrappers, lookup_insert_eq.
    eexists. split; [reflexivity|].
    cbn [freed memory handles wrappers wrapper_instance wrapper_cpu_context].
    split; [rewrite Hfreed; reflexivity|].
    split; [apply lookup_delete_eq|].
    rewrite lookup_delete_eq. reflexivity.
Qed.

(** C8 on the example [thrown_context]. *)
Lemma cpu_context_snapshot_witness :
  exists s1 copy,
    _gum_v8_cpu_context_free_later 2%positive thrown_context = Some s1 /\
    copy <> 100 /\
    memory s1 !! copy = Some ({[ "pc"%string := 4096 ]} : GumCpuContext) /\
    objects s1 !! 1%positive = Some (Object (CpuContextInstance copy false) [] []) /\
    is_mutable 1%positive s1 = Some false /\
    freed s1 = freed thrown_context /\
    forall steps,
      Forall (fun step => step_address step <> copy) steps ->
      let s2 := fold_left native_step steps s1 in
      (forall register,
          read_register 1%positive register s2
          = ({[ "pc"%string := 4096 ]} : GumCpuContext) !! register) /\
      exists s3,
        finalize_handle 2%positive s2 = Some s3 /\
        freed s3 = freed thrown_context ++ [copy] /\
        memory s3 !! copy = None /\
        finalize_handle 2%positive s3 = None.
Proof.
  apply (cpu_context_snapshot thrown_context 2%positive 1%positive 100
           {[ "pc"%string := 4096 ]} true [] [] None); reflexivity.
Defined.


(** * The argument parser *)

Lemma advance_length (n : nat) (s : string) :
  String.length (advance n s) = (String.length s - n)%nat.
Proof.
  revert s. induction n as [|n IH]; intros s; simpl; [lia|].
  destruct s as [|c s]; simpl; [reflexivity|]. apply IH.
Qed.

Lemma skip_if_length (b : bool) (t : string) :
  (String.length (skip_if b t) <= String.length t)%nat.
Proof.
  unfold skip_if. destruct b; [rewrite advance_length|]; lia.
Qed.

Lemma strchr_lt (t : string) (c : ascii) (n : nat) :
  strchr t c = Some n -> (n < String.length t)%nat.
Proof.
  revert n. induction t as [|x t IH]; intros n; simpl; [discriminate|].
  destruct (Ascii.eqb x c); [intros [= <-]; lia|].
  destruct (strchr t c) as [m|]; [|discriminate].
  intros [= <-]. specialize (IH m eq_refl). lia.
Qed.

(** What the code of one tag guarantees, whatever the tag: on success the
    format pointer has not moved back and the scope has made at most one
    step; on failure the scope and the heap are as they were. *)
Definition tag_ok (bound : nat) (st : ParseState) (r : TagResult) : Prop :=
  match r with
  | Parsed t' st' => (String.length t' <= bound)%nat /\ tag_step st st'
  | Failed _ st' => scope st' = scope st /\ heap st' = heap st
  | NoReturn => True
  | OutOfFuel => False
  end.

Lemma converted_ok {A : Type} (c : Completion A) (st : ParseState)
    (k : A -> TagResult) (bound : nat) :
  (forall a, tag_ok bound st (k a)) -> tag_ok bound st (converted c st k).
Proof.
  intros H. destruct c; simpl; auto.
Qed.

Lemma parsed_unchanged (bound : nat) (st st' : ParseState) (t : string) :
  (String.length t <= bound)%nat ->
  scope st' = scope st -> heap st' = heap st ->
  tag_ok bound st (Parsed t st').
Proof.
  intros. split; [assumption|]. left. split; assumption.
Qed.

Lemma parse_callbacks_ok (fuel : nat) (accepts_pointer : bool)
    (callbacks : list (string * Maybe Value)) (t : string) (st0 st : ParseState) :
  (String.length t < fuel)%nat ->
  scope st = scope st0 -> heap st = heap st0 ->
  tag_ok (String.length t) st0 (parse_callbacks fuel accepts_pointer callbacks t st).
Proof.
  revert t st. induction fuel as [|fuel IH]; intros t st Hfuel Hscope Hheap; [lia|].
  - cbn [parse_callbacks].
    destruct (strchr t "}") as [end_|] eqn:Hend; [|exact I].
    apply strchr_lt in Hend.
    set (t_end := match strchr t "," with
                  | Some next => if (next <? end_)%nat then next else end_
                  | None => end_
                  end).
    assert (Ht_end : (t_end <= end_)%nat).
    { unfold t_end. destruct (strchr t ","); [|lia].
      destruct (Nat.ltb_spec n end_); lia. }
    destruct (last_char (take t_end t)); [|exact I].
    destruct ((64 <? t_end)%nat || (t_end =? 64)%nat && negb (Ascii.eqb a "?"));
      [exact I|].
    destruct (Get callbacks _) as [value|e]; [|split; assumption].
    match goal with |- tag_ok _ _ (converted ?o _ _) => destruct o as [[func_js func_c]| |] end;
      cbn [converted]; [|split; assumption|exact I].
    set (st' := if accepts_pointer
                then write (write st (SFunction func_js)) (SPointer func_c)
                else write st (SFunction func_js)).
    assert (Hst' : scope st' = scope st0 /\ heap st' = heap st0).
    { unfold st'. destruct accepts_pointer; cbn [write scope heap]; split; assumption. }
    destruct Hst' as [Hs Hh].
    pose proof (advance_length (S t_end) t) as Hadv.
    destruct (t_end =? end_)%nat.
    + apply parsed_unchanged; [lia|assumption|assumption].
    + specialize (IH (advance (S t_end) t) st' ltac:(lia) Hs Hh).
      destruct (parse_callbacks fuel accepts_pointer callbacks (advance (S t_end) t) st');
        cbn [tag_ok] in *; try assumption.
      destruct IH as [Hlen Hstep]. split; [lia|assumption].
Qed.


Lemma tag_ok_weaken (bound bound' : nat) (st : ParseState) (r : TagResult) :
  (bound <= bound')%nat -> tag_ok bound st r -> tag_ok bound' st r.
Proof.
  intros Hle. destruct r; cbn [tag_ok]; auto.
  intros [Hlen Hstep]. split; [lia|assumption].
Qed.

(** The length of a format pointer after [if (...) t++;] steps. *)
Ltac format_length :=
  repeat match goal with
         | |- context [skip_if ?b ?t] =>
             lazymatch goal with
             | _ : (String.length (skip_if b t) <= String.length t)%nat |- _ => fail
             | _ => pose proof (skip_if_length b t)
             end
         | |- context [advance ?n ?t] =>
             lazymatch goal with
             | _ : String.length (advance n t) = _ |- _ => fail
             | _ => pose proof (advance_length n t)
             end
         end;
  lia.

(** A tag that has staged the allocation [p] of kind [k]. *)
Ltac staged_one k :=
  right; eexists k, _;
  split; [reflexivity|];
  split; [reflexivity|];
  first [left; split; reflexivity | right; split; reflexivity].

Ltac tag_branch :=
  repeat match goal with
         | |- tag_ok _ _ NoReturn => exact I
         | |- tag_ok _ _ (Failed _ _) => split; reflexivity
         | |- tag_ok _ _ (converted _ _ _) => apply converted_ok; intros
         | |- tag_ok _ _ (parse_callbacks _ _ _ _ _) =>
             eapply tag_ok_weaken;
             [|apply parse_callbacks_ok; [lia|reflexivity|reflexivity]];
             format_length
         | |- tag_ok _ _ (Parsed _ (if ?b then _ else _)) => destruct b
         | |- tag_ok _ _ (Parsed _ _) =>
             split;
             [format_length
             |first [left; split; reflexivity
                    |staged_one KString | staged_one KArray
                    |staged_one KBytes | staged_one KMatchPattern]]
         | |- tag_ok _ _ (match ?x with _ => _ end) => destruct x
         end.

Section ParserProofs.

Variable StringToNumber : string -> spec_float.
Variable ObjectToNumber :
  ObjectKind -> list (Maybe Value) -> list (string * Maybe Value) -> Maybe spec_float.
Variable gum_match_pattern_new_from_string : string -> bool.

Local Abbreviation tag :=
  (parse_tag StringToNumber ObjectToNumber gum_match_pattern_new_from_string).
Local Abbreviation turn :=
  (parse_turn StringToNumber ObjectToNumber gum_match_pattern_new_from_string).
Local Abbreviation loop :=
  (parse_loop StringToNumber ObjectToNumber gum_match_pattern_new_from_string).
Local Abbreviation args_parse :=
  (_gum_v8_args_parse StringToNumber ObjectToNumber gum_match_pattern_new_from_string).

Lemma parse_tag_ok (c : ascii) (t1 : string) (arg : Value) (st : ParseState) :
  tag_ok (String.length t1) st (tag c t1 arg st).
Proof.
  unfold parse_tag, scope_strdup, g_strdup, g_array_sized_new, g_bytes_new,
    gum_match_pattern_new, gum_match_pattern_ref, allocate.
  destruct c as [[] [] [] [] [] [] [] []]; cbv iota; try exact I; tag_branch.
Qed.

Lemma parse_turn_ok (args : list Value) (t : string) (arg_index : nat)
    (is_required : bool) (st : ParseState) :
  match turn args t arg_index is_required st with
  | Next t' _ _ st' => (String.length t' < String.length t)%nat /\ tag_step st st'
  | LeaveLoop st' => st' = st
  | ReturnFALSE _ st' => scope st' = scope st /\ heap st' = heap st
  | Stuck => True
  | TurnOutOfFuel => False
  end.
Proof.
  unfold parse_turn. destruct t as [|c t1]; [reflexivity|].
  destruct (Ascii.eqb c "|").
  { cbn [String.length]. split; [lia|]. left. split; reflexivity. }
  destruct ((length args <=? arg_index)%nat || IsUndefined (nth arg_index args Undefined)).
  { destruct is_required; [split; reflexivity | reflexivity]. }
  pose proof (parse_tag_ok c t1 (nth arg_index args Undefined) st) as H.
  destruct (tag c t1 (nth arg_index args Undefined) st); cbn [tag_ok] in H.
  - destruct H as [Hlen Hstep]. cbn [String.length]. split; [lia|assumption].
  - assumption.
  - exact I.
  - assumption.
Qed.


(** ** Accounting *)

Lemma acquisitions_app (k : Kind) (p : positive) (l l' : list Event) :
  acquisitions k p (l ++ l') = (acquisitions k p l + acquisitions k p l')%nat.
Proof. unfold acquisitions. rewrite List.filter_app, length_app. reflexivity. Qed.

Lemma releases_app (k : Kind) (p : positive) (l l' : list Event) :
  releases k p (l ++ l') = (releases k p l + releases k p l')%nat.
Proof. unfold releases. rewrite List.filter_app, length_app. reflexivity. Qed.

Lemma releases_map (k k' : Kind) (p : positive) (l : list positive) :
  releases k p (map (Released k') l) = if Kind_eqb k k' then occurrences p l else O.
Proof.
  unfold releases, occurrences.
  induction l as [|x l IH]; simpl; [destruct (Kind_eqb k k'); reflexivity|].
  destruct (Kind_eqb k k') eqn:E; simpl.
  - destruct (Pos.eqb p x); simpl; rewrite IH; reflexivity.
  - exact IH.
Qed.

Lemma releases_rollback (k : Kind) (p : positive) (sc : GumV8ArgsParseScope) :
  releases k p (rollback sc) = occurrences p (staged k sc).
Proof.
  unfold rollback. rewrite !releases_app, !releases_map.
  destruct k; cbn [Kind_eqb staged]; lia.
Qed.

Lemma g_slist_foreach_release (k : Kind) (l : list positive) (h : NativeHeap) :
  events (g_slist_foreach l (release k) h) = events h ++ map (Released k) l /\
  next_address (g_slist_foreach l (release k) h) = next_address h.
Proof.
  unfold g_slist_foreach. revert h. induction l as [|p l IH]; intros h; simpl.
  - rewrite app_nil_r. split; reflexivity.
  - destruct (IH (release k h p)) as [-> ->]. cbn [release events next_address].
    rewrite <- app_assoc. split; reflexivity.
Qed.

Lemma scope_destroy_uncommitted (sc : GumV8ArgsParseScope) (h : NativeHeap) :
  committed sc = false ->
  events (scope_destroy sc h) = events h ++ rollback sc.
Proof.
  intros Hc. unfold scope_destroy, rollback, g_free, g_array_unref, g_bytes_unref,
    gum_match_pattern_unref. rewrite Hc. cbn [negb].
  repeat (rewrite (proj1 (g_slist_foreach_release _ _ _))).
  rewrite <- !app_assoc. reflexivity.
Qed.

Lemma scope_destroy_committed (sc : GumV8ArgsParseScope) (h : NativeHeap) :
  committed sc = true -> scope_destroy sc h = h.
Proof. intros Hc. unfold scope_destroy. rewrite Hc. reflexivity. Qed.

Lemma stage_committed (k : Kind) (p : positive) (sc : GumV8ArgsParseScope) :
  committed (stage k p sc) = committed sc.
Proof. destruct k; reflexivity. Qed.

Lemma staged_stage (k k' : Kind) (p : positive) (sc : GumV8ArgsParseScope) :
  staged k' (stage k p sc) = if Kind_eqb k' k then p :: staged k' sc else staged k' sc.
Proof. destruct k, k'; reflexivity. Qed.

Lemma fresh_staged_stage (k : Kind) (p : positive) (sc : GumV8ArgsParseScope) :
  Permutation (fresh_staged (stage k p sc))
    (if Kind_eqb k KMatchPattern then fresh_staged sc else p :: fresh_staged sc).
Proof.
  unfold fresh_staged. destruct k; cbn [stage scope_add_array scope_add_bytes
    scope_add_pattern strings arrays bytes Kind_eqb].
  - reflexivity.
  - apply Permutation_sym, Permutation_middle.
  - apply Permutation_sym. rewrite app_assoc.
    etransitivity; [apply Permutation_middle|].
    rewrite <- app_assoc. reflexivity.
  - reflexivity.
Qed.

Lemma scope_invariant_entry (h0 : NativeHeap) (sl : list Slot) :
  scope_invariant h0 (mkState scope_new h0 sl).
Proof.
  unfold scope_invariant. cbn.
  split; [reflexivity|]. split; [intros p []|]. split; [constructor|].
  exists []. rewrite app_nil_r. split; [reflexivity|]. split; [reflexivity|].
  intros k p. destruct k; reflexivity.
Qed.

Lemma scope_invariant_frame (h0 : NativeHeap) (st st' : ParseState) :
  scope st' = scope st -> heap st' = heap st ->
  scope_invariant h0 st -> scope_invariant h0 st'.
Proof. unfold scope_invariant. intros -> ->. exact (fun H => H). Qed.

Lemma scope_invariant_step (h0 : NativeHeap) (st st' : ParseState) :
  tag_step st st' -> scope_invariant h0 st -> scope_invariant h0 st'.
Proof.
  intros [[Hs Hh]|(k & p & Hs & He & Hp)] Hinv;
    [exact (scope_invariant_frame h0 st st' Hs Hh Hinv)|].
  destruct Hinv as (Hc & Hbound & Hnodup & acquired & Hev & Hacq & Hcount).
  unfold scope_invariant. rewrite Hs, He.
  split; [rewrite stage_committed; exact Hc|].
  assert (Hnext : (next_address (heap st) <= next_address (heap st'))%positive).
  { destruct Hp as [[Hp ->]|[_ ->]]; lia. }
  pose proof (fresh_staged_stage k p (scope st)) as Hperm.
  split; [|split].
  - intros q Hq. apply (Permutation_in _ Hperm) in Hq.
    destruct (Kind_eqb k KMatchPattern) eqn:Ek.
    + specialize (Hbound q Hq). lia.
    + destruct Hq as [<-|Hq]; [|specialize (Hbound q Hq); lia].
      destruct Hp as [[-> ->]|[-> _]]; [lia|discriminate].
  - apply (Permutation_NoDup (Permutation_sym Hperm)).
    destruct (Kind_eqb k KMatchPattern) eqn:Ek; [exact Hnodup|].
    constructor; [|exact Hnodup].
    intros Hin. specialize (Hbound p Hin).
    destruct Hp as [[-> _]|[-> _]]; [lia|discriminate].
  - exists (acquired ++ [Acquired k p]).
    split; [rewrite Hev, app_assoc; reflexivity|].
    split; [rewrite forallb_app, Hacq; reflexivity|].
    intros k' p'. rewrite acquisitions_app, Hcount, staged_stage.
    unfold acquisitions, occurrences. cbn [List.filter].
    destruct (Kind_eqb k' k); cbn [andb List.filter];
      [destruct (Pos.eqb p' p)|]; cbn [length]; lia.
Qed.

Lemma balanced_return_FALSE (h0 : NativeHeap) (m : string) (st : ParseState) :
  scope_invariant h0 st -> balanced h0 (return_FALSE m st).
Proof.
  intros (Hc & _ & Hnodup & acquired & Hev & Hacq & Hcount).
  unfold balanced, return_FALSE. cbn [scope_at_exit heap_at_exit returned].
  split; [exact Hnodup|]. exists acquired.
  split; [exact Hacq|]. split; [exact Hcount|].
  split; [exact Hc|].
  split.
  - rewrite (scope_destroy_uncommitted _ _ Hc), Hev, app_assoc. reflexivity.
  - intros k p. rewrite releases_rollback, Hcount. reflexivity.
Qed.

Lemma balanced_return_TRUE (h0 : NativeHeap) (st : ParseState) :
  scope_invariant h0 st -> balanced h0 (return_TRUE st).
Proof.
  intros (Hc & _ & Hnodup & acquired & Hev & Hacq & Hcount).
  unfold balanced, return_TRUE. cbn [scope_at_exit heap_at_exit returned].
  split; [exact Hnodup|]. exists acquired.
  split; [exact Hacq|]. split; [exact Hcount|].
  split; [reflexivity|].
  rewrite scope_destroy_committed by reflexivity. exact Hev.
Qed.

Lemma parse_loop_balanced (h0 : NativeHeap) (fuel : nat) (args : list Value)
    (t : string) (arg_index : nat) (is_required : bool) (st : ParseState) :
  (String.length t < fuel)%nat ->
  scope_invariant h0 st ->
  match loop fuel args t arg_index is_required st with
  | Returns r => balanced h0 r
  | DoesNotReturn => True
  | ParseOutOfFuel => False
  end.
Proof.
  revert t arg_index is_required st.
  induction fuel as [|fuel IH]; intros t arg_index is_required st Hfuel Hinv; [lia|].
  cbn [parse_loop].
  pose proof (parse_turn_ok args t arg_index is_required st) as Hturn.
  destruct (turn args t arg_index is_required st) as [t' i' r' st'|st'|m st'| |].
  - destruct Hturn as [Hlen Hstep].
    apply IH; [lia|]. exact (scope_invariant_step h0 st st' Hstep Hinv).
  - subst st'. apply balanced_return_TRUE, Hinv.
  - destruct Hturn as [Hs Hh].
    apply balanced_return_FALSE. exact (scope_invariant_frame h0 st st' Hs Hh Hinv).
  - exact I.
  - exact Hturn.
Qed.

(** C1.  A call of [_gum_v8_args_parse] that returns leaves the heap
    balanced.  All it has done to the tracked allocations since it was
    entered is to acquire those its scope holds, once for each entry of the
    scope, and, when it returns [FALSE], to release then each entry of the
    scope once, through the destructor of its kind: [g_free] for the
    strings, then [g_array_unref] for the arrays, [g_bytes_unref] for the
    byte buffers and [gum_match_pattern_unref] for the match patterns.  The
    strings, arrays and byte buffers staged are distinct, so none is
    released twice, and a match pattern is released as many times as
    references were taken on it.  When it returns [TRUE] the scope is
    committed and nothing is released.  The call never runs out of fuel. *)
Theorem args_parse_scope (args : list Value) (format : string) (h : NativeHeap) :
  match args_parse args format h with
  | Returns r => balanced h r
  | DoesNotReturn => True
  | ParseOutOfFuel => False
  end.
Proof.
  unfold _gum_v8_args_parse.
  apply parse_loop_balanced; [lia|]. apply scope_invariant_entry.
Qed.


(** ** Missing arguments *)

Local Abbreviation turns :=
  (after_turns StringToNumber ObjectToNumber gum_match_pattern_new_from_string).

Lemma after_turns_loop (n : nat) (args : list Value) (t : string) (arg_index : nat)
    (is_required : bool) (st : ParseState) (t' : string) (arg_index' : nat)
    (is_required' : bool) (st' : ParseState) :
  turns n args (t, arg_index, is_required, st)
  = Some (t', arg_index', is_required', st') ->
  (String.length t' + n <= String.length t)%nat /\
  forall fuel,
    loop (n + fuel) args t arg_index is_required st
    = loop fuel args t' arg_index' is_required' st'.
Proof.
  revert t arg_index is_required st.
  induction n as [|n IH]; intros t arg_index is_required st H.
  - injection H as -> -> -> ->. split; [lia|reflexivity].
  - cbn [after_turns] in H.
    pose proof (parse_turn_ok args t arg_index is_required st) as Hturn.
    destruct (turn args t arg_index is_required st) as [t1 i1 r1 st1| | | |] eqn:E;
      try discriminate.
    destruct Hturn as [Hlen _].
    destruct (IH _ _ _ _ H) as [Hlen' Hloop].
    split; [lia|].
    intros fuel. cbn [Nat.add parse_loop]. rewrite E. apply Hloop.
Qed.

(** What the code of a tag that converts its argument has written when
    the switch is left: one slot at least, after those written before. *)
Definition tag_writes (st : ParseState) (r : TagResult) : Prop :=
  match r with
  | Parsed _ st' => exists slot more, slots st' = slots st ++ slot :: more
  | _ => True
  end.

Lemma parse_callbacks_writes (fuel : nat) (accepts_pointer : bool)
    (callbacks : list (string * Maybe Value)) (t : string) (st : ParseState) :
  tag_writes st (parse_callbacks fuel accepts_pointer callbacks t st).
Proof.
  revert t st. induction fuel as [|fuel IH]; intros t st; [exact I|].
  cbn [parse_callbacks].
  destruct (strchr t "}") as [end_|]; [|exact I].
  set (t_end := match strchr t "," with
                | Some next => if (next <? end_)%nat then next else end_
                | None => end_
                end).
  destruct (last_char (take t_end t)); [|exact I].
  destruct ((64 <? t_end)%nat || (t_end =? 64)%nat && negb (Ascii.eqb a "?"));
    [exact I|].
  destruct (Get callbacks _) as [value|e]; [|exact I].
  match goal with
  | |- tag_writes _ (converted ?o _ _) => destruct o as [[func_js func_c]| |]
  end; cbn [converted]; [|exact I|exact I].
  set (st' := if accepts_pointer
              then write (write st (SFunction func_js)) (SPointer func_c)
              else write st (SFunction func_js)).
  assert (Hst' : exists more, slots st' = slots st ++ SFunction func_js :: more).
  { unfold st'. destruct accepts_pointer; cbn [write slots].
    - exists [SPointer func_c]. rewrite <- List.app_assoc. reflexivity.
    - exists []. reflexivity. }
  destruct Hst' as [more Hst'].
  destruct (t_end =? end_)%nat.
  - cbn [tag_writes]. eexists _, _. exact Hst'.
  - specialize (IH (advance (S t_end) t) st').
    destruct (parse_callbacks fuel accepts_pointer callbacks (advance (S t_end) t) st');
      cbn [tag_writes] in *; try exact I.
    destruct IH as (slot & more' & IH). rewrite IH, Hst', <- List.app_assoc.
    eexists _, _. cbn [app]. reflexivity.
Qed.

Ltac writes_branch :=
  repeat match goal with
         | |- tag_writes _ NoReturn => exact I
         | |- tag_writes _ (Failed _ _) => exact I
         | |- tag_writes _ (converted ?c _ _) => destruct c; cbn [converted]
         | |- tag_writes _ (parse_callbacks _ _ _ _ _) => apply parse_callbacks_writes
         | |- tag_writes _ (Parsed _ (if ?b then _ else _)) => destruct b
         | |- tag_writes _ (Parsed _ _) =>
             cbn [tag_writes write slots]; rewrite <- ?List.app_assoc;
             eexists _, _; cbn [app]; reflexivity
         | |- tag_writes _ (match ?x with _ => _ end) => destruct x
         end.

(** Every tag that converts its argument writes through an output
    pointer. *)
Lemma parse_tag_writes (c : ascii) (t1 : string) (arg : Value) (st : ParseState) :
  tag_writes st (tag c t1 arg st).
Proof.
  unfold parse_tag, scope_strdup, g_strdup, g_array_sized_new, g_bytes_new,
    gum_match_pattern_new, gum_match_pattern_ref, allocate.
  destruct c as [[] [] [] [] [] [] [] []]; cbv iota; try exact I; writes_branch.
Qed.

(** A turn after which the required flag is still set was the turn of a
    tag: the flag was set before, the argument was there, and the code of
    the tag has converted it and written a slot. *)
Lemma parse_turn_required (args : list Value) (t : string) (i : nat) (r : bool)
    (st : ParseState) (t' : string) (i' : nat) (st' : ParseState) :
  turn args t i r st = Next t' i' true st' ->
  r = true /\ i' = S i /\ (i < length args)%nat /\
  nth i args Undefined <> Undefined /\
  exists c t1,
    t = String c t1 /\
    tag c t1 (nth i args Undefined) st = Parsed t' st' /\
    exists slot more, slots st' = slots st ++ slot :: more.
Proof.
  unfold parse_turn. destruct t as [|c t1]; [discriminate|].
  destruct (Ascii.eqb c "|"); [discriminate|].
  destruct ((length args <=? i)%nat || IsUndefined (nth i args Undefined)) eqn:Hmiss.
  { destruct r; discriminate. }
  apply orb_false_elim in Hmiss as [Hlen Hundef]. apply Nat.leb_gt in Hlen.
  pose proof (parse_tag_writes c t1 (nth i args Undefined) st) as Hw.
  destruct (tag c t1 (nth i args Undefined) st) as [t'' st''| | |] eqn:Htag;
    try discriminate.
  intros H. injection H as -> <- -> ->.
  split; [reflexivity|]. split; [reflexivity|]. split; [exact Hlen|].
  split.
  { intros Hu. rewrite Hu in Hundef. discriminate. }
  exists c, t1. split; [reflexivity|]. split; [exact Htag|exact Hw].
Qed.

(** The turns before a position in which the required flag is set: each
    was the turn of a tag, which took the next argument and wrote its
    slots after those of the tags before it. *)
Lemma after_turns_required (n : nat) (args : list Value) (t : string) (i : nat)
    (r : bool) (st : ParseState) (t' : string) (i' : nat) (st' : ParseState) :
  turns n args (t, i, r, st) = Some (t', i', true, st') ->
  r = true /\ i' = (i + n)%nat /\
  (exists rest, slots st' = slots st ++ rest /\ (n <= length rest)%nat) /\
  forall k, (k < n)%nat ->
    exists ck tk stk tk' stk' slot more rest,
      turns k args (t, i, r, st) = Some (String ck tk, (i + k)%nat, true, stk) /\
      (i + k < length args)%nat /\
      nth (i + k) args Undefined <> Undefined /\
      tag ck tk (nth (i + k) args Undefined) stk = Parsed tk' stk' /\
      slots stk' = slots stk ++ slot :: more /\
      slots st' = slots stk' ++ rest.
Proof.
  revert t i r st. induction n as [|n IH]; intros t i r st H.
  - injection H as -> -> -> ->.
    split; [reflexivity|]. split; [lia|]. split.
    + exists []. rewrite List.app_nil_r. split; [reflexivity|cbn; lia].
    + intros k Hk. lia.
  - cbn [after_turns] in H.
    destruct (turn args t i r st) as [t1 i1 r1 st1| | | |] eqn:E; try discriminate.
    destruct (IH _ _ _ _ H) as (-> & -> & (rest1 & Hrest1 & Hlen1) & Hturns).
    destruct (parse_turn_required _ _ _ _ _ _ _ _ E)
      as (-> & -> & Hi & Hnth & c & t0 & -> & Htag & slot & more & Hs).
    split; [reflexivity|]. split; [lia|]. split.
    + exists (slot :: more ++ rest1). split.
      * rewrite Hrest1, Hs, <- List.app_assoc. reflexivity.
      * cbn [length]. rewrite List.length_app. lia.
    + intros k Hk. destruct k as [|k].
      * exists c, t0, st, t1, st1, slot, more, rest1.
        rewrite Nat.add_0_r. cbn [after_turns].
        split; [reflexivity|]. split; [exact Hi|]. split; [exact Hnth|].
        split; [exact Htag|]. split; [exact Hs|exact Hrest1].
      * destruct (Hturns k ltac:(lia))
          as (ck & tk & stk & tk' & stk' & slot' & more' & rest' & Hk1 & Hk2 & Hk3
              & Hk4 & Hk5 & Hk6).
        exists ck, tk, stk, tk', stk', slot', more', rest'.
        replace (i + S k)%nat with (S i + k)%nat by lia.
        cbn [after_turns]. rewrite E.
        split; [exact Hk1|]. split; [exact Hk2|]. split; [exact Hk3|].
        split; [exact Hk4|]. split; [exact Hk5|exact Hk6].
Qed.

(** C2, amended.  When the loop of [_gum_v8_args_parse], after some turns,
    stands with the required flag set on a tag whose argument is absent or
    is [undefined], the call returns [FALSE] with "missing argument"
    pending.  The turns before were those of the tags before this one,
    one argument each: the code of each has converted its argument and
    written its slots, one at least, and what it has written is still
    there when the call returns.  The slots written are those and no
    other: none for this tag and none for a later one; and none at all
    exactly when the tag is the first of the format. *)
Theorem missing_argument (args : list Value) (format : string) (h : NativeHeap)
    (n : nat) (c : ascii) (t1 : string) (arg_index : nat) (st : ParseState) :
  turns n args (entry format h) = Some (String c t1, arg_index, true, st) ->
  c <> "|"%char ->
  (length args <= arg_index)%nat \/ nth arg_index args Undefined = Undefined ->
  exists r,
    args_parse args format h = Returns r /\
    returned r = false /\
    pending_exception r = Some "missing argument"%string /\
    error_kind "missing argument" = Some MissingArgument /\
    written r = slots st /\
    arg_index = n /\
    (forall k, (k < n)%nat ->
       exists ck tk stk tk' stk' slot more rest,
         turns k args (entry format h) = Some (String ck tk, k, true, stk) /\
         (k < length args)%nat /\
         nth k args Undefined <> Undefined /\
         tag ck tk (nth k args Undefined) stk = Parsed tk' stk' /\
         slots stk' = slots stk ++ slot :: more /\
         written r = slots stk' ++ rest) /\
    (n <= length (written r))%nat /\
    (written r = [] <-> n = O).
Proof.
  intros Hturns Hc Harg. unfold entry in Hturns.
  destruct (after_turns_loop _ _ _ _ _ _ _ _ _ _ Hturns) as [Hlen Hloop].
  destruct (after_turns_required _ _ _ _ _ _ _ _ _ Hturns)
    as (_ & Hindex & (rest & Hrest & Hcount) & Hbefore).
  cbn [slots app] in Hrest. cbn [Nat.add] in Hindex, Hbefore.
  exists (return_FALSE "missing argument" st).
  split.
  - unfold _gum_v8_args_parse.
    replace (S (String.length (c_str format)))
      with (n + S (String.length (c_str format) - n))%nat by lia.
    rewrite Hloop. cbn [parse_loop parse_turn].
    destruct (Ascii.eqb_spec c "|"); [contradiction|].
    assert ((length args <=? arg_index)%nat
            || IsUndefined (nth arg_index args Undefined) = true) as ->.
    { destruct Harg as [Hle | ->]; [|apply orb_true_r].
      apply orb_true_intro. left. apply Nat.leb_le. exact Hle. }
    reflexivity.
  - cbn [return_FALSE written].
    split; [reflexivity|]. split; [reflexivity|]. split; [reflexivity|].
    split; [reflexivity|]. split; [exact Hindex|]. split; [exact Hbefore|].
    split; [rewrite Hrest; exact Hcount|].
    rewrite Hrest. split.
    + intros ->. cbn [length] in Hcount. lia.
    + intros ->. cbn [after_turns] in Hturns. injection Hturns as _ _ <-.
      cbn [slots] in Hrest. symmetry. exact Hrest.
Qed.

End ParserProofs.

(** C2, as stated: when the parser fails for a missing argument no output
    slot would have been written.  With the format ["ii"] and the single
    argument 1 the slot of the first tag has been written when the second
    is found missing. *)
Lemma missing_argument_after_a_slot :
  ~ (forall StringToNumber ObjectToNumber gum_match_pattern_new_from_string
            args format h r,
        _gum_v8_args_parse StringToNumber ObjectToNumber
          gum_match_pattern_new_from_string args format h = Returns r ->
        pending_exception r = Some "missing argument"%string ->
        written r = []).
Proof.
  intros H.
  specialize (H (fun _ => S754_nan) (fun _ _ _ => Nothing "TypeError") (fun _ => false)
                [Number (S754_finite false 1 0)] "ii"%string (mkHeap 1 []) _
                eq_refl eq_refl).
  discriminate.
Qed.

(** The amended C2 at the format ["ii"] with the single argument 1, after
    one turn: the slot of the first tag holds 1 when the call returns. *)
Lemma missing_argument_witness :
  exists r,
    _gum_v8_args_parse (fun _ => S754_nan) (fun _ _ _ => Nothing "TypeError")
      (fun _ => false) [Number (S754_finite false 1 0)] "ii" (mkHeap 1 []) = Returns r /\
    returned r = false /\
    pending_exception r = Some "missing argument"%string /\
    error_kind "missing argument" = Some MissingArgument /\
    written r = [SInt 1] /\
    (1 <= length (written r))%nat /\
    (written r = [] <-> 1%nat = O).
Proof.
  destruct (missing_argument (fun _ => S754_nan) (fun _ _ _ => Nothing "TypeError")
              (fun _ => false) [Number (S754_finite false 1 0)] "ii" (mkHeap 1 [])
              1 "i" "" 1 (mkState scope_new (mkHeap 1 []) [SInt 1])
              eq_refl ltac:(discriminate) ltac:(left; simpl; lia))
    as (r & Hrun & Hret & Hpending & Hkind & Hwritten & _ & _ & Hcount & Hnone).
  exists r. repeat split; try assumption; apply Hnone.
Defined.

(** C1 at a call that fails on its third argument, with a string and a
    match pattern staged: both are released, in the order of the
    destructor. *)
Example args_parse_rollback :
  match _gum_v8_args_parse (fun _ => S754_nan) (fun _ _ _ => Nothing "TypeError")
          (fun _ => true)
          [Str "a"; Str "b"; Object ArrayExotic [Just (BigInt 3)] []] "sMB"
          (mkHeap 1 []) with
  | Returns r =>
      returned r = false /\
      pending_exception r = Some "unsupported data value"%string /\
      events (heap_at_exit r)
      = [Acquired KString 1; Acquired KMatchPattern 2;
         Released KString 1; Released KMatchPattern 2]
  | _ => False
  end.
Proof. repeat split. Qed.


(** * Further properties of the numeric conversions *)

Lemma wrap_uint64_small (z : Z) : 0 <= z <= G_MAXUINT64 -> wrap_uint64 z = z.
Proof.
  unfold wrap_uint64, G_MAXUINT64. intros H. apply Z.mod_small. lia.
Qed.

Lemma wrap_uint64_range (z : Z) : 0 <= wrap_uint64 z <= G_MAXUINT64.
Proof.
  unfold wrap_uint64, G_MAXUINT64.
  pose proof (Z.mod_pos_bound z (2 ^ 64) ltac:(lia)). lia.
Qed.

Lemma wrap_int64_range (z : Z) : G_MININT64 <= wrap_int64 z <= G_MAXINT64.
Proof.
  unfold wrap_int64, G_MININT64, G_MAXINT64.
  pose proof (Z.mod_pos_bound (z + 2 ^ 63) (2 ^ 64) ltac:(lia)). lia.
Qed.

(** X1.  A boxed 64-bit integer or pointer made by [_gum_v8_int64_new],
    [_gum_v8_uint64_new] or [_gum_v8_native_pointer_new] is read back
    unchanged by the getter and by the parse of its own type, and by the
    size getters; the exact getters refuse the wrapper of the other
    signedness, while the pointer parse takes a boxed signed integer as the
    address with the same bits. *)
Theorem boxed_round_trips :
  (forall i, G_MININT64 <= i <= G_MAXINT64 ->
     _gum_v8_int64_get (_gum_v8_int64_new i) = Done i /\
     _gum_v8_int64_parse (_gum_v8_int64_new i) = Done i /\
     _gum_v8_ssize_get (_gum_v8_int64_new i) = Done i /\
     _gum_v8_uint64_get (_gum_v8_int64_new i) = Thrown "expected an unsigned integer" /\
     _gum_v8_native_pointer_parse (_gum_v8_int64_new i) = Done (i mod 2 ^ 64)) /\
  (forall u, 0 <= u <= G_MAXUINT64 ->
     _gum_v8_uint64_get (_gum_v8_uint64_new u) = Done u /\
     _gum_v8_uint64_parse (_gum_v8_uint64_new u) = Done u /\
     _gum_v8_size_get (_gum_v8_uint64_new u) = Done u /\
     _gum_v8_int64_get (_gum_v8_uint64_new u) = Thrown "expected an integer" /\
     _gum_v8_native_pointer_parse (_gum_v8_uint64_new u) = Done u) /\
  (forall p, 0 <= p <= G_MAXUINT64 ->
     _gum_v8_native_pointer_get (_gum_v8_native_pointer_new p) = Done p /\
     _gum_v8_native_pointer_parse (_gum_v8_native_pointer_new p) = Done p /\
     _gum_v8_int64_get (_gum_v8_native_pointer_new p) = Thrown "expected an integer" /\
     _gum_v8_uint64_get (_gum_v8_native_pointer_new p)
       = Thrown "expected an unsigned integer").
Proof.
  split; [|split].
  - intros i Hi.
    unfold _gum_v8_int64_parse, _gum_v8_int64_get, _gum_v8_ssize_get, _gum_v8_uint64_get,
      _gum_v8_native_pointer_parse, _gum_v8_int64_new, _gum_v8_int64_get_value, Int64Value.
    cbn [IsString fst]. rewrite (wrap_int64_small i Hi). repeat split.
  - intros u Hu.
    unfold _gum_v8_uint64_parse, _gum_v8_uint64_get, _gum_v8_size_get, _gum_v8_int64_get,
      _gum_v8_native_pointer_parse, _gum_v8_uint64_new, _gum_v8_uint64_get_value,
      Uint64Value.
    cbn [IsString fst]. rewrite (wrap_uint64_small u Hu). repeat split.
  - intros p Hp.
    unfold _gum_v8_native_pointer_parse, _gum_v8_native_pointer_get,
      _gum_v8_native_pointer_new, GUMJS_NATIVE_POINTER_VALUE, Uint64Value.
    cbn [is_native_pointer fst]. rewrite (wrap_uint64_small p Hp). repeat split.
Qed.

(** X1 at the integers -3 and 2^64 - 1 and the address 4096. *)
Lemma boxed_round_trips_witness :
  _gum_v8_int64_get (_gum_v8_int64_new (-3)) = Done (-3) /\
  _gum_v8_uint64_get (_gum_v8_uint64_new G_MAXUINT64) = Done G_MAXUINT64 /\
  _gum_v8_native_pointer_parse (_gum_v8_native_pointer_new 4096) = Done 4096.
Proof.
  destruct boxed_round_trips as (Hi & Hu & Hp).
  split; [|split].
  - apply (Hi (-3)). vm_compute. split; discriminate.
  - apply (Hu G_MAXUINT64). vm_compute. split; discriminate.
  - apply (Hp 4096). vm_compute. split; discriminate.
Defined.

(** The denominator of a finite double is positive. *)
Lemma rational_denominator (d : spec_float) (n q : Z) :
  rational d = Some (n, q) -> 0 < q.
Proof.
  destruct d as [s|s| |s m e]; cbn [rational]; try discriminate.
  - intros [= <- <-]. lia.
  - destruct (0 <=? e) eqn:He; intros [= <- <-]; [lia|].
    apply Z.pow_pos_nonneg; lia.
Qed.

Lemma quot_between (n q lo hi : Z) :
  0 < q -> lo <= 0 <= hi -> lo * q <= n <= hi * q -> lo <= Z.quot n q <= hi.
Proof.
  intros Hq Hb Hn. destruct (Z.le_gt_cases 0 n) as [Hpos|Hneg].
  - rewrite Z.quot_div_nonneg by lia.
    pose proof (Z.div_pos n q Hpos Hq).
    assert (n / q <= hi) by (apply Z.div_le_upper_bound; lia). lia.
  - replace n with (- (- n)) by lia. rewrite Z.quot_opp_l by lia.
    rewrite Z.quot_div_nonneg by lia.
    pose proof (Z.div_pos (- n) q ltac:(lia) Hq).
    assert (- n / q <= - lo) by (apply Z.div_le_upper_bound; lia). lia.
Qed.

(** A double between two integers truncates to an integer between them. *)
Lemma truncate_between (d : spec_float) (lo hi : Z) :
  lo <= 0 <= hi ->
  double_geb d lo = true -> double_leb d hi = true ->
  exists i, truncate d = Some i /\ lo <= i <= hi.
Proof.
  intros Hb Hge Hle. unfold truncate.
  destruct d as [s|s| |s m e].
  - exists 0. split; [reflexivity|lia].
  - cbn in Hge, Hle. destruct s; discriminate.
  - discriminate.
  - unfold double_geb, double_leb in Hge, Hle.
    pose proof (rational_denominator (S754_finite s m e)) as Hq.
    destruct (rational (S754_finite s m e)) as [[n q]|]; [|discriminate].
    specialize (Hq n q eq_refl).
    rewrite Z.geb_leb in Hge. apply Z.leb_le in Hge, Hle.
    eexists. split; [reflexivity|]. apply quot_between; lia.
Qed.

(** X2.  The 32-bit getters never misbehave and never give a value
    outside the range of their type.  A number is accepted exactly when it
    lies in the range, and it is then truncated toward zero, so a number
    with a fractional part is accepted too; anything else is refused with
    the getter's message. *)
Theorem int_get_range :
  (forall d,
      if double_geb d G_MININT && double_leb d G_MAXINT
      then exists i, truncate d = Some i /\ G_MININT <= i <= G_MAXINT /\
                     _gum_v8_int_get (Number d) = Done i
      else _gum_v8_int_get (Number d) = Thrown "expected an integer") /\
  (forall d,
      if double_geb d 0 && double_leb d G_MAXUINT
      then exists u, truncate d = Some u /\ 0 <= u <= G_MAXUINT /\
                     _gum_v8_uint_get (Number d) = Done u
      else _gum_v8_uint_get (Number d) = Thrown "expected an unsigned integer") /\
  (forall v i, _gum_v8_int_get v = Done i -> G_MININT <= i <= G_MAXINT) /\
  (forall v u, _gum_v8_uint_get v = Done u -> 0 <= u <= G_MAXUINT) /\
  (forall v, _gum_v8_int_get v <> Undefined_behaviour /\
             _gum_v8_uint_get v <> Undefined_behaviour) /\
  _gum_v8_int_get (Number (S754_finite true 3 (-1))) = Done (-1) /\
  _gum_v8_uint_get (Number (S754_finite false 3 (-1))) = Done 1.
Proof.
  assert (Hint : forall d,
             if double_geb d G_MININT && double_leb d G_MAXINT
             then exists i, truncate d = Some i /\ G_MININT <= i <= G_MAXINT /\
                            _gum_v8_int_get (Number d) = Done i
             else _gum_v8_int_get (Number d) = Thrown "expected an integer").
  { intros d. unfold _gum_v8_int_get.
    destruct (double_geb d G_MININT && double_leb d G_MAXINT) eqn:E; [|reflexivity].
    apply andb_prop in E as [Hge Hle].
    destruct (truncate_between d G_MININT G_MAXINT ltac:(vm_compute; split; discriminate)
                Hge Hle) as (i & Hi & Hr).
    exists i. rewrite Hi. auto. }
  assert (Huint : forall d,
             if double_geb d 0 && double_leb d G_MAXUINT
             then exists u, truncate d = Some u /\ 0 <= u <= G_MAXUINT /\
                            _gum_v8_uint_get (Number d) = Done u
             else _gum_v8_uint_get (Number d) = Thrown "expected an unsigned integer").
  { intros d. unfold _gum_v8_uint_get.
    destruct (double_geb d 0 && double_leb d G_MAXUINT) eqn:E; [|reflexivity].
    apply andb_prop in E as [Hge Hle].
    destruct (truncate_between d 0 G_MAXUINT ltac:(vm_compute; split; discriminate)
                Hge Hle) as (u & Hu & Hr).
    exists u. rewrite Hu. auto. }
  split; [exact Hint|]. split; [exact Huint|].
  split; [|split; [|split]].
  - intros v i H. destruct v; try discriminate.
    + specialize (Hint d).
      destruct (double_geb d G_MININT && double_leb d G_MAXINT).
      * destruct Hint as (i' & _ & Hr & Hi'). congruence.
      * congruence.
    + unfold _gum_v8_int_get, Int64Value in H.
      destruct ((G_MININT64 <=? z) && (z <=? G_MAXINT64) && (wrap_int64 z >=? G_MININT)
                && (wrap_int64 z <=? G_MAXINT)) eqn:E; [|discriminate].
      injection H as <-. apply andb_prop in E as [E E2]. apply andb_prop in E as [_ E1].
      rewrite Z.geb_leb in E1. apply Z.leb_le in E1, E2. lia.
  - intros v u H. destruct v; try discriminate.
    + specialize (Huint d).
      destruct (double_geb d 0 && double_leb d G_MAXUINT).
      * destruct Huint as (u' & _ & Hr & Hu'). congruence.
      * congruence.
    + unfold _gum_v8_uint_get, Uint64Value in H.
      destruct ((0 <=? z) && (z <=? G_MAXUINT64) && (wrap_uint64 z <=? G_MAXUINT)) eqn:E;
        [|discriminate].
      injection H as <-. apply andb_prop in E as [_ E2]. apply Z.leb_le in E2.
      pose proof (wrap_uint64_range z). lia.
  - intros v. split.
    + destruct v; try discriminate.
      * specialize (Hint d).
        destruct (double_geb d G_MININT && double_leb d G_MAXINT).
        -- destruct Hint as (i' & _ & _ & ->). discriminate.
        -- rewrite Hint. discriminate.
      * unfold _gum_v8_int_get, Int64Value.
        destruct ((G_MININT64 <=? z) && (z <=? G_MAXINT64) && (wrap_int64 z >=? G_MININT)
                  && (wrap_int64 z <=? G_MAXINT)); discriminate.
    + destruct v; try discriminate.
      * specialize (Huint d).
        destruct (double_geb d 0 && double_leb d G_MAXUINT).
        -- destruct Huint as (u' & _ & _ & ->). discriminate.
        -- rewrite Huint. discriminate.
      * unfold _gum_v8_uint_get, Uint64Value.
        destruct ((0 <=? z) && (z <=? G_MAXUINT64) && (wrap_uint64 z <=? G_MAXUINT));
          discriminate.
  - split; reflexivity.
Qed.

(** X2 at the numbers -1.5 and 1.5. *)
Lemma int_get_range_witness :
  G_MININT <= -1 <= G_MAXINT /\ 0 <= 1 <= G_MAXUINT.
Proof.
  destruct int_get_range as (_ & _ & Hint & Huint & _).
  split.
  - apply (Hint (Number (S754_finite true 3 (-1))) (-1)). reflexivity.
  - apply (Huint (Number (S754_finite false 3 (-1))) 1). reflexivity.
Defined.


Lemma quot_strictly_between (n q lo hi : Z) :
  0 < q -> lo <= 0 < hi -> lo * q <= n < hi * q -> lo <= Z.quot n q < hi.
Proof.
  intros Hq Hb Hn. destruct (Z.le_gt_cases 0 n) as [Hpos|Hneg].
  - rewrite Z.quot_div_nonneg by lia.
    pose proof (Z.div_pos n q Hpos Hq).
    assert (n / q < hi) by (apply Z.div_lt_upper_bound; lia). lia.
  - replace n with (- (- n)) by lia. rewrite Z.quot_opp_l by lia.
    rewrite Z.quot_div_nonneg by lia.
    pose proof (Z.div_pos (- n) q ltac:(lia) Hq).
    assert (- n / q <= - lo) by (apply Z.div_le_upper_bound; lia). lia.
Qed.

(** A double that is neither at or above [hi] nor at or below [lo], and is
    a number, truncates to an integer from [lo] up to but excluding [hi]. *)
Lemma truncate_strictly_between (d : spec_float) (lo hi : Z) :
  lo <= 0 < hi -> d <> S754_nan ->
  double_geb d hi = false -> double_leb d lo = false ->
  exists i, truncate d = Some i /\ lo <= i < hi.
Proof.
  intros Hb Hnan Hge Hle. unfold truncate.
  destruct d as [s|s| |s m e].
  - exists 0. split; [reflexivity|lia].
  - cbn in Hge, Hle. destruct s; discriminate.
  - contradiction.
  - unfold double_geb, double_leb in Hge, Hle.
    pose proof (rational_denominator (S754_finite s m e)) as Hq.
    destruct (rational (S754_finite s m e)) as [[n q]|] eqn:Er; [|discriminate Er].
    specialize (Hq n q eq_refl).
    rewrite Z.geb_leb in Hge. apply Z.leb_gt in Hge, Hle.
    eexists. split; [reflexivity|]. apply quot_strictly_between; lia.
Qed.

Lemma IntegerValue_range (d : spec_float) :
  G_MININT64 <= IntegerValue d <= G_MAXINT64.
Proof.
  assert (Hc : G_MININT64 <= 0 < 2 ^ 63) by (vm_compute; split; [discriminate|reflexivity]).
  assert (Hm : G_MAXINT64 = 2 ^ 63 - 1) by reflexivity.
  unfold IntegerValue.
  destruct (double_geb d (2 ^ 63)) eqn:Hge.
  - destruct d; unfold G_MININT64, G_MAXINT64; lia.
  - destruct (double_leb d G_MININT64) eqn:Hle.
    + destruct d; unfold G_MININT64, G_MAXINT64; lia.
    + destruct d as [s|s| |s m e] eqn:Ed; try (unfold G_MININT64, G_MAXINT64; lia).
      * vm_compute. split; discriminate.
      * destruct s; discriminate.
      * destruct (truncate_strictly_between (S754_finite s m e) G_MININT64 (2 ^ 63)
                    Hc ltac:(discriminate) Hge Hle) as (i & -> & Hi). lia.
Qed.

Lemma wrap_int64_wrap_uint64 (z : Z) : wrap_int64 (wrap_uint64 z) = wrap_int64 z.
Proof.
  unfold wrap_int64, wrap_uint64. f_equal. apply Zplus_mod_idemp_l.
Qed.

(** X3.  The signed 64-bit getters never refuse a number: NaN reads as 0,
    a number at or above 2^63 (plus infinity included) as the largest
    [gint64], a number at or below -2^63 (minus infinity included) as the
    smallest, and any other number as its integer part.  Whatever the
    value, they never misbehave, and what they give lies in the range of
    [gint64]. *)
Theorem int64_get_saturates :
  (forall d,
      _gum_v8_int64_get (Number d) = Done (IntegerValue d) /\
      _gum_v8_ssize_get (Number d) = Done (IntegerValue d) /\
      _gum_v8_int64_parse (Number d) = Done (IntegerValue d)) /\
  IntegerValue S754_nan = 0 /\
  (forall d, double_geb d (2 ^ 63) = true -> IntegerValue d = G_MAXINT64) /\
  (forall d, double_leb d G_MININT64 = true -> IntegerValue d = G_MININT64) /\
  (forall d, d <> S754_nan ->
      double_geb d (2 ^ 63) = false -> double_leb d G_MININT64 = false ->
      truncate d = Some (IntegerValue d)) /\
  (forall v i, _gum_v8_int64_get v = Done i \/ _gum_v8_ssize_get v = Done i ->
      G_MININT64 <= i <= G_MAXINT64) /\
  (forall v, _gum_v8_int64_get v <> Undefined_behaviour /\
             _gum_v8_ssize_get v <> Undefined_behaviour).
Proof.
  split; [|split; [reflexivity|split; [|split; [|split; [|split]]]]].
  - intros d. split; [reflexivity|]. split; [|reflexivity].
    unfold _gum_v8_ssize_get. rewrite wrap_int64_wrap_uint64.
    rewrite wrap_int64_small by apply IntegerValue_range. reflexivity.
  - intros d H. unfold IntegerValue. rewrite H. destruct d; try reflexivity. discriminate.
  - intros d H. unfold IntegerValue. rewrite H.
    destruct (double_geb d (2 ^ 63)) eqn:Hge.
    + exfalso. destruct d as [s|s| |s m e]; try discriminate.
      * destruct s; discriminate.
      * unfold double_geb, double_leb in *.
        pose proof (rational_denominator (S754_finite s m e)) as Hq.
        destruct (rational (S754_finite s m e)) as [[n q]|]; [|discriminate].
        specialize (Hq n q eq_refl). rewrite Z.geb_leb in Hge.
        apply Z.leb_le in Hge, H. unfold G_MININT64 in H. nia.
    + destruct d; try reflexivity. discriminate.
  - intros d Hnan Hge Hle. unfold IntegerValue. rewrite Hge, Hle.
    destruct (truncate_strictly_between d G_MININT64 (2 ^ 63)
                ltac:(vm_compute; split; [discriminate|reflexivity]) Hnan Hge Hle)
      as (i & -> & _).
    destruct d; try reflexivity. contradiction.
  - intros v i [H | H].
    + destruct v as [ | | |d|z| | | |k ix nm]; try discriminate.
      * injection H as <-. apply IntegerValue_range.
      * unfold _gum_v8_int64_get, Int64Value in H.
        destruct ((G_MININT64 <=? z) && (z <=? G_MAXINT64)); [|discriminate].
        injection H as <-. apply wrap_int64_range.
      * destruct k; try discriminate. injection H as <-. apply wrap_int64_range.
    + destruct v as [ | | |d|z| | | |k ix nm]; try discriminate.
      * injection H as <-. apply wrap_int64_range.
      * unfold _gum_v8_ssize_get, Int64Value in H.
        destruct ((G_MININT64 <=? z) && (z <=? G_MAXINT64) && (wrap_int64 z >=? G_MINSSIZE)
                  && (wrap_int64 z <=? G_MAXSSIZE)); [|discriminate].
        injection H as <-. apply wrap_int64_range.
      * destruct k; try discriminate; injection H as <-; apply wrap_int64_range.
  - intros v. split.
    + destruct v as [ | | |d|z| | | |k ix nm]; try discriminate.
      * unfold _gum_v8_int64_get, Int64Value.
        destruct ((G_MININT64 <=? z) && (z <=? G_MAXINT64)); discriminate.
      * destruct k; discriminate.
    + destruct v as [ | | |d|z| | | |k ix nm]; try discriminate.
      * unfold _gum_v8_ssize_get, Int64Value.
        destruct ((G_MININT64 <=? z) && (z <=? G_MAXINT64) && (wrap_int64 z >=? G_MINSSIZE)
                  && (wrap_int64 z <=? G_MAXSSIZE)); discriminate.
      * destruct k; discriminate.
Qed.

(** X3 at plus infinity, at -2^63 and at 2.5. *)
Lemma int64_get_saturates_witness :
  IntegerValue (S754_infinity false) = G_MAXINT64 /\
  IntegerValue (S754_finite true 1 63) = G_MININT64 /\
  truncate (S754_finite false 5 (-1)) = Some (IntegerValue (S754_finite false 5 (-1))) /\
  G_MININT64 <= 2 <= G_MAXINT64.
Proof.
  destruct int64_get_saturates as (_ & _ & Hhi & Hlo & Hmid & Hrange & _).
  split; [|split; [|split]].
  - apply (Hhi (S754_infinity false)). reflexivity.
  - apply (Hlo (S754_finite true 1 63)). reflexivity.
  - apply (Hmid (S754_finite false 5 (-1))); [discriminate|reflexivity|reflexivity].
  - apply (Hrange (Number (S754_finite false 5 (-1))) 2). left. reflexivity.
Defined.

(** X4.  The unsigned 64-bit getters on a number: one that is not at or
    above 0 (a negative number, NaN) is refused; one from 0 up to but
    excluding 2^64 is read as its integer part; one at or above 2^64, plus
    infinity included, is not refused, and its conversion to [guint64] is
    undefined.  [_gum_v8_size_get] does the same, and the unsigned fuzzy
    parse hands a number to the getter. *)
Theorem uint64_get_number (d : spec_float) :
  _gum_v8_size_get (Number d) = _gum_v8_uint64_get (Number d) /\
  _gum_v8_uint64_parse (Number d) = _gum_v8_uint64_get (Number d) /\
  match double_geb d 0, double_geb d (2 ^ 64) with
  | false, _ => _gum_v8_uint64_get (Number d) = Thrown "expected an unsigned integer"
  | true, false =>
      exists u, truncate d = Some u /\ 0 <= u <= G_MAXUINT64 /\
                _gum_v8_uint64_get (Number d) = Done u
  | true, true => _gum_v8_uint64_get (Number d) = Undefined_behaviour
  end.
Proof.
  split; [reflexivity|]. split; [reflexivity|].
  unfold _gum_v8_uint64_get.
  destruct (double_geb d 0) eqn:H0; [|reflexivity].
  unfold double_to_uint64, truncate.
  destruct d as [s|s| |s m e].
  - cbn. exists 0. repeat split; try reflexivity; unfold G_MAXUINT64; lia.
  - destruct s; [discriminate|]. reflexivity.
  - discriminate.
  - unfold double_geb in *.
    pose proof (rational_denominator (S754_finite s m e)) as Hq.
    destruct (rational (S754_finite s m e)) as [[n q]|]; [|discriminate].
    specialize (Hq n q eq_refl).
    rewrite Z.geb_leb in H0. apply Z.leb_le in H0.
    destruct (n >=? 2 ^ 64 * q) eqn:H64; rewrite Z.geb_leb in H64.
    + apply Z.leb_le in H64.
      assert (2 ^ 64 <= Z.quot n q).
      { rewrite Z.quot_div_nonneg by lia. apply Z.div_le_lower_bound; lia. }
      assert ((0 <=? Z.quot n q) && (Z.quot n q <=? G_MAXUINT64) = false) as ->.
      { apply andb_false_intro2. apply Z.leb_gt. unfold G_MAXUINT64. lia. }
      reflexivity.
    + apply Z.leb_gt in H64.
      destruct (quot_strictly_between n q 0 (2 ^ 64) Hq ltac:(lia) ltac:(lia)) as [Hl Hu].
      exists (Z.quot n q).
      assert ((0 <=? Z.quot n q) && (Z.quot n q <=? G_MAXUINT64) = true) as ->.
      { apply andb_true_intro. split; apply Z.leb_le; unfold G_MAXUINT64; lia. }
      repeat split; try reflexivity; unfold G_MAXUINT64; lia.
Qed.

(** X4, by example: minus one half and NaN are refused, one half is read
    as 0, and 2^64 and plus infinity are undefined. *)
Example uint64_get_number_edges :
  _gum_v8_uint64_get (Number (S754_finite true 1 (-1)))
  = Thrown "expected an unsigned integer" /\
  _gum_v8_uint64_get (Number S754_nan) = Thrown "expected an unsigned integer" /\
  _gum_v8_uint64_get (Number (S754_finite false 1 (-1))) = Done 0 /\
  _gum_v8_uint64_get (Number (S754_finite false 1 64)) = Undefined_behaviour /\
  _gum_v8_size_get (Number (S754_infinity false)) = Undefined_behaviour.
Proof. repeat split. Qed.


(** * Text beyond 64 bits *)

(** The digit loop never lets the accumulated value leave the range of
    [guint64]. *)
Lemma scan_digits_bound (base : Z) (s : string) (acc : Z) (ov : bool) :
  base = 10 \/ base = 16 ->
  0 <= acc <= G_MAXUINT64 ->
  0 <= snd (fst (scan_digits base s acc ov)) <= G_MAXUINT64.
Proof.
  intros Hb. revert acc ov. induction s as [|c s IH]; intros acc ov Hacc; cbn [scan_digits].
  - exact Hacc.
  - destruct (digit_value c) as [d|] eqn:Hd; [|exact Hacc].
    pose proof (digit_value_nonneg c d Hd) as Hd0.
    destruct (d >=? base) eqn:Hdb; [exact Hacc|].
    rewrite Z.geb_leb in Hdb. apply Z.leb_gt in Hdb.
    destruct ((acc >? G_MAXUINT64 / base)
              || ((acc =? G_MAXUINT64 / base) && (d >? G_MAXUINT64 mod base))) eqn:Hcut.
    + apply IH. exact Hacc.
    + apply IH. apply orb_false_elim in Hcut as [H1 H2].
      rewrite Z.gtb_ltb in H1. apply Z.ltb_ge in H1.
      unfold G_MAXUINT64 in *.
      destruct Hb; subst base.
      * change ((2 ^ 64 - 1) / 10) with 1844674407370955161 in *.
        change ((2 ^ 64 - 1) mod 10) with 5 in *.
        destruct (Z.eqb_spec acc 1844674407370955161) as [->|Hne]; cbn [andb] in H2.
        -- rewrite Z.gtb_ltb in H2. apply Z.ltb_ge in H2. lia.
        -- lia.
      * change ((2 ^ 64 - 1) / 16) with 1152921504606846975 in *.
        change ((2 ^ 64 - 1) mod 16) with 15 in *.
        destruct (Z.eqb_spec acc 1152921504606846975) as [->|Hne]; cbn [andb] in H2.
        -- rewrite Z.gtb_ltb in H2. apply Z.ltb_ge in H2. lia.
        -- lia.
Qed.

(** On a string of digits the loop reads everything; the overflow flag is
    raised exactly when the number denoted is beyond 64 bits, and the
    value is the number denoted when it is not raised. *)
Lemma scan_digits_overflow (base : Z) (s : string) (acc : Z) (ov : bool) :
  base = 10 \/ base = 16 ->
  0 <= acc <= G_MAXUINT64 ->
  string_forallb (is_digit base) s = true ->
  exists v,
    scan_digits base s acc ov
    = (EmptyString, v, ov || (digits_value base s acc >? G_MAXUINT64)) /\
    (digits_value base s acc <= G_MAXUINT64 -> v = digits_value base s acc).
Proof.
  intros Hb. revert acc ov.
  induction s as [|c s IH]; intros acc ov Hacc Hall; cbn [scan_digits digits_value].
  - exists acc. split; [|reflexivity].
    assert ((acc >? G_MAXUINT64) = false) as ->
        by (rewrite Z.gtb_ltb; apply Z.ltb_ge; lia).
    rewrite orb_false_r. reflexivity.
  - cbn [string_forallb] in Hall. apply andb_prop in Hall as [Hc Hs].
    unfold is_digit in Hc.
    destruct (digit_value c) as [d|] eqn:Hd; [|discriminate].
    pose proof (digit_value_nonneg c d Hd) as Hd0.
    apply Z.ltb_lt in Hc.
    assert ((d >=? base) = false) as -> by (rewrite Z.geb_leb; apply Z.leb_gt; lia).
    assert (Hcut : (acc >? G_MAXUINT64 / base)
                   || ((acc =? G_MAXUINT64 / base) && (d >? G_MAXUINT64 mod base))
                   = (acc * base + d >? G_MAXUINT64)).
    { unfold G_MAXUINT64 in *.
      destruct Hb; subst base.
      - change ((2 ^ 64 - 1) / 10) with 1844674407370955161.
        change ((2 ^ 64 - 1) mod 10) with 5.
        rewrite !Z.gtb_ltb.
        destruct (Z.ltb_spec (2 ^ 64 - 1) (acc * 10 + d)) as [Hgt|Hle];
          destruct (Z.ltb_spec 1844674407370955161 acc) as [Ha|Ha]; cbn [orb];
          try reflexivity; try lia;
          destruct (Z.eqb_spec acc 1844674407370955161) as [He|He]; cbn [andb];
          try (destruct (Z.ltb_spec 5 d); lia).
      - change ((2 ^ 64 - 1) / 16) with 1152921504606846975.
        change ((2 ^ 64 - 1) mod 16) with 15.
        rewrite !Z.gtb_ltb.
        destruct (Z.ltb_spec (2 ^ 64 - 1) (acc * 16 + d)) as [Hgt|Hle];
          destruct (Z.ltb_spec 1152921504606846975 acc) as [Ha|Ha]; cbn [orb];
          try reflexivity; try lia;
          destruct (Z.eqb_spec acc 1152921504606846975) as [He|He]; cbn [andb];
          try (destruct (Z.ltb_spec 15 d); lia). }
    rewrite Hcut.
    pose proof (digits_value_mono base s (acc * base + d)
                  ltac:(destruct Hb; lia) ltac:(destruct Hb; nia)) as Hmono.
    destruct (acc * base + d >? G_MAXUINT64) eqn:Hgt; rewrite Z.gtb_ltb in Hgt.
    + apply Z.ltb_lt in Hgt.
      destruct (IH acc true Hacc Hs) as (v & Hv & _).
      exists v. rewrite Hv. cbn [orb].
      assert ((digits_value base s (acc * base + d) >? G_MAXUINT64) = true) as ->
          by (rewrite Z.gtb_ltb; apply Z.ltb_lt; lia).
      rewrite orb_true_r. split; [reflexivity|lia].
    + apply Z.ltb_ge in Hgt.
      destruct (IH (acc * base + d) ov ltac:(destruct Hb; nia) Hs) as (v & Hv & Hval).
      exists v. rewrite Hv. split; [reflexivity|exact Hval].
Qed.

(** [g_parse_long_long] on text that, after white space and a sign, is a
    literal: all of it is read, and the magnitude is the number denoted,
    or the largest [guint64] when that is beyond 64 bits. *)
Lemma g_parse_long_long_digits (base : Z) (nptr : string) (c0 : ascii)
    (rest lit : string) :
  base = 10 \/ base = 16 ->
  skip_space nptr = String c0 rest ->
  after_sign (String c0 rest) = lit ->
  literal base lit = true ->
  g_parse_long_long nptr base
  = mkParsed (Z.min (digits_value base lit 0) G_MAXUINT64) (String.length nptr)
      (Ascii.eqb c0 "-") (digits_value base lit 0 >? G_MAXUINT64).
Proof.
  intros Hb Hskip Hafter Hlit. unfold literal in Hlit.
  apply andb_prop in Hlit as [Hne Hall].
  destruct lit as [|c s]; [discriminate|]. clear Hne.
  pose proof Hall as Hall'. cbn [string_forallb] in Hall'.
  apply andb_prop in Hall' as [Hc Hs].
  unfold g_parse_long_long.
  assert ((base =? 1) || (base >? 36) = false) as -> by (destruct Hb; subst; reflexivity).
  rewrite Hskip, Hafter.
  pose proof (number_prefix_shape base (String c s) Hb) as Hpre.
  destruct (number_prefix base (String c s)) as [[save base'] prefixed] eqn:Hnp.
  destruct Hpre as (-> & Hno & Hyes).
  assert (prefixed = false) as ->.
  { destruct prefixed; [|reflexivity]. exfalso.
    destruct (Hyes eq_refl) as [_ ->].
    unfold number_prefix in Hnp.
    destruct s as [|x rest'].
    - destruct Hb; subst; discriminate.
    - cbn [string_forallb] in Hs. apply andb_prop in Hs as [Hx _].
      assert (Ascii.eqb x "x" || Ascii.eqb x "X" = false) as E.
      { destruct (Ascii.eqb_spec x "x") as [->|]; [destruct Hb; subst; discriminate|].
        destruct (Ascii.eqb_spec x "X") as [->|]; [destruct Hb; subst; discriminate|].
        reflexivity. }
      rewrite E, andb_false_r in Hnp. destruct Hb; subst; discriminate. }
  rewrite (Hno eq_refl).
  destruct (scan_digits_overflow base (String c s) 0 false Hb
              ltac:(unfold G_MAXUINT64; lia) Hall) as (v & Hv & Hval).
  rewrite Hv. cbn [orb String.length Nat.eqb].
  assert (Hoff : offset_in nptr "" = String.length nptr).
  { unfold offset_in. cbn [String.length]. lia. }
  rewrite Hoff.
  destruct (Z.gtb_spec (digits_value base (String c s) 0) G_MAXUINT64) as [Hgt|Hle].
  - rewrite Z.min_r by lia. reflexivity.
  - rewrite Z.min_l by lia. rewrite (Hval Hle). reflexivity.
Qed.

Lemma g_parse_long_long_signed (base : Z) (sign : Sign) (s : string) :
  base = 10 \/ base = 16 ->
  literal base s = true ->
  g_parse_long_long (signed sign s) base
  = mkParsed (Z.min (digits_value base s 0) G_MAXUINT64)
      (String.length (signed sign s))
      (match sign with MinusSign => true | _ => false end)
      (digits_value base s 0 >? G_MAXUINT64).
Proof.
  intros Hb Hlit.
  pose proof Hlit as Hlit'. unfold literal in Hlit'.
  apply andb_prop in Hlit' as [Hne Hall].
  destruct s as [|c s]; [discriminate|]. clear Hne.
  cbn [string_forallb] in Hall. apply andb_prop in Hall as [Hc Hs].
  destruct (is_digit_not_space_or_sign base c Hc) as (Hsp & Hminus & Hplus).
  destruct sign; cbn [signed].
  - rewrite (g_parse_long_long_digits base (String c s) c s (String c s) Hb);
      [rewrite Hminus; reflexivity| | |exact Hlit].
    + cbn [skip_space]. rewrite Hsp. reflexivity.
    + cbn [after_sign]. rewrite Hminus, Hplus. reflexivity.
  - rewrite (g_parse_long_long_digits base (String "+" (String c s)) "+" (String c s)
               (String c s) Hb); [reflexivity|reflexivity|reflexivity|exact Hlit].
  - rewrite (g_parse_long_long_digits base (String "-" (String c s)) "-" (String c s)
               (String c s) Hb); [reflexivity|reflexivity|reflexivity|exact Hlit].
Qed.

Lemma g_parse_long_long_range (nptr : string) (base : Z) :
  base = 10 \/ base = 16 ->
  0 <= parsed_value (g_parse_long_long nptr base) <= G_MAXUINT64.
Proof.
  intros Hb. assert (Hz : 0 <= 0 <= G_MAXUINT64) by (unfold G_MAXUINT64; lia).
  unfold g_parse_long_long.
  destruct ((base =? 1) || (base >? 36)); [exact Hz|].
  destruct (skip_space nptr) as [|c0 rest]; [exact Hz|].
  pose proof (number_prefix_shape base (after_sign (String c0 rest)) Hb) as Hpre.
  destruct (number_prefix base (after_sign (String c0 rest))) as [[save base'] prefixed].
  destruct Hpre as (-> & _).
  pose proof (scan_digits_bound base save 0 false Hb Hz) as Hbound.
  destruct (scan_digits base save 0 false) as [[s ui64] overflow].
  cbn [fst snd] in Hbound.
  destruct (String.length s =? String.length save)%nat.
  - destruct prefixed; exact Hz.
  - destruct overflow; [unfold G_MAXUINT64; cbn [parsed_value]; lia | exact Hbound].
Qed.

Lemma g_ascii_strtoull_range (nptr : string) (base : Z) :
  base = 10 \/ base = 16 -> 0 <= fst (g_ascii_strtoull nptr base) <= G_MAXUINT64.
Proof.
  intros Hb. unfold g_ascii_strtoull. cbn [fst].
  destruct (parsed_overflow (g_parse_long_long nptr base));
    [unfold G_MAXUINT64; lia|].
  destruct (parsed_negative (g_parse_long_long nptr base)).
  - apply wrap_uint64_range.
  - apply g_parse_long_long_range, Hb.
Qed.

Lemma g_ascii_strtoll_range (nptr : string) (base : Z) :
  base = 10 \/ base = 16 -> G_MININT64 <= fst (g_ascii_strtoll nptr base) <= G_MAXINT64.
Proof.
  intros Hb. pose proof (g_parse_long_long_range nptr base Hb) as Hr.
  unfold g_ascii_strtoll. cbn [fst].
  destruct (parsed_negative (g_parse_long_long nptr base)); cbn [andb negb].
  - destruct (Z.gtb_spec (parsed_value (g_parse_long_long nptr base)) (2 ^ 63));
      unfold G_MININT64, G_MAXINT64 in *; lia.
  - destruct (Z.gtb_spec (parsed_value (g_parse_long_long nptr base)) G_MAXINT64);
      unfold G_MININT64, G_MAXINT64, G_MAXUINT64 in *; lia.
Qed.

Lemma textual_parse_range (strto : string -> Z -> Z * nat) (hex_msg dec_msg s : string)
    (lo hi v : Z) :
  (forall nptr base, base = 10 \/ base = 16 -> lo <= fst (strto nptr base) <= hi) ->
  textual_parse strto hex_msg dec_msg s = Done v -> lo <= v <= hi.
Proof.
  intros Hr. unfold textual_parse.
  destruct (g_str_has_prefix s "0x").
  - pose proof (Hr (advance 2 s) 16 ltac:(lia)) as H.
    destruct (strto (advance 2 s) 16) as [v' e]. cbn [fst] in H.
    destruct (e =? 0)%nat; [discriminate|]. intros [= <-]. exact H.
  - pose proof (Hr s 10 ltac:(lia)) as H.
    destruct (strto s 10) as [v' e]. cbn [fst] in H.
    destruct (e =? 0)%nat; [discriminate|]. intros [= <-]. exact H.
Qed.

Lemma signed_literal_c_str (base : Z) (sign : Sign) (s : string) :
  string_forallb (is_digit base) s = true -> c_str (signed sign s) = signed sign s.
Proof.
  intros H. destruct sign; cbn [signed]; [apply (digits_c_str base), H|..];
    (rewrite c_str_cons by discriminate); f_equal; apply (digits_c_str base), H.
Qed.

Lemma signed_decimal_no_prefix (sign : Sign) (s : string) :
  literal 10 s = true -> g_str_has_prefix (signed sign s) "0x" = false.
Proof.
  intros H. destruct sign; cbn [signed]; [apply decimal_literal_no_prefix, H|..];
    reflexivity.
Qed.

(** X5.  What the textual parses give never leaves the range of their
    type, whatever the string.  A decimal literal is never refused for its
    size: beyond 64 bits it reads as the largest [guint64], with a minus
    sign as without, and the signed parse gives the largest [gint64] for a
    literal beyond 63 bits and the smallest for the negative of one.  The
    unsigned and the pointer parse accept a minus sign and negate a
    literal within 64 bits modulo 2^64. *)
Theorem textual_parse_saturates :
  (forall s v, _gum_v8_int64_parse (Str s) = Done v -> G_MININT64 <= v <= G_MAXINT64) /\
  (forall s v, _gum_v8_uint64_parse (Str s) = Done v -> 0 <= v <= G_MAXUINT64) /\
  (forall s v, _gum_v8_native_pointer_parse (Str s) = Done v -> 0 <= v <= G_MAXUINT64) /\
  (forall s, literal 10 s = true ->
     let n := digits_value 10 s 0 in
     _gum_v8_uint64_parse (Str s) = Done (Z.min n G_MAXUINT64) /\
     _gum_v8_native_pointer_parse (Str s) = Done (Z.min n G_MAXUINT64) /\
     _gum_v8_int64_parse (Str s) = Done (Z.min n G_MAXINT64) /\
     _gum_v8_int64_parse (Str (String "-" s)) = Done (Z.max (- n) G_MININT64) /\
     _gum_v8_uint64_parse (Str (String "-" s))
     = Done (if n >? G_MAXUINT64 then G_MAXUINT64 else (- n) mod 2 ^ 64) /\
     _gum_v8_native_pointer_parse (Str (String "-" s))
     = Done (if n >? G_MAXUINT64 then G_MAXUINT64 else (- n) mod 2 ^ 64)).
Proof.
  split; [|split; [|split]].
  - intros s v. rewrite int64_parse_textual.
    apply textual_parse_range. intros. apply g_ascii_strtoll_range. assumption.
  - intros s v. rewrite uint64_parse_textual.
    apply textual_parse_range. intros. apply g_ascii_strtoull_range. assumption.
  - intros s v. rewrite native_pointer_parse_textual.
    apply textual_parse_range. intros. apply g_ascii_strtoull_range. assumption.
  - intros s Hlit n.
    pose proof Hlit as Hlit'. unfold literal in Hlit'.
    apply andb_prop in Hlit' as [Hne Hall].
    assert (Hn : 0 <= n) by (apply (digits_value_mono 10 s 0); lia).
    assert (Hpos : forall sign, (String.length (signed sign s) =? 0)%nat = false).
    { intros sign. destruct s; [discriminate|]. destruct sign; reflexivity. }
    assert (Hparse : forall sign strto hex_msg dec_msg,
               textual_parse strto hex_msg dec_msg (signed sign s)
               = let '(v, end_) := strto (signed sign s) 10 in
                 if (end_ =? 0)%nat then Thrown dec_msg else Done v).
    { intros. unfold textual_parse. rewrite (signed_decimal_no_prefix sign s Hlit).
      reflexivity. }
    pose proof (fun sign => g_parse_long_long_signed 10 sign s ltac:(lia) Hlit) as Hp.
    fold n in Hp.
    pose proof (Hp NoSign) as HpU. pose proof (Hp MinusSign) as HpM.
    pose proof (Hpos NoSign) as HposU. pose proof (Hpos MinusSign) as HposM.
    pose proof (signed_literal_c_str 10 NoSign s Hall) as HcU.
    pose proof (signed_literal_c_str 10 MinusSign s Hall) as HcM.
    pose proof (Hparse NoSign) as HtU. pose proof (Hparse MinusSign) as HtM.
    cbn [signed] in HpU, HpM, HposU, HposM, HcU, HcM, HtU, HtM.
    rewrite uint64_parse_textual, native_pointer_parse_textual, int64_parse_textual.
    rewrite (int64_parse_textual (String "-" s)), (uint64_parse_textual (String "-" s)),
      (native_pointer_parse_textual (String "-" s)).
    rewrite HcU, HcM, !HtU, !HtM. unfold g_ascii_strtoull, g_ascii_strtoll.
    rewrite HpU, HpM.
    cbn [parsed_negative parsed_value parsed_end parsed_overflow andb negb].
    rewrite HposU, HposM.
    unfold wrap_uint64.
    split; [|split; [|split; [|split; [|split]]]]; f_equal.
    + destruct (Z.gtb_spec n G_MAXUINT64); lia.
    + destruct (Z.gtb_spec n G_MAXUINT64); lia.
    + destruct (Z.gtb_spec (Z.min n G_MAXUINT64) G_MAXINT64);
        unfold G_MAXINT64, G_MAXUINT64 in *; lia.
    + destruct (Z.gtb_spec (Z.min n G_MAXUINT64) (2 ^ 63));
        unfold G_MININT64, G_MAXINT64, G_MAXUINT64 in *; lia.
    + destruct (Z.gtb_spec n G_MAXUINT64); [reflexivity|].
      rewrite Z.min_l by lia. reflexivity.
    + destruct (Z.gtb_spec n G_MAXUINT64); [reflexivity|].
      rewrite Z.min_l by lia. reflexivity.
Qed.

(** X5 at the literal of 2^64, one beyond the largest [guint64], with and
    without a minus sign, at ["-1"], and at a string that is no number. *)
Lemma textual_parse_saturates_witness :
  _gum_v8_uint64_parse (Str "18446744073709551616") = Done G_MAXUINT64 /\
  _gum_v8_int64_parse (Str "18446744073709551616") = Done G_MAXINT64 /\
  _gum_v8_int64_parse (Str "-18446744073709551616") = Done G_MININT64 /\
  _gum_v8_uint64_parse (Str "-18446744073709551616") = Done G_MAXUINT64 /\
  _gum_v8_uint64_parse (Str "-1") = Done G_MAXUINT64 /\
  G_MININT64 <= 42 <= G_MAXINT64.
Proof.
  destruct textual_parse_saturates as (Hrange & _ & _ & Hlit).
  destruct (Hlit "18446744073709551616"%string eq_refl)
    as (Hu & _ & Hi & Hneg & Hover & _).
  destruct (Hlit "1"%string eq_refl) as (_ & _ & _ & _ & Hminus & _).
  split; [exact Hu|]. split; [exact Hi|]. split; [exact Hneg|].
  split; [exact Hover|]. split; [exact Hminus|].
  apply (Hrange "42abc"%string 42). reflexivity.
Defined.


(** * Pointers, ranges and protections *)

(** X6.  [_gum_v8_native_pointer_get] accepts exactly a native pointer
    and an object that is none but whose [handle] property reads as one.
    It looks no further: the [handle] of a native pointer is never read,
    and a [handle] that is itself an object with a [handle] is refused, as
    is any primitive.  A [handle] whose getter throws leaves the code with
    an empty handle to unwrap. *)
Theorem native_pointer_get_handle :
  (forall v p,
      _gum_v8_native_pointer_get v = Done p <->
      (exists field0 indexed named,
          v = Object (NativePointerInstance field0) indexed named /\
          p = field0 mod 2 ^ 64) \/
      (exists kind indexed named field0 indexed' named',
          v = Object kind indexed named /\
          is_native_pointer v = None /\
          lookup_property "handle" named
          = Some (Just (Object (NativePointerInstance field0) indexed' named')) /\
          p = field0 mod 2 ^ 64)) /\
  (forall field0 indexed named,
      _gum_v8_native_pointer_get (Object (NativePointerInstance field0) indexed named)
      = Done (field0 mod 2 ^ 64)) /\
  (forall v kind indexed,
      _gum_v8_native_pointer_get
        (Object Ordinary [] [("handle"%string, Just (Object kind indexed
                                                      [("handle"%string, Just v)]))])
      = match kind with
        | NativePointerInstance field0 => Done (field0 mod 2 ^ 64)
        | _ => Thrown "expected a pointer"
        end) /\
  (forall v, IsObject v = false ->
      _gum_v8_native_pointer_get v = Thrown "expected a pointer") /\
  (forall v kind indexed named e,
      v = Object kind indexed named -> is_native_pointer v = None ->
      lookup_property "handle" named = Some (Nothing e) ->
      _gum_v8_native_pointer_get v = Undefined_behaviour).
Proof.
  split; [|split; [|split; [|split]]].
  - intros v p. split.
    + intros H. unfold _gum_v8_native_pointer_get in H.
      destruct (is_native_pointer v) as [f|] eqn:Hnp.
      * left. destruct v as [ | | | | | | | |k ix nm]; try discriminate.
        destruct k; try discriminate. injection Hnp as ->. injection H as <-.
        exists f, ix, nm. split; reflexivity.
      * right. destruct v as [ | | | | | | | |k ix nm]; try discriminate.
        cbn [ToObject] in H. unfold Has, Get in H.
        destruct (lookup_property "handle" nm) as [[handle|e]|] eqn:Hl; try discriminate.
        destruct handle as [ | | | | | | | |k' ix' nm']; try discriminate.
        destruct k'; try discriminate. cbn [is_native_pointer] in H. injection H as <-.
        exists k, ix, nm, field0, ix', nm'. repeat split; assumption.
    + intros [(f & ix & nm & -> & ->) | (k & ix & nm & f & ix' & nm' & -> & Hnp & Hl & ->)].
      * reflexivity.
      * unfold _gum_v8_native_pointer_get. rewrite Hnp. cbn [ToObject].
        unfold Has, Get. rewrite Hl. reflexivity.
  - reflexivity.
  - intros v kind indexed. destruct kind; reflexivity.
  - intros v Hv. destruct v; try reflexivity. discriminate.
  - intros v kind indexed named e -> Hnp Hl.
    unfold _gum_v8_native_pointer_get. rewrite Hnp. cbn [ToObject].
    unfold Has, Get. rewrite Hl. reflexivity.
Qed.

(** X6 at an object whose [handle] is the pointer 4096, and at one whose
    [handle] throws. *)
Lemma native_pointer_get_handle_witness :
  _gum_v8_native_pointer_get
    (Object Ordinary [] [("handle"%string, Just (_gum_v8_native_pointer_new 4096))])
  = Done 4096 /\
  _gum_v8_native_pointer_get
    (Object Ordinary [] [("handle"%string, Just (Object Ordinary []
        [("handle"%string, Just (_gum_v8_native_pointer_new 4096))]))])
  = Thrown "expected a pointer" /\
  _gum_v8_native_pointer_get (Str "0x1000") = Thrown "expected a pointer" /\
  _gum_v8_native_pointer_get (Object Ordinary [] [("handle"%string, Nothing "boom")])
  = Undefined_behaviour.
Proof.
  destruct native_pointer_get_handle as (Hiff & _ & Hdeep & Hprim & Hthrow).
  split; [|split; [|split]].
  - apply Hiff. right.
    exists Ordinary, [], [("handle"%string, Just (_gum_v8_native_pointer_new 4096))],
      4096, [], []. repeat split.
  - apply (Hdeep (_gum_v8_native_pointer_new 4096) Ordinary []).
  - apply Hprim. reflexivity.
  - apply (Hthrow _ Ordinary [] [("handle"%string, Nothing "boom")] "boom"%string);
      reflexivity.
Defined.


Lemma memory_ranges_scan_app (range_values : list (Maybe Value))
    (ranges result : list GumMemoryRange) :
  memory_ranges_scan range_values ranges = Done result <->
  exists tail,
    result = ranges ++ tail /\
    Forall2 (fun range_value range =>
               exists v, range_value = Just v /\ _gum_v8_memory_range_get v = Done range)
      range_values tail.
Proof.
  revert ranges result.
  induction range_values as [|r rest IH]; intros ranges result; cbn [memory_ranges_scan].
  - split.
    + intros [= <-]. exists []. split; [symmetry; apply app_nil_r|constructor].
    + intros (tail & -> & H). inversion H. subst. f_equal. symmetry. apply app_nil_r.
  - destruct r as [v|e].
    + destruct (_gum_v8_memory_range_get v) as [range| |] eqn:Hv; cbn [bind].
      * rewrite IH. split.
        -- intros (tail & -> & H). exists (range :: tail). split.
           ++ rewrite <- app_assoc. reflexivity.
           ++ constructor; [exists v; split; [reflexivity|exact Hv] | exact H].
        -- intros (tail & -> & H). inversion H as [|? r' ? tail' (v' & Hj & Hr) Hrest]; subst.
           injection Hj as <-. rewrite Hv in Hr. injection Hr as <-.
           exists tail'. split; [rewrite <- app_assoc; reflexivity | exact Hrest].
      * split; [discriminate|].
        intros (tail & -> & H). inversion H as [|? r' ? tail' (v' & Hj & Hr) Hrest]; subst.
        injection Hj as <-. congruence.
      * split; [discriminate|].
        intros (tail & -> & H). inversion H as [|? r' ? tail' (v' & Hj & Hr) Hrest]; subst.
        injection Hj as <-. congruence.
    + split; [discriminate|].
      intros (tail & -> & H). inversion H as [|? r' ? tail' (v' & Hj & Hr) Hrest]; subst.
      discriminate.
Qed.

Lemma memory_range_get_bounds (v : Value) (range : GumMemoryRange) :
  _gum_v8_memory_range_get v = Done range ->
  0 <= base_address range < 2 ^ 64 /\ 0 <= size range < 2 ^ 32.
Proof.
  unfold _gum_v8_memory_range_get.
  destruct v as [ | | | | | | | |k ix object]; try discriminate.
  destruct (Get object "base") as [base_value|e]; [|discriminate].
  destruct (_gum_v8_native_pointer_get base_value) as [base| |] eqn:Hbase;
    cbn [bind]; try discriminate.
  destruct (Get object "size") as [[ | | |d| | | | | ]|e]; try discriminate.
  intros [= <-]. cbn [base_address size]. split.
  - unfold _gum_v8_native_pointer_get in Hbase.
    assert (Hw : forall f, 0 <= GUMJS_NATIVE_POINTER_VALUE f < 2 ^ 64).
    { intros f. apply Z.mod_pos_bound. lia. }
    destruct (is_native_pointer base_value) as [f|].
    + injection Hbase as <-. apply Hw.
    + destruct (ToObject base_value) as [obj|]; [|discriminate].
      destruct (Has obj "handle"); [|discriminate].
      destruct (Get obj "handle") as [handle|]; [|discriminate].
      destruct (is_native_pointer handle) as [f|]; [|discriminate].
      injection Hbase as <-. apply Hw.
  - unfold ToUint32. destruct (truncate d); [apply Z.mod_pos_bound|]; lia.
Qed.

(** X7.  [_gum_v8_memory_ranges_get] on an array succeeds exactly when
    every element can be read and is a range object, and the array it
    returns then holds the range of each element, in order: as many
    ranges as elements, none for the empty array.  On an object that is no
    array it gives the one range of that object.  Every range it returns
    has a base within 64 bits and a size within 32. *)
Theorem memory_ranges_get_elementwise :
  (forall range_values named ranges,
      _gum_v8_memory_ranges_get (Object ArrayExotic range_values named) = Done ranges <->
      Forall2 (fun range_value range =>
                 exists v, range_value = Just v /\ _gum_v8_memory_range_get v = Done range)
        range_values ranges) /\
  (forall range_values named ranges,
      _gum_v8_memory_ranges_get (Object ArrayExotic range_values named) = Done ranges ->
      length ranges = length range_values) /\
  (forall kind indexed named ranges,
      kind <> ArrayExotic ->
      _gum_v8_memory_ranges_get (Object kind indexed named) = Done ranges <->
      exists range,
        _gum_v8_memory_range_get (Object kind indexed named) = Done range /\
        ranges = [range]) /\
  (forall v ranges range,
      _gum_v8_memory_ranges_get v = Done ranges -> List.In range ranges ->
      0 <= base_address range < 2 ^ 64 /\ 0 <= size range < 2 ^ 32) /\
  (forall v, IsObject v = false ->
      _gum_v8_memory_ranges_get v
      = Thrown "expected a range object or an array of range objects").
Proof.
  assert (Harray : forall range_values named ranges,
             _gum_v8_memory_ranges_get (Object ArrayExotic range_values named)
             = Done ranges <->
             Forall2 (fun range_value range =>
                        exists v, range_value = Just v /\
                                  _gum_v8_memory_range_get v = Done range)
               range_values ranges).
  { intros range_values named ranges. cbn [_gum_v8_memory_ranges_get].
    rewrite memory_ranges_scan_app. split.
    - intros (tail & -> & H). exact H.
    - intros H. exists ranges. split; [reflexivity|exact H]. }
  assert (Hsingle : forall kind indexed named ranges,
             kind <> ArrayExotic ->
             _gum_v8_memory_ranges_get (Object kind indexed named) = Done ranges <->
             exists range,
               _gum_v8_memory_range_get (Object kind indexed named) = Done range /\
               ranges = [range]).
  { intros kind indexed named ranges Hk.
    assert (Heq : _gum_v8_memory_ranges_get (Object kind indexed named)
                  = let* range := _gum_v8_memory_range_get (Object kind indexed named) in
                    Done [range]).
    { destruct kind; try reflexivity. contradiction. }
    rewrite Heq.
    destruct (_gum_v8_memory_range_get (Object kind indexed named)) as [range| |];
      cbn [bind].
    - split.
      + intros [= <-]. exists range. split; reflexivity.
      + intros (range' & [= <-] & ->). reflexivity.
    - split; [discriminate|]. intros (range' & H & _). discriminate.
    - split; [discriminate|]. intros (range' & H & _). discriminate. }
  split; [exact Harray|]. split; [|split; [exact Hsingle|split]].
  - intros range_values named ranges H. apply Harray in H.
    symmetry. eapply Forall2_length. exact H.
  - intros v ranges range H Hin.
    destruct v as [ | | | | | | | |k ix nm]; try discriminate.
    assert (Hcases : k = ArrayExotic \/ k <> ArrayExotic)
      by (destruct k; (left; reflexivity) || (right; discriminate)).
    destruct Hcases as [-> | Hk].
    + apply Harray in H.
      induction H as [|rv r rvs rs (v & _ & Hr) _ IH]; [destruct Hin|].
      destruct Hin as [<- | Hin]; [eapply memory_range_get_bounds; exact Hr|].
      apply IH, Hin.
    + apply (Hsingle k ix nm ranges Hk) in H as (r & Hr & ->).
      destruct Hin as [<- | []]. eapply memory_range_get_bounds; exact Hr.
  - intros v Hv. destruct v; try reflexivity. discriminate.
Qed.

(** X7 at an array of two ranges, the second with a size of 2^32 + 5. *)
Lemma memory_ranges_get_elementwise_witness :
  _gum_v8_memory_ranges_get
    (Object ArrayExotic
       [Just (Object Ordinary []
                [("base"%string, Just (_gum_v8_native_pointer_new 4096));
                 ("size"%string, Just (Number (S754_finite false 1 12)))]);
        Just (Object Ordinary []
                [("base"%string, Just (_gum_v8_native_pointer_new 8192));
                 ("size"%string, Just (Number (S754_finite false 4294967301 0)))])] [])
  = Done [mkRange 4096 4096; mkRange 8192 5].
Proof.
  destruct memory_ranges_get_elementwise as (Harray & _).
  apply Harray. repeat constructor; eexists; (split; [reflexivity|]); reflexivity.
Defined.



(** * Page protections *)

Lemma flags_of_cons (c : ascii) (s : string) :
  protection_char c = true ->
  flags_of (String c s)
  = Z.lor (match c with
           | "r"%char => GUM_PAGE_READ
           | "w"%char => GUM_PAGE_WRITE
           | "x"%char => GUM_PAGE_EXECUTE
           | _ => 0
           end) (flags_of s).
Proof.
  intros H. unfold flags_of, occursb. cbn [list_ascii_of_string existsb].
  apply protection_char_cases in H as [-> | [-> | [-> | ->]]];
    change (Ascii.eqb "r" "r") with true; change (Ascii.eqb "w" "w") with true;
    change (Ascii.eqb "x" "x") with true;
    change (Ascii.eqb "r" "w") with false; change (Ascii.eqb "r" "x") with false;
    change (Ascii.eqb "r" "-") with false; change (Ascii.eqb "w" "r") with false;
    change (Ascii.eqb "w" "x") with false; change (Ascii.eqb "w" "-") with false;
    change (Ascii.eqb "x" "r") with false; change (Ascii.eqb "x" "w") with false;
    change (Ascii.eqb "x" "-") with false; cbn [orb];
    destruct (existsb (Ascii.eqb "r") (list_ascii_of_string s));
    destruct (existsb (Ascii.eqb "w") (list_ascii_of_string s));
    destruct (existsb (Ascii.eqb "x") (list_ascii_of_string s)); reflexivity.
Qed.

Lemma flags_of_range (s : string) : 0 <= flags_of s <= 7.
Proof.
  unfold flags_of.
  destruct (occursb "r" s); destruct (occursb "w" s); destruct (occursb "x" s);
    vm_compute; split; discriminate.
Qed.

Lemma flags_of_app (s1 s2 : string) :
  flags_of (s1 ++ s2) = Z.lor (flags_of s1) (flags_of s2).
Proof.
  unfold flags_of, occursb.
  assert (H : list_ascii_of_string (s1 ++ s2)
              = (list_ascii_of_string s1 ++ list_ascii_of_string s2)%list).
  { induction s1 as [|c s1 IH]; [reflexivity|].
    change (String c s1 ++ s2)%string with (String c (s1 ++ s2)).
    cbn [list_ascii_of_string]. rewrite IH. reflexivity. }
  rewrite H, !existsb_app.
  destruct (existsb (Ascii.eqb "r") (list_ascii_of_string s1));
    destruct (existsb (Ascii.eqb "w") (list_ascii_of_string s1));
    destruct (existsb (Ascii.eqb "x") (list_ascii_of_string s1));
    destruct (existsb (Ascii.eqb "r") (list_ascii_of_string s2));
    destruct (existsb (Ascii.eqb "w") (list_ascii_of_string s2));
    destruct (existsb (Ascii.eqb "x") (list_ascii_of_string s2)); reflexivity.
Qed.

(** The loop ORs the flags of the letters it meets into its accumulator. *)
Lemma page_protection_scan_lor (ch : string) (prot result : Z) :
  page_protection_scan ch prot = Done result -> result = Z.lor prot (flags_of ch).
Proof.
  revert prot. induction ch as [|c rest IH]; intros prot H.
  - cbn [page_protection_scan] in H. injection H as <-.
    change (flags_of "") with 0. symmetry. apply Z.lor_0_r.
  - destruct (protection_char c) eqn:Hpc.
    + rewrite (flags_of_cons c rest Hpc).
      apply protection_char_cases in Hpc as [-> | [-> | [-> | ->]]];
        cbn [page_protection_scan] in H; apply IH in H; rewrite H;
        rewrite ?Z.lor_0_l, ?Z.lor_assoc; reflexivity.
    + exfalso. destruct c as [[] [] [] [] [] [] [] []]; try discriminate Hpc;
        discriminate H.
Qed.

Lemma page_protection_scan_app (s1 s2 : string) (prot p1 : Z) :
  page_protection_scan s1 prot = Done p1 ->
  page_protection_scan (s1 ++ s2) prot = page_protection_scan s2 p1.
Proof.
  revert prot. induction s1 as [|c s1 IH]; intros prot H.
  - cbn [page_protection_scan] in H. injection H as <-. reflexivity.
  - change (String c s1 ++ s2)%string with (String c (s1 ++ s2)).
    destruct c as [[] [] [] [] [] [] [] []]; try discriminate H;
      cbn [page_protection_scan] in *; apply IH; exact H.
Qed.

Lemma c_str_app (s1 s2 : string) :
  c_str s1 = s1 -> c_str (s1 ++ s2) = (s1 ++ c_str s2)%string.
Proof.
  induction s1 as [|c s1 IH]; intros H; [reflexivity|].
  change (String c s1 ++ s2)%string with (String c (s1 ++ s2)).
  change (String c s1 ++ c_str s2)%string with (String c (s1 ++ c_str s2)).
  cbn [c_str] in *. destruct (Ascii.eqb c NUL); [discriminate|].
  injection H as H. rewrite (IH H). reflexivity.
Qed.

(** X8.  The flags [_gum_v8_page_protection_get] reads from a string are
    those whose letters occur in it, however often and in whatever order:
    a value from 0 to 7.  So the flags of two strings put together are the
    flags of the one OR the flags of the other, and the string
    [_gum_v8_page_protection_new] makes for flags that were read reads
    back as the same flags. *)
Theorem page_protection_get_flags :
  (forall s prot,
      _gum_v8_page_protection_get (Str s) = Done prot ->
      prot = flags_of (c_str s) /\ 0 <= prot <= 7 /\
      _gum_v8_page_protection_get (_gum_v8_page_protection_new prot) = Done prot) /\
  (forall s1 s2 p1 p2,
      c_str s1 = s1 ->
      _gum_v8_page_protection_get (Str s1) = Done p1 ->
      _gum_v8_page_protection_get (Str s2) = Done p2 ->
      _gum_v8_page_protection_get (Str (s1 ++ s2)) = Done (Z.lor p1 p2)).
Proof.
  split.
  - intros s prot H. unfold _gum_v8_page_protection_get in H.
    cbn [IsString negb Utf8Value] in H.
    apply page_protection_scan_lor in H. rewrite Z.lor_0_l in H. subst prot.
    pose proof (flags_of_range (c_str s)) as Hr.
    split; [reflexivity|]. split; [exact Hr|].
    assert (Hcases : forall p, 0 <= p <= 7 ->
               _gum_v8_page_protection_get (_gum_v8_page_protection_new p) = Done p).
    { intros p Hp.
      assert (p = 0 \/ p = 1 \/ p = 2 \/ p = 3 \/ p = 4 \/ p = 5 \/ p = 6 \/ p = 7)
        as [-> | [-> | [-> | [-> | [-> | [-> | [-> | ->]]]]]]] by lia; reflexivity. }
    apply Hcases, Hr.
  - intros s1 s2 p1 p2 Hc H1 H2. unfold _gum_v8_page_protection_get in *.
    cbn [IsString negb Utf8Value] in *. rewrite Hc in H1.
    rewrite (c_str_app s1 s2 Hc).
    rewrite (page_protection_scan_app s1 (c_str s2) _ p1 H1).
    pose proof (page_protection_scan_lor _ _ _ H1) as E1.
    pose proof (page_protection_scan_lor _ _ _ H2) as E2.
    rewrite Z.lor_0_l in E1, E2.
    destruct (page_protection_scan (c_str s2) p1) as [r| |] eqn:Hs.
    + apply page_protection_scan_lor in Hs. subst. reflexivity.
    + exfalso. revert H2 Hs. generalize GUM_PAGE_NO_ACCESS. generalize p1.
      generalize (c_str s2). clear. intros s.
      induction s as [|c s IH]; intros a b H2 Hs; [discriminate Hs|].
      destruct c as [[] [] [] [] [] [] [] []]; try discriminate H2;
        cbn [page_protection_scan] in *; eapply IH; eassumption.
    + exfalso. revert Hs. generalize p1. generalize (c_str s2). clear. intros s.
      induction s as [|c s IH]; intros a Hs; [discriminate Hs|].
      destruct c as [[] [] [] [] [] [] [] []]; try discriminate Hs;
        cbn [page_protection_scan] in *; eapply IH; eassumption.
Qed.

(** X8 at the strings ["xr"] and ["w-w"]. *)
Lemma page_protection_get_flags_witness :
  (5 = flags_of (c_str "xr") /\ 0 <= 5 <= 7 /\
   _gum_v8_page_protection_get (_gum_v8_page_protection_new 5) = Done 5) /\
  _gum_v8_page_protection_get (Str ("xr" ++ "w-w")) = Done (Z.lor 5 2).
Proof.
  destruct page_protection_get_flags as (Hflags & Happ).
  split.
  - apply (Hflags "xr"%string 5). reflexivity.
  - apply (Happ "xr"%string "w-w"%string 5 2); reflexivity.
Defined.


(** * Text as bytes *)

Lemma c_str_no_NUL (s : string) :
  Forall (fun b => 1 <= b <= 255) (bytes_of_string (c_str s)).
Proof.
  unfold bytes_of_string. induction s as [|c s IH]; cbn [c_str]; [constructor|].
  destruct (Ascii.eqb_spec c NUL) as [->|Hne]; [constructor|].
  cbn [list_ascii_of_string map]. constructor; [|exact IH].
  pose proof (code_range c) as Hr.
  assert (code c <> 0); [|lia].
  intros H0. apply Hne. rewrite <- (char_of_code_code c), H0. reflexivity.
Qed.

Lemma c_str_length (s : string) : (String.length (c_str s) <= String.length s)%nat.
Proof.
  induction s as [|c s IH]; cbn [c_str String.length]; [lia|].
  destruct (Ascii.eqb c NUL); cbn [String.length]; lia.
Qed.

Lemma bytes_of_string_length (s : string) :
  length (bytes_of_string s) = String.length s.
Proof.
  unfold bytes_of_string. rewrite length_map.
  induction s as [|c s IH]; cbn [list_ascii_of_string length String.length]; congruence.
Qed.

(** X9.  The fuzzy byte-buffer conversion never refuses a string, which
    the plain one always does.  The buffer holds the bytes of the text up
    to its first NUL: no byte of it is zero, it is no longer than the
    string, and whatever follows a NUL is dropped.  A value that is no
    string is handed to the plain conversion. *)
Theorem bytes_parse_string (StringToNumber : string -> spec_float)
    (ObjectToNumber :
       ObjectKind -> list (Maybe Value) -> list (string * Maybe Value)
       -> Maybe spec_float) :
  (forall s, exists data,
      _gum_v8_bytes_parse StringToNumber ObjectToNumber (Str s) = Done data /\
      data = bytes_of_string (c_str s) /\
      Forall (fun b => 1 <= b <= 255) data /\
      (length data <= String.length s)%nat /\
      _gum_v8_bytes_get StringToNumber ObjectToNumber (Str s)
      = Thrown "unsupported data value") /\
  (forall s t,
      c_str s = s ->
      _gum_v8_bytes_parse StringToNumber ObjectToNumber (Str (s ++ String NUL t))
      = Done (bytes_of_string s)) /\
  (forall v, IsString v = false ->
      _gum_v8_bytes_parse StringToNumber ObjectToNumber v
      = _gum_v8_bytes_get StringToNumber ObjectToNumber v).
Proof.
  split; [|split].
  - intros s. exists (bytes_of_string (c_str s)).
    split; [reflexivity|]. split; [reflexivity|]. split; [apply c_str_no_NUL|].
    split; [|reflexivity].
    rewrite bytes_of_string_length. apply c_str_length.
  - intros s t Hs. unfold _gum_v8_bytes_parse. cbn [IsString Utf8Value].
    rewrite (c_str_app s (String NUL t) Hs).
    assert (c_str (String NUL t) = ""%string) as -> by reflexivity.
    assert ((s ++ "")%string = s) as ->; [|reflexivity].
    clear. induction s as [|c s IH]; [reflexivity|].
    change (String c s ++ "")%string with (String c (s ++ "")). rewrite IH. reflexivity.
  - intros v Hv. unfold _gum_v8_bytes_parse. rewrite Hv. reflexivity.
Qed.

(** X9 at the text ["ab"] followed by a NUL and ["cd"]. *)
Lemma bytes_parse_string_witness :
  _gum_v8_bytes_parse (fun _ => S754_nan) (fun _ _ _ => Nothing "TypeError")
    (Str ("ab" ++ String NUL "cd"))
  = Done (bytes_of_string "ab") /\
  _gum_v8_bytes_parse (fun _ => S754_nan) (fun _ _ _ => Nothing "TypeError") (Number S754_nan)
  = _gum_v8_bytes_get (fun _ => S754_nan) (fun _ _ _ => Nothing "TypeError")
      (Number S754_nan).
Proof.
  destruct (bytes_parse_string (fun _ => S754_nan) (fun _ _ _ => Nothing "TypeError"))
    as (_ & Hcut & Hother).
  split.
  - apply (Hcut "ab"%string "cd"%string). reflexivity.
  - apply Hother. reflexivity.
Defined.

(** * Error messages, there and back *)

Lemma ascii_tolower_range (a : ascii) :
  0 < code a < 128 -> 0 < code (ascii_tolower a) < 128.
Proof.
  intros Ha. unfold ascii_tolower. destruct (ISUPPER a) eqn:Hu; [|exact Ha].
  apply ISUPPER_ascii in Hu. rewrite code_char_of_code; lia.
Qed.

Lemma ascii_toupper_range (a : ascii) :
  0 < code a < 128 -> 0 < code (ascii_toupper a) < 128.
Proof.
  intros Ha. unfold ascii_toupper. destruct (ISLOWER a) eqn:Hl; [|exact Ha].
  apply ISLOWER_ascii in Hl. rewrite code_char_of_code; lia.
Qed.

Lemma ascii_toupper_tolower (a : ascii) :
  ascii_toupper (ascii_tolower a) = ascii_toupper a.
Proof.
  unfold ascii_tolower. destruct (ISUPPER a) eqn:Hu; [|reflexivity].
  pose proof (ISUPPER_ascii a Hu) as Hr.
  unfold ascii_toupper.
  assert (ISLOWER (char_of_code (code a + 32)) = true) as ->.
  { unfold ISLOWER. rewrite code_char_of_code by lia.
    apply andb_true_intro. split; apply Z.leb_le; lia. }
  assert (ISLOWER a = false) as ->.
  { unfold ISLOWER. apply andb_false_intro1. apply Z.leb_gt. lia. }
  rewrite code_char_of_code by lia.
  replace (code a + 32 - 32) with (code a) by lia. apply char_of_code_code.
Qed.

Section RoundTrip.

Variable unicode_isupper : Z -> bool.
Variable unicode_tolower : Z -> Z.
Variable unicode_toupper : Z -> Z.

Local Abbreviation new_take_error :=
  (_gum_v8_error_new_take_error unicode_isupper unicode_tolower).
Local Abbreviation get_message := (_gum_v8_error_get_message unicode_toupper).
Local Abbreviation maybe_throw := (_gum_v8_maybe_throw unicode_isupper unicode_tolower).

(** What [_gum_v8_error_get_message] makes of an error whose message
    starts in ASCII and has no NUL. *)
Lemma get_message_ascii (a : ascii) (r : string) :
  0 < code a < 128 -> c_str r = r ->
  get_message (Exception_Error (String a r)) = Done (String (ascii_toupper a) r).
Proof.
  intros Ha Hr.
  assert (Hne : a <> NUL) by (apply code_not_NUL; lia).
  pose proof (ascii_toupper_range a Ha) as Hup.
  assert (Hune : ascii_toupper a <> NUL) by (apply code_not_NUL; lia).
  unfold _gum_v8_error_get_message, Exception_Error, Get.
  cbn [lookup_property]. change (String.eqb "message" "message") with true. cbv iota.
  rewrite c_str_idempotent, (c_str_cons a r Hne), Hr.
  rewrite (g_utf8_get_char_ascii a r) by lia.
  rewrite (g_utf8_offset_to_pointer_1_ascii a r) by lia.
  cbn [String.length Nat.leb]. unfold g_string_append_unichar, g_string_append.
  rewrite (raised_first_byte unicode_toupper a) by lia.
  rewrite append_empty_l.
  destruct r as [|b r'].
  - cbn [String.length Nat.leb]. rewrite (c_str_cons _ _ Hune). reflexivity.
  - cbn [String.length Nat.leb]. rewrite append_single, (c_str_cons _ _ Hune), Hr.
    reflexivity.
Qed.

(** X10.  Taking a [GError] whose message starts with an ASCII character
    and reading the message of the exception made from it gives the
    message back with its first letter in upper case, whichever of the two
    casing rules applied when it was taken: a message that starts with an
    upper-case letter, a digit or a sign comes back unchanged, up to its
    first NUL.  [_gum_v8_maybe_throw] throws that exception, and throws
    nothing when there is no error. *)
Theorem error_message_round_trip :
  (forall a rest,
      0 < code a < 128 ->
      exists e,
        new_take_error (Some (String a rest)) = Done e /\
        maybe_throw (Some (String a rest)) = Done (true, Some e) /\
        get_message e = Done (String (ascii_toupper a) (c_str rest))) /\
  (forall a rest,
      0 < code a < 128 -> ISLOWER a = false ->
      exists e,
        new_take_error (Some (String a rest)) = Done e /\
        get_message e = Done (c_str (String a rest))) /\
  new_take_error None = Done Null /\
  maybe_throw None = Done (false, None).
Proof.
  assert (Hmain : forall a rest,
             0 < code a < 128 ->
             exists e,
               new_take_error (Some (String a rest)) = Done e /\
               maybe_throw (Some (String a rest)) = Done (true, Some e) /\
               get_message e = Done (String (ascii_toupper a) (c_str rest))).
  { intros a rest Ha.
    assert (Hne : a <> NUL) by (apply code_not_NUL; lia).
    pose proof (c_str_idempotent rest) as Hr.
    unfold _gum_v8_maybe_throw, _gum_v8_error_new_take_error.
    rewrite (c_str_cons a rest Hne).
    rewrite (g_utf8_offset_to_pointer_1_ascii a (c_str rest)) by lia.
    rewrite (g_utf8_get_char_ascii a (c_str rest)) by lia.
    rewrite (g_unichar_isupper_ascii unicode_isupper a) by lia.
    unfold g_string_append_unichar, g_string_append.
    rewrite (lowered_first_byte unicode_tolower a) by lia.
    rewrite !append_empty_l, append_single.
    match goal with
    | |- context [if ?b then _ else _] => destruct b eqn:Hacr
    end.
    - eexists. split; [reflexivity|]. split; [reflexivity|].
      rewrite (get_message_ascii a (c_str rest) Ha Hr).
      apply andb_prop in Hacr as [Hacr _]. apply andb_prop in Hacr as [Hup _].
      unfold ascii_toupper.
      assert (ISLOWER a = false) as ->; [|reflexivity].
      apply ISUPPER_ascii in Hup. unfold ISLOWER.
      apply andb_false_intro1. apply Z.leb_gt. lia.
    - eexists. split; [reflexivity|]. split; [reflexivity|].
      rewrite (get_message_ascii (ascii_tolower a) (c_str rest)
                 (ascii_tolower_range a Ha) Hr).
      rewrite ascii_toupper_tolower. reflexivity. }
  split; [exact Hmain|]. split; [|split; reflexivity].
  intros a rest Ha Hl. destruct (Hmain a rest Ha) as (e & He & _ & Hg).
  exists e. split; [exact He|]. rewrite Hg.
  rewrite (c_str_cons a rest) by (apply code_not_NUL; lia).
  unfold ascii_toupper. rewrite Hl. reflexivity.
Qed.

End RoundTrip.

(** X10 at the messages ["oops"], ["Oops"] and ["URL invalid"], with no
    letter case outside ASCII. *)
Lemma error_message_round_trip_witness :
  (exists e,
      _gum_v8_error_new_take_error (fun _ => false) (fun c => c) (Some "oops") = Done e /\
      _gum_v8_maybe_throw (fun _ => false) (fun c => c) (Some "oops")
      = Done (true, Some e) /\
      _gum_v8_error_get_message (fun c => c) e
      = Done (String (ascii_toupper "o") (c_str "ops"))) /\
  (exists e,
      _gum_v8_error_new_take_error (fun _ => false) (fun c => c) (Some "URL invalid")
      = Done e /\
      _gum_v8_error_get_message (fun c => c) e = Done (c_str "URL invalid")).
Proof.
  destruct (error_message_round_trip (fun _ => false) (fun c => c) (fun c => c))
    as (Hany & Hsame & _).
  split.
  - apply (Hany "o"%char "ops"%string). vm_compute. split; reflexivity.
  - apply (Hsame "U"%char "RL invalid"%string); [vm_compute; split; reflexivity|].
    reflexivity.
Defined.


(** * The parser: optional arguments and output slots *)

Lemma occursb_advance (x : ascii) (k : nat) (t : string) :
  occursb x (advance k t) = true -> occursb x t = true.
Proof.
  revert t. induction k as [|k IH]; intros t H; [exact H|].
  destruct t as [|c t]; [exact H|].
  cbn [advance] in H. apply IH in H.
  unfold occursb in *. cbn [list_ascii_of_string existsb]. rewrite H. apply orb_true_r.
Qed.

Lemma occursb_skip_if (x : ascii) (b : bool) (t : string) :
  occursb x (skip_if b t) = true -> occursb x t = true.
Proof.
  unfold skip_if. destruct b; [apply occursb_advance|trivial].
Qed.

Ltac tag_cases H :=
  repeat match type of H with
         | context [converted ?c _ _] => destruct c; cbn [converted] in H
         | context [match ?x with _ => _ end] => destruct x eqn:?
         | context [let '(_, _) := ?x in _] => destruct x eqn:?
         end; try discriminate H.

Section ParserSlots.

Variable StringToNumber : string -> spec_float.
Variable ObjectToNumber :
  ObjectKind -> list (Maybe Value) -> list (string * Maybe Value) -> Maybe spec_float.
Variable gum_match_pattern_new_from_string : string -> bool.

Local Abbreviation tag_of :=
  (parse_tag StringToNumber ObjectToNumber gum_match_pattern_new_from_string).
Local Abbreviation turn_of :=
  (parse_turn StringToNumber ObjectToNumber gum_match_pattern_new_from_string).
Local Abbreviation loop_of :=
  (parse_loop StringToNumber ObjectToNumber gum_match_pattern_new_from_string).
Local Abbreviation parse_of :=
  (_gum_v8_args_parse StringToNumber ObjectToNumber gum_match_pattern_new_from_string).
Local Abbreviation turns_of :=
  (after_turns StringToNumber ObjectToNumber gum_match_pattern_new_from_string).

(** The code of any tag but [F] that converts its argument writes one
    slot, and leaves the format pointer in what followed the tag. *)
Lemma parse_tag_one_slot (c : ascii) (t1 : string) (arg : Value) (st : ParseState)
    (t' : string) (st' : ParseState) :
  c <> "F"%char ->
  tag_of c t1 arg st = Parsed t' st' ->
  (exists slot, slots st' = slots st ++ [slot]) /\
  (forall x, occursb x t' = true -> occursb x t1 = true).
Proof.
  intros Hc H.
  assert (Hdone : forall t'' st'' slot,
             Parsed t'' st'' = Parsed t' st' ->
             slots st'' = slots st ++ [slot] ->
             (forall x, occursb x t'' = true -> occursb x t1 = true) ->
             (exists slot, slots st' = slots st ++ [slot]) /\
             (forall x, occursb x t' = true -> occursb x t1 = true)).
  { intros t'' st'' slot [= -> ->] Hs Ht. split; [exists slot; exact Hs|exact Ht]. }
  assert (Hskip1 : forall b x, occursb x (skip_if b t1) = true -> occursb x t1 = true)
    by (intros; eapply occursb_skip_if; eassumption).
  assert (Hskip2 : forall b b' x, occursb x (skip_if b (skip_if b' t1)) = true ->
                                  occursb x t1 = true)
    by (intros b b' x Hx; eapply occursb_skip_if, occursb_skip_if; eassumption).
  destruct c as [[] [] [] [] [] [] [] []]; try discriminate H; try contradiction;
    cbv beta iota zeta delta [parse_tag] in H; tag_cases H;
    (eapply Hdone; [exact H | reflexivity | solve [eauto]]).
Qed.

(** One turn of the loop over a format with no [F]. *)
Lemma parse_turn_one_slot (args : list Value) (t : string) (i : nat) (r : bool)
    (st : ParseState) (t' : string) (i' : nat) (r' : bool) (st' : ParseState) :
  occursb "F" t = false ->
  turn_of args t i r st = Next t' i' r' st' ->
  occursb "F" t' = false /\
  (r = false -> r' = false) /\
  ((i' = i /\ slots st' = slots st) \/
   (i' = S i /\ (i < length args)%nat /\ nth i args Undefined <> Undefined /\
    exists slot, slots st' = slots st ++ [slot])).
Proof.
  intros HF H. unfold parse_turn in H.
  destruct t as [|c t1]; [discriminate|].
  assert (HF1 : occursb "F" t1 = false).
  { unfold occursb in *. cbn [list_ascii_of_string existsb] in HF.
    apply orb_false_elim in HF as [_ HF]. exact HF. }
  assert (Hc : c <> "F"%char).
  { intros ->. unfold occursb in HF. cbn [list_ascii_of_string existsb] in HF.
    discriminate. }
  destruct (Ascii.eqb c "|").
  - injection H as <- <- <- <-. split; [exact HF1|]. split; [reflexivity|].
    left. split; reflexivity.
  - destruct ((length args <=? i)%nat || IsUndefined (nth i args Undefined)) eqn:Hmiss.
    + destruct r; discriminate.
    + apply orb_false_elim in Hmiss as [Hlen Hundef].
      apply Nat.leb_gt in Hlen.
      destruct (tag_of c t1 (nth i args Undefined) st) as [t'' st''| | |] eqn:Htag;
        try discriminate.
      injection H as <- <- <- <-.
      destruct (parse_tag_one_slot c t1 _ st t'' st'' Hc Htag) as [Hslot Hsub].
      split.
      * destruct (occursb "F" t'') eqn:E; [|reflexivity].
        apply Hsub in E. congruence.
      * split; [trivial|]. right. split; [reflexivity|]. split; [exact Hlen|].
        split; [|exact Hslot].
        intros Hu. rewrite Hu in Hundef. discriminate.
Qed.

Lemma after_turns_slots (n : nat) (args : list Value) (t : string) (i : nat) (r : bool)
    (st : ParseState) (t' : string) (i' : nat) (r' : bool) (st' : ParseState) :
  occursb "F" t = false ->
  turns_of n args (t, i, r, st) = Some (t', i', r', st') ->
  (r = false -> r' = false) /\
  (i <= i')%nat /\
  (length (slots st') + i = length (slots st) + i')%nat /\
  (i' = i \/ i' <= length args)%nat /\
  (forall j, (i <= j < i')%nat -> nth j args Undefined <> Undefined).
Proof.
  revert t i r st. induction n as [|n IH]; intros t i r st HF H.
  - injection H as <- <- <- <-.
    split; [trivial|]. split; [lia|]. split; [lia|]. split; [left; reflexivity|].
    intros j Hj. lia.
  - cbn [after_turns] in H.
    destruct (turn_of args t i r st) as [t1 i1 r1 st1| | | |] eqn:Hturn; try discriminate.
    destruct (parse_turn_one_slot args t i r st t1 i1 r1 st1 HF Hturn)
      as (HF1 & Hr1 & Hstep).
    destruct (IH t1 i1 r1 st1 HF1 H) as (Hr & Hle & Hlen & Hargs & Hdef).
    split; [auto|].
    destruct Hstep as [[-> Hs] | (-> & Hi & Hnth & slot & Hs)].
    + rewrite Hs in Hlen. repeat split; try assumption.
    + rewrite Hs, length_app in Hlen. cbn [length] in Hlen.
      split; [lia|]. split; [lia|]. split; [right; lia|].
      intros j Hj. destruct (Nat.eq_dec j i) as [->|Hne]; [exact Hnth|].
      apply Hdef. lia.
Qed.

(** X11.  After a [|] in the format every tag is optional, to the end of
    the format.  When the loop of [_gum_v8_args_parse] stands with the
    required flag cleared on a tag whose argument is absent or is
    [undefined], or stands at the end of the format whatever arguments are
    left, the call returns [TRUE] with no exception pending; the scope is
    committed, nothing is released, and the output slots written are
    those of the earlier tags, the slots of this tag and of the later
    ones being left as the caller had them. *)
Theorem optional_argument (args : list Value) (format : string) (h : NativeHeap)
    (n : nat) (t : string) (arg_index : nat) (is_required : bool) (st : ParseState) :
  turns_of n args (entry format h) = Some (t, arg_index, is_required, st) ->
  t = EmptyString \/
  (is_required = false /\
   (exists c t1, t = String c t1 /\ c <> "|"%char) /\
   ((length args <= arg_index)%nat \/ nth arg_index args Undefined = Undefined)) ->
  exists r,
    parse_of args format h = Returns r /\
    returned r = true /\
    pending_exception r = None /\
    written r = slots st /\
    committed (scope_at_exit r) = true /\
    heap_at_exit r = heap st.
Proof.
  intros Hturns Hstop. unfold entry in Hturns.
  destruct (after_turns_loop _ _ _ _ _ _ _ _ _ _ _ _ _ Hturns) as [Hlen Hloop].
  exists (return_TRUE st).
  split; [|repeat split].
  unfold _gum_v8_args_parse.
  replace (S (String.length (c_str format)))
    with (n + S (String.length (c_str format) - n))%nat by lia.
  rewrite Hloop. cbn [parse_loop].
  destruct Hstop as [-> | (-> & (c & t1 & -> & Hc) & Harg)]; [reflexivity|].
  cbn [parse_turn].
  destruct (Ascii.eqb_spec c "|"); [contradiction|].
  assert ((length args <=? arg_index)%nat
          || IsUndefined (nth arg_index args Undefined) = true) as ->.
  { destruct Harg as [Hle | ->]; [|apply orb_true_r].
    apply orb_true_intro. left. apply Nat.leb_le. exact Hle. }
  reflexivity.
Qed.

(** X12.  In a format with no [F] tag each argument the parser has
    consumed has had exactly one output slot written for it: between two
    turns of the loop the number of slots written is the argument index,
    every argument below the index is present and is not [undefined], and
    once the required flag is cleared it stays cleared. *)
Theorem slots_follow_arguments (args : list Value) (format : string) (h : NativeHeap)
    (n : nat) (t : string) (arg_index : nat) (is_required : bool) (st : ParseState) :
  occursb "F" (c_str format) = false ->
  turns_of n args (entry format h) = Some (t, arg_index, is_required, st) ->
  length (slots st) = arg_index /\
  (arg_index <= length args)%nat /\
  (arg_index <= n)%nat /\
  (forall j, (j < arg_index)%nat -> nth j args Undefined <> Undefined) /\
  (forall m t' arg_index' is_required' st',
      is_required = false ->
      turns_of m args (t, arg_index, is_required, st)
      = Some (t', arg_index', is_required', st') ->
      is_required' = false).
Proof.
  intros HF Hturns. unfold entry in Hturns.
  destruct (after_turns_slots n args _ _ _ _ _ _ _ _ HF Hturns)
    as (_ & _ & Hlen & Hargs & Hdef).
  cbn [slots length] in Hlen.
  split; [lia|]. split; [lia|]. split; [|split].
  - clear - Hturns HF.
    assert (Hgen : forall n t i r st t' i' r' st',
               occursb "F" t = false ->
               turns_of n args (t, i, r, st) = Some (t', i', r', st') ->
               (i' <= i + n)%nat).
    { clear. intros n. induction n as [|n IH]; intros t i r st t' i' r' st' HF H.
      - injection H as <- <- <- <-. lia.
      - cbn [after_turns] in H.
        destruct (turn_of args t i r st) as [t1 i1 r1 st1| | | |] eqn:Hturn;
          try discriminate.
        destruct (parse_turn_one_slot args t i r st t1 i1 r1 st1 HF Hturn)
          as (HF1 & _ & Hstep).
        specialize (IH _ _ _ _ _ _ _ _ HF1 H).
        destruct Hstep as [[-> _] | (-> & _)]; lia. }
    specialize (Hgen _ _ _ _ _ _ _ _ _ HF Hturns). lia.
  - intros j Hj. apply Hdef. lia.
  - intros m t' i' r' st' -> Hm.
    assert (HFt : occursb "F" t = false).
    { clear - Hturns HF.
      assert (Hgen : forall n t i r st t' i' r' st',
                 occursb "F" t = false ->
                 turns_of n args (t, i, r, st) = Some (t', i', r', st') ->
                 occursb "F" t' = false).
      { clear. intros n. induction n as [|n IH]; intros t i r st t' i' r' st' HF H.
        - injection H as <- <- <- <-. exact HF.
        - cbn [after_turns] in H.
          destruct (turn_of args t i r st) as [t1 i1 r1 st1| | | |] eqn:Hturn;
            try discriminate.
          destruct (parse_turn_one_slot args t i r st t1 i1 r1 st1 HF Hturn)
            as (HF1 & _).
          exact (IH _ _ _ _ _ _ _ _ HF1 H). }
      exact (Hgen _ _ _ _ _ _ _ _ _ HF Hturns). }
    destruct (after_turns_slots m args _ _ _ _ _ _ _ _ HFt Hm) as (Hr & _).
    apply Hr. reflexivity.
Qed.

End ParserSlots.

(** X11 at the format ["i|i"] with the single argument 1, after three
    turns. *)
Lemma optional_argument_witness :
  exists r,
    _gum_v8_args_parse (fun _ => S754_nan) (fun _ _ _ => Nothing "TypeError")
      (fun _ => false) [Number (S754_finite false 1 0)] "i|i" (mkHeap 1 []) = Returns r /\
    returned r = true /\
    pending_exception r = None /\
    written r = slots (mkState scope_new (mkHeap 1 []) [SInt 1]) /\
    committed (scope_at_exit r) = true /\
    heap_at_exit r = heap (mkState scope_new (mkHeap 1 []) [SInt 1]).
Proof.
  apply (optional_argument (fun _ => S754_nan) (fun _ _ _ => Nothing "TypeError")
           (fun _ => false) [Number (S754_finite false 1 0)] "i|i" (mkHeap 1 [])
           2 "i" 1 false (mkState scope_new (mkHeap 1 []) [SInt 1])).
  - reflexivity.
  - right. split; [reflexivity|]. split.
    + exists "i"%char, ""%string. split; [reflexivity|discriminate].
    + left. simpl. lia.
Defined.

(** X12 at the format ["is|u"] with the arguments 1 and ["a"], after two
    turns. *)
Lemma slots_follow_arguments_witness :
  length (slots (mkState (mkScope false [1%positive] [] [] [])
                   (mkHeap 2 [Acquired KString 1])
                   [SInt 1; SString (Some (1%positive, "a"%string))])) = 2%nat /\
  (2 <= length [Number (S754_finite false 1 0); Str "a"])%nat.
Proof.
  destruct (slots_follow_arguments (fun _ => S754_nan) (fun _ _ _ => Nothing "TypeError")
              (fun _ => false) [Number (S754_finite false 1 0); Str "a"] "is|u"
              (mkHeap 1 []) 2 "|u" 2 true
              (mkState (mkScope false [1%positive] [] [] [])
                 (mkHeap 2 [Acquired KString 1])
                 [SInt 1; SString (Some (1%positive, "a"%string))])
              eq_refl eq_refl) as (Hlen & Hargs & _).
  split; [exact Hlen|exact Hargs].
Defined.


(** * Result objects *)

Lemma lookup_Object_Set (named : list (string * Maybe Value)) (key : string)
    (value : Value) :
  lookup_property key (Object_Set named key value) = Some (Just value).
Proof.
  induction named as [|[k r] rest IH]; cbn [Object_Set lookup_property].
  - rewrite String.eqb_refl. reflexivity.
  - destruct (String.eqb k key) eqn:E; cbn [lookup_property]; rewrite E;
      [reflexivity|exact IH].
Qed.

Lemma lookup_Object_Set_other (named : list (string * Maybe Value)) (key key' : string)
    (value : Value) :
  key' <> key ->
  lookup_property key' (Object_Set named key value) = lookup_property key' named.
Proof.
  intros Hne. induction named as [|[k r] rest IH]; cbn [Object_Set lookup_property].
  - destruct (String.eqb_spec key key'); [congruence|reflexivity].
  - destruct (String.eqb_spec k key) as [->|Hk]; cbn [lookup_property].
    + destruct (String.eqb_spec key key'); [congruence|reflexivity].
    + destruct (String.eqb k key'); [reflexivity|exact IH].
Qed.

(** A property set with [_gum_v8_object_set] under a key with no NUL is
    read back, and the others read as before. *)
Lemma Get_object_set (object : list (string * Maybe Value)) (key key' : string)
    (value : Value) :
  c_str key = key ->
  Get (_gum_v8_object_set object key value) key'
  = if String.eqb key' key then Just value else Get object key'.
Proof.
  intros Hk. unfold _gum_v8_object_set, _gum_v8_string_new_ascii, Utf8Value, Get.
  rewrite c_str_idempotent, Hk.
  destruct (String.eqb_spec key' key) as [->|Hne].
  - rewrite lookup_Object_Set. reflexivity.
  - rewrite lookup_Object_Set_other by exact Hne. reflexivity.
Qed.

Lemma truncate_Integer_New (value : Z) :
  match Integer_New value with
  | Number d => truncate d = Some value
  | _ => False
  end.
Proof.
  destruct value as [|m|m]; cbn; try reflexivity; f_equal;
    rewrite Z.quot_1_r; lia.
Qed.

Lemma page_protection_new_get (prot : Z) :
  _gum_v8_page_protection_get (_gum_v8_page_protection_new prot) = Done (Z.land prot 7).
Proof.
  unfold _gum_v8_page_protection_new, _gum_v8_string_new_ascii,
    _gum_v8_page_protection_get, GUM_PAGE_READ, GUM_PAGE_WRITE, GUM_PAGE_EXECUTE.
  assert (Hbits : Z.land prot 7 =
            Z.lor (Z.lor (Z.land prot 1) (Z.land prot 2)) (Z.land prot 4)).
  { rewrite <- !Z.land_lor_distr_r. reflexivity. }
  rewrite Hbits.
  pose proof (land_single_bit prot 0 ltac:(lia)) as H1.
  pose proof (land_single_bit prot 1 ltac:(lia)) as H2.
  pose proof (land_single_bit prot 2 ltac:(lia)) as H4.
  change (2 ^ 0) with 1 in H1. change (2 ^ 1) with 2 in H2.
  change (2 ^ 2) with 4 in H4.
  destruct H1 as [-> | ->], H2 as [-> | ->], H4 as [-> | ->]; reflexivity.
Qed.

(** X13.  The object [_gum_v8_range_details_new] makes for a range is a
    range object: [_gum_v8_memory_range_get] and
    [_gum_v8_memory_ranges_get] read the range back from it, whether a
    file is mapped there or not.  The base comes back as it is, and the
    size modulo 2^32, since it is set as a [guint]: a size below 4 GiB
    comes back as it is, one of 4 GiB or more does not.  The [protection]
    property reads back as the read, write and execute flags, and the
    [file] property is there exactly when a file is. *)
Theorem range_details_round_trip (details : GumRangeDetails) :
  0 <= base_address (details_range details) <= G_MAXUINT64 ->
  let object := _gum_v8_range_details_new details in
  let range :=
    mkRange (base_address (details_range details))
      (size (details_range details) mod 2 ^ 32) in
  _gum_v8_memory_range_get object = Done range /\
  _gum_v8_memory_ranges_get object = Done [range] /\
  (0 <= size (details_range details) < 2 ^ 32 -> range = details_range details) /\
  (2 ^ 32 <= size (details_range details) -> range <> details_range details) /\
  (exists protection,
      Get (range_properties details) "protection" = Just protection /\
      _gum_v8_page_protection_get protection
      = Done (Z.land (details_protection details) 7)) /\
  Has (range_properties details) "file"
  = match details_file details with Some _ => true | None => false end.
Proof.
  intros Hbase object range.
  assert (Hobject : object = Object Ordinary [] (range_properties details))
    by reflexivity.
  assert (Hsize : Get (range_properties details) "size"
                  = Just (Integer_New (wrap_uint (size (details_range details))))).
  { unfold range_properties, _gum_v8_range_details_new.
    destruct (details_file details); reflexivity. }
  assert (Hb : Get (range_properties details) "base"
               = Just (_gum_v8_native_pointer_new (base_address (details_range details)))).
  { unfold range_properties, _gum_v8_range_details_new.
    destruct (details_file details); reflexivity. }
  assert (Hget : _gum_v8_memory_range_get object = Done range).
  { rewrite Hobject. unfold _gum_v8_memory_range_get. rewrite Hb, Hsize.
    unfold _gum_v8_native_pointer_get, _gum_v8_native_pointer_new. cbn [is_native_pointer].
    unfold GUMJS_NATIVE_POINTER_VALUE, Uint64Value. cbn [fst bind].
    rewrite (wrap_uint64_small _ Hbase).
    pose proof (truncate_Integer_New (wrap_uint (size (details_range details)))) as Ht.
    destruct (Integer_New (wrap_uint (size (details_range details)))) as [ | | |d| | | | | ];
      try contradiction.
    unfold ToUint32. rewrite Ht. unfold range, wrap_uint. f_equal. f_equal.
    apply Z.mod_mod. lia. }
  split; [exact Hget|]. split; [|split; [|split; [|split]]].
  - rewrite Hobject in *. cbn [_gum_v8_memory_ranges_get]. rewrite Hget. reflexivity.
  - intros Hs. unfold range. rewrite Z.mod_small by lia.
    destruct (details_range details). reflexivity.
  - intros Hs Heq. apply (f_equal size) in Heq. unfold range in Heq. cbn [size] in Heq.
    pose proof (Z.mod_pos_bound (size (details_range details)) (2 ^ 32) ltac:(lia)). lia.
  - exists (_gum_v8_page_protection_new (details_protection details)). split.
    + unfold range_properties, _gum_v8_range_details_new.
      destruct (details_file details); reflexivity.
    + apply page_protection_new_get.
  - unfold range_properties, _gum_v8_range_details_new.
    destruct (details_file details); reflexivity.
Qed.

(** X13 at a range of 4 GiB and 16 bytes at [0x1000], readable and
    executable, with a file mapped. *)
Lemma range_details_round_trip_witness :
  _gum_v8_memory_range_get
    (_gum_v8_range_details_new
       (mkRangeDetails (mkRange 4096 (2 ^ 32 + 16)) 5
          (Some (mkFileMapping "/bin/true" 0 4096))))
  = Done (mkRange 4096 16).
Proof.
  apply (range_details_round_trip
           (mkRangeDetails (mkRange 4096 (2 ^ 32 + 16)) 5
              (Some (mkFileMapping "/bin/true" 0 4096)))).
  vm_compute. split; discriminate.
Defined.

(** * Names of enumerators *)

(** X14.  The three tables of names give each enumerator they list a
    name of its own, so the name tells the enumerator; every name is a
    non-empty string that [_gum_v8_string_new_ascii] keeps whole; and a
    value the table does not list ends in [g_assert_not_reached], except
    that an invalid memory operation has the name ["invalid"]. *)
Theorem enumerator_names :
  (forall a b name,
      gum_exception_type_to_string a = Some name ->
      gum_exception_type_to_string b = Some name -> a = b) /\
  (forall a b name,
      _gum_v8_thread_state_to_string a = Some name ->
      _gum_v8_thread_state_to_string b = Some name -> a = b) /\
  (forall a b name,
      _gum_v8_memory_operation_to_string a = Some name ->
      _gum_v8_memory_operation_to_string b = Some name -> a = b) /\
  (forall name,
      (exists a, gum_exception_type_to_string a = Some name) \/
      (exists a, _gum_v8_thread_state_to_string a = Some name) \/
      (exists a, _gum_v8_memory_operation_to_string a = Some name) ->
      name <> ""%string /\ _gum_v8_string_new_ascii name = Str name) /\
  (forall value,
      gum_exception_type_to_string (GumExceptionType_other value) = None /\
      _gum_v8_thread_state_to_string (GumThreadState_other value) = None /\
      _gum_v8_memory_operation_to_string (GumMemoryOperation_other value) = None) /\
  _gum_v8_memory_operation_to_string GUM_MEMOP_INVALID = Some "invalid"%string.
Proof.
  split; [|split; [|split; [|split; [|split]]]].
  - intros a b name Ha Hb.
    destruct a; try discriminate Ha; injection Ha as <-;
      destruct b; try discriminate Hb; reflexivity.
  - intros a b name Ha Hb.
    destruct a; try discriminate Ha; injection Ha as <-;
      destruct b; try discriminate Hb; reflexivity.
  - intros a b name Ha Hb.
    destruct a; try discriminate Ha; injection Ha as <-;
      destruct b; try discriminate Hb; reflexivity.
  - intros name [[a H] | [[a H] | [a H]]]; destruct a; try discriminate H;
      injection H as <-; (split; [discriminate|reflexivity]).
  - intros value. repeat split.
  - reflexivity.
Qed.

(** X14 at the name ["guard-page"]. *)
Lemma enumerator_names_witness :
  GUM_EXCEPTION_GUARD_PAGE = GUM_EXCEPTION_GUARD_PAGE /\
  ("read"%string <> ""%string /\ _gum_v8_string_new_ascii "read" = Str "read").
Proof.
  destruct enumerator_names as (Hexc & _ & _ & Hname & _).
  split.
  - apply (Hexc GUM_EXCEPTION_GUARD_PAGE GUM_EXCEPTION_GUARD_PAGE "guard-page"%string);
      reflexivity.
  - apply (Hname "read"%string). right. right. exists GUM_MEMOP_READ. reflexivity.
Defined.


(** * Native exceptions *)

Lemma Has_object_set (object : list (string * Maybe Value)) (key key' : string)
    (value : Value) :
  c_str key = key ->
  Has (_gum_v8_object_set object key value) key'
  = String.eqb key' key || Has object key'.
Proof.
  intros Hk. unfold _gum_v8_object_set, _gum_v8_string_new_ascii, Utf8Value, Has.
  rewrite c_str_idempotent, Hk.
  destruct (String.eqb_spec key' key) as [->|Hne].
  - rewrite lookup_Object_Set. reflexivity.
  - rewrite lookup_Object_Set_other by exact Hne. reflexivity.
Qed.

Section ExceptionDetailsProofs.

Variable gum_exception_details_to_string : GumExceptionDetails -> string.

Local Abbreviation parse_exception_details :=
  (_gum_v8_parse_exception_details gum_exception_details_to_string).

(** X15.  [_gum_v8_parse_exception_details] returns unless the type of the
    exception, or a memory operation other than the invalid one, is a
    value the tables of names do not list.  The exception it makes
    carries the message of the details, the name of the type, the
    faulting address as a native pointer, and the native context; it has
    a [memory] property exactly when the memory operation is not the
    invalid one, which then holds the name of the operation, never
    ["invalid"], and the address accessed.  Its [context] is a CPU-context
    object that is mutable and aliases the register structure of the
    details: it is no snapshot, and a register stored there afterwards is
    what the object reads. *)
Theorem exception_details_properties (details : GumExceptionDetails) (s : Snapshots) :
  0 <= details_address details <= G_MAXUINT64 ->
  0 <= details_native_context details <= G_MAXUINT64 ->
  0 <= memory_address (details_memory details) <= G_MAXUINT64 ->
  (parse_exception_details details s = None <->
   gum_exception_type_to_string (details_type details) = None \/
   _gum_v8_memory_operation_to_string (memory_operation (details_memory details))
   = None) /\
  (forall exception context s1,
      parse_exception_details details s = Some (exception, context, s1) ->
      exists ex,
        exception = Object Ordinary [] ex /\
        Get ex "message" = Just (Str (c_str (gum_exception_details_to_string details))) /\
        (exists type,
            gum_exception_type_to_string (details_type details) = Some type /\
            Get ex "type" = Just (Str type)) /\
        (exists address,
            Get ex "address" = Just address /\
            _gum_v8_native_pointer_get address = Done (details_address details)) /\
        (exists native_context,
            Get ex "nativeContext" = Just native_context /\
            _gum_v8_native_pointer_get native_context
            = Done (details_native_context details)) /\
        (Has ex "memory" = true <->
         memory_operation (details_memory details) <> GUM_MEMOP_INVALID) /\
        (memory_operation (details_memory details) <> GUM_MEMOP_INVALID ->
         exists memory name address,
           Get ex "memory" = Just (Object Ordinary [] memory) /\
           _gum_v8_memory_operation_to_string (memory_operation (details_memory details))
           = Some name /\
           name <> "invalid"%string /\
           Get memory "operation" = Just (Str name) /\
           Get memory "address" = Just address /\
           _gum_v8_native_pointer_get address
           = Done (memory_address (details_memory details))) /\
        (exists context_value,
            Get ex "context" = Just context_value /\
            objects s1 !! context = Some context_value /\
            _gum_v8_cpu_context_get context_value = Done (details_context details)) /\
        is_mutable context s1 = Some true /\
        memory s1 = memory s /\
        forall register v registers,
          memory s1 !! details_context details = Some registers ->
          read_register context register
            (native_step s1 (store_register (details_context details) register v))
          = Some v).
Proof.
  intros Haddress Hnative Hmemory.
  unfold _gum_v8_parse_exception_details, Exception_Error.
  destruct (gum_exception_type_to_string (details_type details)) as [type|] eqn:Htype.
  2:{ split; [split; [intros _; left; reflexivity | reflexivity] | discriminate]. }
  assert (Htype_c : c_str type = type).
  { destruct (details_type details); try discriminate Htype; injection Htype as <-;
      reflexivity. }
  assert (Hptr : forall p, 0 <= p <= G_MAXUINT64 ->
                           _gum_v8_native_pointer_get (_gum_v8_native_pointer_new p)
                           = Done p).
  { intros p Hp. unfold _gum_v8_native_pointer_get, _gum_v8_native_pointer_new,
      GUMJS_NATIVE_POINTER_VALUE, Uint64Value. cbn [is_native_pointer fst].
    rewrite (wrap_uint64_small p Hp). reflexivity. }
  unfold _gum_v8_cpu_context_new_mutable, cpu_context_new.
  cbn [objects]. rewrite lookup_insert_eq.
  destruct (memory_operation (details_memory details)) as [ | | | |other] eqn:Hop;
    cbn [_gum_v8_memory_operation_to_string].
  5:{ split; [split; [intros _; right; reflexivity | reflexivity] | discriminate]. }
  all: split; [split; [discriminate | intros [H | H]; discriminate H] |].
  all: intros exception context s1 [= <- <- <-].
  all: eexists; split; [reflexivity|].
  all: unfold _gum_v8_object_set_pointer, _gum_v8_object_set_ascii.
  all: rewrite !Get_object_set, !Has_object_set by reflexivity.
  all: cbn [String.eqb Ascii.eqb Bool.eqb orb andb].
  all: split; [reflexivity|].
  all: split; [exists type; split;
                 [reflexivity | unfold _gum_v8_string_new_ascii; rewrite Htype_c;
                                reflexivity]|].
  all: split; [eexists; split; [reflexivity | apply Hptr, Haddress]|].
  all: split; [eexists; split; [reflexivity | apply Hptr, Hnative]|].
  all: split; [split; [try discriminate; intros; discriminate
                      | try reflexivity; intros H; contradiction H; reflexivity]|].
  all: split;
    [first [ intros H; contradiction H; reflexivity
           | intros _; eexists; eexists; eexists;
             split; [reflexivity|];
             split; [reflexivity|];
             split; [discriminate|];
             unfold _gum_v8_object_set_pointer, _gum_v8_object_set_ascii;
             rewrite !Get_object_set by reflexivity;
             cbn [String.eqb Ascii.eqb Bool.eqb];
             split; [reflexivity|];
             split; [reflexivity | apply Hptr, Hmemory] ]|].
  all: split; [eexists; split; [reflexivity|]; split;
                 [cbn [objects]; apply lookup_insert_eq | reflexivity]|].
  all: split; [unfold is_mutable; cbn [objects]; rewrite lookup_insert_eq; reflexivity|].
  all: split; [reflexivity|].
  all: intros register v registers Hregs; cbn [memory] in Hregs.
  all: unfold read_register, native_step; cbn [objects memory];
    rewrite lookup_insert_eq; cbn [_gum_v8_cpu_context_get];
    rewrite lookup_alter_eq, Hregs; cbn [fmap option_fmap option_map];
    apply lookup_insert_eq.
Qed.

End ExceptionDetailsProofs.

(** X15 at an access violation on a read of address 16, with the register
    structure at address 100. *)
Lemma exception_details_properties_witness :
  _gum_v8_parse_exception_details (fun _ => "access violation accessing 0x10"%string)
    (mkExceptionDetails GUM_EXCEPTION_ACCESS_VIOLATION 4096
       (mkMemoryDetails GUM_MEMOP_READ 16) 100 200)
    (mkSnapshots ∅ ∅ {[ 100 := {[ "pc"%string := 4096 ]} ]} ∅ [] 1%positive) = None <->
  gum_exception_type_to_string GUM_EXCEPTION_ACCESS_VIOLATION = None \/
  _gum_v8_memory_operation_to_string GUM_MEMOP_READ = None.
Proof.
  apply (exception_details_properties
           (fun _ => "access violation accessing 0x10"%string)
           (mkExceptionDetails GUM_EXCEPTION_ACCESS_VIOLATION 4096
              (mkMemoryDetails GUM_MEMOP_READ 16) 100 200)
           (mkSnapshots ∅ ∅ {[ 100 := {[ "pc"%string := 4096 ]} ]} ∅ [] 1%positive));
    vm_compute; split; discriminate.
Defined.


(** * The bump allocator *)

Lemma land_align_mask (x k : Z) :
  0 <= x < 2 ^ 64 -> 0 <= k <= 63 ->
  Z.land x (wrap_uint64 (Z.lnot (wrap_uint64 (2 ^ k - 1)))) = x - x mod 2 ^ k.
Proof.
  intros Hx Hk.
  assert (Hpow : 0 < 2 ^ k <= 2 ^ 63).
  { split; [apply Z.pow_pos_nonneg; lia|apply Z.pow_le_mono_r; lia]. }
  assert (Hmask : wrap_uint64 (Z.lnot (wrap_uint64 (2 ^ k - 1))) = 2 ^ 64 - 2 ^ k).
  { unfold wrap_uint64. rewrite (Z.mod_small (2 ^ k - 1)) by lia.
    unfold Z.lnot. replace (Z.pred (- (2 ^ k - 1))) with (- 2 ^ k) by lia.
    replace (- 2 ^ k) with (2 ^ 64 - 2 ^ k + (-1) * 2 ^ 64) by lia.
    rewrite Z.mod_add by lia. apply Z.mod_small. lia. }
  rewrite Hmask.
  assert (Hdiff : x - x mod 2 ^ k = Z.ldiff x (Z.ones k)).
  { rewrite Z.ldiff_ones_r by lia. rewrite Z.shiftl_mul_pow2, Z.shiftr_div_pow2 by lia.
    pose proof (Z.div_mod x (2 ^ k) ltac:(lia)). lia. }
  rewrite Hdiff.
  assert (Hshift : 2 ^ 64 - 2 ^ k = Z.shiftl (Z.ones (64 - k)) k).
  { rewrite Z.shiftl_mul_pow2, Z.ones_equiv by lia.
    replace (2 ^ 64) with (2 ^ (64 - k) * 2 ^ k); [lia|].
    rewrite <- Z.pow_add_r by lia. f_equal. lia. }
  rewrite Hshift.
  apply Z.bits_inj'. intros i Hi.
  rewrite Z.land_spec, Z.ldiff_spec.
  destruct (Z.lt_ge_cases i k) as [Hlt|Hge].
  - rewrite Z.shiftl_spec_low by lia. rewrite Z.ones_spec_low by lia.
    cbn [negb]. rewrite !andb_false_r. reflexivity.
  - rewrite Z.shiftl_spec by lia. rewrite (Z.ones_spec_high k i) by lia. cbn [negb].
    rewrite andb_true_r.
    destruct (Z.lt_ge_cases i 64) as [Hlt64|Hge64].
    + rewrite Z.ones_spec_low by lia. apply andb_true_r.
    + rewrite Z.ones_spec_high by lia. rewrite andb_false_r. symmetry.
      destruct (Z.eq_dec x 0) as [->|Hx0]; [apply Z.bits_0|].
      apply Z.bits_above_log2; [lia|].
      assert (Z.log2 x < 64) by (apply Z.log2_lt_pow2; lia). lia.
Qed.

(** Rounding up to a multiple of [a]. *)
Lemma round_up_bounds (y a : Z) :
  0 < a -> y - a < y - y mod a <= y /\ (y - y mod a) mod a = 0.
Proof.
  intros Ha. pose proof (Z.mod_pos_bound y a Ha) as Hm. split; [lia|].
  pose proof (Z.div_mod y a ltac:(lia)) as Hd.
  replace (y - y mod a) with ((y / a) * a) by lia. apply Z.mod_mul. lia.
Qed.

Lemma store_bytes_frame (n : nat) (m : Z -> Z) (p v a : Z) :
  a < p \/ p + Z.of_nat n <= a -> store_bytes n m p v a = m a.
Proof.
  revert m p v. induction n as [|n IH]; intros m p v Ha; cbn [store_bytes]; [reflexivity|].
  rewrite IH by lia. destruct (Z.eqb_spec a p); [lia|reflexivity].
Qed.

Lemma load_bytes_ext (n : nat) (m m' : Z -> Z) (p : Z) :
  (forall a, p <= a < p + Z.of_nat n -> m a = m' a) ->
  load_bytes n m p = load_bytes n m' p.
Proof.
  revert p. induction n as [|n IH]; intros p H; cbn [load_bytes]; [reflexivity|].
  rewrite (H p) by lia. rewrite (IH (p + 1)); [reflexivity|].
  intros a Ha. apply H. lia.
Qed.

Lemma load_store_bytes (n : nat) (m : Z -> Z) (p v : Z) :
  0 <= v < 256 ^ Z.of_nat n -> load_bytes n (store_bytes n m p v) p = v.
Proof.
  revert m p v. induction n as [|n IH]; intros m p v Hv.
  - cbn in *. lia.
  - cbn [store_bytes load_bytes].
    rewrite store_bytes_frame by lia.
    rewrite Z.eqb_refl.
    rewrite IH.
    + pose proof (Z.div_mod v 256 ltac:(lia)). lia.
    + rewrite Nat2Z.inj_succ, Z.pow_succ_r in Hv by lia.
      split; [apply Z.div_pos; lia|]. apply Z.div_lt_upper_bound; lia.
Qed.

Module dlmalloc_facts.

Import dlmalloc.

Lemma load_store_size_t (m : Z -> Z) (p v : Z) :
  0 <= v < 2 ^ 64 -> load_size_t (store_size_t m p v) p = v.
Proof.
  intros Hv. apply load_store_bytes. change (256 ^ Z.of_nat 8) with (2 ^ 64). exact Hv.
Qed.

Lemma store_size_t_frame (m : Z -> Z) (p v a : Z) :
  a < p \/ p + 8 <= a -> store_size_t m p v a = m a.
Proof. intros H. apply store_bytes_frame. lia. Qed.

Lemma load_size_t_ext (m m' : Z -> Z) (p : Z) :
  (forall a, p <= a < p + 8 -> m a = m' a) -> load_size_t m p = load_size_t m' p.
Proof. intros H. apply load_bytes_ext. intros a Ha. apply H. lia. Qed.

Section Placed.

Variable static_buffer : Z.

(** The buffer lies in the lower half of the address space. *)
Hypothesis placed : 0 <= static_buffer < 2 ^ 63.

Local Abbreviation malloc := (mspace_malloc static_buffer 1).
Local Abbreviation calloc := (mspace_calloc static_buffer 1).
Local Abbreviation realloc := (mspace_realloc static_buffer 1).
Local Abbreviation memalign := (mspace_memalign static_buffer 1).

Lemma BUFFER_SIZE_value : BUFFER_SIZE = 134217728.
Proof. reflexivity. Qed.

Lemma usable_size_header (p n : Z) (s : State) (m : Z -> Z) :
  8 <= p < 2 ^ 64 -> 0 <= n < 2 ^ 64 ->
  (forall a, p - 8 <= a < p -> m a = store_size_t (memory s) (p - 8) n a) ->
  mspace_usable_size p (mkState m (static_offset s) (output s)) = n.
Proof.
  intros Hp Hn Hm. unfold mspace_usable_size, NULL, sizeof_size_t.
  destruct (Z.eqb_spec p 0); [lia|]. cbn [memory].
  rewrite wrap_uint64_small by (unfold G_MAXUINT64; lia).
  rewrite (load_size_t_ext m (store_size_t (memory s) (p - 8) n)).
  - apply load_store_size_t. exact Hn.
  - intros a Ha. apply Hm. lia.
Qed.

(** What [mspace_malloc] does for a size below 2^62. *)
Lemma malloc_spec (bytes : Z) (s : State) :
  within s -> 0 <= bytes < 2 ^ 62 ->
  mspace_malloc static_buffer 1 bytes s
  = if static_offset s + 8 + bytes <=? BUFFER_SIZE then
      (static_buffer + static_offset s + 8,
       mkState (store_size_t (memory s) (static_buffer + static_offset s) bytes)
         (static_offset s + 8 + bytes) (output s))
    else (NULL, mkState (memory s) (static_offset s) (output s ++ ["OOM"%string])).
Proof.
  intros Hs Hb. unfold within in Hs. rewrite BUFFER_SIZE_value in *.
  unfold mspace_malloc, sizeof_size_t. rewrite BUFFER_SIZE_value.
  rewrite (wrap_uint64_small (static_buffer + static_offset s + 8))
    by (unfold G_MAXUINT64; lia).
  rewrite (wrap_uint64_small (static_buffer + static_offset s + 8 + bytes))
    by (unfold G_MAXUINT64; lia).
  rewrite (wrap_uint64_small (static_buffer + static_offset s + 8 + bytes - static_buffer))
    by (unfold G_MAXUINT64; lia).
  rewrite (wrap_uint64_small (static_buffer + static_offset s + 8 - 8))
    by (unfold G_MAXUINT64; lia).
  replace (static_buffer + static_offset s + 8 + bytes - static_buffer)
    with (static_offset s + 8 + bytes) by lia.
  replace (static_buffer + static_offset s + 8 - 8)
    with (static_buffer + static_offset s) by lia.
  rewrite Z.gtb_ltb.
  destruct (Z.leb_spec (static_offset s + 8 + bytes) 134217728);
    destruct (Z.ltb_spec 134217728 (static_offset s + 8 + bytes)); try lia; reflexivity.
Qed.

(** X16.  [mspace_malloc], asked for a size below 2^62, grants it exactly
    when the offset, eight bytes of header and the size fit in what is
    left of the 128 MiB.  The block then starts eight bytes above the old
    offset, the offset moves to its end, [mspace_usable_size] gives the
    size asked for, and no byte of memory outside the header has changed.
    Otherwise it returns NULL, writes [OOM], and leaves memory and the
    offset as they were. *)
Theorem malloc_layout (bytes : Z) (s : State) :
  within s -> 0 <= bytes < 2 ^ 62 ->
  let '(p, s') := mspace_malloc static_buffer 1 bytes s in
  if static_offset s + 8 + bytes <=? BUFFER_SIZE then
    p = static_buffer + static_offset s + 8 /\
    p <> NULL /\
    static_offset s' = static_offset s + 8 + bytes /\
    within s' /\
    mspace_usable_size p s' = bytes /\
    (forall a, a < p - 8 \/ p <= a -> memory s' a = memory s a) /\
    output s' = output s
  else
    p = NULL /\
    static_offset s' = static_offset s /\
    memory s' = memory s /\
    output s' = output s ++ ["OOM"%string].
Proof.
  intros Hs Hb. rewrite (malloc_spec bytes s Hs Hb).
  unfold within in *. rewrite BUFFER_SIZE_value in *.
  destruct (Z.leb_spec (static_offset s + 8 + bytes) 134217728) as [Hfit|Hno].
  - cbn [static_offset memory output]. unfold NULL.
    split; [reflexivity|]. split; [lia|]. split; [reflexivity|]. split; [lia|].
    split; [|split; [|reflexivity]].
    + apply (usable_size_header _ bytes s); [lia|lia|].
      intros a Ha.
      replace (static_buffer + static_offset s + 8 - 8)
        with (static_buffer + static_offset s) by lia.
      reflexivity.
    + intros a Ha. apply store_size_t_frame. lia.
  - repeat split.
Qed.




(** What [mspace_memalign] does for a power of two up to 2^32 and a size
    below 2^62: the block starts at the first multiple of the alignment at
    or above the offset and eight bytes, and eight more bytes than asked
    are taken after it. *)
Lemma memalign_spec (k bytes : Z) (s : State) :
  within s -> 0 <= k <= 32 -> 0 <= bytes < 2 ^ 62 ->
  let y := static_buffer + static_offset s + 8 + 2 ^ k - 1 in
  let aligned := y - y mod 2 ^ k in
  mspace_memalign static_buffer 1 (2 ^ k) bytes s
  = if aligned + bytes + 8 - static_buffer <=? BUFFER_SIZE then
      (aligned,
       mkState (store_size_t (memory s) (aligned - 8) bytes)
         (aligned + bytes + 8 - static_buffer) (output s))
    else (NULL, mkState (memory s) (static_offset s) (output s ++ ["OOM"%string])).
Proof.
  intros Hs Hk Hb y aligned. unfold within in Hs. rewrite BUFFER_SIZE_value in *.
  assert (Hpow : 0 < 2 ^ k <= 2 ^ 32).
  { split; [apply Z.pow_pos_nonneg; lia|apply Z.pow_le_mono_r; lia]. }
  pose proof (round_up_bounds y (2 ^ k) ltac:(lia)) as [Hr _].
  fold aligned in Hr.
  unfold mspace_memalign, sizeof_size_t. rewrite BUFFER_SIZE_value.
  rewrite (wrap_uint64_small (static_buffer + static_offset s + 8))
    by (unfold G_MAXUINT64; lia).
  fold y.
  rewrite (wrap_uint64_small y) by (unfold G_MAXUINT64, y; lia).
  rewrite (land_align_mask y k) by (unfold y; lia).
  fold aligned.
  rewrite (wrap_uint64_small (aligned + bytes + 8)) by (unfold G_MAXUINT64, y in *; lia).
  rewrite (wrap_uint64_small (aligned + bytes + 8 - static_buffer))
    by (unfold G_MAXUINT64, y in *; lia).
  rewrite (wrap_uint64_small (aligned - 8)) by (unfold G_MAXUINT64, y in *; lia).
  rewrite Z.gtb_ltb.
  destruct (Z.leb_spec (aligned + bytes + 8 - static_buffer) 134217728);
    destruct (Z.ltb_spec 134217728 (aligned + bytes + 8 - static_buffer)); try lia;
    reflexivity.
Qed.

(** What one call does, seen from the offset it starts at. *)
Lemma call_step (c : Call) (s s1 : State) (result : option Z) :
  within s -> modest c ->
  call static_buffer c s = (result, s1) ->
  within s1 /\
  static_offset s <= static_offset s1 /\
  (forall a, a < static_buffer + static_offset s -> memory s1 a = memory s a) /\
  match result with
  | Some p =>
      (p = NULL /\ static_offset s1 = static_offset s) \/
      (p <> NULL /\
       static_buffer + static_offset s + 8 <= p /\
       0 <= requested c /\
       p + requested c <= static_buffer + static_offset s1 /\
       requested c + 8 <= static_offset s1 - static_offset s /\
       forall m,
         (forall a, a < p -> m a = memory s1 a) ->
         mspace_usable_size p (mkState m (static_offset s1) (output s1)) = requested c)
  | None => s1 = s
  end.
Proof.
  intros Hs Hc H. pose proof Hs as Hs'. unfold within in Hs'.
  rewrite BUFFER_SIZE_value in Hs'.
  assert (Hmalloc : forall bytes p s2,
             0 <= bytes < 2 ^ 62 ->
             mspace_malloc static_buffer 1 bytes s = (p, s2) ->
             within s2 /\
             static_offset s <= static_offset s2 /\
             (forall a, a < static_buffer + static_offset s -> memory s2 a = memory s a) /\
             ((p = NULL /\ static_offset s2 = static_offset s) \/
              (p <> NULL /\
               static_buffer + static_offset s + 8 <= p /\
               p + bytes <= static_buffer + static_offset s2 /\
               bytes + 8 <= static_offset s2 - static_offset s /\
               forall m,
                 (forall a, p - 8 <= a < p -> m a = memory s2 a) ->
                 mspace_usable_size p (mkState m (static_offset s2) (output s2)) = bytes))).
  { intros bytes p s2 Hb Hm. rewrite (malloc_spec bytes s Hs Hb) in Hm.
    destruct (Z.leb_spec (static_offset s + 8 + bytes) BUFFER_SIZE) as [Hfit|Hno];
      injection Hm as <- <-; unfold within; cbn [static_offset memory output];
      rewrite BUFFER_SIZE_value in *.
    - split; [lia|]. split; [lia|]. split.
      + intros a Ha. apply store_size_t_frame. lia.
      + right. unfold NULL. split; [lia|]. split; [lia|]. split; [lia|]. split; [lia|].
        intros m Hm.
        apply (usable_size_header _ bytes
                 (mkState (memory s) (static_offset s + 8 + bytes) (output s)));
          [lia|lia|].
        intros a Ha. rewrite (Hm a Ha). cbn [memory].
        replace (static_buffer + static_offset s + 8 - 8)
          with (static_buffer + static_offset s) by lia.
        reflexivity.
    - split; [lia|]. split; [lia|]. split; [reflexivity|]. left. split; reflexivity. }
  destruct c as [bytes|n_elements elem_size|oldmem bytes|alignment bytes|mem];
    cbn [call modest requested] in *.
  - (* mspace_malloc *)
    destruct (mspace_malloc static_buffer 1 bytes s) as [p s2] eqn:Hm.
    injection H as <- <-.
    destruct (Hmalloc bytes p s2 Hc Hm) as (Hw & Hle & Hframe & Hres).
    split; [exact Hw|]. split; [exact Hle|]. split; [exact Hframe|].
    destruct Hres as [Hnull | (Hp & Hlo & Hhi & Hsum & Hsize)]; [left; exact Hnull|].
    right. repeat split; try assumption; try lia.
    intros m Hm'. apply Hsize. intros a Ha. apply Hm'. lia.
  - (* mspace_calloc *)
    destruct Hc as (Hn & He & Hprod).
    assert (Htotal : wrap_uint64 (n_elements * elem_size) = n_elements * elem_size).
    { apply wrap_uint64_small. unfold G_MAXUINT64. nia. }
    unfold mspace_calloc in H. rewrite Htotal in *.
    destruct (mspace_malloc static_buffer 1 (n_elements * elem_size) s) as [p s2] eqn:Hm.
    assert (Hrange : 0 <= n_elements * elem_size < 2 ^ 62) by (split; [nia|lia]).
    destruct (Hmalloc _ p s2 Hrange Hm) as (Hw & Hle & Hframe & Hres).
    destruct (Z.eqb_spec p NULL) as [Hp|Hp]; injection H as <- <-.
    + split; [exact Hw|]. split; [exact Hle|]. split; [exact Hframe|].
      destruct Hres as [Hnull | (Hp' & _)]; [left; exact Hnull|contradiction].
    + destruct Hres as [[Hnull _] | (_ & Hlo & Hhi & Hsum & Hsize)]; [contradiction|].
      unfold within. cbn [static_offset memory output].
      split; [exact Hw|]. split; [exact Hle|]. split.
      * intros a Ha. unfold memset.
        destruct (Z.leb_spec p a); [lia|]. cbn [andb]. apply Hframe. exact Ha.
      * right. split; [exact Hp|]. split; [exact Hlo|]. split; [nia|].
        split; [exact Hhi|]. split; [exact Hsum|].
        intros m Hm'. apply Hsize. intros a Ha. rewrite Hm' by lia.
        unfold memset. destruct (Z.leb_spec p a); [lia|]. reflexivity.
  - (* mspace_realloc *)
    unfold mspace_realloc in H.
    destruct (Z.eqb_spec oldmem NULL) as [Hold|Hold].
    + destruct (mspace_malloc static_buffer 1 bytes s) as [p s2] eqn:Hm.
      injection H as <- <-.
      destruct (Hmalloc bytes p s2 Hc Hm) as (Hw & Hle & Hframe & Hres).
      split; [exact Hw|]. split; [exact Hle|]. split; [exact Hframe|].
      destruct Hres as [Hnull | (Hp & Hlo & Hhi & Hsum & Hsize)]; [left; exact Hnull|].
      right. repeat split; try assumption; try lia.
      intros m Hm'. apply Hsize. intros a Ha. apply Hm'. lia.
    + destruct (mspace_malloc static_buffer 1 bytes s) as [p s2] eqn:Hm.
      destruct (Hmalloc bytes p s2 Hc Hm) as (Hw & Hle & Hframe & Hres).
      destruct (Z.eqb_spec p NULL) as [Hp|Hp]; injection H as <- <-.
      * split; [exact Hw|]. split; [exact Hle|]. split; [exact Hframe|].
        destruct Hres as [Hnull | (Hp' & _)]; [left; exact Hnull|contradiction].
      * destruct Hres as [[Hnull _] | (_ & Hlo & Hhi & Hsum & Hsize)]; [contradiction|].
        unfold within. cbn [static_offset memory output].
        split; [exact Hw|]. split; [exact Hle|]. split.
        -- intros a Ha. unfold memcpy.
           destruct (Z.leb_spec p a); [lia|]. cbn [andb]. apply Hframe. exact Ha.
        -- right. split; [exact Hp|]. split; [exact Hlo|]. split; [lia|].
           split; [exact Hhi|]. split; [exact Hsum|].
           intros m Hm'. apply Hsize. intros a Ha. rewrite Hm' by lia.
           unfold memcpy. destruct (Z.leb_spec p a); [lia|]. reflexivity.
  - (* mspace_memalign *)
    destruct Hc as ((k & Hk & ->) & Hb).
    assert (Hpow : 0 < 2 ^ k <= 2 ^ 32).
    { split; [apply Z.pow_pos_nonneg; lia|apply Z.pow_le_mono_r; lia]. }
    destruct (mspace_memalign static_buffer 1 (2 ^ k) bytes s) as [p s2] eqn:Hm.
    injection H as <- <-.
    rewrite (memalign_spec k bytes s Hs Hk Hb) in Hm. cbv zeta in Hm.
    pose proof (round_up_bounds (static_buffer + static_offset s + 8 + 2 ^ k - 1) (2 ^ k)
                  ltac:(lia)) as [Hr _].
    remember (static_buffer + static_offset s + 8 + 2 ^ k - 1
              - (static_buffer + static_offset s + 8 + 2 ^ k - 1) mod 2 ^ k) as aligned.
    destruct (Z.leb_spec (aligned + bytes + 8 - static_buffer) BUFFER_SIZE) as [Hfit|Hno];
      injection Hm as <- <-; unfold within; cbn [static_offset memory output];
      rewrite BUFFER_SIZE_value in *.
    + split; [lia|]. split; [lia|]. split.
      * intros a Ha. apply store_size_t_frame. lia.
      * right. unfold NULL. split; [lia|]. split; [lia|]. split; [lia|]. split; [lia|].
        split; [lia|].
        intros m Hm.
        apply (usable_size_header _ bytes
                 (mkState (memory s) (aligned + bytes + 8 - static_buffer) (output s)));
          [lia|lia|].
        intros a Ha. rewrite (Hm a) by lia. reflexivity.
    + split; [lia|]. split; [lia|]. split; [reflexivity|]. left. split; reflexivity.
  - (* mspace_free *)
    injection H as <- <-. unfold mspace_free.
    split; [exact Hs|]. split; [lia|]. split; reflexivity.
Qed.

(** X18.  Whatever calls are made, in whatever order, with sizes below
    2^62 and alignments that are powers of two: the blocks handed out lie
    in the buffer, one above the other with room for a header between
    them, so that no two overlap and no block covers the header of
    another; [mspace_usable_size] still gives each block the size that
    was asked for; memory below the offset the run began at is untouched.
    The offset never moves back, [mspace_free] gives nothing back, and the
    sizes of all blocks handed out plus eight bytes each come to no more
    than the offset has moved, so to no more than 128 MiB. *)
Theorem blocks_apart (calls : list Call) (s s' : State) (blocks : list (Z * Z)) :
  within s -> Forall modest calls ->
  run static_buffer calls s = (blocks, s') ->
  within s' /\
  static_offset s <= static_offset s' /\
  ForallOrdPairs (fun b1 b2 => fst b1 + snd b1 + 8 <= fst b2) blocks /\
  Forall (fun b =>
            static_buffer + static_offset s + 8 <= fst b /\
            0 <= snd b /\
            fst b + snd b <= static_buffer + static_offset s' /\
            mspace_usable_size (fst b) s' = snd b) blocks /\
  footprint blocks <= static_offset s' - static_offset s /\
  (forall a, a < static_buffer + static_offset s -> memory s' a = memory s a).
Proof.
  intros Hs Hcalls. revert s s' blocks Hs.
  induction Hcalls as [|c rest Hc Hrest IH]; intros s s' blocks Hs Hrun.
  - cbn [run] in Hrun. injection Hrun as <- <-.
    split; [exact Hs|]. split; [lia|]. split; [constructor|]. split; [constructor|].
    split; [cbn; lia|reflexivity].
  - cbn [run] in Hrun.
    destruct (call static_buffer c s) as [result s1] eqn:Hcall.
    destruct (run static_buffer rest s1) as [blocks1 s2] eqn:Hrun1.
    injection Hrun as <- <-.
    destruct (call_step c s s1 result Hs Hc Hcall) as (Hw1 & Hle1 & Hframe1 & Hres).
    destruct (IH s1 s2 blocks1 Hw1 Hrun1) as (Hw2 & Hle2 & Hord & Hall & Hfoot & Hframe2).
    assert (Hweaken :
              Forall (fun b =>
                        static_buffer + static_offset s + 8 <= fst b /\
                        0 <= snd b /\
                        fst b + snd b <= static_buffer + static_offset s2 /\
                        mspace_usable_size (fst b) s2 = snd b) blocks1).
    { eapply List.Forall_impl; [|exact Hall]. cbv beta. intros b (H1 & H2 & H3 & H4).
      repeat split; try assumption. lia. }
    assert (Hframe : forall a, a < static_buffer + static_offset s ->
                               memory s2 a = memory s a).
    { intros a Ha. rewrite Hframe2 by lia. apply Hframe1. exact Ha. }
    assert (Hskip : within s2 /\
                    static_offset s <= static_offset s2 /\
                    ForallOrdPairs (fun b1 b2 => fst b1 + snd b1 + 8 <= fst b2) blocks1 /\
                    Forall (fun b =>
                              static_buffer + static_offset s + 8 <= fst b /\
                              0 <= snd b /\
                              fst b + snd b <= static_buffer + static_offset s2 /\
                              mspace_usable_size (fst b) s2 = snd b) blocks1 /\
                    footprint blocks1 <= static_offset s2 - static_offset s /\
                    (forall a, a < static_buffer + static_offset s ->
                               memory s2 a = memory s a)).
    { split; [exact Hw2|]. split; [lia|]. split; [exact Hord|]. split; [exact Hweaken|].
      split; [lia|exact Hframe]. }
    destruct result as [p|]; [|exact Hskip].
    destruct (Z.eqb_spec p NULL) as [Hp|Hp]; [exact Hskip|].
    destruct Hres as [[Hnull _] | (_ & Hlo & Hreq & Hhi & Hsum & Hsize)]; [contradiction|].
    split; [exact Hw2|]. split; [lia|]. split; [|split; [|split]].
    + constructor; [|exact Hord].
      eapply List.Forall_impl; [|exact Hall]. cbv beta. cbn [fst snd].
      intros b (H1 & _). lia.
    + constructor; [|exact Hweaken]. cbn [fst snd].
      split; [exact Hlo|]. split; [exact Hreq|]. split; [lia|].
      rewrite <- (Hsize (memory s2)).
      * unfold mspace_usable_size. reflexivity.
      * intros a Ha. apply Hframe2. lia.
    + cbn [footprint fold_right snd]. fold (footprint blocks1). unfold sizeof_size_t. lia.
    + exact Hframe.
Qed.


(** X19.  [mspace_realloc] of a block never extends it and never gives
    it back.  When the new size fits, the new block is a fresh one above
    the old offset, its first bytes are those of the old block, as many as
    the smaller of the two sizes, and the old block and its header are as
    they were: the offset has grown by the whole new block.  When it does
    not fit, NULL is returned and the old block is as it was. *)
Theorem realloc_copies (oldmem bytes : Z) (s : State) :
  within s -> 0 <= bytes < 2 ^ 62 ->
  8 <= oldmem ->
  0 <= mspace_usable_size oldmem s ->
  oldmem + mspace_usable_size oldmem s <= static_buffer + static_offset s ->
  let old_size := mspace_usable_size oldmem s in
  let '(newmem, s') := mspace_realloc static_buffer 1 oldmem bytes s in
  (forall a, a < static_buffer + static_offset s -> memory s' a = memory s a) /\
  mspace_usable_size oldmem s' = old_size /\
  if static_offset s + 8 + bytes <=? BUFFER_SIZE then
    newmem = static_buffer + static_offset s + 8 /\
    oldmem + old_size + 8 <= newmem /\
    static_offset s' = static_offset s + 8 + bytes /\
    mspace_usable_size newmem s' = bytes /\
    (forall i, 0 <= i < Z.min old_size bytes ->
               memory s' (newmem + i) = memory s (oldmem + i))
  else
    newmem = NULL /\ static_offset s' = static_offset s /\ memory s' = memory s.
Proof.
  intros Hs Hb Hold Hsize Hblock old_size.
  pose proof Hs as Hs'. unfold within in Hs'. rewrite BUFFER_SIZE_value in Hs'.
  assert (Hkeep : forall m,
             (forall a, a < static_buffer + static_offset s -> m a = memory s a) ->
             forall off out, mspace_usable_size oldmem (mkState m off out) = old_size).
  { intros m Hm off out. unfold old_size, mspace_usable_size, NULL, sizeof_size_t.
    destruct (Z.eqb_spec oldmem 0); [lia|]. cbn [memory].
    rewrite wrap_uint64_small by (unfold G_MAXUINT64; lia).
    apply load_size_t_ext. intros a Ha. apply Hm. lia. }
  unfold mspace_realloc. unfold NULL at 1.
  destruct (Z.eqb_spec oldmem 0); [lia|].
  rewrite (malloc_spec bytes s Hs Hb). fold old_size.
  destruct (Z.leb_spec (static_offset s + 8 + bytes) BUFFER_SIZE) as [Hfit|Hno].
  - unfold NULL. destruct (Z.eqb_spec (static_buffer + static_offset s + 8) 0); [lia|].
    cbn [memory static_offset output].
    assert (Hframe : forall a, a < static_buffer + static_offset s ->
               memcpy (store_size_t (memory s) (static_buffer + static_offset s) bytes)
                 (static_buffer + static_offset s + 8) oldmem
                 (if old_size <? bytes then old_size else bytes) a = memory s a).
    { intros a Ha. unfold memcpy.
      destruct (Z.leb_spec (static_buffer + static_offset s + 8) a); [lia|]. cbn [andb].
      apply store_size_t_frame. lia. }
    split; [exact Hframe|]. split; [apply Hkeep; exact Hframe|].
    split; [reflexivity|]. split; [fold old_size in Hblock; lia|]. split; [reflexivity|].
    split.
    + apply (usable_size_header _ bytes
               (mkState (memory s) (static_offset s + 8 + bytes) (output s)));
        [lia|lia|].
      intros a Ha. cbn [memory]. unfold memcpy.
      destruct (Z.leb_spec (static_buffer + static_offset s + 8) a); [lia|]. cbn [andb].
      replace (static_buffer + static_offset s + 8 - 8)
        with (static_buffer + static_offset s) by lia.
      reflexivity.
    + intros i Hi. unfold memcpy.
      assert (Hmin : (if old_size <? bytes then old_size else bytes) = Z.min old_size bytes).
      { destruct (Z.ltb_spec old_size bytes); lia. }
      rewrite Hmin.
      destruct (Z.leb_spec (static_buffer + static_offset s + 8)
                  (static_buffer + static_offset s + 8 + i)); [|lia].
      destruct (Z.ltb_spec (static_buffer + static_offset s + 8 + i)
                  (static_buffer + static_offset s + 8 + Z.min old_size bytes)); [|lia].
      cbn [andb].
      replace (oldmem + (static_buffer + static_offset s + 8 + i
                         - (static_buffer + static_offset s + 8))) with (oldmem + i) by lia.
      apply store_size_t_frame. fold old_size in Hblock. lia.
  - unfold NULL. cbn [Z.eqb memory static_offset output].
    split; [reflexivity|]. split; [apply Hkeep; reflexivity|]. repeat split.
Qed.

(** X20.  [mspace_calloc] asks [mspace_malloc] for the product of its two
    arguments modulo 2^64 and fills that many bytes with zero.  The
    product is not checked: when it is 2^64 or more the block granted is
    smaller than the elements asked for, and no error is reported. *)
Theorem calloc_zeroes (n_elements elem_size : Z) (s : State) :
  within s ->
  let total := (n_elements * elem_size) mod 2 ^ 64 in
  total < 2 ^ 62 ->
  static_offset s + 8 + total <= BUFFER_SIZE ->
  let '(p, s') := mspace_calloc static_buffer 1 n_elements elem_size s in
  p = static_buffer + static_offset s + 8 /\
  p <> NULL /\
  mspace_usable_size p s' = total /\
  static_offset s' = static_offset s + 8 + total /\
  (forall a, p <= a < p + total -> memory s' a = 0) /\
  (forall a, a < p - 8 \/ p + total <= a -> memory s' a = memory s a) /\
  output s' = output s /\
  (2 ^ 64 <= n_elements * elem_size -> total < n_elements * elem_size).
Proof.
  intros Hs total Htotal Hfit.
  pose proof Hs as Hs'. unfold within in Hs'. rewrite BUFFER_SIZE_value in *.
  pose proof (Z.mod_pos_bound (n_elements * elem_size) (2 ^ 64) ltac:(lia)) as Hmod.
  fold total in Hmod.
  unfold mspace_calloc, wrap_uint64. fold total.
  rewrite (malloc_spec total s Hs ltac:(lia)). rewrite BUFFER_SIZE_value.
  destruct (Z.leb_spec (static_offset s + 8 + total) 134217728); [|lia].
  unfold NULL. destruct (Z.eqb_spec (static_buffer + static_offset s + 8) 0); [lia|].
  cbn [memory static_offset output].
  split; [reflexivity|]. split; [lia|]. split; [|split; [reflexivity|split; [|split; [|split]]]].
  - apply (usable_size_header _ total
             (mkState (memory s) (static_offset s + 8 + total) (output s))); [lia|lia|].
    intros a Ha. cbn [memory]. unfold memset.
    destruct (Z.leb_spec (static_buffer + static_offset s + 8) a); [lia|]. cbn [andb].
    replace (static_buffer + static_offset s + 8 - 8)
      with (static_buffer + static_offset s) by lia.
    reflexivity.
  - intros a Ha. unfold memset.
    destruct (Z.leb_spec (static_buffer + static_offset s + 8) a); [|lia].
    destruct (Z.ltb_spec a (static_buffer + static_offset s + 8 + total)); [|lia].
    reflexivity.
  - intros a Ha. unfold memset.
    destruct (Z.leb_spec (static_buffer + static_offset s + 8) a);
      destruct (Z.ltb_spec a (static_buffer + static_offset s + 8 + total));
      cbn [andb]; try lia; apply store_size_t_frame; lia.
  - reflexivity.
  - intros Hover. lia.
Qed.

(** X21.  [mspace_memalign], for a power of two up to 2^32 and a size
    below 2^62 that fits, returns the first multiple of the alignment at
    or above the offset and eight bytes, and takes eight bytes more after
    the block than [mspace_malloc] would.  [mspace_malloc] does not align
    at all: its block starts eight bytes above the end of the block
    before, wherever that is. *)
Theorem memalign_aligns (k bytes : Z) (s : State) :
  within s -> 0 <= k <= 32 -> 0 <= bytes < 2 ^ 62 ->
  let '(p, s') := mspace_memalign static_buffer 1 (2 ^ k) bytes s in
  (p <> NULL ->
   p mod 2 ^ k = 0 /\
   static_buffer + static_offset s + 8 <= p < static_buffer + static_offset s + 8 + 2 ^ k /\
   static_offset s' = p + bytes + 8 - static_buffer /\
   within s' /\
   mspace_usable_size p s' = bytes) /\
  (p = NULL -> static_offset s' = static_offset s /\ memory s' = memory s) /\
  forall bytes',
    0 <= bytes' < 2 ^ 62 -> p <> NULL ->
    static_offset s' + 8 + bytes' <= BUFFER_SIZE ->
    fst (mspace_malloc static_buffer 1 bytes' s') = p + bytes + 16.
Proof.
  intros Hs Hk Hb.
  pose proof Hs as Hs'. unfold within in Hs'. rewrite BUFFER_SIZE_value in *.
  assert (Hpow : 0 < 2 ^ k <= 2 ^ 32).
  { split; [apply Z.pow_pos_nonneg; lia|apply Z.pow_le_mono_r; lia]. }
  rewrite (memalign_spec k bytes s Hs Hk Hb). cbv zeta.
  pose proof (round_up_bounds (static_buffer + static_offset s + 8 + 2 ^ k - 1) (2 ^ k)
                ltac:(lia)) as [Hr Hmod].
  remember (static_buffer + static_offset s + 8 + 2 ^ k - 1
            - (static_buffer + static_offset s + 8 + 2 ^ k - 1) mod 2 ^ k) as aligned.
  rewrite BUFFER_SIZE_value.
  destruct (Z.leb_spec (aligned + bytes + 8 - static_buffer) 134217728) as [Hfit|Hno].
  - cbn [static_offset memory output]. split; [|split].
    + intros _. split; [exact Hmod|]. split; [lia|]. split; [reflexivity|].
      split; [unfold within; cbn [static_offset]; rewrite BUFFER_SIZE_value; lia|].
      apply (usable_size_header _ bytes
               (mkState (memory s) (aligned + bytes + 8 - static_buffer) (output s)));
        [lia|lia|].
      intros a Ha. reflexivity.
    + unfold NULL. lia.
    + intros bytes' Hb' _ Hfit'.
      rewrite malloc_spec;
        [|unfold within; cbn [static_offset]; rewrite BUFFER_SIZE_value; lia|exact Hb'].
      cbn [static_offset]. rewrite BUFFER_SIZE_value.
      destruct (Z.leb_spec (aligned + bytes + 8 - static_buffer + 8 + bytes') 134217728);
        [|lia].
      cbn [fst]. lia.
  - cbn [static_offset memory output]. split; [|split].
    + intros H. contradiction H. reflexivity.
    + intros _. split; reflexivity.
    + intros bytes' _ H. contradiction H. reflexivity.
Qed.

(** X22.  The buffer is one for all: [create_mspace] sets the offset back
    to zero whatever has been handed out, so that the first block of the
    new space is the first block of the old one over again, with its
    header overwritten; [destroy_mspace] returns the offset, which is what
    the blocks handed out and their headers have taken, and sets it back
    as well; and [mspace_mallinfo] reports the offset as used and the rest
    of the 128 MiB as free. *)
Theorem mspaces_share_buffer (capacity locked bytes bytes' : Z) (s : State) :
  within s -> 0 <= bytes < 2 ^ 62 -> 0 <= bytes' < 2 ^ 62 ->
  8 + bytes <= BUFFER_SIZE -> 8 + bytes' <= BUFFER_SIZE ->
  let '(msp1, s1) := create_mspace capacity locked s in
  let '(p1, s2) := mspace_malloc static_buffer msp1 bytes s1 in
  let '(msp2, s3) := create_mspace capacity locked s2 in
  let '(p2, s4) := mspace_malloc static_buffer msp2 bytes' s3 in
  msp1 = msp2 /\
  p1 = static_buffer + 8 /\ p2 = p1 /\
  mspace_usable_size p1 s2 = bytes /\
  mspace_usable_size p1 s4 = bytes' /\
  fst (destroy_mspace msp1 s2) = bytes + 8 /\
  static_offset (snd (destroy_mspace msp1 s2)) = 0 /\
  uordblks (mspace_mallinfo msp1 s2) = bytes + 8 /\
  uordblks (mspace_mallinfo msp1 s2) + fordblks (mspace_mallinfo msp1 s2) = BUFFER_SIZE.
Proof.
  intros Hs Hb Hb' Hfit Hfit'. rewrite BUFFER_SIZE_value in *.
  cbn [create_mspace].
  assert (Hzero : forall m out, within (mkState m 0 out)).
  { intros m out. unfold within. cbn [static_offset]. rewrite BUFFER_SIZE_value. lia. }
  rewrite (malloc_spec bytes _ (Hzero _ _) Hb). cbn [static_offset memory output].
  rewrite BUFFER_SIZE_value.
  destruct (Z.leb_spec (0 + 8 + bytes) 134217728); [|lia].
  cbn [static_offset memory output].
  rewrite (malloc_spec bytes' _ (Hzero _ _) Hb'). cbn [static_offset memory output].
  rewrite BUFFER_SIZE_value.
  destruct (Z.leb_spec (0 + 8 + bytes') 134217728); [|lia].
  split; [reflexivity|]. split; [lia|]. split; [reflexivity|].
  split; [|split; [|split; [|split; [|split]]]].
  - apply (usable_size_header _ bytes (mkState (memory s) (0 + 8 + bytes) (output s)));
      [lia|lia|].
    intros a Ha. cbn [memory]. replace (static_buffer + 0 + 8 - 8) with (static_buffer + 0) by lia.
    reflexivity.
  - apply (usable_size_header _ bytes'
             (mkState (store_size_t (memory s) (static_buffer + 0) bytes)
                (0 + 8 + bytes') (output s))); [lia|lia|].
    intros a Ha. cbn [memory]. replace (static_buffer + 0 + 8 - 8) with (static_buffer + 0) by lia.
    reflexivity.
  - cbn [destroy_mspace fst static_offset]. lia.
  - reflexivity.
  - cbn [mspace_mallinfo uordblks static_offset]. unfold wrap_int.
    rewrite Z.mod_small by lia. lia.
  - cbn [mspace_mallinfo uordblks fordblks static_offset]. rewrite BUFFER_SIZE_value.
    unfold wrap_int. rewrite wrap_uint64_small by (unfold G_MAXUINT64; lia).
    rewrite !Z.mod_small by lia. lia.
Qed.


End Placed.

Ltac by_computation := vm_compute; repeat split; try discriminate.

(** X16 at a request of 100 bytes in an empty buffer at [0x10000], and at
    one of 128 MiB. *)
Lemma malloc_layout_witness :
  (let '(p, s') := mspace_malloc 65536 1 100 (mkState (fun _ => 0) 0 []) in
   p = 65536 + 0 + 8 /\ p <> NULL /\ static_offset s' = 0 + 8 + 100 /\ within s' /\
   mspace_usable_size p s' = 100 /\
   (forall a, a < p - 8 \/ p <= a -> memory s' a = 0) /\
   output s' = []) /\
  (let '(p, s') := mspace_malloc 65536 1 BUFFER_SIZE (mkState (fun _ => 0) 0 []) in
   p = NULL /\ static_offset s' = 0 /\ memory s' = (fun _ => 0) /\
   output s' = [] ++ ["OOM"%string]).
Proof.
  split.
  - apply (malloc_layout 65536 ltac:(by_computation) 100 (mkState (fun _ => 0) 0 []));
      [by_computation | by_computation].
  - apply (malloc_layout 65536 ltac:(by_computation) BUFFER_SIZE (mkState (fun _ => 0) 0 []));
      [by_computation | by_computation].
Defined.


(** X18 at three calls in an empty buffer: a block of 100 bytes, freed,
    and a block of 50 bytes. *)
Lemma blocks_apart_witness :
  ForallOrdPairs (fun b1 b2 => fst b1 + snd b1 + 8 <= fst b2)
    [(65544, 100); (65652, 50)] /\
  footprint [(65544, 100); (65652, 50)] <= 166 - 0.
Proof.
  destruct (blocks_apart 65536 ltac:(by_computation) [Malloc 100; Free 65544; Malloc 50]
              (mkState (fun _ => 0) 0 [])
              (snd (run 65536 [Malloc 100; Free 65544; Malloc 50]
                      (mkState (fun _ => 0) 0 [])))
              [(65544, 100); (65652, 50)])
    as (_ & _ & Hord & _ & Hfoot & _).
  - by_computation.
  - repeat constructor; by_computation.
  - reflexivity.
  - split; [exact Hord|exact Hfoot].
Defined.

(** X19 at a block of 4 bytes grown to 16. *)
Lemma realloc_copies_witness :
  let s := snd (mspace_malloc 65536 1 4 (mkState (fun a => a mod 7) 0 [])) in
  let '(newmem, s') := mspace_realloc 65536 1 65544 16 s in
  (forall a, a < 65536 + 12 -> memory s' a = memory s a) /\
  mspace_usable_size 65544 s' = 4.
Proof.
  intros s.
  pose proof (realloc_copies 65536 ltac:(by_computation) 65544 16 s) as H.
  destruct (mspace_realloc 65536 1 65544 16 s) as [newmem s'].
  destruct H as (Hframe & Hsize & _).
  - by_computation.
  - by_computation.
  - by_computation.
  - by_computation.
  - by_computation.
  - split; [exact Hframe|exact Hsize].
Defined.

(** X20 at 2^32 elements of 2^32 bytes: the block has no byte at all. *)
Lemma calloc_zeroes_witness :
  let '(p, s') := mspace_calloc 65536 1 (2 ^ 32) (2 ^ 32) (mkState (fun _ => 0) 0 []) in
  p = 65536 + 0 + 8 /\ p <> NULL /\ mspace_usable_size p s' = 0.
Proof.
  pose proof (calloc_zeroes 65536 ltac:(by_computation) (2 ^ 32) (2 ^ 32) (mkState (fun _ => 0) 0 []))
    as H.
  cbv zeta in H.
  destruct (mspace_calloc 65536 1 (2 ^ 32) (2 ^ 32) (mkState (fun _ => 0) 0 [])) as [p s'].
  destruct H as (Hp & Hnull & Hsize & _).
  - by_computation.
  - by_computation.
  - by_computation.
  - split; [exact Hp|]. split; [exact Hnull|exact Hsize].
Defined.

(** X21 at an alignment of 64 and a size of 10, the offset being 3. *)
Lemma memalign_aligns_witness :
  let '(p, s') := mspace_memalign 65536 1 (2 ^ 6) 10 (mkState (fun _ => 0) 3 []) in
  p mod 2 ^ 6 = 0 /\
  65536 + 3 + 8 <= p < 65536 + 3 + 8 + 2 ^ 6 /\
  static_offset s' = p + 10 + 8 - 65536 /\
  within s' /\
  mspace_usable_size p s' = 10.
Proof.
  pose proof (memalign_aligns 65536 ltac:(by_computation) 6 10 (mkState (fun _ => 0) 3 []))
    as H.
  destruct (mspace_memalign 65536 1 (2 ^ 6) 10 (mkState (fun _ => 0) 3 [])) as [p s']
    eqn:E.
  destruct H as (Haligned & _).
  - by_computation.
  - by_computation.
  - by_computation.
  - apply Haligned. apply (f_equal fst) in E. vm_compute in E. subst p. discriminate.
Defined.

(** X22 at two spaces, the first asked for 100 bytes and the second for
    50. *)
Lemma mspaces_share_buffer_witness :
  let '(msp1, s1) := create_mspace 0 0 (mkState (fun _ => 0) 0 []) in
  let '(p1, s2) := mspace_malloc 65536 msp1 100 s1 in
  let '(msp2, s3) := create_mspace 0 0 s2 in
  let '(p2, s4) := mspace_malloc 65536 msp2 50 s3 in
  msp1 = msp2 /\
  p1 = 65536 + 8 /\ p2 = p1 /\
  mspace_usable_size p1 s2 = 100 /\
  mspace_usable_size p1 s4 = 50 /\
  fst (destroy_mspace msp1 s2) = 100 + 8 /\
  static_offset (snd (destroy_mspace msp1 s2)) = 0 /\
  uordblks (mspace_mallinfo msp1 s2) = 100 + 8 /\
  uordblks (mspace_mallinfo msp1 s2) + fordblks (mspace_mallinfo msp1 s2) = BUFFER_SIZE.
Proof.
  apply (mspaces_share_buffer 65536 ltac:(by_computation) 0 0 100 50 (mkState (fun _ => 0) 0 []));
    [by_computation | by_computation | by_computation | by_computation | by_computation].
Defined.

End dlmalloc_facts.


(** * The guard-page allocator *)

Module part_002_facts.

Import part_002.

Lemma lookup_map_pages (first : Z) (count : nat) (prot : Z) (m : gmap Z Z) (i : Z) :
  map_pages first count prot m !! i
  = if (first <=? i) && (i <? first + Z.of_nat count) then Some prot else m !! i.
Proof.
  revert first. induction count as [|count IH]; intros first; cbn [map_pages].
  - destruct (Z.leb_spec first i); destruct (Z.ltb_spec i (first + Z.of_nat 0));
      cbn [andb]; try reflexivity; lia.
  - destruct (Z.eq_dec first i) as [->|Hne].
    + rewrite lookup_insert_eq.
      destruct (Z.leb_spec i i); destruct (Z.ltb_spec i (i + Z.of_nat (S count)));
        cbn [andb]; try reflexivity; lia.
    + rewrite lookup_insert_ne by exact Hne. rewrite IH.
      destruct (Z.leb_spec (first + 1) i); destruct (Z.leb_spec first i);
        destruct (Z.ltb_spec i (first + 1 + Z.of_nat count));
        destruct (Z.ltb_spec i (first + Z.of_nat (S count)));
        cbn [andb]; try reflexivity; lia.
Qed.

Lemma lookup_protect_pages (first : Z) (count : nat) (prot : Z) (m : gmap Z Z) (i : Z) :
  protect_pages first count prot m !! i
  = if (first <=? i) && (i <? first + Z.of_nat count)
    then match m !! i with Some _ => Some prot | None => None end
    else m !! i.
Proof.
  revert first. induction count as [|count IH]; intros first; cbn [protect_pages].
  - destruct (Z.leb_spec first i); destruct (Z.ltb_spec i (first + Z.of_nat 0));
      cbn [andb]; try reflexivity; lia.
  - destruct (Z.eq_dec first i) as [->|Hne].
    + rewrite lookup_alter_eq, IH.
      destruct (Z.leb_spec (i + 1) i); [lia|]. cbn [andb].
      destruct (Z.leb_spec i i); destruct (Z.ltb_spec i (i + Z.of_nat (S count)));
        cbn [andb]; try lia.
      destruct (m !! i); reflexivity.
    + rewrite lookup_alter_ne by exact Hne. rewrite IH.
      destruct (Z.leb_spec (first + 1) i); destruct (Z.leb_spec first i);
        destruct (Z.ltb_spec i (first + 1 + Z.of_nat count));
        destruct (Z.ltb_spec i (first + Z.of_nat (S count)));
        cbn [andb]; try reflexivity; lia.
Qed.

Lemma pages_allow_true (bit first : Z) (count : nat) (m : gmap Z Z) :
  pages_allow bit first count m = true <->
  forall i, first <= i < first + Z.of_nat count ->
            exists prot, m !! i = Some prot /\ Z.land prot bit <> 0.
Proof.
  revert first. induction count as [|count IH]; intros first; cbn [pages_allow].
  - split; [intros _ i Hi; lia|reflexivity].
  - split.
    + intros H i Hi.
      destruct (m !! first) as [prot|] eqn:Hfirst; [|discriminate].
      apply andb_prop in H as [Hbit Hrest].
      destruct (Z.eq_dec i first) as [->|Hne].
      * exists prot. split; [exact Hfirst|].
        destruct (Z.eqb_spec (Z.land prot bit) 0); [discriminate|assumption].
      * apply (proj1 (IH (first + 1)) Hrest). lia.
    + intros H.
      destruct (H first ltac:(lia)) as (prot & -> & Hbit).
      apply andb_true_intro. split.
      * destruct (Z.eqb_spec (Z.land prot bit) 0); [contradiction|reflexivity].
      * apply IH. intros i Hi. apply H. lia.
Qed.

(** The pages the [n] bytes at [p] lie on are the pages of its
    addresses. *)
Lemma page_count_covers (p n i : Z) :
  0 <= p -> 0 < n ->
  first_page p <= i < first_page p + Z.of_nat (page_count p n) <->
  exists a, p <= a < p + n /\ first_page a = i.
Proof.
  intros Hp Hn. unfold page_count, first_page, PAGE_SIZE.
  destruct (Z.leb_spec n 0); [lia|].
  assert (Hmono : p / 4096 <= (p + n - 1) / 4096) by (apply Z.div_le_mono; lia).
  rewrite Z2Nat.id by lia.
  split.
  - intros Hi. exists (Z.max p (i * 4096)). split.
    + assert (i * 4096 <= p + n - 1).
      { pose proof (Z.mul_div_le (p + n - 1) 4096 ltac:(lia)). nia. }
      lia.
    + destruct (Z.max_spec p (i * 4096)) as [[Hlt ->] | [Hge ->]].
      * apply Z.div_mul. lia.
      * assert (i <= p / 4096) by (apply Z.div_le_lower_bound; lia). lia.
  - intros (a & Ha & <-). split.
    + apply Z.div_le_mono; lia.
    + assert (a / 4096 <= (p + n - 1) / 4096) by (apply Z.div_le_mono; lia). lia.
Qed.

Lemma accessible_true (bit p n : Z) (s : State) :
  0 <= p ->
  (forall a, p <= a < p + n ->
             exists prot, protection a s = Some prot /\ Z.land prot bit <> 0) ->
  accessible bit p n s = true.
Proof.
  intros Hp H. unfold accessible.
  destruct (Z.leb_spec n 0) as [Hn|Hn].
  - unfold page_count. destruct (Z.leb_spec n 0); [reflexivity|lia].
  - apply pages_allow_true. intros i Hi.
    apply (page_count_covers p n i Hp Hn) in Hi as (a & Ha & <-).
    apply H. exact Ha.
Qed.

Lemma accessible_false (bit p n a : Z) (s : State) :
  0 <= p -> p <= a < p + n ->
  (forall prot, protection a s = Some prot -> Z.land prot bit = 0) ->
  accessible bit p n s = false.
Proof.
  intros Hp Ha H. unfold accessible.
  destruct (pages_allow bit (first_page p) (page_count p n) (pages s)) eqn:E;
    [|reflexivity].
  exfalso.
  destruct (proj1 (pages_allow_true _ _ _ _) E (first_page a)) as (prot & Hprot & Hbit).
  - apply (page_count_covers p n (first_page a) Hp ltac:(lia)). exists a.
    split; [exact Ha|reflexivity].
  - apply Hbit, H. exact Hprot.
Qed.

(** The sizes, for a power of two up to the page size. *)
Lemma aligned_size_spec (k bytes : Z) :
  0 <= k <= 32 -> 0 <= bytes < 2 ^ 62 ->
  let y := bytes + 2 ^ k - 1 in
  aligned_size (2 ^ k) bytes = y - y mod 2 ^ k /\
  bytes <= aligned_size (2 ^ k) bytes < bytes + 2 ^ k /\
  aligned_size (2 ^ k) bytes mod 2 ^ k = 0.
Proof.
  intros Hk Hb y.
  assert (Hpow : 0 < 2 ^ k <= 2 ^ 32).
  { split; [apply Z.pow_pos_nonneg; lia|apply Z.pow_le_mono_r; lia]. }
  assert (Heq : aligned_size (2 ^ k) bytes = y - y mod 2 ^ k).
  { unfold aligned_size, mask. fold y.
    rewrite (wrap_uint64_small y) by (unfold G_MAXUINT64, y; lia).
    apply land_align_mask; unfold y; lia. }
  rewrite Heq. pose proof (round_up_bounds y (2 ^ k) ltac:(lia)) as [Hr Hm].
  split; [reflexivity|]. split; [unfold y in *; lia|exact Hm].
Qed.

Lemma total_size_spec (k bytes : Z) :
  0 <= k <= 32 -> 0 <= bytes < 2 ^ 62 ->
  let user_size := aligned_size (2 ^ k) bytes + 8 in
  let z := user_size + 4095 in
  total_size (2 ^ k) bytes = z - z mod 4096 + 8192 /\
  user_size + 8192 <= total_size (2 ^ k) bytes < user_size + 4096 + 8192 /\
  total_size (2 ^ k) bytes mod 4096 = 0.
Proof.
  intros Hk Hb user_size z.
  assert (Hpow : 0 < 2 ^ k <= 2 ^ 32).
  { split; [apply Z.pow_pos_nonneg; lia|apply Z.pow_le_mono_r; lia]. }
  destruct (aligned_size_spec k bytes Hk Hb) as (_ & Ha & _).
  assert (Heq : total_size (2 ^ k) bytes = z - z mod 4096 + 8192).
  { unfold total_size, mask, sizeof_size_t, PAGE_SIZE.
    rewrite (wrap_uint64_small (aligned_size (2 ^ k) bytes + 8))
      by (unfold G_MAXUINT64; lia).
    fold user_size.
    replace (user_size + 4096 - 1) with z by (unfold z; lia).
    rewrite (wrap_uint64_small z) by (unfold G_MAXUINT64, z, user_size; lia).
    change 4096 with (2 ^ 12) at 1.
    rewrite (land_align_mask z 12) by (unfold z, user_size; lia).
    change (2 ^ 12) with 4096.
    pose proof (Z.mod_pos_bound z 4096 ltac:(lia)).
    apply wrap_uint64_small. unfold G_MAXUINT64, z, user_size in *. lia. }
  rewrite Heq. pose proof (round_up_bounds z 4096 ltac:(lia)) as [Hr Hm].
  split; [reflexivity|]. split; [unfold z in *; lia|].
  replace (z - z mod 4096 + 8192) with (z - z mod 4096 + 2 * 4096) by lia.
  rewrite Z.mod_add by lia. exact Hm.
Qed.



Lemma page_count_pages (p n : Z) :
  0 <= p -> p mod 4096 = 0 -> 0 < n -> n mod 4096 = 0 ->
  page_count p n = Z.to_nat (n / 4096).
Proof.
  intros Hp Hpm Hn Hnm. unfold page_count, PAGE_SIZE.
  destruct (Z.leb_spec n 0); [lia|]. f_equal.
  Z.to_euclidean_division_equations. lia.
Qed.

(** The protections in [block_state]. *)
Lemma block_state_protection (ptr alignment bytes a : Z) (s : State) :
  0 < ptr -> ptr mod 4096 = 0 ->
  12288 <= total_size alignment bytes -> total_size alignment bytes mod 4096 = 0 ->
  0 <= a ->
  protection a (block_state ptr alignment bytes s)
  = if (ptr <=? a) && (a <? ptr + 4096) then Some PROT_NONE
    else if (ptr + total_size alignment bytes - 4096 <=? a)
            && (a <? ptr + total_size alignment bytes) then Some PROT_NONE
    else if (ptr + 4096 <=? a) && (a <? ptr + total_size alignment bytes - 4096)
         then Some (Z.lor PROT_READ PROT_WRITE)
    else protection a s.
Proof.
  intros Hptr Hmod Htotal Htmod Ha.
  unfold protection, block_state. cbn [pages].
  rewrite !lookup_protect_pages, lookup_map_pages.
  unfold first_page, PAGE_SIZE.
  remember (total_size alignment bytes) as T.
  rewrite Z2Nat.id by (apply Z.div_pos; lia).
  change (Z.of_nat 1) with 1.
  assert (Hp1 : (ptr + T - 4096) / 4096 = ptr / 4096 + T / 4096 - 1)
    by (Z.to_euclidean_division_equations; lia).
  rewrite Hp1.
  assert (Hcase : (ptr <= a < ptr + 4096 /\ a / 4096 = ptr / 4096) \/
                  (ptr + T - 4096 <= a < ptr + T /\
                   a / 4096 = ptr / 4096 + T / 4096 - 1) \/
                  (ptr + 4096 <= a < ptr + T - 4096 /\
                   ptr / 4096 < a / 4096 < ptr / 4096 + T / 4096 - 1) \/
                  ((a < ptr \/ ptr + T <= a) /\
                   (a / 4096 < ptr / 4096 \/ ptr / 4096 + T / 4096 <= a / 4096)))
    by (Z.to_euclidean_division_equations; lia).
  assert (Hpages : 3 <= T / 4096) by (Z.to_euclidean_division_equations; lia).
  destruct Hcase as [[Hr Hi] | [[Hr Hi] | [[Hr Hi] | [Hr Hi]]]].
  all: repeat match goal with
         | |- context [Z.leb ?x ?y] => destruct (Z.leb_spec x y); try lia
         | |- context [Z.ltb ?x ?y] => destruct (Z.ltb_spec x y); try lia
         end; cbn [andb]; try reflexivity.
Qed.

Section Kernel.

Variable kernel_places : State -> Z -> option Z.
Hypothesis kernel : kernel_behaves kernel_places.

Local Abbreviation memalign := (mspace_memalign kernel_places 1).
Local Abbreviation malloc := (mspace_malloc kernel_places 1).
Local Abbreviation free := (mspace_free 1).

(** What [mspace_memalign] does up to its first [assert], for any power of
    two up to 2^32 and a size below 2^62. *)
Lemma guarded_memalign_spec (k bytes ptr : Z) (s : State) :
  0 <= k <= 32 -> 0 <= bytes < 2 ^ 62 ->
  kernel_places s (total_size (2 ^ k) bytes) = Some ptr ->
  let buf := block_address ptr (2 ^ k) bytes in
  8 + ptr + 4096 <= buf /\
  buf + aligned_size (2 ^ k) bytes = ptr + total_size (2 ^ k) bytes - 4096 /\
  buf - 8 - (ptr + 4096) < 4096 /\
  mspace_memalign kernel_places 1 (2 ^ k) bytes s
  = if buf mod 2 ^ k =? 0 then Returned buf (block_state ptr (2 ^ k) bytes s)
    else Aborted.
Proof.
  intros Hk Hb Hplace buf.
  assert (Hpow : 0 < 2 ^ k <= 2 ^ 32).
  { split; [apply Z.pow_pos_nonneg; lia|apply Z.pow_le_mono_r; lia]. }
  destruct (aligned_size_spec k bytes Hk Hb) as (_ & HA & HAmod).
  destruct (total_size_spec k bytes Hk Hb) as (_ & HT & HTmod).
  cbv zeta in HT.
  destruct (kernel _ _ _ Hplace) as (Hptr & Hpmod & Hhigh & Hfresh).
  unfold PAGE_SIZE in *.
  remember (aligned_size (2 ^ k) bytes) as A.
  remember (total_size (2 ^ k) bytes) as T.
  assert (HT12 : 12288 <= T) by (Z.to_euclidean_division_equations; lia).
  assert (Hbuf : buf = ptr + T - 4096 - A).
  { unfold buf, block_address, PAGE_SIZE. rewrite <- HeqA, <- HeqT. reflexivity. }
  split; [lia|]. split; [lia|]. split; [lia|].
  unfold mspace_memalign, mmap. rewrite <- HeqA, <- HeqT. rewrite Hplace.
  unfold PAGE_SIZE, sizeof_size_t.
  rewrite (page_count_pages ptr T ltac:(lia) Hpmod ltac:(lia) HTmod).
  unfold mprotect at 2. cbn [memory pages]. unfold PAGE_SIZE. rewrite Hpmod. cbn [Z.eqb].
  rewrite (page_count_pages ptr 4096 ltac:(lia) Hpmod ltac:(lia) eq_refl). change (Z.to_nat (4096 / 4096)) with 1%nat.
  rewrite (wrap_uint64_small (T - 4096)) by (unfold G_MAXUINT64; lia).
  rewrite (wrap_uint64_small (ptr + (T - 4096))) by (unfold G_MAXUINT64; lia).
  unfold mprotect. cbn [memory pages]. unfold PAGE_SIZE.
  assert (Hlast : (ptr + (T - 4096)) mod 4096 = 0)
    by (Z.to_euclidean_division_equations; lia).
  rewrite Hlast. cbn [Z.eqb].
  rewrite (page_count_pages (ptr + (T - 4096)) 4096 ltac:(lia) Hlast ltac:(lia) eq_refl).
  change (Z.to_nat (4096 / 4096)) with 1%nat.
  rewrite (wrap_uint64_small (T - 4096 - A)) by (unfold G_MAXUINT64; lia).
  rewrite (wrap_uint64_small (ptr + (T - 4096 - A))) by (unfold G_MAXUINT64; lia).
  replace (ptr + (T - 4096 - A)) with buf by lia.
  replace (ptr + (T - 4096)) with (ptr + T - 4096) by lia.
  rewrite (wrap_uint64_small (buf - 8)) by (unfold G_MAXUINT64; lia).
  (* the state after the two calls of mprotect *)
  set (s2 := mkState
               (fun a => if (ptr <=? a) && (a <? ptr + T) then 0 else memory s a)
               (protect_pages (first_page (ptr + T - 4096)) 1 PROT_NONE
                  (protect_pages (first_page ptr) 1 PROT_NONE
                     (map_pages (first_page ptr) (Z.to_nat (T / 4096))
                        (Z.lor PROT_READ PROT_WRITE) (pages s))))).
  assert (Hprot : forall a, buf - 8 <= a < buf + A ->
                            protection a s2 = Some (Z.lor PROT_READ PROT_WRITE)).
  { intros a Ha.
    pose proof (block_state_protection ptr (2 ^ k) bytes a s Hptr Hpmod) as Hp.
    rewrite <- HeqT in Hp. specialize (Hp HT12 HTmod ltac:(lia)).
    unfold protection, block_state in Hp. cbn [pages] in Hp.
    rewrite <- HeqT in Hp. unfold PAGE_SIZE in Hp.
    unfold protection, s2. cbn [pages]. rewrite Hp.
    destruct (Z.leb_spec ptr a); destruct (Z.ltb_spec a (ptr + 4096)); cbn [andb];
      try lia.
    destruct (Z.leb_spec (ptr + T - 4096) a); try lia. cbn [andb].
    destruct (Z.leb_spec (ptr + 4096) a); destruct (Z.ltb_spec a (ptr + T - 4096));
      cbn [andb]; try lia. reflexivity. }
  assert (Haccess : forall bit p n st,
             bit = PROT_READ \/ bit = PROT_WRITE ->
             buf - 8 <= p -> p + n <= buf + A -> pages st = pages s2 ->
             accessible bit p n st = true).
  { intros bit p n st Hbit Hp Hn Hst. apply accessible_true; [lia|].
    intros a Ha. exists (Z.lor PROT_READ PROT_WRITE). split.
    - unfold protection. rewrite Hst. apply (Hprot a). lia.
    - destruct Hbit as [-> | ->]; discriminate. }
  unfold store_size_t. unfold sizeof_size_t.
  change (mkState (fun a => if (ptr <=? a) && (a <? ptr + T) then 0 else memory s a)
            (protect_pages (first_page (ptr + T - 4096)) 1 PROT_NONE
               (protect_pages (first_page ptr) 1 PROT_NONE
                  (map_pages (first_page ptr) (Z.to_nat (T / 4096))
                     (Z.lor PROT_READ PROT_WRITE) (pages s))))) with s2.
  rewrite (Haccess PROT_WRITE (buf - 8) 8 s2) by (auto; lia).
  cbn [andthen].
  assert (Hland : Z.land buf (wrap_uint64 (2 ^ k - 1)) = buf mod 2 ^ k).
  { rewrite wrap_uint64_small by (unfold G_MAXUINT64; lia).
    rewrite <- Z.land_ones by lia. rewrite Z.ones_equiv. reflexivity. }
  rewrite Hland.
  destruct (Z.eqb_spec (buf mod 2 ^ k) 0) as [Haligned|Hnot]; cbn [negb]; [|reflexivity].
  unfold mspace_usable_size, NULL, sizeof_size_t.
  destruct (Z.eqb_spec buf 0); [lia|].
  rewrite (wrap_uint64_small (buf - 8)) by (unfold G_MAXUINT64; lia).
  unfold load_size_t, sizeof_size_t.
  rewrite (Haccess PROT_READ (buf - 8) 8) by (auto; lia).
  cbn [andthen memory].
  rewrite load_store_bytes by (change (256 ^ Z.of_nat 8) with (2 ^ 64); lia).
  rewrite Z.eqb_refl. cbn [negb].
  unfold memset.
  rewrite (Haccess PROT_WRITE buf bytes) by (auto; lia).
  cbn [andthen memory pages].
  unfold block_state, block_address, PAGE_SIZE, sizeof_size_t.
  rewrite <- HeqA, <- HeqT. rewrite <- Hbuf. reflexivity.
Qed.



(** The block in [block_state]: what can be accessed, what cannot, and
    what has not changed. *)
Lemma block_state_facts (k bytes ptr : Z) (s : State) :
  0 <= k <= 32 -> 0 <= bytes < 2 ^ 62 ->
  kernel_places s (total_size (2 ^ k) bytes) = Some ptr ->
  let buf := block_address ptr (2 ^ k) bytes in
  let A := aligned_size (2 ^ k) bytes in
  let s' := block_state ptr (2 ^ k) bytes s in
  mspace_usable_size buf s' = Returned bytes s' /\
  (forall a, buf - 8 <= a < buf + A ->
             protection a s' = Some (Z.lor PROT_READ PROT_WRITE)) /\
  (forall a, buf <= a < buf + bytes -> memory s' a = 0) /\
  (forall a, buf + A <= a < buf + A + 4096 -> protection a s' = Some PROT_NONE) /\
  (forall a, ptr <= a < ptr + 4096 -> protection a s' = Some PROT_NONE) /\
  (forall a, 0 <= a -> a < ptr \/ ptr + total_size (2 ^ k) bytes <= a ->
             protection a s' = protection a s /\ memory s' a = memory s a) /\
  (forall a, 0 <= a -> protection a s = None ->
             a < ptr \/ ptr + total_size (2 ^ k) bytes <= a ->
             protection a s' = None).
Proof.
  intros Hk Hb Hplace buf A s'.
  assert (Hpow : 0 < 2 ^ k <= 2 ^ 32).
  { split; [apply Z.pow_pos_nonneg; lia|apply Z.pow_le_mono_r; lia]. }
  destruct (aligned_size_spec k bytes Hk Hb) as (_ & HA & HAmod).
  destruct (total_size_spec k bytes Hk Hb) as (_ & HT & HTmod).
  cbv zeta in HT. fold A in HA, HAmod, HT.
  destruct (kernel _ _ _ Hplace) as (Hptr & Hpmod & Hhigh & Hfresh).
  unfold PAGE_SIZE in *.
  remember (total_size (2 ^ k) bytes) as T.
  assert (HT12 : 12288 <= T) by (Z.to_euclidean_division_equations; lia).
  assert (Hbuf : buf = ptr + T - 4096 - A).
  { unfold buf, block_address, PAGE_SIZE, A. rewrite <- HeqT. reflexivity. }
  assert (Hp : forall a, 0 <= a ->
             protection a s'
             = if (ptr <=? a) && (a <? ptr + 4096) then Some PROT_NONE
               else if (ptr + T - 4096 <=? a) && (a <? ptr + T) then Some PROT_NONE
               else if (ptr + 4096 <=? a) && (a <? ptr + T - 4096)
                    then Some (Z.lor PROT_READ PROT_WRITE)
               else protection a s).
  { intros a Ha.
    pose proof (block_state_protection ptr (2 ^ k) bytes a s Hptr Hpmod) as H.
    rewrite <- HeqT in H. exact (H HT12 HTmod Ha). }
  assert (Hrw : forall a, buf - 8 <= a < buf + A ->
                          protection a s' = Some (Z.lor PROT_READ PROT_WRITE)).
  { intros a Ha. rewrite Hp by lia.
    destruct (Z.leb_spec ptr a); destruct (Z.ltb_spec a (ptr + 4096)); cbn [andb];
      try lia.
    destruct (Z.leb_spec (ptr + T - 4096) a); try lia. cbn [andb].
    destruct (Z.leb_spec (ptr + 4096) a); destruct (Z.ltb_spec a (ptr + T - 4096));
      cbn [andb]; try lia. reflexivity. }
  split; [|split; [exact Hrw|split; [|split; [|split; [|split]]]]].
  - unfold mspace_usable_size, NULL, sizeof_size_t.
    destruct (Z.eqb_spec buf 0); [lia|].
    rewrite (wrap_uint64_small (buf - 8)) by (unfold G_MAXUINT64; lia).
    unfold load_size_t, sizeof_size_t.
    rewrite accessible_true.
    + f_equal. unfold s', block_state. cbn [memory].
      fold buf. unfold sizeof_size_t.
      rewrite (load_bytes_ext 8 _
                 (store_bytes 8
                    (fun a => if (ptr <=? a) && (a <? ptr + total_size (2 ^ k) bytes)
                              then 0 else memory s a) (buf - 8) bytes)).
      * apply load_store_bytes. change (256 ^ Z.of_nat 8) with (2 ^ 64). lia.
      * intros a Ha. destruct (Z.leb_spec buf a); [lia|]. reflexivity.
    + lia.
    + intros a Ha. exists (Z.lor PROT_READ PROT_WRITE).
      split; [apply Hrw; lia|discriminate].
  - intros a Ha. unfold s', block_state. cbn [memory]. fold buf.
    destruct (Z.leb_spec buf a); destruct (Z.ltb_spec a (buf + bytes)); try lia.
    reflexivity.
  - intros a Ha. rewrite Hp by lia.
    destruct (Z.leb_spec ptr a); destruct (Z.ltb_spec a (ptr + 4096)); cbn [andb];
      try lia.
    destruct (Z.leb_spec (ptr + T - 4096) a); destruct (Z.ltb_spec a (ptr + T));
      cbn [andb]; try lia. reflexivity.
  - intros a Ha. rewrite Hp by lia.
    destruct (Z.leb_spec ptr a); destruct (Z.ltb_spec a (ptr + 4096)); cbn [andb];
      try lia. reflexivity.
  - intros a Ha Hout. split.
    + rewrite Hp by lia.
      destruct (Z.leb_spec ptr a); destruct (Z.ltb_spec a (ptr + 4096));
        destruct (Z.leb_spec (ptr + T - 4096) a); destruct (Z.ltb_spec a (ptr + T));
        destruct (Z.leb_spec (ptr + 4096) a); destruct (Z.ltb_spec a (ptr + T - 4096));
        cbn [andb]; try lia; reflexivity.
    + unfold s', block_state. cbn [memory]. fold buf. unfold sizeof_size_t.
      rewrite <- HeqT.
      destruct (Z.leb_spec buf a); destruct (Z.ltb_spec a (buf + bytes)); cbn [andb];
        try lia;
        (rewrite store_bytes_frame by lia);
        destruct (Z.leb_spec ptr a); destruct (Z.ltb_spec a (ptr + T)); cbn [andb];
        try lia; reflexivity.
  - intros a Ha Hnone Hout. rewrite Hp by lia.
    destruct (Z.leb_spec ptr a); destruct (Z.ltb_spec a (ptr + 4096));
      destruct (Z.leb_spec (ptr + T - 4096) a); destruct (Z.ltb_spec a (ptr + T));
      destruct (Z.leb_spec (ptr + 4096) a); destruct (Z.ltb_spec a (ptr + T - 4096));
      cbn [andb]; try lia; exact Hnone.
Qed.

Lemma power_divides_page (k x : Z) :
  0 <= k <= 12 -> x mod 4096 = 0 -> x mod 2 ^ k = 0.
Proof.
  intros Hk Hx.
  assert (Hpow : 0 < 2 ^ k) by (apply Z.pow_pos_nonneg; lia).
  apply Z.mod_divide; [lia|].
  apply Z.mod_divide in Hx; [|lia].
  apply (Z.divide_trans _ 4096); [|exact Hx].
  exists (2 ^ (12 - k)). rewrite <- Z.pow_add_r by lia.
  replace (12 - k + k) with 12 by lia. reflexivity.
Qed.

(** X23.  [mspace_memalign] with a power of two up to the page size, and
    so [mspace_malloc], which asks for 8: when the kernel makes the
    mapping the call returns a block at a multiple of the alignment whose
    usable size is the size asked for and whose bytes are zero.  The block
    is padded to a multiple of the alignment and ends where the last page
    of the mapping begins: the block, its padding and its header can be
    read and written, the page right above them and the first page of the
    mapping cannot, so that an access beyond the padding faults.  Nothing
    outside the new mapping has changed.  When the kernel makes no mapping
    the call returns NULL and changes nothing. *)
Theorem memalign_guarded (k bytes : Z) (s : State) :
  0 <= k <= 12 -> 0 <= bytes < 2 ^ 62 ->
  mspace_malloc kernel_places 1 bytes s = mspace_memalign kernel_places 1 (2 ^ 3) bytes s /\
  match kernel_places s (total_size (2 ^ k) bytes) with
  | None => mspace_memalign kernel_places 1 (2 ^ k) bytes s = Returned NULL s
  | Some ptr =>
      let buf := block_address ptr (2 ^ k) bytes in
      let A := aligned_size (2 ^ k) bytes in
      let s' := block_state ptr (2 ^ k) bytes s in
      mspace_memalign kernel_places 1 (2 ^ k) bytes s = Returned buf s' /\
      buf <> NULL /\ buf mod 2 ^ k = 0 /\
      mspace_usable_size buf s' = Returned bytes s' /\
      bytes <= A < bytes + 2 ^ k /\
      buf + A = ptr + total_size (2 ^ k) bytes - PAGE_SIZE /\
      ptr + PAGE_SIZE <= buf - 8 < ptr + 2 * PAGE_SIZE /\
      (forall a, buf - 8 <= a < buf + A ->
                 protection a s' = Some (Z.lor PROT_READ PROT_WRITE)) /\
      (forall a, buf <= a < buf + bytes -> memory s' a = 0) /\
      (forall a, buf + A <= a < buf + A + PAGE_SIZE -> protection a s' = Some PROT_NONE) /\
      (forall a, ptr <= a < ptr + PAGE_SIZE -> protection a s' = Some PROT_NONE) /\
      accessible PROT_WRITE buf (A + 1) s' = false /\
      accessible PROT_READ buf (A + 1) s' = false /\
      (forall a, 0 <= a -> a < ptr \/ ptr + total_size (2 ^ k) bytes <= a ->
                 protection a s' = protection a s /\ memory s' a = memory s a)
  end.
Proof.
  intros Hk Hb. split; [reflexivity|].
  destruct (kernel_places s (total_size (2 ^ k) bytes)) as [ptr|] eqn:Hplace.
  2:{ unfold mspace_memalign, mmap. rewrite Hplace. reflexivity. }
  intros buf A s'.
  assert (Hpow : 0 < 2 ^ k <= 2 ^ 32).
  { split; [apply Z.pow_pos_nonneg; lia|apply Z.pow_le_mono_r; lia]. }
  destruct (aligned_size_spec k bytes ltac:(lia) Hb) as (_ & HA & HAmod).
  destruct (total_size_spec k bytes ltac:(lia) Hb) as (_ & HT & HTmod).
  destruct (kernel _ _ _ Hplace) as (Hptr & Hpmod & Hhigh & Hfresh).
  destruct (guarded_memalign_spec k bytes ptr s ltac:(lia) Hb Hplace) as (Hlow & Hend & Hnear & Hrun).
  destruct (block_state_facts k bytes ptr s ltac:(lia) Hb Hplace)
    as (Hsize & Hrw & Hzero & Hguard & Hfirst & Hframe & _).
  fold buf in Hlow, Hend, Hnear, Hrun, Hsize, Hrw, Hzero, Hguard, Hfirst.
  fold A in HA, HAmod, Hend, Hrw, Hguard. fold s' in Hrun, Hsize, Hrw, Hzero, Hguard, Hfirst, Hframe.
  unfold PAGE_SIZE in *.
  assert (Hmod : buf mod 2 ^ k = 0).
  { replace buf with (buf + A - A) by lia. rewrite Hend.
    rewrite Zminus_mod, HAmod, Z.sub_0_r, Z.mod_mod by lia.
    apply power_divides_page; [exact Hk|].
    Z.to_euclidean_division_equations; lia. }
  rewrite Hmod in Hrun. cbn [Z.eqb] in Hrun.
  split; [exact Hrun|]. split; [unfold NULL; lia|]. split; [exact Hmod|].
  split; [exact Hsize|]. split; [exact HA|]. split; [exact Hend|]. split; [lia|].
  split; [exact Hrw|]. split; [exact Hzero|]. split; [exact Hguard|].
  split; [exact Hfirst|]. split; [|split; [|exact Hframe]].
  - apply (accessible_false PROT_WRITE buf (A + 1) (buf + A)); [lia|lia|].
    intros prot Hprot. rewrite Hguard in Hprot by lia. injection Hprot as <-. reflexivity.
  - apply (accessible_false PROT_READ buf (A + 1) (buf + A)); [lia|lia|].
    intros prot Hprot. rewrite Hguard in Hprot by lia. injection Hprot as <-. reflexivity.
Qed.

(** X24.  With an alignment above the page size, up to 2^32, the block is
    put two pages into the mapping whatever the alignment asked for, and
    the [assert] on the alignment decides: the call returns when the
    kernel happens to have put the mapping two pages below a multiple of
    the alignment, and aborts otherwise, as it does for every mapping that
    does not start at a multiple of 8192. *)
Theorem memalign_beyond_page (k bytes ptr : Z) (s : State) :
  12 < k <= 32 -> 0 <= bytes < 2 ^ 62 ->
  kernel_places s (total_size (2 ^ k) bytes) = Some ptr ->
  block_address ptr (2 ^ k) bytes = ptr + 2 * PAGE_SIZE /\
  mspace_memalign kernel_places 1 (2 ^ k) bytes s
  = (if (ptr + 2 * PAGE_SIZE) mod 2 ^ k =? 0
     then Returned (ptr + 2 * PAGE_SIZE) (block_state ptr (2 ^ k) bytes s)
     else Aborted) /\
  (ptr mod (2 * PAGE_SIZE) <> 0 ->
   mspace_memalign kernel_places 1 (2 ^ k) bytes s = Aborted).
Proof.
  intros Hk Hb Hplace.
  assert (Hpow : 0 < 2 ^ k <= 2 ^ 32).
  { split; [apply Z.pow_pos_nonneg; lia|apply Z.pow_le_mono_r; lia]. }
  destruct (aligned_size_spec k bytes ltac:(lia) Hb) as (_ & HA & HAmod).
  destruct (total_size_spec k bytes ltac:(lia) Hb) as (HTeq & HT & HTmod).
  destruct (guarded_memalign_spec k bytes ptr s ltac:(lia) Hb Hplace) as (_ & _ & _ & Hrun).
  unfold PAGE_SIZE in *. cbv zeta in HTeq.
  assert (H8192 : forall x, x mod 2 ^ k = 0 -> x mod 8192 = 0).
  { intros x Hx. apply Z.mod_divide; [lia|]. apply Z.mod_divide in Hx; [|lia].
    apply (Z.divide_trans _ (2 ^ k)); [|exact Hx].
    exists (2 ^ (k - 13)). change 8192 with (2 ^ 13). rewrite <- Z.pow_add_r by lia.
    f_equal. lia. }
  pose proof (H8192 _ HAmod) as HA8192.
  assert (Hbuf : block_address ptr (2 ^ k) bytes = ptr + 2 * 4096).
  { unfold block_address, PAGE_SIZE. rewrite HTeq.
    remember (aligned_size (2 ^ k) bytes) as A.
    Z.to_euclidean_division_equations. lia. }
  rewrite Hbuf in Hrun.
  split; [exact Hbuf|]. split; [exact Hrun|].
  intros Hodd. rewrite Hrun.
  destruct (Z.eqb_spec ((ptr + 2 * 4096) mod 2 ^ k) 0) as [Hz|Hnz]; [|reflexivity].
  exfalso. apply Hodd. pose proof (H8192 _ Hz) as H.
  change (2 * 4096) with 8192 in *.
  Z.to_euclidean_division_equations. lia.
Qed.


(** The usable size of a block is read from its header: it is the same in
    a state with the same memory in which the header can be read. *)
Lemma usable_size_same (buf : Z) (st st' : State) (v : Z) :
  8 <= buf < 2 ^ 64 ->
  memory st' = memory st ->
  accessible PROT_READ (buf - 8) 8 st' = true ->
  mspace_usable_size buf st = Returned v st ->
  mspace_usable_size buf st' = Returned v st'.
Proof.
  intros Hbuf Hmem Hacc. unfold mspace_usable_size, load_size_t, sizeof_size_t, NULL.
  destruct (Z.eqb_spec buf 0); [lia|].
  rewrite (wrap_uint64_small (buf - 8)) by (unfold G_MAXUINT64; lia).
  rewrite Hacc, Hmem.
  destruct (accessible PROT_READ (buf - 8) 8 st); [|discriminate].
  intros [= <-]. reflexivity.
Qed.

Lemma round_down_page (x : Z) :
  0 <= x < 2 ^ 64 -> Z.land x (mask 4096) = x - x mod 4096.
Proof. intros Hx. exact (land_align_mask x 12 Hx ltac:(lia)). Qed.

(** X25.  [mspace_free] of a block of one byte or more made by
    [mspace_memalign] takes every access away from the pages the block
    lies on, so that a read or a write of the block faults from then on,
    and leaves the contents of memory as they are.  It unmaps nothing:
    every page that was mapped still is.  Unless the block starts on a
    page, its header lies on a page that has gone too, so that
    [mspace_usable_size] of the freed block, and freeing it again, end in a
    fault; a block that starts on a page keeps its header, and freeing it
    again returns. *)
Theorem free_revokes (k bytes ptr : Z) (s : State) :
  0 <= k <= 12 -> 0 < bytes < 2 ^ 62 ->
  kernel_places s (total_size (2 ^ k) bytes) = Some ptr ->
  let buf := block_address ptr (2 ^ k) bytes in
  let A := aligned_size (2 ^ k) bytes in
  let s' := block_state ptr (2 ^ k) bytes s in
  exists s'',
    mspace_free 1 buf s' = Returned tt s'' /\
    memory s'' = memory s' /\
    (forall a, buf <= a < buf + A -> protection a s'' = Some PROT_NONE) /\
    (forall a, 0 <= a -> protection a s'' = None <-> protection a s' = None) /\
    (forall a, 0 <= a -> a < buf - buf mod PAGE_SIZE \/ buf + A <= a ->
               protection a s'' = protection a s') /\
    accessible PROT_READ buf 1 s'' = false /\
    accessible PROT_WRITE buf 1 s'' = false /\
    (buf mod PAGE_SIZE <> 0 ->
     mspace_usable_size buf s'' = Segfault /\ mspace_free 1 buf s'' = Segfault) /\
    (buf mod PAGE_SIZE = 0 ->
     mspace_usable_size buf s'' = Returned bytes s'' /\
     exists s3, mspace_free 1 buf s'' = Returned tt s3).
Proof.
  intros Hk Hb Hplace buf A s'.
  assert (Hpow : 0 < 2 ^ k <= 2 ^ 12).
  { split; [apply Z.pow_pos_nonneg; lia|apply Z.pow_le_mono_r; lia]. }
  change (2 ^ 12) with 4096 in Hpow.
  destruct (aligned_size_spec k bytes ltac:(lia) ltac:(lia)) as (_ & HA & HAmod).
  destruct (total_size_spec k bytes ltac:(lia) ltac:(lia)) as (_ & HT & HTmod).
  destruct (kernel _ _ _ Hplace) as (Hptr & Hpmod & Hhigh & Hfresh).
  destruct (guarded_memalign_spec k bytes ptr s ltac:(lia) ltac:(lia) Hplace)
    as (Hlow & Hend & Hnear & _).
  destruct (block_state_facts k bytes ptr s ltac:(lia) ltac:(lia) Hplace)
    as (Hsize & Hrw & Hzero & Hguard & Hfirst & Hframe & _).
  fold buf in Hlow, Hend, Hnear, Hsize, Hrw, Hzero, Hguard, Hfirst.
  fold A in HA, HAmod, Hend, Hrw, Hguard.
  fold s' in Hsize, Hrw, Hzero, Hguard, Hfirst, Hframe.
  unfold PAGE_SIZE in *. cbv zeta in HT.
  remember (total_size (2 ^ k) bytes) as T.
  assert (HGmod : (buf + A) mod 4096 = 0).
  { rewrite Hend. Z.to_euclidean_division_equations. lia. }
  set (start := buf - buf mod 4096).
  assert (Hstart : Z.land buf (mask 4096) = start).
  { apply round_down_page. lia. }
  assert (Hstop : Z.land (wrap_uint64 (buf + bytes + 4096 - 1)) (mask 4096) = buf + A).
  { rewrite wrap_uint64_small by (unfold G_MAXUINT64; lia).
    rewrite round_down_page by lia.
    Z.to_euclidean_division_equations. lia. }
  assert (Hstart_bounds : start <= buf < start + 4096 /\ start mod 4096 = 0 /\
                          ptr + 4096 <= start).
  { unfold start. Z.to_euclidean_division_equations. lia. }
  destruct Hstart_bounds as (Hsb & Hsmod & Hslow).
  assert (Hlen : wrap_uint64 (buf + A - start) = buf + A - start).
  { apply wrap_uint64_small. unfold G_MAXUINT64. lia. }
  assert (Hlenmod : (buf + A - start) mod 4096 = 0)
    by (Z.to_euclidean_division_equations; lia).
  (* the state after the call *)
  set (s'' := mkState (memory s')
                (protect_pages (first_page start) (Z.to_nat ((buf + A - start) / 4096))
                   PROT_NONE (pages s'))).
  assert (Hfree : forall st,
             mspace_usable_size buf st = Returned bytes st ->
             mspace_free 1 buf st
             = Returned tt
                 (mkState (memory st)
                    (protect_pages (first_page start)
                       (Z.to_nat ((buf + A - start) / 4096)) PROT_NONE (pages st)))).
  { intros st Hst. unfold mspace_free. rewrite Hst. cbn [andthen].
    unfold PAGE_SIZE. rewrite Hstart, Hstop, Hlen.
    unfold mprotect, PAGE_SIZE. rewrite Hsmod. cbn [Z.eqb].
    rewrite (page_count_pages start (buf + A - start) ltac:(lia) Hsmod ltac:(lia) Hlenmod).
    reflexivity. }
  assert (Hp : forall a, 0 <= a ->
             protection a s''
             = if (start <=? a) && (a <? buf + A)
               then match protection a s' with Some _ => Some PROT_NONE | None => None end
               else protection a s').
  { intros a Ha. unfold protection, s''. cbn [pages].
    rewrite lookup_protect_pages. unfold first_page, PAGE_SIZE.
    rewrite Z2Nat.id by (apply Z.div_pos; lia).
    assert (Hin : (start <= a < buf + A /\
                   start / 4096 <= a / 4096 < start / 4096 + (buf + A - start) / 4096) \/
                  ((a < start \/ buf + A <= a) /\
                   (a / 4096 < start / 4096 \/
                    start / 4096 + (buf + A - start) / 4096 <= a / 4096)))
      by (Z.to_euclidean_division_equations; lia).
    destruct Hin as [[Hr Hi] | [Hr Hi]];
      repeat match goal with
        | |- context [Z.leb ?x ?y] => destruct (Z.leb_spec x y); try lia
        | |- context [Z.ltb ?x ?y] => destruct (Z.ltb_spec x y); try lia
        end; cbn [andb]; reflexivity. }
  assert (Hgone : forall a, start <= a < buf + A -> protection a s'' = Some PROT_NONE).
  { intros a Ha. rewrite Hp by lia.
    destruct (Z.leb_spec start a); destruct (Z.ltb_spec a (buf + A)); cbn [andb]; try lia.
    destruct (Z.le_gt_cases (buf - 8) a) as [Hin|Hout].
    - rewrite Hrw by lia. reflexivity.
    - (* the part of the page below the header *)
      assert (Hq : protection a s' = Some (Z.lor PROT_READ PROT_WRITE)).
      { pose proof (block_state_protection ptr (2 ^ k) bytes a s Hptr Hpmod) as Hblock.
        rewrite <- HeqT in Hblock.
        assert (HT12 : 12288 <= T) by (Z.to_euclidean_division_equations; lia).
        unfold s'. rewrite (Hblock HT12 HTmod ltac:(lia)). unfold PAGE_SIZE.
        repeat match goal with
          | |- context [Z.leb ?x ?y] => destruct (Z.leb_spec x y); try lia
          | |- context [Z.ltb ?x ?y] => destruct (Z.ltb_spec x y); try lia
          end; cbn [andb]; reflexivity. }
      rewrite Hq. reflexivity. }
  exists s''.
  split; [apply (Hfree s' Hsize)|]. split; [reflexivity|].
  split; [intros a Ha; apply Hgone; lia|].
  split; [|split; [|split; [|split; [|split]]]].
  - intros a Ha. rewrite Hp by exact Ha.
    destruct ((start <=? a) && (a <? buf + A)); [|reflexivity].
    destruct (protection a s'); split; intros Hnone; try discriminate Hnone; reflexivity.
  - intros a Ha Hout. rewrite Hp by exact Ha. fold start in Hout.
    destruct (Z.leb_spec start a); destruct (Z.ltb_spec a (buf + A)); cbn [andb];
      try lia; reflexivity.
  - apply (accessible_false PROT_READ buf 1 buf); [lia|lia|].
    intros prot Hprot. rewrite Hgone in Hprot by lia. injection Hprot as <-. reflexivity.
  - apply (accessible_false PROT_WRITE buf 1 buf); [lia|lia|].
    intros prot Hprot. rewrite Hgone in Hprot by lia. injection Hprot as <-. reflexivity.
  - intros Hoff.
    assert (Hheader : mspace_usable_size buf s'' = Segfault).
    { unfold mspace_usable_size, NULL, sizeof_size_t.
      destruct (Z.eqb_spec buf 0); [lia|].
      rewrite (wrap_uint64_small (buf - 8)) by (unfold G_MAXUINT64; lia).
      unfold load_size_t, sizeof_size_t.
      rewrite (accessible_false PROT_READ (buf - 8) 8 (buf - 1)); [reflexivity|lia|lia|].
      intros prot Hprot. rewrite Hgone in Hprot.
      - injection Hprot as <-. reflexivity.
      - unfold start. Z.to_euclidean_division_equations. lia. }
    split; [exact Hheader|]. unfold mspace_free. rewrite Hheader. reflexivity.
  - intros Hon.
    assert (Hheader : mspace_usable_size buf s'' = Returned bytes s'').
    { apply (usable_size_same buf s' s'' bytes); [lia|reflexivity| |exact Hsize].
      apply accessible_true; [lia|].
      intros a Ha. exists (Z.lor PROT_READ PROT_WRITE). split; [|discriminate].
      rewrite Hp by lia.
      assert (start = buf) by (unfold start; lia).
      destruct (Z.leb_spec start a); [lia|]. cbn [andb]. apply Hrw. lia. }
    split; [exact Hheader|]. eexists. apply (Hfree s'' Hheader).
Qed.


(** The addresses of a region that may be accessed lie on mapped pages
    that allow it. *)
Lemma accessible_inv (bit p n a : Z) (s : State) :
  0 <= p -> accessible bit p n s = true -> p <= a < p + n ->
  exists prot, protection a s = Some prot /\ Z.land prot bit <> 0.
Proof.
  intros Hp Hacc Ha. unfold accessible in Hacc.
  apply (proj1 (pages_allow_true _ _ _ _) Hacc (first_page a)).
  apply (page_count_covers p n (first_page a) Hp ltac:(lia)).
  exists a. split; [exact Ha|reflexivity].
Qed.

(** A new mapping takes no address of a mapped page. *)
Lemma mapped_outside (length ptr a : Z) (s : State) :
  kernel_places s length = Some ptr -> 0 <= a -> protection a s <> None ->
  a < ptr \/ ptr + length <= a.
Proof.
  intros Hplace Ha Hmapped.
  destruct (kernel _ _ _ Hplace) as (Hptr & Hpmod & _ & Hfresh).
  destruct (Z.lt_ge_cases a ptr) as [Hlt|Hge]; [left; exact Hlt|].
  destruct (Z.le_gt_cases (ptr + length) a) as [Hle|Hgt]; [right; exact Hle|].
  exfalso. apply Hmapped. unfold protection, first_page. apply Hfresh.
  unfold PAGE_SIZE in *. Z.to_euclidean_division_equations. lia.
Qed.

(** What a state allows stays allowed, and reads the same, in a state that
    differs from it on a new mapping only. *)
Lemma accessible_kept (bit p n length ptr : Z) (s s' : State) :
  kernel_places s length = Some ptr ->
  (forall a, 0 <= a -> a < ptr \/ ptr + length <= a ->
             protection a s' = protection a s /\ memory s' a = memory s a) ->
  0 <= p -> accessible bit p n s = true ->
  accessible bit p n s' = true /\
  forall a, p <= a < p + n ->
            (a < ptr \/ ptr + length <= a) /\ memory s' a = memory s a.
Proof.
  intros Hplace Hframe Hp Hacc.
  assert (Hout : forall a, p <= a < p + n -> a < ptr \/ ptr + length <= a).
  { intros a Ha. apply (mapped_outside length ptr a s Hplace); [lia|].
    destruct (accessible_inv bit p n a s Hp Hacc Ha) as (prot & -> & _). discriminate. }
  split.
  - apply accessible_true; [exact Hp|]. intros a Ha.
    destruct (accessible_inv bit p n a s Hp Hacc Ha) as (prot & Hprot & Hbit).
    exists prot. split; [|exact Hbit].
    rewrite (proj1 (Hframe a ltac:(lia) (Hout a Ha))). exact Hprot.
  - intros a Ha. split; [apply Hout; exact Ha|].
    apply Hframe; [lia|apply Hout; exact Ha].
Qed.

(** So does the usable size of a block. *)
Lemma usable_size_kept (mem v length ptr : Z) (s s' : State) :
  kernel_places s length = Some ptr ->
  (forall a, 0 <= a -> a < ptr \/ ptr + length <= a ->
             protection a s' = protection a s /\ memory s' a = memory s a) ->
  mem <> NULL ->
  mspace_usable_size mem s = Returned v s ->
  mspace_usable_size mem s' = Returned v s'.
Proof.
  intros Hplace Hframe Hmem. unfold mspace_usable_size.
  destruct (Z.eqb_spec mem NULL); [contradiction|].
  unfold load_size_t, sizeof_size_t.
  pose proof (wrap_uint64_range (mem - 8)) as [Hh _].
  destruct (accessible PROT_READ (wrap_uint64 (mem - 8)) 8 s) eqn:Hacc; [|discriminate].
  intros [= <-].
  destruct (accessible_kept PROT_READ _ 8 length ptr s s' Hplace Hframe Hh Hacc)
    as [Hacc' Hsame].
  rewrite Hacc'. f_equal.
  refine (load_bytes_ext 8 (memory s') (memory s) _ _).
  intros a Ha. apply Hsame. lia.
Qed.

(** The usable size of a block is read from its header: it is the same in
    a state with the same pages whose memory is the same there. *)
Lemma usable_size_ext (buf v : Z) (st st' : State) :
  8 <= buf < 2 ^ 64 ->
  pages st' = pages st ->
  (forall a, buf - 8 <= a < buf -> memory st' a = memory st a) ->
  mspace_usable_size buf st = Returned v st ->
  mspace_usable_size buf st' = Returned v st'.
Proof.
  intros Hbuf Hpages Hmem. unfold mspace_usable_size, load_size_t, sizeof_size_t, NULL.
  destruct (Z.eqb_spec buf 0); [lia|].
  rewrite (wrap_uint64_small (buf - 8)) by (unfold G_MAXUINT64; lia).
  unfold accessible. rewrite Hpages.
  destruct (pages_allow PROT_READ (first_page (buf - 8)) (page_count (buf - 8) 8) (pages st));
    [|discriminate].
  intros [= <-]. f_equal.
  refine (load_bytes_ext 8 (memory st') (memory st) _ _).
  intros a Ha. apply Hmem. lia.
Qed.

(** With an alignment up to the page size [mspace_memalign] returns when
    the kernel has made the mapping. *)
Lemma guarded_memalign_returns (k bytes ptr : Z) (s : State) :
  0 <= k <= 12 -> 0 <= bytes < 2 ^ 62 ->
  kernel_places s (total_size (2 ^ k) bytes) = Some ptr ->
  mspace_memalign kernel_places 1 (2 ^ k) bytes s
  = Returned (block_address ptr (2 ^ k) bytes) (block_state ptr (2 ^ k) bytes s).
Proof.
  intros Hk Hb Hplace.
  assert (Hpow : 0 < 2 ^ k) by (apply Z.pow_pos_nonneg; lia).
  destruct (aligned_size_spec k bytes ltac:(lia) Hb) as (_ & HA & HAmod).
  destruct (total_size_spec k bytes ltac:(lia) Hb) as (_ & HT & HTmod).
  destruct (kernel _ _ _ Hplace) as (Hptr & Hpmod & Hhigh & Hfresh).
  destruct (guarded_memalign_spec k bytes ptr s ltac:(lia) Hb Hplace)
    as (Hlow & Hend & Hnear & Hrun).
  cbv zeta in Hlow, Hend, Hnear, Hrun. unfold PAGE_SIZE in *.
  assert (Hmod : block_address ptr (2 ^ k) bytes mod 2 ^ k = 0).
  { replace (block_address ptr (2 ^ k) bytes)
      with (block_address ptr (2 ^ k) bytes + aligned_size (2 ^ k) bytes
            - aligned_size (2 ^ k) bytes) by lia.
    rewrite Hend.
    rewrite Zminus_mod, HAmod, Z.sub_0_r, Z.mod_mod by lia.
    apply power_divides_page; [exact Hk|].
    Z.to_euclidean_division_equations; lia. }
  rewrite Hmod in Hrun. exact Hrun.
Qed.

(** X26.  [mspace_realloc] of the guard-page allocator never gives the
    old block back.  For a block whose header and contents can be read,
    when the kernel makes the new mapping the call returns a new block of
    the size asked for that begins with the bytes of the old one, as many
    as the smaller of the two sizes, and is zero after them; the old block
    lies outside the new mapping, and it and every other mapping are as
    they were, still mapped and with the access they had.  When the kernel
    makes no mapping the call returns NULL and changes nothing.  With NULL
    for the old block the call is [mspace_malloc]. *)
Theorem realloc_keeps_old (bytes old old_size : Z) (s : State) :
  0 <= bytes < 2 ^ 62 -> 0 < old -> 0 <= old_size ->
  mspace_usable_size old s = Returned old_size s ->
  accessible PROT_READ old (Z.min old_size bytes) s = true ->
  mspace_realloc kernel_places 1 NULL bytes s = mspace_malloc kernel_places 1 bytes s /\
  match kernel_places s (total_size (2 ^ 3) bytes) with
  | None => mspace_realloc kernel_places 1 old bytes s = Returned NULL s
  | Some ptr =>
      let buf := block_address ptr (2 ^ 3) bytes in
      exists s',
        mspace_realloc kernel_places 1 old bytes s = Returned buf s' /\
        buf <> NULL /\
        mspace_usable_size buf s' = Returned bytes s' /\
        (forall i, 0 <= i < Z.min old_size bytes ->
                   memory s' (buf + i) = memory s (old + i)) /\
        (forall i, old_size <= i < bytes -> memory s' (buf + i) = 0) /\
        (forall i, 0 <= i < Z.min old_size bytes ->
                   old + i < ptr \/ ptr + total_size (2 ^ 3) bytes <= old + i) /\
        mspace_usable_size old s' = Returned old_size s' /\
        accessible PROT_READ old (Z.min old_size bytes) s' = true /\
        (forall a, 0 <= a -> a < ptr \/ ptr + total_size (2 ^ 3) bytes <= a ->
                   protection a s' = protection a s /\ memory s' a = memory s a)
  end.
Proof.
  intros Hb Hold Hsize Hheader Hread. split; [reflexivity|].
  assert (Hnull : (old =? NULL) = false) by (apply Z.eqb_neq; unfold NULL; lia).
  assert (Hmin : (if old_size <? bytes then old_size else bytes) = Z.min old_size bytes).
  { destruct (Z.ltb_spec old_size bytes); lia. }
  unfold mspace_realloc. rewrite Hnull, Hheader. cbn [andthen].
  unfold mspace_malloc.
  change (mspace_memalign kernel_places 1 8 bytes s)
    with (mspace_memalign kernel_places 1 (2 ^ 3) bytes s).
  destruct (kernel_places s (total_size (2 ^ 3) bytes)) as [ptr|] eqn:Hplace.
  2:{ unfold mspace_memalign, mmap. rewrite Hplace. reflexivity. }
  set (buf := block_address ptr (2 ^ 3) bytes).
  rewrite (guarded_memalign_returns 3 bytes ptr s ltac:(lia) Hb Hplace).
  cbn [andthen]. fold buf. rewrite Hmin.
  destruct (aligned_size_spec 3 bytes ltac:(lia) Hb) as (_ & HA & _).
  destruct (guarded_memalign_spec 3 bytes ptr s ltac:(lia) Hb Hplace)
    as (Hlow & Hend & Hnear & _).
  destruct (block_state_facts 3 bytes ptr s ltac:(lia) Hb Hplace)
    as (Hnew & Hrw & Hzero & _ & _ & Hframe & _).
  destruct (kernel _ _ _ Hplace) as (Hptr & Hpmod & Hhigh & _).
  cbv zeta in Hlow, Hend, Hnear, Hnew, Hrw, Hzero, Hframe.
  fold buf in Hlow, Hend, Hnear, Hnew, Hrw, Hzero.
  remember (aligned_size (2 ^ 3) bytes) as A.
  remember (total_size (2 ^ 3) bytes) as T.
  remember (block_state ptr (2 ^ 3) bytes s) as s1.
  remember (Z.min old_size bytes) as n.
  unfold PAGE_SIZE in *.
  assert (Hbuf0 : (buf =? NULL) = false) by (apply Z.eqb_neq; unfold NULL; lia).
  rewrite Hbuf0.
  destruct (accessible_kept PROT_READ old n T ptr s s1 Hplace Hframe ltac:(lia) Hread)
    as [Hread1 Hsame1].
  assert (Hwrite1 : accessible PROT_WRITE buf n s1 = true).
  { apply accessible_true; [lia|]. intros a Ha.
    exists (Z.lor PROT_READ PROT_WRITE). split; [apply Hrw; lia|discriminate]. }
  unfold memcpy. rewrite Hread1, Hwrite1. cbn [andb andthen].
  set (s' := mkState
               (fun a => if (buf <=? a) && (a <? buf + n)
                         then memory s1 (old + (a - buf)) else memory s1 a)
               (pages s1)).
  assert (Hframe' : forall a, 0 <= a -> a < ptr \/ ptr + T <= a ->
                              protection a s' = protection a s /\ memory s' a = memory s a).
  { intros a Ha Hout. destruct (Hframe a Ha Hout) as [Hp Hm]. split; [exact Hp|].
    unfold s'. cbn [memory].
    destruct (Z.leb_spec buf a); destruct (Z.ltb_spec a (buf + n)); cbn [andb];
      try lia; exact Hm. }
  exists s'. split; [reflexivity|]. split; [unfold NULL; lia|].
  split; [|split; [|split; [|split; [|split; [|split]]]]].
  - apply (usable_size_ext buf bytes s1 s'); [lia|reflexivity| |exact Hnew].
    intros a Ha. unfold s'. cbn [memory].
    destruct (Z.leb_spec buf a); [lia|]. reflexivity.
  - intros i Hi. unfold s'. cbn [memory].
    destruct (Z.leb_spec buf (buf + i)); destruct (Z.ltb_spec (buf + i) (buf + n));
      cbn [andb]; try lia.
    replace (old + (buf + i - buf)) with (old + i) by lia.
    apply Hsame1. lia.
  - intros i Hi. unfold s'. cbn [memory].
    destruct (Z.leb_spec buf (buf + i)); destruct (Z.ltb_spec (buf + i) (buf + n));
      cbn [andb]; try lia.
    apply Hzero. lia.
  - intros i Hi. apply Hsame1. lia.
  - apply (usable_size_kept old old_size T ptr s s' Hplace Hframe');
      [unfold NULL; lia|exact Hheader].
  - apply (accessible_kept PROT_READ old n T ptr s s' Hplace Hframe' ltac:(lia) Hread).
  - exact Hframe'.
Qed.

(** X27.  [mspace_calloc] of the guard-page allocator is [mspace_malloc]
    of the product of its two arguments modulo 2^64: it returns the same
    block, and its own [memset] changes no byte, the block being zero
    already.  The product is not checked for overflow, so that a product
    of 2^64 or more gives a block smaller than the elements asked for. *)
Theorem calloc_is_malloc (n_elements elem_size : Z) (s : State) :
  wrap_uint64 (n_elements * elem_size) < 2 ^ 62 ->
  let total := wrap_uint64 (n_elements * elem_size) in
  match kernel_places s (total_size (2 ^ 3) total) with
  | None =>
      mspace_malloc kernel_places 1 total s = Returned NULL s /\
      mspace_calloc kernel_places 1 n_elements elem_size s = Returned NULL s
  | Some ptr =>
      let buf := block_address ptr (2 ^ 3) total in
      let s' := block_state ptr (2 ^ 3) total s in
      mspace_malloc kernel_places 1 total s = Returned buf s' /\
      exists s'',
        mspace_calloc kernel_places 1 n_elements elem_size s = Returned buf s'' /\
        pages s'' = pages s' /\
        (forall a, memory s'' a = memory s' a) /\
        mspace_usable_size buf s'' = Returned total s''
  end.
Proof.
  intros Hsmall total.
  pose proof (wrap_uint64_range (n_elements * elem_size)) as [Hlow _].
  fold total in Hsmall, Hlow.
  unfold mspace_calloc. fold total. clearbody total.
  assert (Hb : 0 <= total < 2 ^ 62) by lia.
  unfold mspace_malloc.
  change (mspace_memalign kernel_places 1 8 total s)
    with (mspace_memalign kernel_places 1 (2 ^ 3) total s).
  destruct (kernel_places s (total_size (2 ^ 3) total)) as [ptr|] eqn:Hplace.
  2:{ unfold mspace_memalign, mmap. rewrite Hplace. split; reflexivity. }
  cbv zeta.
  rewrite (guarded_memalign_returns 3 total ptr s ltac:(lia) Hb Hplace).
  split; [reflexivity|]. cbn [andthen].
  destruct (aligned_size_spec 3 total ltac:(lia) Hb) as (_ & HA & _).
  destruct (guarded_memalign_spec 3 total ptr s ltac:(lia) Hb Hplace)
    as (Hbuf & Hend & _ & _).
  destruct (block_state_facts 3 total ptr s ltac:(lia) Hb Hplace)
    as (Hnew & Hrw & Hzero & _).
  destruct (kernel _ _ _ Hplace) as (Hptr & _ & Hhigh & _).
  cbv zeta in Hbuf, Hend, Hnew, Hrw, Hzero.
  remember (block_address ptr (2 ^ 3) total) as buf.
  remember (block_state ptr (2 ^ 3) total s) as s'.
  remember (aligned_size (2 ^ 3) total) as A.
  remember (total_size (2 ^ 3) total) as T.
  unfold PAGE_SIZE in *.
  assert (Hbuf0 : (buf =? NULL) = false) by (apply Z.eqb_neq; unfold NULL; lia).
  rewrite Hbuf0.
  assert (Hwrite : accessible PROT_WRITE buf total s' = true).
  { apply accessible_true; [lia|]. intros a Ha.
    exists (Z.lor PROT_READ PROT_WRITE). split; [apply Hrw; lia|discriminate]. }
  unfold memset. rewrite Hwrite. cbn [andthen].
  set (s'' := mkState
                (fun a => if (buf <=? a) && (a <? buf + total) then 0 else memory s' a)
                (pages s')).
  assert (Hmem : forall a, memory s'' a = memory s' a).
  { intros a. unfold s''. cbn [memory].
    destruct (Z.leb_spec buf a); destruct (Z.ltb_spec a (buf + total)); cbn [andb];
      try reflexivity.
    symmetry. apply Hzero. lia. }
  assert (Hpages : pages s'' = pages s') by reflexivity.
  clearbody s''.
  exists s''. split; [reflexivity|]. split; [exact Hpages|]. split; [exact Hmem|].
  apply (usable_size_ext buf total s' s''); [lia|exact Hpages| |exact Hnew].
  intros a Ha. apply Hmem.
Qed.

(** X28.  What [mspace_free] does with nothing to free.  Given NULL it
    returns and changes nothing.  A block of no byte made by
    [mspace_memalign] is the page above its mapping's header page, the one
    that cannot be accessed, so that no byte can be read at the address
    returned; [mspace_free] of it takes no access away and unmaps nothing:
    the mapping of three pages stays as it is, its header page still open
    to reads and writes. *)
Theorem free_of_nothing (k ptr : Z) (s : State) :
  0 <= k <= 12 ->
  kernel_places s (total_size (2 ^ k) 0) = Some ptr ->
  let buf := block_address ptr (2 ^ k) 0 in
  let s' := block_state ptr (2 ^ k) 0 s in
  mspace_free 1 NULL s = Returned tt s /\
  total_size (2 ^ k) 0 = 3 * PAGE_SIZE /\
  mspace_memalign kernel_places 1 (2 ^ k) 0 s = Returned buf s' /\
  buf = ptr + 2 * PAGE_SIZE /\
  protection buf s' = Some PROT_NONE /\
  accessible PROT_READ buf 1 s' = false /\
  mspace_free 1 buf s' = Returned tt s' /\
  (forall a, ptr + PAGE_SIZE <= a < ptr + 2 * PAGE_SIZE ->
             protection a s' = Some (Z.lor PROT_READ PROT_WRITE)).
Proof.
  intros Hk Hplace buf s'.
  assert (Hb : 0 <= 0 < 2 ^ 62) by lia.
  assert (Hpow : 0 < 2 ^ k) by (apply Z.pow_pos_nonneg; lia).
  destruct (aligned_size_spec k 0 ltac:(lia) Hb) as (_ & HA & HAmod).
  destruct (total_size_spec k 0 ltac:(lia) Hb) as (HTeq & _ & HTmod).
  destruct (kernel _ _ _ Hplace) as (Hptr & Hpmod & Hhigh & _).
  destruct (block_state_facts k 0 ptr s ltac:(lia) Hb Hplace)
    as (Hsize & Hrw & _ & Hguard & _).
  fold buf in Hsize, Hrw, Hguard. fold s' in Hsize, Hrw, Hguard.
  assert (HA0 : aligned_size (2 ^ k) 0 = 0).
  { rewrite Z.mod_small in HAmod by lia. exact HAmod. }
  cbv zeta in HTeq. rewrite HA0 in HTeq, Hrw, Hguard.
  change (0 + 8 + 4095 - (0 + 8 + 4095) mod 4096 + 8192) with 12288 in HTeq.
  assert (Hbuf : buf = ptr + 8192).
  { unfold buf, block_address, PAGE_SIZE. rewrite HTeq, HA0. lia. }
  unfold PAGE_SIZE in *.
  split; [destruct s; reflexivity|]. split; [exact HTeq|].
  split; [apply (guarded_memalign_returns k 0 ptr s Hk Hb Hplace)|].
  split; [exact Hbuf|]. split; [apply Hguard; lia|].
  split.
  { apply (accessible_false PROT_READ buf 1 buf); [lia|lia|].
    intros prot Hprot. rewrite Hguard in Hprot by lia. injection Hprot as <-. reflexivity. }
  split.
  - unfold mspace_free. rewrite Hsize. cbn [andthen]. unfold PAGE_SIZE.
    assert (Hbmod : buf mod 4096 = 0)
      by (rewrite Hbuf; Z.to_euclidean_division_equations; lia).
    rewrite (round_down_page buf) by lia.
    rewrite (wrap_uint64_small (buf + 0 + 4096 - 1)) by (unfold G_MAXUINT64; lia).
    rewrite (round_down_page (buf + 0 + 4096 - 1)) by lia.
    replace (buf + 0 + 4096 - 1 - (buf + 0 + 4096 - 1) mod 4096 - (buf - buf mod 4096))
      with 0 by (Z.to_euclidean_division_equations; lia).
    rewrite Hbmod, Z.sub_0_r.
    unfold mprotect, PAGE_SIZE. rewrite Hbmod. cbn [Z.eqb].
    reflexivity.
  - intros a Ha. unfold s'.
    rewrite (block_state_protection ptr (2 ^ k) 0 a s Hptr Hpmod ltac:(lia) HTmod ltac:(lia)).
    rewrite HTeq. unfold PAGE_SIZE.
    repeat match goal with
      | |- context [Z.leb ?x ?y] => destruct (Z.leb_spec x y); try lia
      | |- context [Z.ltb ?x ?y] => destruct (Z.ltb_spec x y); try lia
      end; cbn [andb]; reflexivity.
Qed.


End Kernel.

Ltac by_evaluation := vm_compute; repeat split; try discriminate.

Lemma pages_unmapped_true (first : Z) (count : nat) (m : gmap Z Z) (i : Z) :
  pages_unmapped first count m = true ->
  first <= i < first + Z.of_nat count -> m !! i = None.
Proof.
  revert first. induction count as [|count IH]; intros first H Hi; [lia|].
  cbn [pages_unmapped] in H.
  destruct (m !! first) eqn:Hfirst; [discriminate|].
  destruct (Z.eq_dec i first) as [->|Hne]; [exact Hfirst|].
  apply (IH (first + 1)); [exact H|lia].
Qed.

Lemma first_fit_behaves : kernel_behaves first_fit.
Proof.
  intros s length ptr H. unfold first_fit, PAGE_SIZE in H.
  destruct ((0 <? length) && (length <=? 2 ^ 62)
            && pages_unmapped 1 (page_count 4096 length) (pages s)) eqn:E; [|discriminate].
  injection H as <-.
  apply andb_prop in E as [E Hfree]. apply andb_prop in E as [Hpos Hmax].
  apply Z.ltb_lt in Hpos. apply Z.leb_le in Hmax. unfold PAGE_SIZE.
  split; [lia|]. split; [reflexivity|]. split; [lia|].
  intros page Hpage. apply (pages_unmapped_true _ _ _ _ Hfree).
  pose proof (proj2 (page_count_covers 4096 length page ltac:(lia) Hpos)) as Hcover.
  change (first_page 4096) with 1 in Hcover. apply Hcover.
  exists (page * 4096). split; [lia|]. unfold first_page, PAGE_SIZE.
  apply Z.div_mul. lia.
Qed.

(** X23 at a request of 100 bytes when nothing is mapped: the mapping is
    of three pages, at the second page. *)
Lemma memalign_guarded_witness :
  mspace_memalign first_fit 1 (2 ^ 3) 100 (mkState (fun _ => 0) ∅)
  = Returned (block_address 4096 (2 ^ 3) 100)
      (block_state 4096 (2 ^ 3) 100 (mkState (fun _ => 0) ∅)) /\
  block_address 4096 (2 ^ 3) 100 = 12184 /\
  accessible PROT_WRITE (block_address 4096 (2 ^ 3) 100)
    (aligned_size (2 ^ 3) 100 + 1) (block_state 4096 (2 ^ 3) 100 (mkState (fun _ => 0) ∅))
  = false.
Proof.
  pose proof (memalign_guarded first_fit first_fit_behaves 3 100 (mkState (fun _ => 0) ∅)
                ltac:(by_evaluation) ltac:(by_evaluation)) as [_ H].
  assert (E : first_fit (mkState (fun _ => 0) ∅) (total_size (2 ^ 3) 100) = Some 4096)
    by reflexivity.
  rewrite E in H.
  destruct H as (Hrun & _ & _ & _ & _ & _ & _ & _ & _ & _ & _ & Hover & _).
  split; [exact Hrun|]. split; [reflexivity|exact Hover].
Defined.

(** X24 at an alignment of 8192 when nothing is mapped: the mapping is at
    the second page, and the call aborts. *)
Lemma memalign_beyond_page_witness :
  mspace_memalign first_fit 1 (2 ^ 13) 100 (mkState (fun _ => 0) ∅) = Aborted.
Proof.
  destruct (memalign_beyond_page first_fit first_fit_behaves 13 100 4096
              (mkState (fun _ => 0) ∅) ltac:(by_evaluation) ltac:(by_evaluation) eq_refl)
    as (_ & _ & Habort).
  apply Habort. by_evaluation.
Defined.

(** X25 at a block of 100 bytes when nothing else is mapped. *)
Lemma free_revokes_witness :
  exists s'',
    mspace_free 1 (block_address 4096 (2 ^ 3) 100)
      (block_state 4096 (2 ^ 3) 100 (mkState (fun _ => 0) ∅)) = Returned tt s'' /\
    accessible PROT_READ (block_address 4096 (2 ^ 3) 100) 1 s'' = false /\
    mspace_free 1 (block_address 4096 (2 ^ 3) 100) s'' = Segfault.
Proof.
  destruct (free_revokes first_fit first_fit_behaves 3 100 4096 (mkState (fun _ => 0) ∅)
              ltac:(by_evaluation) ltac:(by_evaluation) eq_refl)
    as (s'' & Hfree & _ & _ & _ & _ & Hread & _ & Hagain & _).
  exists s''. split; [exact Hfree|]. split; [exact Hread|].
  apply Hagain. by_evaluation.
Defined.

(** The state of the examples below: a block of 100 bytes by a kernel that
    put its mapping at the seventeenth page, with a 7 written to its first
    byte. *)
Local Abbreviation a_block := (block_state 65536 (2 ^ 3) 100 (mkState (fun _ => 0) ∅)).
Local Abbreviation a_block_written :=
  (mkState (fun a => if a =? 73624 then 7 else memory a_block a) (pages a_block)).

(** X26 at that block, grown to 200 bytes: the new block is in a mapping
    at the second page and begins with the 7; the old block still has its
    size and can still be read. *)
Lemma realloc_keeps_old_witness :
  exists s',
    mspace_realloc first_fit 1 73624 200 a_block_written = Returned 12088 s' /\
    memory s' 12088 = 7 /\
    mspace_usable_size 73624 s' = Returned 100 s' /\
    accessible PROT_READ 73624 100 s' = true.
Proof.
  pose proof (realloc_keeps_old first_fit first_fit_behaves 200 73624 100 a_block_written
                ltac:(by_evaluation) ltac:(reflexivity) ltac:(by_evaluation)
                ltac:(reflexivity) ltac:(reflexivity)) as [_ H].
  assert (E : first_fit a_block_written (total_size (2 ^ 3) 200) = Some 4096)
    by reflexivity.
  rewrite E in H.
  destruct H as (s' & Hrun & _ & _ & Hcopy & _ & _ & Hold & Hread & _).
  exists s'. split; [exact Hrun|]. split; [|split; [exact Hold|exact Hread]].
  exact (Hcopy 0 ltac:(by_evaluation)).
Defined.

(** X27 at 2^32 elements of 2^32 bytes when nothing is mapped: the block
    returned has no byte. *)
Lemma calloc_is_malloc_witness :
  exists s'',
    mspace_calloc first_fit 1 (2 ^ 32) (2 ^ 32) (mkState (fun _ => 0) ∅)
    = Returned 12288 s'' /\
    mspace_usable_size 12288 s'' = Returned 0 s''.
Proof.
  pose proof (calloc_is_malloc first_fit first_fit_behaves (2 ^ 32) (2 ^ 32)
                (mkState (fun _ => 0) ∅) ltac:(by_evaluation)) as H.
  cbv zeta in H.
  assert (E : first_fit (mkState (fun _ => 0) ∅)
                (total_size (2 ^ 3) (wrap_uint64 (2 ^ 32 * 2 ^ 32))) = Some 4096)
    by reflexivity.
  rewrite E in H.
  destruct H as (_ & s'' & Hrun & _ & _ & Hsize).
  exists s''. split; [exact Hrun|exact Hsize].
Defined.

(** X28 when nothing is mapped: the block of no byte is at the fourth
    page, the last of its mapping. *)
Lemma free_of_nothing_witness :
  mspace_memalign first_fit 1 (2 ^ 3) 0 (mkState (fun _ => 0) ∅)
  = Returned (block_address 4096 (2 ^ 3) 0)
      (block_state 4096 (2 ^ 3) 0 (mkState (fun _ => 0) ∅)) /\
  block_address 4096 (2 ^ 3) 0 = 12288 /\
  accessible PROT_READ (block_address 4096 (2 ^ 3) 0) 1
    (block_state 4096 (2 ^ 3) 0 (mkState (fun _ => 0) ∅)) = false /\
  mspace_free 1 (block_address 4096 (2 ^ 3) 0)
    (block_state 4096 (2 ^ 3) 0 (mkState (fun _ => 0) ∅))
  = Returned tt (block_state 4096 (2 ^ 3) 0 (mkState (fun _ => 0) ∅)).
Proof.
  destruct (free_of_nothing first_fit first_fit_behaves 3 4096 (mkState (fun _ => 0) ∅)
              ltac:(by_evaluation) eq_refl)
    as (_ & _ & Hrun & _ & _ & Hread & Hfree & _).
  split; [exact Hrun|]. split; [reflexivity|]. split; [exact Hread|exact Hfree].
Defined.

End part_002_facts.

